(** * F3 hints and linear normaliser: a shallow embedding

    This development embeds the hint engine of [src/hint.py] (classes
    [Location] and [Hint]) and the linear-expression normaliser of
    [src/ineq.py] (classes [Expr], [Ineq] and the function [eq2assign]),
    and states the properties of the specification over the embedding.

    Python objects are records, mutation is explicit state passing,
    assertions and exceptions are an error result, generators are a
    writer of the clauses emitted so far, and a [dict] is an
    insertion-ordered association list. *)

From Stdlib Require Import List String ZArith QArith Qcanon Bool Lia.
From Stdlib Require Import Permutation DecimalString Qround Lqa.
Import ListNotations.

Local Open Scope Z_scope.

(** ** Exceptions and results

    [OutOfFuel] is not a Python exception: it is what a loop of the
    model returns when its fuel is spent before the loop ends. *)

Inductive exn : Type :=
| AssertionError
| IndexError
| KeyError
| TypeError
| AttributeError
| OutOfFuel.

Inductive result (A : Type) : Type :=
| Ok (a : A)
| Raise (e : exn).

Arguments Ok {A} a.
Arguments Raise {A} e.

Definition rbind {A B : Type} (m : result A) (f : A -> result B) : result B :=
  match m with
  | Ok a => f a
  | Raise e => Raise e
  end.

Definition rassert (b : bool) : result unit :=
  if b then Ok tt else Raise AssertionError.

(** ** Terms of the term algebra (pysmt [FNode])

    The formula manager hash-conses its nodes, so two nodes are the same
    object exactly when they are structurally equal. A symbol is a name
    with a type, tagged current or next state. *)

Inductive PySMTType : Type := BOOL | INT | REAL.

Unset Elimination Schemes.
Inductive FNode : Type :=
| Symbol (name : string) (ty : PySMTType) (nxt : bool)
| BoolC (b : bool)
| IntC (z : Z)
| RealC (q : Qc)
| And (args : list FNode)
| Or (args : list FNode)
| Not (a : FNode)
| Implies (a b : FNode)
| Iff (a b : FNode)
| Equals (a b : FNode)
| LE (a b : FNode)
| LT (a b : FNode)
| Plus (args : list FNode)
| Minus (a b : FNode)
| Times (args : list FNode)
| Div (a b : FNode)
| ToReal (a : FNode).
Set Elimination Schemes.

(** Induction principle that reaches the arguments of the n-ary nodes. *)
Section FNodeInd.
Variable P : FNode -> Prop.
Hypothesis HSymbol : forall n ty x, P (Symbol n ty x).
Hypothesis HBoolC : forall b, P (BoolC b).
Hypothesis HIntC : forall z, P (IntC z).
Hypothesis HRealC : forall q, P (RealC q).
Hypothesis HAnd : forall args, Forall P args -> P (And args).
Hypothesis HOr : forall args, Forall P args -> P (Or args).
Hypothesis HNot : forall a, P a -> P (Not a).
Hypothesis HImplies : forall a b, P a -> P b -> P (Implies a b).
Hypothesis HIff : forall a b, P a -> P b -> P (Iff a b).
Hypothesis HEquals : forall a b, P a -> P b -> P (Equals a b).
Hypothesis HLE : forall a b, P a -> P b -> P (LE a b).
Hypothesis HLT : forall a b, P a -> P b -> P (LT a b).
Hypothesis HPlus : forall args, Forall P args -> P (Plus args).
Hypothesis HMinus : forall a b, P a -> P b -> P (Minus a b).
Hypothesis HTimes : forall args, Forall P args -> P (Times args).
Hypothesis HDiv : forall a b, P a -> P b -> P (Div a b).
Hypothesis HToReal : forall a, P a -> P (ToReal a).

Fixpoint FNode_ind' (t : FNode) : P t :=
  let fix go (l : list FNode) : Forall P l :=
    match l with
    | [] => Forall_nil P
    | x :: xs => Forall_cons x (FNode_ind' x) (go xs)
    end in
  match t with
  | Symbol n ty x => HSymbol n ty x
  | BoolC b => HBoolC b
  | IntC z => HIntC z
  | RealC q => HRealC q
  | And args => HAnd args (go args)
  | Or args => HOr args (go args)
  | Not a => HNot a (FNode_ind' a)
  | Implies a b => HImplies a b (FNode_ind' a) (FNode_ind' b)
  | Iff a b => HIff a b (FNode_ind' a) (FNode_ind' b)
  | Equals a b => HEquals a b (FNode_ind' a) (FNode_ind' b)
  | LE a b => HLE a b (FNode_ind' a) (FNode_ind' b)
  | LT a b => HLT a b (FNode_ind' a) (FNode_ind' b)
  | Plus args => HPlus args (go args)
  | Minus a b => HMinus a b (FNode_ind' a) (FNode_ind' b)
  | Times args => HTimes args (go args)
  | Div a b => HDiv a b (FNode_ind' a) (FNode_ind' b)
  | ToReal a => HToReal a (FNode_ind' a)
  end.
End FNodeInd.

Definition PySMTType_eqb (a b : PySMTType) : bool :=
  match a, b with
  | BOOL, BOOL | INT, INT | REAL, REAL => true
  | _, _ => false
  end.

Definition Qc_eqb (a b : Qc) : bool := Qeq_bool (this a) (this b).

(** Node identity: structural equality of hash-consed nodes. *)
Fixpoint FNode_eqb (s t : FNode) {struct s} : bool :=
  let fix all2 (l1 l2 : list FNode) {struct l1} : bool :=
    match l1, l2 with
    | [], [] => true
    | x :: xs, y :: ys => FNode_eqb x y && all2 xs ys
    | _, _ => false
    end in
  match s with
  | Symbol n ty x =>
      match t with
      | Symbol n' ty' x' =>
          String.eqb n n' && PySMTType_eqb ty ty' && Bool.eqb x x'
      | _ => false
      end
  | BoolC b => match t with BoolC b' => Bool.eqb b b' | _ => false end
  | IntC z => match t with IntC z' => Z.eqb z z' | _ => false end
  | RealC q => match t with RealC q' => Qc_eqb q q' | _ => false end
  | And l => match t with And l' => all2 l l' | _ => false end
  | Or l => match t with Or l' => all2 l l' | _ => false end
  | Not a => match t with Not a' => FNode_eqb a a' | _ => false end
  | Implies a b =>
      match t with
      | Implies a' b' => FNode_eqb a a' && FNode_eqb b b'
      | _ => false
      end
  | Iff a b =>
      match t with
      | Iff a' b' => FNode_eqb a a' && FNode_eqb b b'
      | _ => false
      end
  | Equals a b =>
      match t with
      | Equals a' b' => FNode_eqb a a' && FNode_eqb b b'
      | _ => false
      end
  | LE a b =>
      match t with
      | LE a' b' => FNode_eqb a a' && FNode_eqb b b'
      | _ => false
      end
  | LT a b =>
      match t with
      | LT a' b' => FNode_eqb a a' && FNode_eqb b b'
      | _ => false
      end
  | Plus l => match t with Plus l' => all2 l l' | _ => false end
  | Minus a b =>
      match t with
      | Minus a' b' => FNode_eqb a a' && FNode_eqb b b'
      | _ => false
      end
  | Times l => match t with Times l' => all2 l l' | _ => false end
  | Div a b =>
      match t with
      | Div a' b' => FNode_eqb a a' && FNode_eqb b b'
      | _ => false
      end
  | ToReal a => match t with ToReal a' => FNode_eqb a a' | _ => false end
  end.

Fixpoint FNode_list_eqb (l1 l2 : list FNode) : bool :=
  match l1, l2 with
  | [], [] => true
  | x :: xs, y :: ys => FNode_eqb x y && FNode_list_eqb xs ys
  | _, _ => false
  end.

(** ** Node queries ([FNode.is_*]) *)

Definition is_false (t : FNode) : bool :=
  match t with BoolC false => true | _ => false end.
Definition is_true (t : FNode) : bool :=
  match t with BoolC true => true | _ => false end.
Definition is_symbol (t : FNode) : bool :=
  match t with Symbol _ _ _ => true | _ => false end.
Definition is_plus (t : FNode) : bool :=
  match t with Plus _ => true | _ => false end.
Definition is_minus (t : FNode) : bool :=
  match t with Minus _ _ => true | _ => false end.
Definition is_times (t : FNode) : bool :=
  match t with Times _ => true | _ => false end.
Definition is_div (t : FNode) : bool :=
  match t with Div _ _ => true | _ => false end.
Definition is_toreal (t : FNode) : bool :=
  match t with ToReal _ => true | _ => false end.
Definition is_constant (t : FNode) : bool :=
  match t with BoolC _ | IntC _ | RealC _ => true | _ => false end.
Definition is_equals (t : FNode) : bool :=
  match t with Equals _ _ => true | _ => false end.
Definition is_le (t : FNode) : bool :=
  match t with LE _ _ => true | _ => false end.
Definition is_lt (t : FNode) : bool :=
  match t with LT _ _ => true | _ => false end.

(** ** Formula manager constructors

    [mgr.And], [mgr.Or], [mgr.Plus] and [mgr.Times] take any number of
    arguments: no argument gives the neutral constant for [And] and [Or]
    and is an error for [Plus] and [Times]; one argument is returned as
    it is; otherwise a node is built. Nothing is simplified. *)

Definition TRUE : FNode := BoolC true.
Definition FALSE : FNode := BoolC false.

Definition mgr_And (args : list FNode) : FNode :=
  match args with
  | [] => TRUE
  | [a] => a
  | _ => And args
  end.

Definition mgr_Or (args : list FNode) : FNode :=
  match args with
  | [] => FALSE
  | [a] => a
  | _ => Or args
  end.

Definition mgr_Plus (args : list FNode) : result FNode :=
  match args with
  | [] => Raise TypeError
  | [a] => Ok a
  | _ => Ok (Plus args)
  end.

Definition mgr_Times (args : list FNode) : result FNode :=
  match args with
  | [] => Raise TypeError
  | [a] => Ok a
  | _ => Ok (Times args)
  end.

(** ** Python containers *)

(** [l[i]] on a Python list: a negative index counts from the end. *)
Definition py_index {A : Type} (l : list A) (i : Z) : result A :=
  let n := Z.of_nat (List.length l) in
  let j := if i <? 0 then i + n else i in
  if (j <? 0) || (n <=? j) then Raise IndexError
  else match nth_error l (Z.to_nat j) with
       | Some a => Ok a
       | None => Raise IndexError
       end.

(** An insertion-ordered [dict]: keys are unique, a stored key keeps
    its place when its value is replaced, a new key goes last. *)
Section Dict.
Context {K V : Type}.
Variable keqb : K -> K -> bool.

Fixpoint dict_get (d : list (K * V)) (k : K) : option V :=
  match d with
  | [] => None
  | (k', v) :: d' => if keqb k k' then Some v else dict_get d' k
  end.

Fixpoint dict_set (d : list (K * V)) (k : K) (v : V) : list (K * V) :=
  match d with
  | [] => [(k, v)]
  | (k', v') :: d' =>
      if keqb k k' then (k', v) :: d' else (k', v') :: dict_set d' k v
  end.

(** [d.pop(k, None)], the dictionary that is left. *)
Fixpoint dict_pop (d : list (K * V)) (k : K) : list (K * V) :=
  match d with
  | [] => []
  | (k', v') :: d' =>
      if keqb k k' then d' else (k', v') :: dict_pop d' k
  end.

Definition dict_mem (d : list (K * V)) (k : K) : bool :=
  match dict_get d k with Some _ => true | None => false end.

Definition dict_keys (d : list (K * V)) : list K := map fst d.
Definition dict_values (d : list (K * V)) : list V := map snd d.
End Dict.

(** A key of [progressT]: the API stores integers, but a [dict] takes
    any hashable object, and a node is never equal to an integer. *)
Inductive pykey : Type :=
| KInt (z : Z)
| KNode (t : FNode).

Definition pykey_eqb (a b : pykey) : bool :=
  match a, b with
  | KInt x, KInt y => Z.eqb x y
  | KNode s, KNode t => FNode_eqb s t
  | _, _ => false
  end.

(** ** Ranking functions (opaque collaborator)

    A [RankFun] is consumed through four predicates, each a term. *)
Record RankFun : Type := mkRankFun {
  rf_is_ranked : FNode;
  rf_is_min : FNode;
  rf_is_const : FNode;
  rf_is_decr : FNode
}.

(** ** Location *)

Record Location : Type := mkLocation {
  region : FNode;
  assume : FNode;
  stutterT : FNode;
  rankT : FNode;
  rf : option RankFun;
  progressT : list (pykey * FNode);
  (* attributes that only [set_rank] creates *)
  _rankT : option FNode;
  _rf : option RankFun
}.

Definition or_default (o : option FNode) (d : FNode) : FNode :=
  match o with Some t => t | None => d end.

(** [Location.__init__]. *)
Definition Location_init (region : FNode) (assume stutterT rankT : option FNode)
    (rf : option RankFun) (progressT : option (list (pykey * FNode)))
  : Location :=
  {| region := region;
     assume := or_default assume TRUE;
     stutterT := or_default stutterT FALSE;
     rankT := or_default rankT FALSE;
     rf := rf;
     progressT := match progressT with Some d => d | None => [] end;
     _rankT := None;
     _rf := None |}.

Definition ranked_region (l : Location) : FNode :=
  match rf l with
  | None => FALSE
  | Some r => mgr_And [region l; rf_is_ranked r]
  end.

Definition minrf_region (l : Location) : FNode :=
  match rf l with
  | None => region l
  | Some r => mgr_And [region l; rf_is_min r]
  end.

Definition set_rank (l : Location) (trans : FNode) (r : RankFun) : Location :=
  {| region := region l;
     assume := assume l;
     stutterT := stutterT l;
     rankT := rankT l;
     rf := rf l;
     progressT := progressT l;
     _rankT := Some trans;
     _rf := Some r |}.

Definition progress (l : Location) (dst : Z) : option FNode :=
  dict_get pykey_eqb (progressT l) (KInt dst).

Definition with_progressT (l : Location) (d : list (pykey * FNode)) : Location :=
  {| region := region l;
     assume := assume l;
     stutterT := stutterT l;
     rankT := rankT l;
     rf := rf l;
     progressT := d;
     _rankT := _rankT l;
     _rf := _rf l |}.

(** [Location.set_progress]: on a FALSE term the key that is popped is
    the term [t] itself. *)
Definition set_progress (l : Location) (dst : Z) (t : FNode) : result Location :=
  rbind (rassert (0 <=? dst)) (fun _ =>
  if is_false t
  then Ok (with_progressT l (dict_pop pykey_eqb (progressT l) (KNode t)))
  else Ok (with_progressT l (dict_set pykey_eqb (progressT l) (KInt dst) t))).

Definition mgr_Not (t : FNode) : FNode :=
  match t with
  | Not a => a
  | _ => Not t
  end.

(** ** Next-state symbols *)

(** Modelled from the spec: [symb2next], [symb_is_next] and
    [symb_is_curr] of the module [expr_utils], which is not part of the
    sources. The spec has every symbol tagged current or next and a
    bijection between a symbol and its next-state version. *)
Definition symb2next (s : FNode) : FNode :=
  match s with
  | Symbol n ty _ => Symbol n ty true
  | _ => s
  end.

Definition symb_is_next (s : FNode) : bool :=
  match s with Symbol _ _ x => x | _ => false end.

Definition symb_is_curr (s : FNode) : bool :=
  match s with Symbol _ _ x => negb x | _ => false end.

Definition mem_symb (s : FNode) (symbs : list FNode) : bool :=
  existsb (FNode_eqb s) symbs.

(** Modelled from the spec: [to_next] of [expr_utils], the next-state
    renaming: every occurrence in [t] of a symbol of [symbs] is replaced
    by its next-state version. *)
Fixpoint to_next (symbs : list FNode) (t : FNode) {struct t} : FNode :=
  match t with
  | Symbol _ _ _ => if mem_symb t symbs then symb2next t else t
  | BoolC _ | IntC _ | RealC _ => t
  | And l => And (map (to_next symbs) l)
  | Or l => Or (map (to_next symbs) l)
  | Not a => Not (to_next symbs a)
  | Implies a b => Implies (to_next symbs a) (to_next symbs b)
  | Iff a b => Iff (to_next symbs a) (to_next symbs b)
  | Equals a b => Equals (to_next symbs a) (to_next symbs b)
  | LE a b => LE (to_next symbs a) (to_next symbs b)
  | LT a b => LT (to_next symbs a) (to_next symbs b)
  | Plus l => Plus (map (to_next symbs) l)
  | Minus a b => Minus (to_next symbs a) (to_next symbs b)
  | Times l => Times (map (to_next symbs) l)
  | Div a b => Div (to_next symbs a) (to_next symbs b)
  | ToReal a => ToReal (to_next symbs a)
  end.

(** Every symbol that occurs in [t] satisfies [P]. *)
Fixpoint symbols_ok (P : FNode -> bool) (t : FNode) {struct t} : bool :=
  match t with
  | Symbol _ _ _ => P t
  | BoolC _ | IntC _ | RealC _ => true
  | And l | Or l | Plus l | Times l => forallb (symbols_ok P) l
  | Not a | ToReal a => symbols_ok P a
  | Implies a b | Iff a b | Equals a b | LE a b | LT a b
  | Minus a b | Div a b => symbols_ok P a && symbols_ok P b
  end.

(** ** Generators

    A generator is run to its end or to its first exception: the result
    is the list of the terms it has yielded until then, and how it
    stopped. *)
Definition Gen (A : Type) : Type := (list FNode * result A)%type.

Definition gret {A : Type} (a : A) : Gen A := ([], Ok a).

Definition gbind {A B : Type} (m : Gen A) (f : A -> Gen B) : Gen B :=
  match m with
  | (out, Ok a) => let (out', r) := f a in (out ++ out', r)
  | (out, Raise e) => (out, Raise e)
  end.

Definition yield (t : FNode) : Gen unit := ([t], Ok tt).
Definition glift {A : Type} (r : result A) : Gen A := ([], r).
Definition gassert (b : bool) : Gen unit := glift (rassert b).

Definition emitted {A : Type} (g : Gen A) : list FNode := fst g.
Definition outcome {A : Type} (g : Gen A) : result A := snd g.

Declare Scope gen_scope.
Delimit Scope gen_scope with gen.
Notation "x <- m ;; k" := (gbind m (fun x => k))
  (at level 61, m at next level, right associativity) : gen_scope.
Notation "m ;; k" := (gbind m (fun _ => k))
  (at level 61, right associativity) : gen_scope.

Definition is_some {A : Type} (o : option A) : bool :=
  match o with Some _ => true | None => false end.
Definition is_none {A : Type} (o : option A) : bool :=
  match o with Some _ => false | None => true end.

(** [self.rf.m()] where [self.rf] may be [None]. *)
Definition rf_get (o : option RankFun) : result RankFun :=
  match o with Some r => Ok r | None => Raise AttributeError end.

(** ** Location.get_trans *)

Section GetTrans.
Local Open Scope gen_scope.

Variable self : Location.
Variable idx : Z.
Variables lvals x_lvals symbs : list FNode.
Variables is_stutter is_ranked is_progress is_rank_decr : FNode.

(** The assertions on the arguments that are not type tests. *)
Definition get_trans_pre : Gen unit :=
  gassert (forallb is_symbol symbs) ;;
  gassert (negb (is_false is_stutter)) ;;
  gassert (is_none (rf self) || negb (is_false is_ranked)) ;;
  gassert (negb (is_false is_progress)) ;;
  gassert (is_false is_rank_decr || is_symbol is_rank_decr) ;;
  gassert (negb (is_false is_ranked) || is_false is_rank_decr) ;;
  gassert (is_false is_ranked || negb (is_false is_rank_decr)).

(** The list [t_type] of the self-transition disjunct, and [min_rf]. *)
Definition self_types : Gen (list FNode * option FNode) :=
  let t_type := if negb (is_false (stutterT self)) then [is_stutter] else [] in
  p <- (if negb (is_false (rankT self)) then
          gassert (negb (is_false is_ranked)) ;;
          gassert (is_some (rf self)) ;;
          r <- glift (rf_get (rf self)) ;;
          gret (t_type ++ [mgr_And [is_ranked; rf_is_ranked r]],
                Some (rf_is_min r))
        else gret (t_type, None)) ;;
  let '(t_type, min_rf) := p in
  gret (match progress self idx with
        | Some _ =>
            t_type ++ [match min_rf with
                       | Some m => mgr_And [is_progress; m]
                       | None => is_progress
                       end]
        | None => t_type
        end, min_rf).

(** [x_lvals[dst]] for a key of [progressT]. *)
Definition x_lval_of (dst : pykey) : result FNode :=
  match dst with
  | KInt z => py_index x_lvals z
  | KNode _ => Raise TypeError
  end.

Definition key_is (dst : pykey) (i : Z) : bool :=
  match dst with
  | KInt z => Z.eqb z i
  | KNode _ => false
  end.

(** The disjuncts for the progress edges that leave the location. *)
Fixpoint other_locs (min_rf : option FNode) (keys : list pykey)
  : Gen (list FNode) :=
  match keys with
  | [] => gret []
  | dst :: keys' =>
      if key_is dst idx then other_locs min_rf keys'
      else
        x <- glift (x_lval_of dst) ;;
        rest <- other_locs min_rf keys' ;;
        gret (match min_rf with
              | None => mgr_And [x; is_progress]
              | Some m => mgr_And [x; is_progress; m]
              end :: rest)
  end.

(** loc & loc' & is_progress -> progressT, for every edge. *)
Fixpoint progress_clauses (l : FNode) (items : list (pykey * FNode))
  : Gen unit :=
  match items with
  | [] => gret tt
  | (dst, progress_t) :: items' =>
      gassert (negb (is_false progress_t)) ;;
      x <- glift (x_lval_of dst) ;;
      yield (Implies (mgr_And [l; x; is_progress]) progress_t) ;;
      progress_clauses l items'
  end.

(** loc & loc' & is_stutter -> stutterT & rf' = rf *)
Definition stutter_clauses (l x_l : FNode) : Gen unit :=
  if negb (is_false (stutterT self)) then
    yield (Implies (mgr_And [l; x_l; is_stutter])
             (match rf self with
              | Some r => mgr_And [stutterT self; rf_is_const r]
              | None => stutterT self
              end))
  else gret tt.

(** loc & loc' & is_ranked -> rankT & rf' < rf *)
Definition ranked_clauses (l x_l : FNode) : Gen unit :=
  if negb (is_false (rankT self)) then
    gassert (negb (is_false is_ranked)) ;;
    gassert (is_some (rf self)) ;;
    r <- glift (rf_get (rf self)) ;;
    yield (Implies (mgr_And [l; x_l; is_ranked])
             (mgr_And [rankT self; rf_is_ranked r; rf_is_decr r]))
  else gret tt.

Definition rank_decr_clauses (l : FNode) : Gen unit :=
  if negb (is_false is_rank_decr) && negb (is_false is_ranked) then
    gassert (is_some (rf self)) ;;
    r <- glift (rf_get (rf self)) ;;
    let x_is_rank_decr := symb2next is_rank_decr in
    yield (Implies (mgr_And [l; is_rank_decr; rf_is_ranked r])
             x_is_rank_decr) ;;
    yield (Implies (mgr_And [l; is_rank_decr; rf_is_min r])
             (mgr_Not x_is_rank_decr))
  else gret tt.

(** The generator [Location.get_trans]. The reads [lvals[idx]] and
    [x_lvals[idx]] of the later clauses repeat the first ones on
    lists that nothing modifies, so their value is shared. *)
Definition get_trans : Gen unit :=
  get_trans_pre ;;
  p <- self_types ;;
  let '(t_type, min_rf) := p in
  x_l <- glift (py_index x_lvals idx) ;;
  others <- other_locs min_rf (dict_keys (progressT self)) ;;
  let x_locs := mgr_And [x_l; mgr_Or t_type] :: others in
  l <- glift (py_index lvals idx) ;;
  yield (Implies l (mgr_Or x_locs)) ;;
  stutter_clauses l x_l ;;
  ranked_clauses l x_l ;;
  progress_clauses l (progressT self) ;;
  rank_decr_clauses l.
End GetTrans.

(** ** Transition systems

    [TransSystem] of the module [trans_system]: the symbols and the two
    lists of predicates that [add_init], [ext_init], [add_trans] and
    [ext_trans] extend at their end. *)
Record TransSystem : Type := mkTransSystem {
  ts_symbs : list FNode;
  init : list FNode;
  trans : list FNode
}.

Definition add_init (ts : TransSystem) (p : FNode) : TransSystem :=
  {| ts_symbs := ts_symbs ts; init := init ts ++ [p]; trans := trans ts |}.
Definition ext_init (ts : TransSystem) (ps : list FNode) : TransSystem :=
  {| ts_symbs := ts_symbs ts; init := init ts ++ ps; trans := trans ts |}.
Definition add_trans (ts : TransSystem) (p : FNode) : TransSystem :=
  {| ts_symbs := ts_symbs ts; init := init ts; trans := trans ts ++ [p] |}.
Definition ext_trans (ts : TransSystem) (ps : list FNode) : TransSystem :=
  {| ts_symbs := ts_symbs ts; init := init ts; trans := trans ts ++ ps |}.

(** ** Hint *)

Record Hint : Type := mkHint {
  name : string;
  owned_symbs : list FNode;
  all_symbs : list FNode;
  locs : list Location;
  ts_loc_symbs : option (list FNode);
  ts_lvals : option (list FNode);
  trans_type_symbs : option (list FNode);
  t_is_stutter : option FNode;
  t_is_ranked : option FNode;
  t_progress : option FNode;
  t_is_progress : option FNode;
  is_rank_decr : option FNode
}.

(** [Hint.__init__]: no location, nothing compiled. *)
Definition Hint_init (name : string) (owned_symbs all_symbs : list FNode)
  : result Hint :=
  rbind (rassert (negb (String.eqb name EmptyString))) (fun _ =>
  rbind (rassert (forallb symb_is_curr owned_symbs)) (fun _ =>
  rbind (rassert (forallb symb_is_curr all_symbs)) (fun _ =>
  rbind (rassert (forallb (fun s => mem_symb s all_symbs) owned_symbs))
    (fun _ =>
  Ok {| name := name; owned_symbs := owned_symbs; all_symbs := all_symbs;
        locs := []; ts_loc_symbs := None; ts_lvals := None;
        trans_type_symbs := None; t_is_stutter := None;
        t_is_ranked := None; t_progress := None; t_is_progress := None;
        is_rank_decr := None |})))).

Definition with_locs (h : Hint) (ls : list Location) : Hint :=
  {| name := name h; owned_symbs := owned_symbs h; all_symbs := all_symbs h;
     locs := ls; ts_loc_symbs := ts_loc_symbs h; ts_lvals := ts_lvals h;
     trans_type_symbs := trans_type_symbs h; t_is_stutter := t_is_stutter h;
     t_is_ranked := t_is_ranked h; t_progress := t_progress h;
     t_is_progress := t_is_progress h; is_rank_decr := is_rank_decr h |}.

(** A method of a mutable object: the object after the call, also when
    the call raises, and the result. *)
Definition Meth (A : Type) : Type := Hint -> Hint * result A.

Definition mret {A : Type} (a : A) : Meth A := fun h => (h, Ok a).
Definition mbind {A B : Type} (m : Meth A) (f : A -> Meth B) : Meth B :=
  fun h => match m h with
           | (h', Ok a) => f a h'
           | (h', Raise e) => (h', Raise e)
           end.
Definition mlift {A : Type} (r : result A) : Meth A := fun h => (h, r).
Definition massert (b : bool) : Meth unit := mlift (rassert b).
Definition mget {A : Type} (f : Hint -> A) : Meth A := fun h => (h, Ok (f h)).
Definition mset (f : Hint -> Hint) : Meth unit := fun h => (f h, Ok tt).
(** Reading an attribute that must hold a value. *)
Definition mattr {A : Type} (f : Hint -> option A) : Meth A :=
  fun h => (h, match f h with Some a => Ok a | None => Raise AssertionError end).

Declare Scope meth_scope.
Delimit Scope meth_scope with meth.
Notation "x <- m ;; k" := (mbind m (fun x => k))
  (at level 61, m at next level, right associativity) : meth_scope.
Notation "m ;; k" := (mbind m (fun _ => k))
  (at level 61, right associativity) : meth_scope.

Definition add (loc : Location) : Meth unit :=
  (h <- mget (fun h => h) ;;
   massert (is_none (ts_loc_symbs h)) ;;
   massert (is_none (ts_lvals h)) ;;
   mset (fun h => with_locs h (locs h ++ [loc])))%meth.

Definition set_locs (ls : list Location) : Meth unit :=
  (h <- mget (fun h => h) ;;
   massert (is_none (ts_loc_symbs h)) ;;
   massert (is_none (ts_lvals h)) ;;
   mset (fun h => with_locs h ls))%meth.

Definition set_enum (h : Hint) (symbs vals : list FNode) : Hint :=
  {| name := name h; owned_symbs := owned_symbs h; all_symbs := all_symbs h;
     locs := locs h; ts_loc_symbs := Some symbs; ts_lvals := Some vals;
     trans_type_symbs := trans_type_symbs h; t_is_stutter := t_is_stutter h;
     t_is_ranked := t_is_ranked h; t_progress := t_progress h;
     t_is_progress := t_is_progress h; is_rank_decr := is_rank_decr h |}.

Definition set_trans_type_symbs (h : Hint) (symbs : list FNode) : Hint :=
  {| name := name h; owned_symbs := owned_symbs h; all_symbs := all_symbs h;
     locs := locs h; ts_loc_symbs := ts_loc_symbs h; ts_lvals := ts_lvals h;
     trans_type_symbs := Some symbs; t_is_stutter := t_is_stutter h;
     t_is_ranked := t_is_ranked h; t_progress := t_progress h;
     t_is_progress := t_is_progress h; is_rank_decr := is_rank_decr h |}.

Definition set_trans_types (h : Hint) (s r p : FNode) : Hint :=
  {| name := name h; owned_symbs := owned_symbs h; all_symbs := all_symbs h;
     locs := locs h; ts_loc_symbs := ts_loc_symbs h; ts_lvals := ts_lvals h;
     trans_type_symbs := trans_type_symbs h; t_is_stutter := Some s;
     t_is_ranked := Some r; t_progress := t_progress h;
     t_is_progress := Some p; is_rank_decr := is_rank_decr h |}.

Definition set_t_is_ranked (h : Hint) (r : FNode) : Hint :=
  {| name := name h; owned_symbs := owned_symbs h; all_symbs := all_symbs h;
     locs := locs h; ts_loc_symbs := ts_loc_symbs h; ts_lvals := ts_lvals h;
     trans_type_symbs := trans_type_symbs h; t_is_stutter := t_is_stutter h;
     t_is_ranked := Some r; t_progress := t_progress h;
     t_is_progress := t_is_progress h; is_rank_decr := is_rank_decr h |}.

Definition set_is_rank_decr (h : Hint) (d : FNode) : Hint :=
  {| name := name h; owned_symbs := owned_symbs h; all_symbs := all_symbs h;
     locs := locs h; ts_loc_symbs := ts_loc_symbs h; ts_lvals := ts_lvals h;
     trans_type_symbs := trans_type_symbs h; t_is_stutter := t_is_stutter h;
     t_is_ranked := t_is_ranked h; t_progress := t_progress h;
     t_is_progress := t_is_progress h; is_rank_decr := Some d |}.

(** [enumerate(l)], counting from [i]. *)
Fixpoint enumerate_from {A : Type} (i : Z) (l : list A) : list (Z * A) :=
  match l with
  | [] => []
  | a :: l' => (i, a) :: enumerate_from (i + 1) l'
  end.

(** [chain.from_iterable] of generators, run in order until one raises. *)
Fixpoint gchain (gs : list (Gen unit)) : Gen unit :=
  match gs with
  | [] => gret tt
  | g :: gs' => gbind g (fun _ => gchain gs')
  end.

(** [self.t_is_progress] is first created by [get_trans_system]. *)
Definition mattr_created {A : Type} (f : Hint -> option A) : Meth A :=
  fun h => (h, match f h with Some a => Ok a | None => Raise AttributeError end).

Definition last_of (l : list FNode) : result FNode := py_index l (-1).

(** The part of [get_trans_system] that follows the allocation of the
    symbols: it reads the hint and builds the transition system.
    [symbs0] is the set of the fresh symbols and [active]. *)
Definition build_trans_system (self : Hint) (active : FNode)
    (lvals symbs0 : list FNode)
    (t_is_stutter0 t_is_ranked0 t_is_progress0 is_rank_decr0 : FNode)
  : result (TransSystem * FNode) :=
  let x_lvals := map (to_next symbs0) lvals in
  let symbs := all_symbs self ++ symbs0 in
  let res := mkTransSystem symbs [] [] in
  rbind (last_of lvals) (fun inactive =>
  rbind (last_of x_lvals) (fun x_inactive =>
  let x_t_is_stutter := to_next symbs t_is_stutter0 in
  (* invar: loc = i -> region(i) & assume(i) *)
  let res := ext_init res
               (map (fun p => Implies (fst p)
                                (mgr_And [region (snd p); assume (snd p)]))
                  (combine lvals (locs self))) in
  (* invar: inactive | (\/ loc = i) *)
  let res := add_init res (mgr_Or lvals) in
  let res := ext_trans res (map (to_next symbs) (init res)) in
  let n_active := mgr_Not active in
  (* init: ! active -> inactive & trans_type = stutter *)
  let res := add_init res
               (Implies n_active (mgr_And [inactive; t_is_stutter0])) in
  let res := if negb (is_false is_rank_decr0)
             then add_init res (Iff is_rank_decr0 t_is_ranked0)
             else res in
  (* trans: ! active -> inactive' & t_is_stutter' *)
  let res := add_trans res
               (Implies n_active (mgr_And [x_inactive; x_t_is_stutter])) in
  let res := if negb (is_false is_rank_decr0) then
               let x_is_rank_decr := symb2next is_rank_decr0 in
               (* is_ranked -> x_is_rank_decr *)
               let res := add_trans res
                            (Implies t_is_ranked0 x_is_rank_decr) in
               (* x_is_rank_decr -> rank_decr | is_ranked *)
               add_trans res
                 (Implies x_is_rank_decr
                    (mgr_Or [is_rank_decr0; t_is_ranked0]))
             else res in
  let g := gchain
             (map (fun p =>
                     get_trans (snd p) (fst p) lvals x_lvals symbs
                       t_is_stutter0 t_is_ranked0 t_is_progress0
                       is_rank_decr0)
                (enumerate_from 0 (locs self))) in
  match outcome g with
  | Raise e => Raise e
  | Ok _ => Ok (ext_trans res (emitted g), mgr_Not inactive)
  end)).

Section HintCompile.
(** [new_enum(env, prefix, n)] of [expr_utils] is not part of the
    sources: it returns the fresh symbols of an encoding of [n] values
    and the list of the [n] value predicates. It is a parameter. *)
Variable new_enum : string -> nat -> list FNode * list FNode.

Local Open Scope meth_scope.

(** First part of [get_trans_system]: the encodings are allocated on
    the first call only. *)
Definition alloc_enums : Meth unit :=
  h <- mget (fun h => h) ;;
  if is_none (ts_loc_symbs h) then
    massert (is_none (ts_lvals h)) ;;
    (let '(symbs, vals) :=
       new_enum (name h ++ "_")%string (List.length (locs h) + 1)%nat in
     mset (fun h => set_enum h symbs vals) ;;
     massert (Nat.eqb (List.length vals) (List.length (locs h) + 1)%nat)) ;;
    (let '(tsymbs, trans_type_vals) :=
       new_enum (name h ++ "_type_")%string 3%nat in
     mset (fun h => set_trans_type_symbs h tsymbs) ;;
     massert (Nat.eqb (List.length trans_type_vals) 3%nat) ;;
     match trans_type_vals with
     | [s; r; p] => mset (fun h => set_trans_types h s r p)
     | _ => mlift (Raise TypeError)
     end)
  else mret tt.

(** The rank flags: without any ranking function the RANKED selector
    and the flag become FALSE, else the flag is a symbol. *)
Definition set_rank_flags (symbs : list FNode) : Meth (list FNode) :=
  self <- mget (fun h => h) ;;
  if forallb (fun loc => is_none (rf loc)) (locs self) then
    massert (forallb (fun loc => is_false (rankT loc)) (locs self)) ;;
    mset (fun h => set_t_is_ranked h FALSE) ;;
    mset (fun h => set_is_rank_decr h FALSE) ;;
    mret symbs
  else
    let d := Symbol ("_" ++ name self ++ "_dec_rank") BOOL false in
    mset (fun h => set_is_rank_decr h d) ;;
    mret (symbs ++ [d]).

Definition get_trans_system (active : FNode)
  : Meth (TransSystem * FNode) :=
  massert (is_symbol active) ;;
  alloc_enums ;;
  ts_loc_symbs0 <- mattr ts_loc_symbs ;;
  lvals <- mattr ts_lvals ;;
  trans_type_symbs0 <- mattr trans_type_symbs ;;
  t_is_stutter0 <- mattr t_is_stutter ;;
  _ <- mattr t_is_ranked ;;
  t_is_progress0 <- mattr_created t_is_progress ;;
  symbs <- set_rank_flags (ts_loc_symbs0 ++ trans_type_symbs0 ++ [active]) ;;
  t_is_ranked0 <- mattr t_is_ranked ;;
  is_rank_decr0 <- mattr is_rank_decr ;;
  self <- mget (fun h => h) ;;
  mlift (build_trans_system self active lvals symbs
           t_is_stutter0 t_is_ranked0 t_is_progress0 is_rank_decr0).
End HintCompile.

(** Modelled from the spec: [new_enum] of [expr_utils] as the one-hot
    encoding the spec describes: one fresh boolean symbol for each of
    the [n] values, the value [i] being the conjunction of the symbol
    [i] and of the negation of every other symbol. *)
Definition enum_symbol (prefix : string) (i : nat) : FNode :=
  Symbol (prefix ++ NilZero.string_of_uint (Nat.to_uint i)) BOOL false.

Definition one_hot_value (prefix : string) (n i : nat) : FNode :=
  mgr_And (map (fun j => if Nat.eqb j i then enum_symbol prefix j
                         else Not (enum_symbol prefix j))
             (seq 0 n)).

Definition one_hot_enum (prefix : string) (n : nat) : list FNode * list FNode :=
  (map (enum_symbol prefix) (seq 0 n), map (one_hot_value prefix n) (seq 0 n)).

(** ** Semantics of terms

    A state gives a value to every symbol name; a term is evaluated on a
    pair of states, the current one and the next one. Integers are the
    integral rationals. Division is an uninterpreted pair of functions,
    one for each arithmetic type, so that a result holds whatever a
    solver takes for the division, by zero included. *)

Record state : Type := mkState {
  bval : string -> bool;
  nval : string -> Qc
}.

Definition Z2Qc (z : Z) : Qc := Q2Qc (inject_Z z).
Definition Qc_leb (a b : Qc) : bool := Qle_bool (this a) (this b).
Definition Qc_ltb (a b : Qc) : bool := negb (Qle_bool (this b) (this a)).

Definition is_arith (ty : PySMTType) : bool :=
  match ty with BOOL => false | _ => true end.

Definition has_type (o : option PySMTType) (ty : PySMTType) : bool :=
  match o with Some ty' => PySMTType_eqb ty ty' | None => false end.

(** The type checker [env.stc.get_type]: [None] stands for its type
    error. *)
Fixpoint get_type (t : FNode) {struct t} : option PySMTType :=
  let fix all_of (ty : PySMTType) (l : list FNode) {struct l} : bool :=
    match l with
    | [] => true
    | x :: xs => has_type (get_type x) ty && all_of ty xs
    end in
  let binary (a b : FNode) : option PySMTType :=
    match get_type a with
    | Some ty => if is_arith ty && has_type (get_type b) ty
                 then Some ty else None
    | None => None
    end in
  let nary (l : list FNode) : option PySMTType :=
    match l with
    | [] => None
    | x :: _ =>
        match get_type x with
        | Some ty => if is_arith ty && all_of ty l then Some ty else None
        | None => None
        end
    end in
  let to_bool (o : option PySMTType) : option PySMTType :=
    match o with Some _ => Some BOOL | None => None end in
  match t with
  | Symbol _ ty _ => Some ty
  | BoolC _ => Some BOOL
  | IntC _ => Some INT
  | RealC _ => Some REAL
  | And l | Or l => if all_of BOOL l then Some BOOL else None
  | Not a => if has_type (get_type a) BOOL then Some BOOL else None
  | Implies a b | Iff a b =>
      if has_type (get_type a) BOOL && has_type (get_type b) BOOL
      then Some BOOL else None
  | Equals a b | LE a b | LT a b => to_bool (binary a b)
  | Plus l | Times l => nary l
  | Minus a b | Div a b => binary a b
  | ToReal a => if has_type (get_type a) INT then Some REAL else None
  end.

Section Semantics.
Variable div_int : Z -> Z -> Z.
Variable div_real : Qc -> Qc -> Qc.

Definition env : Type := (state * state)%type.

Definition st (e : env) (nxt : bool) : state :=
  if nxt then snd e else fst e.

Local Open Scope Qc_scope.

Fixpoint aeval (e : env) (t : FNode) {struct t} : Qc :=
  match t with
  | Symbol n _ x => nval (st e x) n
  | IntC z => Z2Qc z
  | RealC q => q
  | Plus l => fold_right Qcplus 0 (map (aeval e) l)
  | Minus a b => aeval e a - aeval e b
  | Times l => fold_right Qcmult 1 (map (aeval e) l)
  | Div a b =>
      match get_type a with
      | Some INT =>
          Z2Qc (div_int (Qfloor (aeval e a)) (Qfloor (aeval e b)))
      | _ => div_real (aeval e a) (aeval e b)
      end
  | ToReal a => aeval e a
  | _ => 0
  end.

Fixpoint beval (e : env) (t : FNode) {struct t} : bool :=
  match t with
  | Symbol n _ x => bval (st e x) n
  | BoolC b => b
  | And l => forallb (beval e) l
  | Or l => existsb (beval e) l
  | Not a => negb (beval e a)
  | Implies a b => implb (beval e a) (beval e b)
  | Iff a b => Bool.eqb (beval e a) (beval e b)
  | Equals a b => Qc_eqb (aeval e a) (aeval e b)
  | LE a b => Qc_leb (aeval e a) (aeval e b)
  | LT a b => Qc_ltb (aeval e a) (aeval e b)
  | _ => false
  end.

(** A run of a transition system: the initial predicates hold in the
    first state and the transition predicates between every state and
    the following one. *)
Definition run : Type := nat -> state.

Definition holds (sigma : run) (i : nat) (p : FNode) : Prop :=
  beval (sigma i, sigma (S i)) p = true.

Definition is_run (ts : TransSystem) (sigma : run) : Prop :=
  Forall (holds sigma 0) (init ts) /\
  forall i, Forall (holds sigma i) (trans ts).

(** The value of a symbol in a state. *)
Definition symb_value (s : state) (x : FNode) : bool * Qc :=
  match x with
  | Symbol n BOOL _ => (bval s n, 0)
  | Symbol n _ _ => (false, nval s n)
  | _ => (false, 0)
  end.
End Semantics.

(** ** Python numbers

    A coefficient is a Python [int] or a [Fraction]; the arithmetic of
    two [int]s stays in [int], any other goes to [Fraction], and [==]
    and [<] compare the values. *)
Inductive PyNum : Type :=
| PInt (z : Z)
| PFrac (q : Qc).

Definition num_val (n : PyNum) : Qc :=
  match n with
  | PInt z => Z2Qc z
  | PFrac q => q
  end.

Definition num_add (a b : PyNum) : PyNum :=
  match a, b with
  | PInt x, PInt y => PInt (x + y)
  | _, _ => PFrac (num_val a + num_val b)
  end.

Definition num_mul (a b : PyNum) : PyNum :=
  match a, b with
  | PInt x, PInt y => PInt (x * y)
  | _, _ => PFrac (num_val a * num_val b)
  end.

Definition num_neg (a : PyNum) : PyNum :=
  match a with
  | PInt x => PInt (- x)
  | PFrac q => PFrac (- q)
  end.

Definition num_eqb (a b : PyNum) : bool := Qc_eqb (num_val a) (num_val b).
Definition num_ltb (a b : PyNum) : bool := Qc_ltb (num_val a) (num_val b).
Definition is_pyint (a : PyNum) : bool :=
  match a with PInt _ => true | PFrac _ => false end.

(** [mgr.Int] takes an [int] only, [mgr.Real] any number. *)
Definition number (ty : PySMTType) (n : PyNum) : result FNode :=
  match ty with
  | REAL => Ok (RealC (num_val n))
  | _ => match n with
         | PInt z => Ok (IntC z)
         | PFrac _ => Raise TypeError
         end
  end.

(** [self.number(z)] for an integer literal of the source. *)
Definition number_Z (ty : PySMTType) (z : Z) : FNode :=
  match ty with
  | REAL => RealC (Z2Qc z)
  | _ => IntC z
  end.

(** [FNode.is_one] and [FNode.args]. *)
Definition node_is_one (t : FNode) : bool :=
  match t with
  | IntC z => Z.eqb z 1
  | RealC q => Qc_eqb q (Z2Qc 1)
  | _ => false
  end.

Definition node_args (t : FNode) : list FNode :=
  match t with
  | And l | Or l | Plus l | Times l => l
  | Not a | ToReal a => [a]
  | Implies a b | Iff a b | Equals a b | LE a b | LT a b
  | Minus a b | Div a b => [a; b]
  | _ => []
  end.

(** ** Expr: a sum of products *)

(** [symb2coef] is a [defaultdict(int)]: a key that is not stored reads
    as the [int] 0, and [d[k] += v] stores the sum under [k]. *)
Definition coef_get (d : list (FNode * PyNum)) (k : FNode) : PyNum :=
  match dict_get FNode_eqb d k with
  | Some v => v
  | None => PInt 0
  end.

Definition coef_add (d : list (FNode * PyNum)) (k : FNode) (v : PyNum)
  : list (FNode * PyNum) :=
  dict_set FNode_eqb d k (num_add (coef_get d k) v).

Record Expr : Type := mkExpr {
  expr_type : PySMTType;
  symb2coef : list (FNode * PyNum)
}.

Definition is_zero (e : Expr) : bool :=
  if Nat.eqb (List.length (symb2coef e)) 0 then true
  else forallb (fun v => num_eqb v (PInt 0)) (dict_values (symb2coef e)).

Definition is_one (e : Expr) : bool :=
  if Nat.eqb (List.length (symb2coef e)) 0 then false
  else
    let one := number_Z (expr_type e) 1 in
    if Nat.eqb (List.length (symb2coef e)) 1 &&
       dict_mem FNode_eqb (symb2coef e) one &&
       num_eqb (coef_get (symb2coef e) one) (PInt 1)
    then true
    else false.

Definition plus_const (e : Expr) (num : PyNum) : result Expr :=
  rbind (rassert (PySMTType_eqb (expr_type e) REAL || is_pyint num)) (fun _ =>
  Ok (mkExpr (expr_type e)
        (coef_add (symb2coef e) (number_Z (expr_type e) 1) num))).

(** [self.plus(expr)], for one argument. *)
Definition plus (e expr : Expr) : result Expr :=
  rbind (rassert (PySMTType_eqb (expr_type expr) (expr_type e))) (fun _ =>
  Ok (mkExpr (expr_type e)
        (fold_left (fun d kv => coef_add d (fst kv) (snd kv))
           (symb2coef expr) (symb2coef e)))).

(** [get_real]: the keys are wrapped in [ToReal], the key one becomes
    the real one, and the zero coefficients are left out. *)
Definition get_real (e : Expr) : result Expr :=
  rbind (rassert (PySMTType_eqb (expr_type e) INT)) (fun _ =>
  let one := number_Z (expr_type e) 1 in
  Ok (mkExpr REAL
        (fold_left
           (fun d kv =>
              if num_eqb (snd kv) (PInt 0) then d
              else dict_set FNode_eqb d
                     (if FNode_eqb (fst kv) one then RealC (Z2Qc 1)
                      else ToReal (fst kv))
                     (snd kv))
           (symb2coef e) []))).

Section Normaliser.
(** Division is uninterpreted (see the semantics). *)
Variable div_int : Z -> Z -> Z.
Variable div_real : Qc -> Qc -> Qc.
(** [fnode_key] of [expr_utils], the sorting key of the nodes, and
    the instance [td] of [TimesDistributor] of [rewritings], which
    pushes the multiplications to the leaves, are not part of the
    sources: they are parameters. *)
Variable fnode_key : FNode -> Z.
Variable td : FNode -> FNode.

(** [sorted(l, key=fnode_key)]: a stable sort. *)
Fixpoint insert_by_key (x : FNode) (l : list FNode) : list FNode :=
  match l with
  | [] => [x]
  | y :: l' =>
      if fnode_key x <=? fnode_key y then x :: y :: l'
      else y :: insert_by_key x l'
  end.

Definition sorted (l : list FNode) : list FNode :=
  fold_right insert_by_key [] l.

(** [len(get_free_vars(t)) == 0]. *)
Definition has_no_vars (t : FNode) : bool := symbols_ok (fun _ => false) t.

(** [assert self.simplify(t).is_constant()] and
    [self.simplify(t).constant_value()] for a term without variables:
    the simplifier folds the constants of an arithmetic term, and
    leaves a division by a constant zero in place: the term is then
    not a constant, and the assertion of [plus_fnode], or the one of
    [constant_value], fails. A boolean constant is a Python [int];
    any other boolean term is left out of the model and is a type
    error here. *)
Fixpoint const_value (t : FNode) {struct t} : result PyNum :=
  match t with
  | IntC z => Ok (PInt z)
  | RealC q => Ok (PFrac q)
  | BoolC b => Ok (PInt (Z.b2z b))
  | Plus l =>
      fold_right (fun a acc =>
                    rbind (const_value a) (fun x =>
                    rbind acc (fun y => Ok (num_add x y))))
        (Ok (PInt 0)) l
  | Minus a b =>
      rbind (const_value a) (fun x =>
      rbind (const_value b) (fun y => Ok (num_add x (num_neg y))))
  | Times l =>
      fold_right (fun a acc =>
                    rbind (const_value a) (fun x =>
                    rbind acc (fun y => Ok (num_mul x y))))
        (Ok (PInt 1)) l
  | Div a b =>
      rbind (const_value a) (fun x =>
      rbind (const_value b) (fun y =>
      rbind (rassert (negb (num_eqb y (PInt 0)))) (fun _ =>
      Ok (match get_type a with
          | Some INT =>
              PInt (div_int (Qfloor (num_val x)) (Qfloor (num_val y)))
          | _ => PFrac (div_real (num_val x) (num_val y))
          end))))
  | ToReal a => rbind (const_value a) (fun x => Ok (PFrac (num_val x)))
  | _ => Raise TypeError
  end.

(** No division of constants by zero where the normaliser folds: in
    the sums, the differences and the products of [t], every
    division without variables has a divisor whose value is not
    zero, and so have the divisions inside it. A division with
    variables is taken as a whole and is not opened. *)
Fixpoint div_safe (t : FNode) {struct t} : bool :=
  match t with
  | Plus l | Times l => forallb div_safe l
  | Minus a b => div_safe a && div_safe b
  | Div a b =>
      negb (has_no_vars t) ||
      (div_safe a && div_safe b &&
       match const_value b with
       | Ok y => negb (num_eqb y (PInt 0))
       | Raise _ => false
       end)
  | _ => true
  end.

(** The pruning [if d[k] == 0: d.pop(k, None)]. *)
Definition prune (d : list (FNode * PyNum)) (k : FNode)
  : list (FNode * PyNum) :=
  if num_eqb (coef_get d k) (PInt 0) then dict_pop FNode_eqb d k else d.

(** The loop over the factors of a product. [factors] is the list
    still to visit: the arguments of a nested product are appended to
    it. It returns the constant and the symbolic factors. *)
Fixpoint times_factors (fuel : nat) (factors : list FNode)
    (const : PyNum) (symbs : list FNode) {struct fuel}
  : result (PyNum * list FNode) :=
  match fuel with
  | O => Raise OutOfFuel
  | S fuel' =>
      match factors with
      | [] => Ok (const, symbs)
      | factor :: rest =>
          rbind (rassert (negb (is_plus factor))) (fun _ =>
          rbind (rassert (negb (is_minus factor))) (fun _ =>
          if is_times factor then
            times_factors fuel' (rest ++ node_args factor) const symbs
          else if is_symbol factor || is_toreal factor then
            rbind (rassert (negb (is_toreal factor) ||
                            forallb is_symbol (node_args factor))) (fun _ =>
            times_factors fuel' rest const (symbs ++ [factor]))
          else if is_constant factor || has_no_vars factor then
            rbind (const_value factor) (fun v =>
            times_factors fuel' rest (num_mul const v) symbs)
          else
            times_factors fuel' rest const (symbs ++ [factor])))
      end
  end.

Fixpoint fnode_size (t : FNode) {struct t} : nat :=
  match t with
  | And l | Or l | Plus l | Times l =>
      S (fold_right (fun a n => (fnode_size a + n)%nat) O l)
  | Not a | ToReal a => S (fnode_size a)
  | Implies a b | Iff a b | Equals a b | LE a b | LT a b
  | Minus a b | Div a b => S (fnode_size a + fnode_size b)
  | _ => 1%nat
  end.

(** [curr.symbol_type().is_int_type()]: the node must be a symbol. *)
Definition symbol_is_int (t : FNode) : result bool :=
  match t with
  | Symbol _ ty _ => Ok (PySMTType_eqb ty INT)
  | _ => Raise AssertionError
  end.

(** One iteration of the loop of [plus_fnode] on the popped term
    [curr]: the stack and the map after it. The head of [stack] is the
    top: the Python list is popped at its end and extended at its
    end. *)
Definition plus_fnode_step (ty : PySMTType) (do_to_real : bool)
    (curr : FNode) (stack : list FNode) (d : list (FNode * PyNum))
  : result (list FNode * list (FNode * PyNum)) :=
  let one := number_Z ty 1 in
  let m_one := number_Z ty (-1) in
  if is_constant curr || has_no_vars curr then
    rbind (const_value curr) (fun val =>
    Ok (stack, prune (coef_add d one val) one))
  else if is_symbol curr || is_toreal curr then
    rbind (rassert (negb (is_toreal curr) ||
                    forallb is_symbol (node_args curr))) (fun _ =>
    rbind (if do_to_real then
             rbind (symbol_is_int curr) (fun b =>
             Ok (if b then ToReal curr else curr))
           else Ok curr) (fun curr =>
    Ok (stack, coef_add d curr (PInt 1))))
  else if is_plus curr then
    Ok (rev (node_args curr) ++ stack, d)
  else
    match curr with
    | Minus a b =>
        let rhs := Times [m_one; b] in
        Ok (td rhs :: a :: stack, d)
    | Times factors =>
        rbind (times_factors (S (fnode_size curr)) factors
                 (PInt 1) []) (fun cs =>
        let '(const, symbs) := cs in
        rbind (match symbs with
               | [] => Ok one
               | _ => mgr_Times (sorted symbs)
               end) (fun symbs =>
        let symbs := if negb (FNode_eqb symbs one) && do_to_real
                     then ToReal symbs else symbs in
        Ok (stack, prune (coef_add d symbs const) symbs)))
    | Div _ _ =>
        let curr := if do_to_real then ToReal curr else curr in
        Ok (stack, coef_add d curr (PInt 1))
    | _ => Raise AssertionError
    end.

(** The loop [while stack], with fuel. *)
Fixpoint plus_fnode_loop (fuel : nat) (ty : PySMTType) (do_to_real : bool)
    (stack : list FNode) (d : list (FNode * PyNum)) {struct fuel}
  : result (list (FNode * PyNum)) :=
  match fuel with
  | O => Raise OutOfFuel
  | S fuel' =>
      match stack with
      | [] => Ok d
      | curr :: stack =>
          rbind (plus_fnode_step ty do_to_real curr stack d) (fun sd =>
          plus_fnode_loop fuel' ty do_to_real (fst sd) (snd sd))
      end
  end.

(** [plus_fnode]: its two assertions, then the loop on [td(formula)]. *)
Definition plus_fnode (fuel : nat) (e : Expr) (formula : FNode)
  : result Expr :=
  rbind (rassert (PySMTType_eqb (expr_type e) REAL ||
                  has_type (get_type formula) (expr_type e))) (fun _ =>
  let do_to_real := PySMTType_eqb (expr_type e) REAL &&
                    has_type (get_type formula) INT in
  rbind (plus_fnode_loop fuel (expr_type e) do_to_real [td formula]
           (symb2coef e)) (fun d =>
  Ok (mkExpr (expr_type e) d))).

(** [Expr.__init__]: the optional [formula], [const] and [expr] are
    added in this order; a [const] equal to 0 is falsy and skipped.
    The solver self-check of the debug build is not part of the
    model. *)
Definition Expr_init (fuel : nat) (expr_type : PySMTType)
    (formula : option FNode) (expr : option Expr) (const : option PyNum)
  : result Expr :=
  rbind (rassert (is_arith expr_type)) (fun _ =>
  let e := mkExpr expr_type [] in
  rbind (match formula with
         | Some f => plus_fnode fuel e f
         | None => Ok e
         end) (fun e =>
  rbind (match const with
         | Some c => if num_eqb c (PInt 0) then Ok e else plus_const e c
         | None => Ok e
         end) (fun e =>
  match expr with
  | Some x => plus e x
  | None => Ok e
  end))).

(** The monomial of the product of the monomials [k0] and [k1]. *)
Definition times_key (k0 k1 : FNode) : result FNode :=
  let symbs := if is_times k0 then node_args k0 else [k0] in
  let symbs := if is_times k1 then symbs ++ node_args k1
               else if negb (node_is_one k1) then symbs ++ [k1]
               else symbs in
  mgr_Times (sorted symbs).

Definition times_cross (d0 d1 : list (FNode * PyNum))
  : result (list (FNode * PyNum)) :=
  fold_left
    (fun acc kv0 =>
       fold_left
         (fun acc kv1 =>
            rbind acc (fun d =>
            rbind (times_key (fst kv0) (fst kv1)) (fun symbs =>
            Ok (coef_add d symbs (num_mul (snd kv0) (snd kv1))))))
         d1 acc)
    d0 (Ok []).

(** [self.times] with its argument list. *)
Fixpoint times_loop (e : Expr) (exprs : list Expr) : result Expr :=
  match exprs with
  | [] => Ok e
  | expr :: exprs' =>
      rbind (rassert (PySMTType_eqb (expr_type e) REAL ||
                      PySMTType_eqb (expr_type expr) (expr_type e)))
        (fun _ =>
      if is_zero expr then Ok (mkExpr (expr_type e) [])
      else if negb (is_one expr) then
        rbind (if PySMTType_eqb (expr_type expr) INT &&
                  PySMTType_eqb (expr_type e) REAL
               then get_real expr else Ok expr) (fun expr =>
        rbind (times_cross (symb2coef e) (symb2coef expr)) (fun d =>
        times_loop (mkExpr (expr_type e) d) exprs'))
      else times_loop e exprs')
  end.

Definition times (e : Expr) (exprs : list Expr) : result Expr :=
  if is_zero e then Ok e else times_loop e exprs.

Definition times_fnode (fuel : nat) (e : Expr) (formula : FNode)
  : result Expr :=
  rbind (rassert (has_type (get_type formula) (expr_type e))) (fun _ =>
  if negb (node_is_one formula) then
    rbind (Expr_init fuel (expr_type e) (Some formula) None None)
      (fun expr => times e [expr])
  else Ok e).

(** [_fnode_times(lhs, rhs)]. *)
Definition _fnode_times (ty : PySMTType) (lhs : FNode) (rhs : PyNum)
  : result FNode :=
  if num_eqb rhs (PInt 0) then Ok (number_Z ty 0)
  else if num_eqb rhs (PInt 1) then Ok lhs
  else if FNode_eqb lhs (number_Z ty 0) then Ok lhs
  else if FNode_eqb lhs (number_Z ty 1) then number ty rhs
  else if is_symbol lhs || is_toreal lhs then
    rbind (rassert (is_symbol lhs || forallb is_symbol (node_args lhs))) (fun _ =>
    rbind (number ty rhs) (fun c => mgr_Times [lhs; c]))
  else if is_times lhs then
    rbind (number ty rhs) (fun c => mgr_Times (node_args lhs ++ [c]))
  else
    rbind (rassert (is_div lhs)) (fun _ =>
    rbind (number ty rhs) (fun c => mgr_Times [lhs; c])).

Fixpoint rmap {A B : Type} (f : A -> result B) (l : list A)
  : result (list B) :=
  match l with
  | [] => Ok []
  | a :: l' =>
      rbind (f a) (fun b => rbind (rmap f l') (fun bs => Ok (b :: bs)))
  end.

Definition pysmt_expr (e : Expr) : result FNode :=
  let keys := sorted (dict_keys (symb2coef e)) in
  rbind (rmap (fun k => _fnode_times (expr_type e) k
                          (coef_get (symb2coef e) k))
           (filter (fun k => negb (num_eqb (coef_get (symb2coef e) k)
                                     (PInt 0))) keys)) (fun to_add =>
  match to_add with
  | [] => Ok (number_Z (expr_type e) 0)
  | _ => mgr_Plus to_add
  end).
End Normaliser.

(** ** The grammar of the normaliser and the contract of its parameters *)

(** An arithmetic term: built from symbols that are not boolean and
    from numeric constants with [Plus], [Minus], [Times] and [Div]; a
    sum and a product have at least one argument. *)
Fixpoint arith (t : FNode) {struct t} : bool :=
  match t with
  | Symbol _ ty _ => is_arith ty
  | IntC _ | RealC _ => true
  | Plus l | Times l =>
      match l with [] => false | _ => forallb arith l end
  | Minus a b | Div a b => arith a && arith b
  | _ => false
  end.

(** A factor of a product whose multiplications are at the leaves:
    neither a sum nor a difference, also inside a nested product. *)
Fixpoint product_ok (t : FNode) {struct t} : bool :=
  match t with
  | Plus _ | Minus _ _ => false
  | Times l => forallb product_ok l
  | _ => true
  end.

(** Multiplications pushed to the leaves: no product has a sum or a
    difference among its factors. A division is opaque. *)
Fixpoint distributed (t : FNode) {struct t} : bool :=
  match t with
  | Plus l => forallb distributed l
  | Minus a b => distributed a && distributed b
  | Times l => forallb product_ok l
  | _ => true
  end.

(** The nesting depth of the differences; a division is opaque. *)
Fixpoint minus_depth (t : FNode) {struct t} : nat :=
  match t with
  | Plus l | Times l => fold_right (fun a n => Nat.max (minus_depth a) n) O l
  | Minus a b => S (Nat.max (minus_depth a) (minus_depth b))
  | _ => O
  end.

Section Contract.
Variable div_int : Z -> Z -> Z.
Variable div_real : Qc -> Qc -> Qc.
Variable td : FNode -> FNode.

Local Open Scope Qc_scope.

(** The value of a coefficient map: the sum of coefficient times
    monomial. *)
Definition coef_sem (e : env) (d : list (FNode * PyNum)) : Qc :=
  fold_right
    (fun kv acc => num_val (snd kv) * aeval div_int div_real e (fst kv) + acc)
    0 d.

Definition expr_sem (e : env) (x : Expr) : Qc := coef_sem e (symb2coef x).

(** The sum and the product of the values of a list of terms. *)
Definition sum_of (e : env) (l : list FNode) : Qc :=
  fold_right Qcplus 0 (map (aeval div_int div_real e) l).
Definition prod_of (e : env) (l : list FNode) : Qc :=
  fold_right Qcmult 1 (map (aeval div_int div_real e) l).

(** The contract of [td]: on arithmetic terms it keeps the value and
    the type, its result is an arithmetic term with the
    multiplications at the leaves, and the product of a constant and
    a term does not come back with more nested differences than the
    term has. *)
Definition td_sound : Prop :=
  forall e t, arith t = true ->
              aeval div_int div_real e (td t) = aeval div_int div_real e t.

Definition td_shape : Prop :=
  forall t, arith t = true ->
            arith (td t) = true /\ distributed (td t) = true.

Definition td_typed : Prop :=
  forall t ty, arith t = true -> get_type t = Some ty ->
               get_type (td t) = Some ty.

Definition td_depth : Prop :=
  forall c b, is_constant c = true -> arith c = true -> arith b = true ->
              (minus_depth (td (Times [c; b])) <= minus_depth b)%nat.

Definition td_contract : Prop :=
  td_sound /\ td_shape /\ td_typed /\ td_depth.

(** The distributor brings in no division of constants by zero. *)
Definition td_safe : Prop :=
  forall t, arith t = true -> div_safe div_int div_real t = true ->
            div_safe div_int div_real (td t) = true.
End Contract.

(** ** A distributor

    Modelled from the spec: the term-distribution preprocessor
    [TimesDistributor] of [rewritings], which pushes the
    multiplications to the leaves. A term is read as a list of
    monomials, each a list of factors; a product becomes the sum of the
    products of one monomial of each of its arguments. *)
Definition minus_one_of (t : FNode) : FNode :=
  match get_type t with
  | Some REAL => RealC (Z2Qc (-1))
  | _ => IntC (-1)
  end.

Fixpoint monomials (t : FNode) {struct t} : list (list FNode) :=
  match t with
  | Plus l => List.concat (map monomials l)
  | Minus a b => monomials a ++ map (cons (minus_one_of b)) (monomials b)
  | Times l => [l]
  | _ => [[t]]
  end.

Definition cross (ms1 ms2 : list (list FNode)) : list (list FNode) :=
  flat_map (fun m1 => map (fun m2 => m1 ++ m2) ms2) ms1.

Fixpoint td_model (t : FNode) {struct t} : FNode :=
  match t with
  | Plus l => Plus (map td_model l)
  | Minus a b => Minus (td_model a) (td_model b)
  | Times l =>
      Plus (map Times
              (fold_right cross [[]]
                 (map (fun a => monomials (td_model a)) l)))
  | _ => t
  end.

(** ** Hint operations in sequence

    A caller may go on after an exception: the hint is then as the
    failed call left it. *)
Inductive hint_op : Type :=
| OpAdd (loc : Location)
| OpSetLocs (ls : list Location)
| OpGetTransSystem (active : FNode).

Definition do_op (new_enum : string -> nat -> list FNode * list FNode)
    (o : hint_op) (h : Hint) : Hint :=
  match o with
  | OpAdd loc => fst (add loc h)
  | OpSetLocs ls => fst (set_locs ls h)
  | OpGetTransSystem active => fst (get_trans_system new_enum active h)
  end.

Definition do_ops (new_enum : string -> nat -> list FNode * list FNode)
    (ops : list hint_op) (h : Hint) : Hint :=
  fold_left (fun h o => do_op new_enum o h) ops h.

(** ** Sample locations and hints *)

Module Sample.
Definition x : FNode := Symbol "x" INT false.
Definition x_x : FNode := symb2next x.
Definition active : FNode := Symbol "active" BOOL false.

(** x' = x + 1 and x' = x *)
Definition incr : FNode := Equals x_x (Plus [x; IntC 1]).
Definition same : FNode := Equals x_x x.

(** rank x: ranked when 0 < x, at its minimum when x <= 0. *)
Definition rank_x : RankFun :=
  {| rf_is_ranked := LT (IntC 0) x;
     rf_is_min := LE x (IntC 0);
     rf_is_const := Equals x_x x;
     rf_is_decr := LT x_x x |}.

(** x' = x - 1 *)
Definition decr : FNode := Equals x_x (Minus x (IntC 1)).

(** A location with the progress edge 0 -> x' = x + 1. *)
Definition loc_edge : Location :=
  Location_init TRUE None None None None (Some [(KInt 0, incr)]).

(** A location with neither stutter nor progress. *)
Definition loc_dead : Location :=
  Location_init TRUE None None None None None.

(** A ranked location whose only progress edge goes to location 1. *)
Definition loc_ranked : Location :=
  Location_init TRUE None (Some same) (Some decr) (Some rank_x)
    (Some [(KInt 1, incr)]).

(** The same with a progress edge to itself. *)
Definition loc_ranked_self : Location :=
  Location_init TRUE None (Some same) (Some decr) (Some rank_x)
    (Some [(KInt 0, incr)]).

(** A location that stutters on x' = x and progresses to itself. *)
Definition loc_stutter : Location :=
  Location_init TRUE None (Some same) None None (Some [(KInt 0, incr)]).

Definition l0 : FNode := Symbol "l0" BOOL false.
Definition l1 : FNode := Symbol "l1" BOOL false.
Definition sel_stutter : FNode := Symbol "stutter" BOOL false.
Definition sel_ranked : FNode := Symbol "ranked" BOOL false.
Definition sel_progress : FNode := Symbol "progress" BOOL false.
Definition flag_rank_decr : FNode := Symbol "rank_decr" BOOL false.

Definition lvals : list FNode := [l0; l1].
Definition x_lvals : list FNode := map symb2next lvals.

(** The hint "h" that owns x, with the single location [loc_stutter]. *)
Definition hint_x : Hint :=
  {| name := "h"; owned_symbs := [x]; all_symbs := [x];
     locs := [loc_stutter]; ts_loc_symbs := None; ts_lvals := None;
     trans_type_symbs := None; t_is_stutter := None;
     t_is_ranked := None; t_progress := None; t_is_progress := None;
     is_rank_decr := None |}.

(** States in which the hint is inactive and stuttering, x being [v]:
    of the one-hot symbols only h_1 (inactive) and h_type_0 (STUTTER)
    hold, and [active] is false. *)
Definition inactive_state (v : Z) : state :=
  {| bval := fun n => String.eqb n "h_1" || String.eqb n "h_type_0";
     nval := fun _ => Z2Qc v |}.

(** x is 0 in the first state and 1 in all the others. *)
Definition jumping_run : nat -> state :=
  fun i => match i with O => inactive_state 0 | S _ => inactive_state 1 end.
End Sample.

(** ** Readings of the specification that the code is compared with *)

(** A conjunction whose first conjunct is the RANKED selector, or the
    selector itself. *)
Definition is_ranked_case (rk c : FNode) : bool :=
  match c with
  | And (a :: _) => FNode_eqb a rk
  | _ => FNode_eqb c rk
  end.

(** The spec on the self-transition disjunct of a location with a
    ranking function: the RANKED case is conjoined with the
    rank-at-minimum condition, and it is there only when the progress
    set of the location contains [idx]. *)
Definition ranked_case_as_specified (self : Location) (idx : Z)
    (st rk pr : FNode) : Prop :=
  forall r t_type min_rf,
    rf self = Some r ->
    self_types self idx st rk pr = ([], Ok (t_type, min_rf)) ->
    (is_some (progress self idx) = true ->
     In (mgr_And [rk; rf_is_min r]) t_type) /\
    (existsb (is_ranked_case rk) t_type = true ->
     is_some (progress self idx) = true).

(** The spec on a location with neither stutter nor progress:
    [get_trans] fails on its precondition before it emits a clause. *)
Definition dead_location_rejected (self : Location) (idx : Z)
    (lvals x_lvals symbs : list FNode) (st rk pr rd : FNode) : Prop :=
  is_false (stutterT self) = true ->
  progressT self = [] ->
  get_trans self idx lvals x_lvals symbs st rk pr rd =
  ([], Raise AssertionError).

(** The symbols that [to_next symbs] renames to the next state. *)
Definition renamed (symbs : list FNode) (s : FNode) : bool :=
  mem_symb s symbs && symb_is_curr s.

(** The contract of an encoding: the value predicates are over the
    symbols of the encoding, all of the current state. *)
Definition enum_closed (symbs vals : list FNode) : bool :=
  forallb (symbols_ok (renamed symbs)) vals.

Definition closed_opt (symbs vals : option (list FNode)) : bool :=
  match symbs, vals with
  | Some s, Some v => enum_closed s v
  | _, _ => false
  end.

(** The encodings of a compiled hint keep the contract. *)
Definition encodings_closed (h : Hint) : bool :=
  closed_opt (ts_loc_symbs h) (ts_lvals h) &&
  closed_opt (trans_type_symbs h)
    (match t_is_stutter h with Some v => Some [v] | None => None end).

(** A method keeps a hint when it leaves the location list as it is and
    never forgets the location encoding. *)
Definition keeps {A : Type} (m : Meth A) : Prop :=
  forall h,
    locs (fst (m h)) = locs h /\
    (is_some (ts_loc_symbs h) = true ->
     is_some (ts_loc_symbs (fst (m h))) = true).

Section InactiveClaim.
Variable div_int : Z -> Z -> Z.
Variable div_real : Qc -> Qc -> Qc.
Variable new_enum : string -> nat -> list FNode * list FNode.

(** The spec on an inactive hint: in every run of the compiled
    transition system in which [active] is false at every step, the
    owned symbols keep their value across every transition. *)
Definition inactive_hint_is_noop (h : Hint) (active : FNode) : Prop :=
  forall h' ts act sigma,
    get_trans_system new_enum active h = (h', Ok (ts, act)) ->
    is_run div_int div_real ts sigma ->
    (forall i, beval div_int div_real (sigma i, sigma (S i)) active = false) ->
    forall i s, In s (owned_symbs h) ->
                symb_value (sigma i) s = symb_value (sigma (S i)) s.
End InactiveClaim.

Module SampleRun.
(** [hint_x] compiled with the one-hot encoding. *)
Definition compiled : Hint * result (TransSystem * FNode) :=
  get_trans_system one_hot_enum Sample.active Sample.hint_x.

Definition ts : TransSystem :=
  match snd compiled with
  | Ok (ts, _) => ts
  | Raise _ => mkTransSystem [] [] []
  end.

Definition act : FNode :=
  match snd compiled with
  | Ok (_, act) => act
  | Raise _ => FALSE
  end.
End SampleRun.

(** The spec on [is_one]: the only coefficient that is not zero is
    exactly 1, on the key one. *)
Definition only_coef_is_one (e : Expr) : Prop :=
  num_eqb (coef_get (symb2coef e) (number_Z (expr_type e) 1)) (PInt 1) = true /\
  forall k, FNode_eqb k (number_Z (expr_type e) 1) = false ->
            num_eqb (coef_get (symb2coef e) k) (PInt 0) = true.

Module SampleExpr.
(** 1 + x and -x, as integer expressions. *)
Definition one_plus_x : Expr :=
  mkExpr INT [(IntC 1, PInt 1); (Sample.x, PInt 1)].
Definition minus_x : Expr := mkExpr INT [(Sample.x, PInt (-1))].
(** What [one_plus_x.plus(minus_x)] leaves: 1 with a zero entry. *)
Definition one_with_zero : Expr :=
  mkExpr INT [(IntC 1, PInt 1); (Sample.x, PInt 0)].
End SampleExpr.

(** The size of a list of terms. *)
Definition list_size (l : list FNode) : nat :=
  fold_right (fun a n => (fnode_size a + n)%nat) O l.

(** A factor that the loop over the factors of a product takes. *)
Definition factor_ok (f : FNode) : Prop :=
  arith f = true /\ product_ok f = true.

(** ** Invariants of a coefficient map *)

(** A key that [plus_fnode] stores for an arithmetic term of the type
    of the expression: the constant one, a symbol, a product or a
    division. *)
Definition is_product (k : FNode) : bool :=
  match k with
  | Times (_ :: _) => true
  | _ => false
  end.

Definition key_ok (ty : PySMTType) (k : FNode) : bool :=
  FNode_eqb k (number_Z ty 1) || is_symbol k || is_product k || is_div k.

(** The keys are unique and of these shapes, and an integer expression
    has [int] coefficients only. *)
Definition dict_ok (ty : PySMTType) (d : list (FNode * PyNum)) : Prop :=
  NoDup (dict_keys d) /\
  Forall (fun kv => key_ok ty (fst kv) = true) d /\
  (ty = INT -> Forall (fun kv => is_pyint (snd kv) = true) d).

(** The coefficients of an integer expression are [int]s: a term that
    feeds an expression of type [ty] is of integer type when [ty] is. *)
Definition tag_ok (ty : PySMTType) (t : FNode) : bool :=
  PySMTType_eqb ty REAL || has_type (get_type t) INT.

Section Processes.
Variable div_int : Z -> Z -> Z.
Variable div_real : Qc -> Qc -> Qc.
Variable fnode_key : FNode -> Z.
Variable td : FNode -> FNode.
Variable ty : PySMTType.

Local Open Scope Qc_scope.

(** The loop of [plus_fnode], without real lifting, takes the terms
    [ts] off the stack in [k] steps: the map it goes on with adds
    their values and keeps the invariants. *)
Definition taken (ts stack : list FNode) (d : list (FNode * PyNum))
  : Prop :=
  exists k d',
    dict_ok ty d' /\
    (forall e, coef_sem div_int div_real e d' =
               coef_sem div_int div_real e d + sum_of div_int div_real e ts) /\
    forall fuel,
      plus_fnode_loop div_int div_real fnode_key td (k + fuel) ty false
        (ts ++ stack) d =
      plus_fnode_loop div_int div_real fnode_key td fuel ty false stack d'.

(** Or the loop raises on them within [k] steps, and one of them
    has a division of constants by zero. *)
Definition refused (ts stack : list FNode) (d : list (FNode * PyNum))
  : Prop :=
  (td_safe div_int div_real td ->
   forallb (div_safe div_int div_real) ts = false) /\
  exists k,
    forall fuel,
      plus_fnode_loop div_int div_real fnode_key td (k + fuel) ty false
        (ts ++ stack) d = Raise AssertionError.

Definition processes (ts : list FNode) : Prop :=
  forall stack d,
    dict_ok ty d -> taken ts stack d \/ refused ts stack d.
End Processes.

(** The sum of [g] over a list of keys. *)
Definition sum_with (g : FNode -> Qc) (l : list FNode) : Qc :=
  fold_right (fun k acc => (g k + acc)%Qc) 0%Qc l.

(** A node that is neither a sum, a difference nor a product. *)
Definition is_atom (t : FNode) : bool :=
  negb (is_plus t || is_minus t || is_times t).

(** Every factor of every monomial satisfies [P]. *)
Definition monos_all (P : FNode -> Prop) (ms : list (list FNode)) : Prop :=
  Forall (Forall P) ms.

(** The monomials of the product of the terms whose monomials are
    [mss]. *)
Definition expand (mss : list (list (list FNode))) : list (list FNode) :=
  fold_right cross [[]] mss.

Section MonomialValue.
Variable div_int : Z -> Z -> Z.
Variable div_real : Qc -> Qc -> Qc.

(** The value of a list of monomials: the sum of their products. *)
Definition monos_sem (e : env) (ms : list (list FNode)) : Qc :=
  fold_right (fun m acc => (prod_of div_int div_real e m + acc)%Qc) 0%Qc ms.
End MonomialValue.

Module SampleTerm.
(** A sorting key for the samples: the size of the node. *)
Definition key (t : FNode) : Z := Z.of_nat (fnode_size t).

Definition y : FNode := Symbol "y" INT false.

(** (x + 1) * 2 - x *)
Definition t1 : FNode :=
  Minus (Times [Plus [Sample.x; IntC 1]; IntC 2]) Sample.x.

Definition x_next : FNode := Symbol "x" INT true.

(** x' = x + 1 *)
Definition eq1 : FNode := Equals x_next (Plus [Sample.x; IntC 1]).

(** x + 1/0 *)
Definition x_div0 : FNode := Plus [Sample.x; Div (IntC 1) (IntC 0)].

(** A parameter p, and the equality -x = 3 + p. *)
Definition p : FNode := Symbol "p" INT false.
Definition eq3 : FNode :=
  Equals (Times [IntC (-1); Sample.x]) (Plus [IntC 3; p]).

(** -x - y, and the equality -x - y = 3. *)
Definition neg_sum : FNode :=
  Plus [Times [IntC (-1); Sample.x]; Times [IntC (-1); y]].
Definition eq2 : FNode := Equals neg_sum (IntC 3).

(** x - 2*y*x <= 3 + y *)
Definition le1 : FNode :=
  LE (Plus [Sample.x; Times [IntC (-2); y; Sample.x]]) (Plus [IntC 3; y]).
End SampleTerm.

(** ** eq2assign *)

(** [round] of a [Fraction]: to the nearest integer, a tie to the even
    one. *)
Definition py_round (q : Qc) : Z :=
  let f := Qfloor q in
  let r := (q - Z2Qc f)%Qc in
  let half := Q2Qc (1 # 2) in
  if Qc_ltb r half then f
  else if Qc_ltb half r then f + 1
  else if Z.even f then f else f + 1.

(** [s in env.fvo.walk(t)] for a symbol [s]. *)
Definition occurs_in (s t : FNode) : bool :=
  negb (symbols_ok (fun x => negb (FNode_eqb x s)) t).

Section Eq2Assign.
Variable div_int : Z -> Z -> Z.
Variable div_real : Qc -> Qc -> Qc.
Variable fnode_key : FNode -> Z.
Variable td : FNode -> FNode.

(** The state of the scan: [_symb], [_coef], [_is_next]. *)
Definition scan_state : Type := (option FNode * option PyNum * bool)%type.

Definition coef_is (o : option PyNum) (z : Z) : bool :=
  match o with Some c => num_eqb c (PInt z) | None => false end.

(** The body of the scan for the key [k] with coefficient [v]; the
    boolean tells whether the loop breaks. *)
Definition scan_step (expr_type : PySMTType) (k : FNode) (v : PyNum)
    (st : scan_state) : scan_state * bool :=
  let '(_symb, _coef, _is_next) := st in
  if is_symbol k && negb (num_eqb v (PInt 0)) then
    let is_next := symb_is_next k in
    if negb _is_next || is_next then
      let st1 : scan_state :=
        if num_eqb v (PInt (-1)) || num_eqb v (PInt 1) ||
           (negb _is_next && is_next)
        then (Some k, Some v, is_next) else st in
      let st2 : scan_state :=
        if PySMTType_eqb expr_type REAL then
          let '(_, _coef, _) := st1 in
          if match _coef with
             | None => true
             | Some c =>
                 (num_ltb v (PInt 0) && num_ltb (PInt 0) c) ||
                 (num_ltb c (PInt 0) && num_ltb c v) ||
                 (num_ltb (PInt 0) c && num_ltb v c)
             end
          then (Some k, Some v, is_next) else st1
        else st1 in
      let '(_, _coef, _) := st2 in
      (st2, coef_is _coef (-1) && is_next)
    else (st, false)
  else (st, false).

Fixpoint scan (expr_type : PySMTType) (d : list (FNode * PyNum))
    (keys : list FNode) (st : scan_state) : scan_state :=
  match keys with
  | [] => st
  | k :: keys' =>
      let '(st', stop) := scan_step expr_type k (coef_get d k) st in
      if stop then st' else scan expr_type d keys' st'
  end.

(** The multiplier: the opposite of the inverse of the coefficient,
    an [int] when it is integral. *)
Definition inverse_coef (_coef : PyNum) : PyNum :=
  if num_eqb _coef (PInt (-1)) || num_eqb _coef (PInt 1)
  then num_neg _coef
  else
    let frac_coef := PFrac (Qcdiv (Z2Qc (-1)) (num_val _coef)) in
    let int_coef := PInt (py_round (num_val frac_coef)) in
    if num_eqb int_coef frac_coef then int_coef else frac_coef.

Definition eq2assign (fuel : nat) (equality : FNode)
  : result (option FNode * option FNode * option bool) :=
  if is_true equality then Ok (Some equality, None, None)
  else
    match equality with
    | Equals arg0 arg1 =>
        rbind (match get_type arg0 with
               | Some ty => Ok ty
               | None => Raise TypeError
               end) (fun expr_type =>
        rbind (Expr_init div_int div_real fnode_key td fuel expr_type
                 (Some (Minus arg0 arg1)) None None) (fun expr =>
        if is_zero expr then Ok (Some TRUE, None, None)
        else
          match scan expr_type (symb2coef expr)
                  (sorted fnode_key (dict_keys (symb2coef expr)))
                  (None, None, false) with
          | (Some _symb, Some _coef, _is_next) =>
              let coef_expr := inverse_coef _coef in
              if PySMTType_eqb expr_type INT && negb (is_pyint coef_expr)
              then Ok (None, None, None)
              else
                rbind (Expr_init div_int div_real fnode_key td fuel
                         expr_type None None (Some coef_expr))
                  (fun coef_expr =>
                (* remove term with _symb *)
                let expr := mkExpr (expr_type)
                              (dict_pop FNode_eqb (symb2coef expr) _symb) in
                (* multiply by inverse of the opposite coefficient *)
                rbind (times fnode_key expr [coef_expr]) (fun expr =>
                rbind (pysmt_expr fnode_key expr) (fun res =>
                rbind (rassert (negb (occurs_in _symb res))) (fun _ =>
                Ok (Some _symb, Some res, Some _is_next)))))
          | (None, _, _) => Ok (None, None, None)
          | (Some _, None, _) => Raise AssertionError
          end))
    | _ => Raise AssertionError
    end.
End Eq2Assign.

(** What the scan of [eq2assign] holds: nothing, or a symbol together
    with its coefficient, which is not zero. *)
Definition picked (d : list (FNode * PyNum)) (st : option FNode * option PyNum * bool)
  : Prop :=
  match st with
  | (Some k, Some c, _) =>
      is_symbol k = true /\ c = coef_get d k /\ num_eqb c (PInt 0) = false
  | (None, None, _) => True
  | _ => False
  end.

(** ** Ineq *)

(** [Ineq.LT], [Ineq.LE] and [Ineq.EQ]. *)
Definition Ineq_LT : Z := -1.
Definition Ineq_LE : Z := 1.
Definition Ineq_EQ : Z := 0.

(** The map [lhs] is a [defaultdict] from a monomial to its coefficient,
    an [Expr]; a missing entry is made by [Expr(env, ineq_type, td)],
    the empty expression. *)
Definition lhs_get (ty : PySMTType) (lhs : list (FNode * Expr)) (k : FNode)
  : Expr :=
  match dict_get FNode_eqb lhs k with
  | Some x => x
  | None => mkExpr ty []
  end.

(** [lhs[k].m(...)] for a method [m] that updates the expression it is
    called on. *)
Definition lhs_update (ty : PySMTType) (lhs : list (FNode * Expr)) (k : FNode)
    (m : Expr -> result Expr) : result (list (FNode * Expr)) :=
  rbind (m (lhs_get ty lhs k)) (fun x => Ok (dict_set FNode_eqb lhs k x)).

(** [FNode.constant_value]. *)
Definition constant_value (t : FNode) : result PyNum :=
  match t with
  | IntC z => Ok (PInt z)
  | RealC q => Ok (PFrac q)
  | BoolC b => Ok (PInt (Z.b2z b))
  | _ => Raise AssertionError
  end.

(** The two counters of the sign convention: the coefficients that are
    not zero and, among them, the negative ones, over all the
    coefficient expressions of [lhs]. *)
Definition count_coefs (lhs : list (FNode * Expr)) : nat * nat :=
  fold_left
    (fun acc expr =>
       fold_left
         (fun (tn : nat * nat) val =>
            let (tot_coefs, neg_coefs) := tn in
            if negb (num_eqb val (PInt 0)) then
              (S tot_coefs,
               if num_ltb val (PInt 0) then S neg_coefs else neg_coefs)
            else (tot_coefs, neg_coefs))
         (dict_values (symb2coef expr)) acc)
    (dict_values lhs) (O, O).

Record Ineq : Type := mkIneq {
  ineq_params : list FNode;
  _type : Z;
  _lhs : list (FNode * Expr);
  _rhs : Expr
}.

Section Parse.
Variable div_int : Z -> Z -> Z.
Variable div_real : Qc -> Qc -> Qc.
Variable fnode_key : FNode -> Z.
Variable td : FNode -> FNode.
(** The parameters: a set of symbols. *)
Variable params : list FNode.

(** [get_free_vars(t) <= params]. *)
Definition only_params (t : FNode) : bool :=
  symbols_ok (fun s => mem_symb s params) t.

(** The loop over the arguments of a product: [args] is the list
    still to visit, the arguments of a nested product are appended to
    it. It returns the constant, the symbolic factors and the
    parameters. *)
Fixpoint parse_factors (fuel : nat) (args : list FNode) (const : PyNum)
    (symbs _params : list FNode) {struct fuel}
  : result (PyNum * list FNode * list FNode) :=
  match fuel with
  | O => Raise OutOfFuel
  | S fuel' =>
      match args with
      | [] => Ok (const, symbs, _params)
      | arg :: rest =>
          match arg with
          | Plus _ => Raise AssertionError
          | Times l =>
              parse_factors fuel' (rest ++ l) const symbs _params
          | BoolC _ | IntC _ | RealC _ =>
              rbind (constant_value arg) (fun v =>
              parse_factors fuel' rest (num_mul const v) symbs _params)
          | Symbol _ _ _ =>
              if mem_symb arg params
              then parse_factors fuel' rest const symbs (_params ++ [arg])
              else parse_factors fuel' rest const (symbs ++ [arg]) _params
          | Div _ _ =>
              parse_factors fuel' rest const (symbs ++ [arg]) _params
          | ToReal a =>
              rbind (rassert (is_symbol a)) (fun _ =>
              if mem_symb a params
              then parse_factors fuel' rest const symbs (_params ++ [arg])
              else parse_factors fuel' rest const (symbs ++ [arg]) _params)
          | _ => Raise AssertionError
          end
      end
  end.

(** One iteration of the loop of [_parse] on the popped term [curr].
    The head of [stack] is the top. *)
Definition parse_step (fuel : nat) (ty : PySMTType) (curr : FNode)
    (stack : list FNode) (lhs : list (FNode * Expr)) (rhs : Expr)
  : result (list FNode * list (FNode * Expr) * Expr) :=
  let m_one := number_Z ty (-1) in
  let plus_one k :=
    rbind (lhs_update ty lhs k (fun x => plus_const x (PInt 1)))
      (fun lhs => Ok (stack, lhs, rhs)) in
  let to_rhs :=
    rbind (plus_fnode div_int div_real fnode_key td fuel rhs curr)
      (fun rhs => Ok (stack, lhs, rhs)) in
  if only_params curr then to_rhs
  else
    match curr with
    | Symbol _ _ _ => plus_one curr
    | Plus l => Ok (rev l ++ stack, lhs, rhs)
    | Minus a b => Ok (td (Times [m_one; b]) :: a :: stack, lhs, rhs)
    | Times l =>
        rbind (parse_factors (S (fnode_size curr)) l (PInt 1) [] [])
          (fun csp =>
        let '(const, symbs, _params) := csp in
        rbind (mgr_Times (sorted fnode_key symbs)) (fun symbs =>
        rbind (number ty const) (fun c =>
        rbind (mgr_Times (c :: _params)) (fun coeff =>
        rbind (lhs_update ty lhs symbs
                 (fun x => plus_fnode div_int div_real fnode_key td fuel
                             x coeff))
          (fun lhs => Ok (stack, lhs, rhs))))))
    | Div _ _ => plus_one curr
    | ToReal a =>
        rbind (rassert (is_symbol a)) (fun _ =>
        if mem_symb a params then to_rhs else plus_one curr)
    | _ => Raise AssertionError
    end.

(** The loop [while stack], with fuel. *)
Fixpoint parse_loop (fuel : nat) (ty : PySMTType) (stack : list FNode)
    (lhs : list (FNode * Expr)) (rhs : Expr) {struct fuel}
  : result (list (FNode * Expr) * Expr) :=
  match fuel with
  | O => Raise OutOfFuel
  | S fuel' =>
      match stack with
      | [] => Ok (lhs, rhs)
      | curr :: stack =>
          rbind (parse_step fuel' ty curr stack lhs rhs) (fun st =>
          let '(stack, lhs, rhs) := st in
          parse_loop fuel' ty stack lhs rhs)
      end
  end.

(** [for expr in lhs.values(): expr.times_fnode(expr.number(-1))]. *)
Fixpoint negate_all (fuel : nat) (lhs : list (FNode * Expr))
  : result (list (FNode * Expr)) :=
  match lhs with
  | [] => Ok []
  | (k, expr) :: rest =>
      rbind (times_fnode div_int div_real fnode_key td fuel expr
               (number_Z (expr_type expr) (-1))) (fun expr =>
      rbind (negate_all fuel rest) (fun rest => Ok ((k, expr) :: rest)))
  end.

(** The state when the loop of [_parse] is over: the sum of [lhs] and
    [rhs] is the difference of the two sides. *)
Definition parse_sides (fuel : nat) (ty : PySMTType) (arg0 arg1 : FNode)
  : result (list (FNode * Expr) * Expr) :=
  let m_one := number_Z ty (-1) in
  rbind (Expr_init div_int div_real fnode_key td fuel ty None None None)
    (fun rhs =>
  parse_loop fuel ty [td (Times [m_one; arg1]); td arg0] [] rhs).

(** [Ineq._parse]. *)
Definition _parse (fuel : nat) (ineq : FNode)
  : result (list (FNode * Expr) * Expr) :=
  match ineq with
  | Equals arg0 arg1 | LE arg0 arg1 | LT arg0 arg1 =>
      rbind (match get_type arg0 with
             | Some ty => Ok ty
             | None => Raise TypeError
             end) (fun ineq_type =>
      rbind (rassert (is_arith ineq_type)) (fun _ =>
      rbind (Expr_init div_int div_real fnode_key td fuel ineq_type
               None None (Some (PInt (-1)))) (fun m_one_expr =>
      rbind (parse_sides fuel ineq_type arg0 arg1) (fun lr =>
      let '(lhs, rhs) := lr in
      let negate_rhs :=
        rbind (times fnode_key rhs [m_one_expr]) (fun rhs =>
        Ok (lhs, rhs)) in
      if is_equals ineq then
        (* minimise number of -1 *)
        let (tot_coefs, neg_coefs) := count_coefs lhs in
        if (tot_coefs <? 2 * neg_coefs)%nat then
          rbind (negate_all fuel lhs) (fun lhs => Ok (lhs, rhs))
        else negate_rhs
      else negate_rhs))))
  | _ => Raise AssertionError
  end.

(** [Ineq.__init__]; the solver self-check of the debug build is not
    part of the model. *)
Definition Ineq_init (fuel : nat) (ineq : FNode) : result Ineq :=
  rbind (rassert (is_equals ineq || is_le ineq || is_lt ineq)) (fun _ =>
  let ty := if is_le ineq then Ineq_LE
            else if is_lt ineq then Ineq_LT else Ineq_EQ in
  rbind (_parse fuel ineq) (fun lr =>
  Ok (mkIneq params ty (fst lr) (snd lr)))).
End Parse.

Section PysmtIneq.
Variable fnode_key : FNode -> Z.

(** [Ineq.pysmt_ineq]. *)
Definition pysmt_ineq (i : Ineq) : result FNode :=
  rbind (rmap (fun kv : FNode * Expr =>
                 if is_one (snd kv) then Ok (fst kv)
                 else rbind (pysmt_expr fnode_key (snd kv)) (fun v =>
                      mgr_Times [fst kv; v]))
           (filter (fun kv => negb (is_zero (snd kv))) (_lhs i)))
    (fun terms =>
  let expr := sorted fnode_key terms in
  rbind (match expr with
         | [] => Ok (number_Z (expr_type (_rhs i)) 0)
         | _ => mgr_Plus expr
         end) (fun expr =>
  rbind (pysmt_expr fnode_key (_rhs i)) (fun rhs =>
  if Z.eqb (_type i) Ineq_EQ then Ok (Equals expr rhs)
  else if Z.eqb (_type i) Ineq_LE then Ok (LE expr rhs)
  else
    rbind (rassert (Z.eqb (_type i) Ineq_LT)) (fun _ =>
    Ok (LT expr rhs))))).
End PysmtIneq.

(** ** The meaning of the two sides of an [Ineq] *)

Section IneqValue.
Variable div_int : Z -> Z -> Z.
Variable div_real : Qc -> Qc -> Qc.

Local Open Scope Qc_scope.

(** The value of [lhs]: the sum of monomial times coefficient. *)
Definition lhs_sem (e : env) (lhs : list (FNode * Expr)) : Qc :=
  fold_right
    (fun kv acc =>
       aeval div_int div_real e (fst kv) *
       coef_sem div_int div_real e (symb2coef (snd kv)) + acc)
    0 lhs.
End IneqValue.

(** The coefficients below zero of a coefficient map, of [lhs], and the
    ones above zero. *)
Definition neg_count (d : list (FNode * PyNum)) : nat :=
  List.length (filter (fun kv => num_ltb (snd kv) (PInt 0)) d).

Definition pos_count (d : list (FNode * PyNum)) : nat :=
  List.length (filter (fun kv => num_ltb (PInt 0) (snd kv)) d).

Definition nonzero_count (d : list (FNode * PyNum)) : nat :=
  List.length (filter (fun kv => negb (num_eqb (snd kv) (PInt 0))) d).

Definition lhs_count (f : list (FNode * PyNum) -> nat)
    (lhs : list (FNode * Expr)) : nat :=
  fold_right (fun kv n => (f (symb2coef (snd kv)) + n)%nat) O lhs.

(** The coefficients below zero of an LHS/RHS pair: those of the
    coefficient expressions of [lhs] and those of [rhs]. *)
Definition pair_neg_count (lhs : list (FNode * Expr)) (rhs : Expr) : nat :=
  (lhs_count neg_count lhs + neg_count (symb2coef rhs))%nat.

(** The state of [_parse] between two iterations: every coefficient
    expression and [rhs] are of the type of the inequality, with
    well-formed maps. *)
Definition expr_ok (ty : PySMTType) (x : Expr) : Prop :=
  expr_type x = ty /\ dict_ok ty (symb2coef x).

Definition lhs_ok (ty : PySMTType) (lhs : list (FNode * Expr)) : Prop :=
  Forall (fun kv => expr_ok ty (snd kv)) lhs.

Section Parses.
Variable div_int : Z -> Z -> Z.
Variable div_real : Qc -> Qc -> Qc.
Variable fnode_key : FNode -> Z.
Variable td : FNode -> FNode.
Variable params : list FNode.
Variable ty : PySMTType.

Local Open Scope Qc_scope.

(** The loop of [_parse] takes the terms [ts] off the stack: the
    state it goes on with keeps the invariants and has added their
    values, and what the loop returns from there it returns from
    here, with [k] more units of fuel. *)
Definition parses (ts : list FNode) : Prop :=
  forall stack lhs rhs,
    lhs_ok ty lhs -> expr_ok ty rhs ->
    exists k lhs' rhs',
      lhs_ok ty lhs' /\ expr_ok ty rhs' /\
      (forall e,
          lhs_sem div_int div_real e lhs' +
          coef_sem div_int div_real e (symb2coef rhs') =
          lhs_sem div_int div_real e lhs +
          coef_sem div_int div_real e (symb2coef rhs) +
          sum_of div_int div_real e ts) /\
      forall fuel r,
        parse_loop div_int div_real fnode_key td params fuel ty
          stack lhs' rhs' = Ok r ->
        parse_loop div_int div_real fnode_key td params (k + fuel) ty
          (ts ++ stack) lhs rhs = Ok r.
End Parses.

(** ** More of Location and Hint *)

(** [Location.dsts]: the keys of [progressT], which must all be [int]s. *)
Definition is_int_key (k : pykey) : bool :=
  match k with KInt _ => true | KNode _ => false end.

Definition dsts (l : Location) : result (list Z) :=
  rbind (rassert (forallb is_int_key (dict_keys (progressT l)))) (fun _ =>
  Ok (flat_map (fun k => match k with KInt z => [z] | KNode _ => [] end)
        (dict_keys (progressT l)))).

(** [Hint.__len__] and [Hint.__getitem__]. *)
Definition Hint_len (h : Hint) : Z := Z.of_nat (List.length (locs h)).

Definition Hint_getitem (h : Hint) (idx : Z) : result Location :=
  rbind (rassert (0 <=? idx)) (fun _ =>
  rbind (rassert (idx <? Hint_len h)) (fun _ =>
  py_index (locs h) idx)).

(** [len(h0.owned_symbs & h1.owned_symbs) > 0]. *)
Definition share_symbs (h0 h1 : Hint) : bool :=
  existsb (fun s => mem_symb s (owned_symbs h1)) (owned_symbs h0).

(** The loop of [Hint.disjoint_symbs] over [zip(hints, active)]: the
    inner loop runs over the pairs that follow. *)
Fixpoint disjoint_clauses (pairs : list (Hint * FNode)) : list FNode :=
  match pairs with
  | [] => []
  | (h0, h0_active) :: rest =>
      let h_lst :=
        map snd (filter (fun p => share_symbs h0 (fst p)) rest) in
      (if (0 <? List.length h_lst)%nat
       then [Implies h0_active (mgr_And (map mgr_Not h_lst))]
       else []) ++ disjoint_clauses rest
  end.

(** The generator [Hint.disjoint_symbs]. *)
Definition disjoint_symbs (hints : list Hint) (active : list FNode)
  : Gen unit :=
  gbind (gassert (Nat.eqb (List.length hints) (List.length active)))
    (fun _ => (disjoint_clauses (combine hints active), Ok tt)).

(** A hint that [get_trans_system] has compiled: the attributes it
    reads hold a value. *)
Definition compiled (h : Hint) : bool :=
  is_some (ts_loc_symbs h) && is_some (ts_lvals h) &&
  is_some (trans_type_symbs h) && is_some (t_is_stutter h) &&
  is_some (t_is_ranked h) && is_some (t_is_progress h) &&
  is_some (is_rank_decr h).

(** The regions and the assumptions of the locations are over the
    current-state symbols of the hint. *)
Definition locs_closed (h : Hint) : bool :=
  forallb (fun l => symbols_ok (renamed (all_symbs h)) (region l) &&
                    symbols_ok (renamed (all_symbs h)) (assume l))
    (locs h).

(** ** More of Expr and Ineq *)

(** [Expr.clone()], without a function: the entries that are not
    zero. *)
Definition clone (e : Expr) : result Expr :=
  rbind (rassert (is_arith (expr_type e))) (fun _ =>
  Ok (mkExpr (expr_type e)
        (filter (fun kv => negb (num_eqb (snd kv) (PInt 0))) (symb2coef e)))).

Section Clone.
Variable div_int : Z -> Z -> Z.
Variable div_real : Qc -> Qc -> Qc.
Variable fnode_key : FNode -> Z.
Variable td : FNode -> FNode.

(** [Expr.clone(f)]: the function is applied to the keys and to the
    coefficients; [f_key] and [f_coef] are what it does on each. *)
Fixpoint clone_loop (f_key : FNode -> FNode) (f_coef : PyNum -> FNode)
    (fuel : nat) (items : list (FNode * PyNum)) (res : Expr)
  : result Expr :=
  match items with
  | [] => Ok res
  | (k, v) :: items' =>
      if negb (num_eqb v (PInt 0)) then
        rbind (times_fnode div_int div_real fnode_key td fuel res
                 (Times [f_key k; f_coef v])) (fun res =>
        clone_loop f_key f_coef fuel items' res)
      else clone_loop f_key f_coef fuel items' res
  end.

Definition clone_with (f_key : FNode -> FNode) (f_coef : PyNum -> FNode)
    (fuel : nat) (e : Expr) : result Expr :=
  rbind (rassert (is_arith (expr_type e))) (fun _ =>
  clone_loop f_key f_coef fuel (symb2coef e) (mkExpr (expr_type e) [])).
End Clone.

(** [Ineq.is_eq], [Ineq.is_lt] and [Ineq.is_le]. *)
Definition Ineq_is_eq (i : Ineq) : bool := Z.eqb (_type i) Ineq_EQ.
Definition Ineq_is_lt (i : Ineq) : bool := Z.eqb (_type i) Ineq_LT.
Definition Ineq_is_le (i : Ineq) : bool := Z.eqb (_type i) Ineq_LE.

(** The loop of [Ineq.to_real] over the items of [lhs]. *)
Fixpoint lhs_to_real (items new_lhs : list (FNode * Expr))
  : result (list (FNode * Expr)) :=
  match items with
  | [] => Ok new_lhs
  | (k, v) :: items' =>
      rbind (rassert (has_type (get_type k) INT)) (fun _ =>
      rbind (rassert (PySMTType_eqb (expr_type v) INT)) (fun _ =>
      rbind (get_real v) (fun v' =>
      lhs_to_real items' (dict_set FNode_eqb new_lhs (ToReal k) v'))))
  end.

(** [Ineq.to_real]. *)
Definition Ineq_to_real (i : Ineq) : result Ineq :=
  rbind (if negb (PySMTType_eqb (expr_type (_rhs i)) REAL) then
           rbind (if Ineq_is_lt i
                  then rbind (plus_const (_rhs i) (PInt (-1))) (fun r =>
                       Ok (r, Ineq_LE))
                  else Ok (_rhs i, _type i)) (fun rt =>
           rbind (get_real (fst rt)) (fun rhs =>
           rbind (lhs_to_real (_lhs i) []) (fun lhs =>
           Ok (mkIneq (ineq_params i) (snd rt) lhs rhs))))
         else Ok i) (fun i =>
  rbind (rassert (PySMTType_eqb (expr_type (_rhs i)) REAL)) (fun _ =>
  rbind (rassert (forallb (fun kv => has_type (get_type (fst kv)) REAL)
                    (_lhs i))) (fun _ =>
  rbind (rassert (forallb (fun kv => PySMTType_eqb (expr_type (snd kv)) REAL)
                    (_lhs i))) (fun _ =>
  Ok i)))).

Section IneqHolds.
Variable div_int : Z -> Z -> Z.
Variable div_real : Qc -> Qc -> Qc.

(** The relation of an [Ineq] between two values. *)
Definition rel_of (ty : Z) (a b : Qc) : bool :=
  if Z.eqb ty Ineq_EQ then Qc_eqb a b
  else if Z.eqb ty Ineq_LE then Qc_leb a b
  else Qc_ltb a b.

(** An [Ineq] holds where the value of [lhs] is in its relation with
    the value of [rhs]. *)
Definition ineq_holds (e : env) (i : Ineq) : bool :=
  rel_of (_type i) (lhs_sem div_int div_real e (_lhs i))
    (coef_sem div_int div_real e (symb2coef (_rhs i))).

(** The relation of an equality or inequality term. *)
Definition term_rel (t : FNode) : Z :=
  if is_le t then Ineq_LE else if is_lt t then Ineq_LT else Ineq_EQ.
End IneqHolds.

(** An integral rational. *)
Definition integral (q : Qc) : Prop := exists z : Z, q = Z2Qc z.

(** A clause guarded by the location value [l]: an implication whose
    antecedent is [l] or a conjunction that starts with [l]. *)
Definition guarded_by (l c : FNode) : bool :=
  match c with
  | Implies a _ =>
      FNode_eqb a l ||
      match a with
      | And (a0 :: _) => FNode_eqb a0 l
      | _ => false
      end
  | _ => false
  end.

(** [i] is an index of the Python list [l], counted from either end. *)
Definition in_range {A : Type} (l : list A) (i : Z) : bool :=
  (- Z.of_nat (List.length l) <=? i) && (i <? Z.of_nat (List.length l)).

Section Apart.
Variable div_int : Z -> Z -> Z.
Variable div_real : Qc -> Qc -> Qc.

(** Two hints, each with its activation predicate: if they share an
    owned symbol, they are not both active. *)
Definition apart (e : env) (p q : Hint * FNode) : Prop :=
  share_symbs (fst p) (fst q) = true ->
  beval div_int div_real e (snd p) && beval div_int div_real e (snd q)
  = false.
End Apart.

Module SampleIneq.
(** x < 3 over the integers, as an [Ineq]. *)
Definition lt_x_3 : Ineq :=
  mkIneq [] Ineq_LT
    [(Sample.x, mkExpr INT [(IntC 1, PInt 1)])]
    (mkExpr INT [(IntC 1, PInt 3)]).
End SampleIneq.

Module SampleHint.
(** A location with the ranked transition x' = x - 1 and no ranking
    function. *)
Definition loc_no_rf : Location :=
  Location_init TRUE None None (Some Sample.decr) None None.
End SampleHint.

(** * Properties *)

(** ** Equality of nodes *)

Lemma Qc_eqb_eq (a b : Qc) : Qc_eqb a b = true <-> a = b.
Proof.
  unfold Qc_eqb. rewrite Qeq_bool_iff. split.
  - apply Qc_is_canon.
  - intros ->. reflexivity.
Qed.

Lemma PySMTType_eqb_eq (a b : PySMTType) : PySMTType_eqb a b = true <-> a = b.
Proof. destruct a, b; simpl; split; congruence. Qed.

Lemma FNode_eqb_list_unfold (l1 l2 : list FNode) :
  (fix all2 (l1 l2 : list FNode) {struct l1} : bool :=
     match l1, l2 with
     | [], [] => true
     | x :: xs, y :: ys => FNode_eqb x y && all2 xs ys
     | _, _ => false
     end) l1 l2 = FNode_list_eqb l1 l2.
Proof.
  destruct l1, l2; reflexivity.
Qed.

Lemma FNode_list_eqb_eq (l1 l2 : list FNode) :
  Forall (fun s => forall t, FNode_eqb s t = true <-> s = t) l1 ->
  FNode_list_eqb l1 l2 = true <-> l1 = l2.
Proof.
  intros H. revert l2. induction H as [|x xs Hx _ IH]; intros [|y ys]; simpl;
    try (split; congruence).
  rewrite andb_true_iff, Hx, IH. split.
  - intros [-> ->]. reflexivity.
  - intros E. injection E as -> ->. auto.
Qed.

Lemma FNode_eqb_eq (s t : FNode) : FNode_eqb s t = true <-> s = t.
Proof.
  revert t. induction s using FNode_ind'; intros t; destruct t; simpl;
    try (split; congruence);
    try (rewrite FNode_eqb_list_unfold, FNode_list_eqb_eq by assumption;
         split; congruence);
    try (rewrite andb_true_iff, IHs1, IHs2; split;
         [intros [-> ->]; reflexivity | intros E; injection E as -> ->; auto]);
    try (rewrite IHs; split; congruence).
  - rewrite !andb_true_iff, String.eqb_eq, PySMTType_eqb_eq, Bool.eqb_true_iff.
    split.
    + intros [[-> ->] ->]. reflexivity.
    + intros E. injection E as -> -> ->. auto.
  - rewrite Bool.eqb_true_iff. split; congruence.
  - rewrite Z.eqb_eq. split; congruence.
  - rewrite Qc_eqb_eq. split; congruence.
Qed.

Lemma FNode_eqb_refl (t : FNode) : FNode_eqb t t = true.
Proof. now apply FNode_eqb_eq. Qed.

Lemma pykey_eqb_eq (a b : pykey) : pykey_eqb a b = true <-> a = b.
Proof.
  destruct a, b; simpl; try (split; congruence).
  - rewrite Z.eqb_eq. split; congruence.
  - rewrite FNode_eqb_eq. split; congruence.
Qed.

(** ** Generators and results *)

Lemma gbind_silent {A B : Type} (a : A) (f : A -> Gen B) :
  gbind ([], Ok a) f = f a.
Proof. unfold gbind. destruct (f a). reflexivity. Qed.

Lemma gbind_raise {A B : Type} (out : list FNode) (e : exn) (f : A -> Gen B) :
  gbind (out, Raise e) f = (out, Raise e).
Proof. reflexivity. Qed.

Lemma gbind_assert {B : Type} (b : bool) (f : unit -> Gen B) :
  gbind (gassert b) f = if b then f tt else ([], Raise AssertionError).
Proof. destruct b; [apply gbind_silent | reflexivity]. Qed.

Lemma gbind_yield {B : Type} (t : FNode) (f : unit -> Gen B) :
  gbind (yield t) f = (t :: emitted (f tt), outcome (f tt)).
Proof. unfold gbind, yield, emitted, outcome. destruct (f tt). reflexivity. Qed.

Lemma gbind_lift {A B : Type} (r : result A) (f : A -> Gen B) :
  gbind (glift r) f =
  match r with Ok a => f a | Raise e => ([], Raise e) end.
Proof. destruct r; [apply gbind_silent | reflexivity]. Qed.

Lemma gen_eta {A : Type} (g : Gen A) : g = (emitted g, outcome g).
Proof. destruct g. reflexivity. Qed.

(** ** Location.set_progress *)

Lemma dict_pop_other_kind (d : list (pykey * FNode)) (t : FNode) :
  Forall (fun kv => exists z, fst kv = KInt z) d ->
  dict_pop pykey_eqb d (KNode t) = d.
Proof.
  induction 1 as [|[k v] d [z Hk] _ IH]; simpl in *; [reflexivity|].
  subst k. simpl. now rewrite IH.
Qed.

Lemma dict_get_pop_other_kind (d : list (pykey * FNode)) (t : FNode) (z : Z) :
  dict_get pykey_eqb (dict_pop pykey_eqb d (KNode t)) (KInt z) =
  dict_get pykey_eqb d (KInt z).
Proof.
  induction d as [|[k v] d IH]; simpl; [reflexivity|].
  destruct k as [z'|t']; simpl.
  - now rewrite IH.
  - destruct (FNode_eqb t t'); simpl; [reflexivity | exact IH].
Qed.

(** Whatever the keys of the dictionary, a FALSE term leaves every
    integer destination as it was. *)
Lemma set_progress_false_keeps_all (l : Location) (dst : Z) (t : FNode) :
  0 <= dst -> is_false t = true ->
  exists l', set_progress l dst t = Ok l' /\
             forall z, progress l' z = progress l z.
Proof.
  intros Hdst Ht. unfold set_progress.
  replace (0 <=? dst) with true by (symmetry; now apply Z.leb_le).
  simpl. rewrite Ht. eexists. split; [reflexivity|].
  intros z. unfold progress. simpl. apply dict_get_pop_other_kind.
Qed.

Lemma dict_set_values_ok (P : FNode -> Prop) (d : list (pykey * FNode))
    (k : pykey) (v : FNode) :
  P v -> Forall P (dict_values d) ->
  Forall P (dict_values (dict_set pykey_eqb d k v)).
Proof.
  intros Hv. induction d as [|[k' v'] d IH]; simpl; intros H.
  - constructor; [exact Hv | constructor].
  - inversion H; subst. destruct (pykey_eqb k k'); simpl; constructor; auto.
Qed.

Lemma dict_pop_values_ok (P : FNode -> Prop) (d : list (pykey * FNode))
    (k : pykey) :
  Forall P (dict_values d) -> Forall P (dict_values (dict_pop pykey_eqb d k)).
Proof.
  induction d as [|[k' v'] d IH]; simpl; intros H; [constructor|].
  inversion H; subst. destruct (pykey_eqb k k'); simpl; auto.
Qed.

(** [set_progress] never stores a FALSE term. *)
Lemma set_progress_stores_no_false (l l' : Location) (dst : Z) (t : FNode) :
  Forall (fun v => is_false v = false) (dict_values (progressT l)) ->
  set_progress l dst t = Ok l' ->
  Forall (fun v => is_false v = false) (dict_values (progressT l')).
Proof.
  intros H. unfold set_progress. destruct (0 <=? dst); simpl; [|discriminate].
  destruct (is_false t) eqn:Ht; intros E; injection E as <-; simpl.
  - now apply dict_pop_values_ok.
  - now apply dict_set_values_ok.
Qed.

(** C2, the code at the failing input: the location holds the progress
    edge 0 -> x' = x + 1; after [set_progress(0, FALSE)] the call
    [progress(0)] still returns that edge, and the edge is still in the
    dictionary. The claim has it removed. *)
Theorem set_progress_false_keeps_edge :
  exists l',
    set_progress Sample.loc_edge 0 FALSE = Ok l' /\
    progress l' 0 = Some Sample.incr /\
    progressT l' = progressT Sample.loc_edge.
Proof. eexists. repeat split. Qed.

(** ** Location.set_rank *)

(** C10: for a location built without ranked transition and ranking
    function, after [set_rank(trans, rf)] the attribute [rankT] is still
    FALSE, [rf] is still [None], [ranked_region] is still FALSE,
    [get_trans] behaves as before the call, whatever its arguments, and
    its ranked-transition part and the type list of its self-transition
    emit and hold nothing about [trans] or [rf]: they are those of the
    location before the call, with no RANKED entry. *)
Theorem set_rank_unobservable (region : FNode) (assume stutterT : option FNode)
    (progressT : option (list (pykey * FNode))) (trans : FNode) (r : RankFun) :
  let l := Location_init region assume stutterT None None progressT in
  let l' := set_rank l trans r in
  rankT l' = FALSE /\
  rf l' = None /\
  ranked_region l' = FALSE /\
  (forall dst, progress l' dst = progress l dst) /\
  (forall idx lvals x_lvals symbs st rk pr rd,
      get_trans l' idx lvals x_lvals symbs st rk pr rd =
      get_trans l idx lvals x_lvals symbs st rk pr rd) /\
  (forall rk lv x_lv, ranked_clauses l' rk lv x_lv = gret tt) /\
  (forall idx st rk pr,
      self_types l' idx st rk pr =
      gret ((if negb (is_false (or_default stutterT FALSE)) then [st] else [])
            ++ (if is_some (progress l idx) then [pr] else []), None)).
Proof.
  intros l l'. repeat split.
  intros idx st rk pr. unfold self_types. simpl.
  change (progress l' idx) with (progress l idx).
  destruct (progress l idx); simpl; [reflexivity|].
  now rewrite app_nil_r.
Qed.

(** ** Location.get_trans *)

Lemma get_trans_pre_silent (self : Location) (symbs : list FNode)
    (st rk pr rd : FNode) :
  get_trans_pre self symbs st rk pr rd = ([], Ok tt) \/
  get_trans_pre self symbs st rk pr rd = ([], Raise AssertionError).
Proof.
  unfold get_trans_pre. rewrite !gbind_assert. unfold gassert, glift, rassert.
  repeat match goal with
         | |- context [if ?b then _ else _] => destruct b
         end; auto.
Qed.

Lemma self_types_silent (self : Location) (idx : Z) (st rk pr : FNode) :
  emitted (self_types self idx st rk pr) = [].
Proof.
  unfold self_types.
  destruct (negb (is_false (rankT self))).
  - rewrite !gbind_assert.
    destruct (negb (is_false rk)); [|reflexivity].
    destruct (rf self) as [r|]; simpl; reflexivity.
  - reflexivity.
Qed.

Lemma other_locs_silent (idx : Z) (x_lvals : list FNode) (pr : FNode)
    (min_rf : option FNode) (keys : list pykey) :
  emitted (other_locs idx x_lvals pr min_rf keys) = [].
Proof.
  induction keys as [|dst keys IH]; simpl; [reflexivity|].
  destruct (key_is dst idx); [exact IH|].
  destruct (x_lval_of x_lvals dst); [|reflexivity].
  rewrite (gen_eta (other_locs idx x_lvals pr min_rf keys)), IH.
  destruct (outcome (other_locs idx x_lvals pr min_rf keys)); reflexivity.
Qed.

(** The type list of the self-transition disjunct, when the ranked
    transition of the location is not FALSE. *)
Lemma self_types_ranked (self : Location) (idx : Z) (st rk pr : FNode)
    (t_type : list FNode) (min_rf : option FNode) :
  is_false (rankT self) = false ->
  outcome (self_types self idx st rk pr) = Ok (t_type, min_rf) ->
  exists r,
    rf self = Some r /\
    min_rf = Some (rf_is_min r) /\
    t_type =
      (if negb (is_false (stutterT self)) then [st] else []) ++
      [mgr_And [rk; rf_is_ranked r]] ++
      (if is_some (progress self idx)
       then [mgr_And [pr; rf_is_min r]] else []).
Proof.
  intros HrankT. unfold self_types. rewrite HrankT. simpl negb at 2.
  cbv iota. rewrite !gbind_assert.
  destruct (negb (is_false rk)); [|discriminate].
  destruct (rf self) as [r|]; [|discriminate].
  simpl. intros E. exists r.
  destruct (progress self idx); simpl in *; injection E as <- <-;
    rewrite <- ?app_assoc; auto.
Qed.

(** C3 as amended: when the ranked transition of the location is not
    FALSE (the location then has a ranking function), the first clause
    that [get_trans] emits is [lvals[idx] -> \/ x_locs], whose
    self-transition disjunct [x_lvals[idx] /\ \/ t_type] has in
    [t_type], in this order: the STUTTER selector if the stutter
    transition is not FALSE; the RANKED selector conjoined with
    [rf.is_ranked()], whatever the progress set; and, exactly when the
    progress set of the location contains [idx], the PROGRESS selector
    conjoined with [rf.is_min()]. *)
Theorem get_trans_ranked_case (self : Location) (idx : Z)
    (lvals x_lvals symbs : list FNode) (st rk pr rd : FNode)
    (c : FNode) (out : list FNode) (res : result unit) :
  is_false (rankT self) = false ->
  get_trans self idx lvals x_lvals symbs st rk pr rd = (c :: out, res) ->
  exists r l x_l others,
    rf self = Some r /\
    py_index lvals idx = Ok l /\
    py_index x_lvals idx = Ok x_l /\
    c = Implies l
          (mgr_Or
             (mgr_And
                [x_l;
                 mgr_Or
                   ((if negb (is_false (stutterT self)) then [st] else []) ++
                    [mgr_And [rk; rf_is_ranked r]] ++
                    (if is_some (progress self idx)
                     then [mgr_And [pr; rf_is_min r]] else []))]
              :: others)).
Proof.
  intros HrankT. unfold get_trans.
  destruct (get_trans_pre_silent self symbs st rk pr rd) as [-> | ->];
    [rewrite gbind_silent | discriminate].
  rewrite (gen_eta (self_types self idx st rk pr)), self_types_silent.
  destruct (outcome (self_types self idx st rk pr)) as [[t_type min_rf]|e] eqn:Hs;
    [rewrite gbind_silent | discriminate].
  destruct (self_types_ranked _ _ _ _ _ _ _ HrankT Hs) as (r & Hrf & -> & ->).
  rewrite gbind_lift.
  destruct (py_index x_lvals idx) as [x_l|]; [|discriminate].
  rewrite (gen_eta (other_locs _ _ _ _ _)), other_locs_silent.
  destruct (outcome (other_locs _ _ _ _ _)) as [others|];
    [rewrite gbind_silent | discriminate].
  rewrite gbind_lift.
  destruct (py_index lvals idx) as [l|]; [|discriminate].
  rewrite gbind_yield. intros E. injection E as <- _ _.
  exists r, l, x_l, others. auto.
Qed.

Lemma get_trans_ranked_case_witness :
  exists r l x_l others,
    rf Sample.loc_ranked = Some r /\
    py_index Sample.lvals 0 = Ok l /\
    py_index Sample.x_lvals 0 = Ok x_l /\
    Implies Sample.l0
      (Or [And [symb2next Sample.l0;
                Or [Sample.sel_stutter;
                    And [Sample.sel_ranked; LT (IntC 0) Sample.x]]];
           And [symb2next Sample.l1; Sample.sel_progress;
                LE Sample.x (IntC 0)]]) =
    Implies l
      (mgr_Or
         (mgr_And
            [x_l;
             mgr_Or
               ((if negb (is_false (stutterT Sample.loc_ranked))
                 then [Sample.sel_stutter] else []) ++
                [mgr_And [Sample.sel_ranked; rf_is_ranked r]] ++
                (if is_some (progress Sample.loc_ranked 0)
                 then [mgr_And [Sample.sel_progress; rf_is_min r]] else []))]
          :: others)).
Proof.
  eapply (get_trans_ranked_case Sample.loc_ranked 0 Sample.lvals
            Sample.x_lvals [] Sample.sel_stutter Sample.sel_ranked
            Sample.sel_progress Sample.flag_rank_decr).
  - reflexivity.
  - vm_compute. reflexivity.
Defined.

(** C3, the claim as stated fails: the location [loc_ranked] has a
    ranking function and no progress edge to itself, yet its
    self-transition disjunct has the RANKED case (conjoined with
    [rf.is_ranked()], the rank above its minimum); and for
    [loc_ranked_self], whose progress set contains [idx], no disjunct is
    the RANKED selector conjoined with [rf.is_min()]. *)
Lemma ranked_case_as_specified_fails :
  ~ ranked_case_as_specified Sample.loc_ranked 0
      Sample.sel_stutter Sample.sel_ranked Sample.sel_progress /\
  ~ ranked_case_as_specified Sample.loc_ranked_self 0
      Sample.sel_stutter Sample.sel_ranked Sample.sel_progress.
Proof.
  split; intros H.
  - destruct (H Sample.rank_x
                [Sample.sel_stutter;
                 And [Sample.sel_ranked; LT (IntC 0) Sample.x]]
                (Some (LE Sample.x (IntC 0))) eq_refl eq_refl) as [_ H2].
    specialize (H2 eq_refl). discriminate H2.
  - destruct (H Sample.rank_x
                [Sample.sel_stutter;
                 And [Sample.sel_ranked; LT (IntC 0) Sample.x];
                 And [Sample.sel_progress; LE Sample.x (IntC 0)]]
                (Some (LE Sample.x (IntC 0))) eq_refl eq_refl) as [H1 _].
    specialize (H1 eq_refl). simpl in H1.
    repeat (destruct H1 as [H1 | H1]; [discriminate H1|]). exact H1.
Qed.

(** C4 as amended: [get_trans] has no assertion on the stutter and
    progress of the location. For a location whose stutter and ranked
    transitions are FALSE and whose progress map is empty, when the
    arguments pass the assertions of [get_trans] and [idx] is an index
    of the two value lists, the clause [lvals[idx] -> (x_lvals[idx] /\
    FALSE)] is emitted first; what follows are the clauses and the
    outcome of the rank-decrease flag part alone. *)
Theorem get_trans_dead_location (self : Location) (idx : Z)
    (lvals x_lvals symbs : list FNode) (st rk pr rd l x_l : FNode) :
  is_false (stutterT self) = true ->
  is_false (rankT self) = true ->
  progressT self = [] ->
  get_trans_pre self symbs st rk pr rd = ([], Ok tt) ->
  py_index lvals idx = Ok l ->
  py_index x_lvals idx = Ok x_l ->
  get_trans self idx lvals x_lvals symbs st rk pr rd =
  (Implies l (mgr_And [x_l; FALSE])
     :: emitted (rank_decr_clauses self rk rd l),
   outcome (rank_decr_clauses self rk rd l)).
Proof.
  intros Hst Hrk Hpr Hpre Hl Hxl.
  unfold get_trans, self_types, stutter_clauses, ranked_clauses, progress.
  rewrite Hpre, Hst, Hrk, Hpr, Hl, Hxl. simpl.
  destruct (rank_decr_clauses self rk rd l). reflexivity.
Qed.

Lemma get_trans_dead_location_witness :
  get_trans Sample.loc_dead 0 Sample.lvals Sample.x_lvals []
    Sample.sel_stutter FALSE Sample.sel_progress FALSE =
  ([Implies Sample.l0 (And [symb2next Sample.l0; FALSE])], Ok tt).
Proof.
  exact (get_trans_dead_location Sample.loc_dead 0 Sample.lvals
           Sample.x_lvals [] Sample.sel_stutter FALSE Sample.sel_progress
           FALSE Sample.l0 (symb2next Sample.l0)
           eq_refl eq_refl eq_refl eq_refl eq_refl eq_refl).
Defined.

(** C4, the claim as stated fails: [loc_dead] has a FALSE stutter
    transition and an empty progress map, and [get_trans] raises
    nothing on it and emits a clause. *)
Lemma dead_location_rejected_fails :
  ~ dead_location_rejected Sample.loc_dead 0 Sample.lvals Sample.x_lvals []
      Sample.sel_stutter FALSE Sample.sel_progress FALSE.
Proof.
  intros H. specialize (H eq_refl eq_refl). discriminate H.
Qed.

(** ** Hint: methods and the frozen location list *)

Lemma mbind_ok {A B : Type} (m : Meth A) (f : A -> Meth B) (h h' : Hint) (b : B) :
  mbind m f h = (h', Ok b) ->
  exists a h1, m h = (h1, Ok a) /\ f a h1 = (h', Ok b).
Proof.
  unfold mbind. destruct (m h) as [h1 [a|e]]; [eauto | discriminate].
Qed.

Lemma keeps_ret {A : Type} (a : A) : keeps (mret a).
Proof. intros h. auto. Qed.

Lemma keeps_lift {A : Type} (r : result A) : keeps (mlift r).
Proof. intros h. auto. Qed.

Lemma keeps_assert (b : bool) : keeps (massert b).
Proof. apply keeps_lift. Qed.

Lemma keeps_get {A : Type} (f : Hint -> A) : keeps (mget f).
Proof. intros h. auto. Qed.

Lemma keeps_attr {A : Type} (f : Hint -> option A) : keeps (mattr f).
Proof. intros h. auto. Qed.

Lemma keeps_attr_created {A : Type} (f : Hint -> option A) :
  keeps (mattr_created f).
Proof. intros h. auto. Qed.

Lemma keeps_set (f : Hint -> Hint) :
  (forall h, locs (f h) = locs h) ->
  (forall h, is_some (ts_loc_symbs h) = true ->
             is_some (ts_loc_symbs (f h)) = true) ->
  keeps (mset f).
Proof. intros H1 H2 h. simpl. auto. Qed.

Lemma keeps_bind {A B : Type} (m : Meth A) (f : A -> Meth B) :
  keeps m -> (forall a, keeps (f a)) -> keeps (mbind m f).
Proof.
  intros Hm Hf h. unfold mbind. specialize (Hm h).
  destruct (m h) as [h1 [a|e]]; simpl in *; [|exact Hm].
  destruct (Hf a h1) as [H1 H2]. destruct Hm as [H3 H4].
  split; [congruence | auto].
Qed.

Create HintDb keeps.
#[local] Hint Resolve keeps_ret keeps_lift keeps_assert keeps_get keeps_attr
  keeps_attr_created keeps_bind : keeps.

Lemma keeps_alloc_enums new_enum : keeps (alloc_enums new_enum).
Proof.
  unfold alloc_enums. apply keeps_bind; [auto with keeps|]. intros h.
  destruct (is_none (ts_loc_symbs h)); [|auto with keeps].
  apply keeps_bind; [auto with keeps|]. intros _.
  apply keeps_bind.
  - destruct (new_enum _ _) as [symbs vals].
    apply keeps_bind; [|auto with keeps].
    apply keeps_set; intros; reflexivity.
  - intros _. destruct (new_enum _ 3%nat) as [tsymbs vals].
    apply keeps_bind; [apply keeps_set; intros; auto|]. intros _.
    apply keeps_bind; [auto with keeps|]. intros _.
    destruct vals as [|s [|r [|p [|]]]]; auto with keeps.
    apply keeps_set; intros; auto.
Qed.

Lemma keeps_set_rank_flags (symbs : list FNode) : keeps (set_rank_flags symbs).
Proof.
  unfold set_rank_flags. apply keeps_bind; [auto with keeps|]. intros h.
  destruct (forallb _ _).
  - repeat (apply keeps_bind; [first [apply keeps_set; intros; auto
                                     | auto with keeps]|]; intros _).
    auto with keeps.
  - apply keeps_bind; [apply keeps_set; intros; auto | auto with keeps].
Qed.

Lemma keeps_get_trans_system new_enum active :
  keeps (get_trans_system new_enum active).
Proof.
  unfold get_trans_system.
  repeat first [ apply keeps_alloc_enums
               | apply keeps_set_rank_flags
               | apply keeps_bind; [|intros ?]
               | solve [auto with keeps] ].
Qed.

Lemma add_on_compiled (loc : Location) (h : Hint) :
  is_some (ts_loc_symbs h) = true -> add loc h = (h, Raise AssertionError).
Proof.
  unfold add, mbind, mget, massert, mlift. simpl.
  destruct (ts_loc_symbs h); [reflexivity | discriminate].
Qed.

Lemma set_locs_on_compiled (ls : list Location) (h : Hint) :
  is_some (ts_loc_symbs h) = true -> set_locs ls h = (h, Raise AssertionError).
Proof.
  unfold set_locs, mbind, mget, massert, mlift. simpl.
  destruct (ts_loc_symbs h); [reflexivity | discriminate].
Qed.

Lemma do_op_on_compiled new_enum (o : hint_op) (h : Hint) :
  is_some (ts_loc_symbs h) = true ->
  locs (do_op new_enum o h) = locs h /\
  is_some (ts_loc_symbs (do_op new_enum o h)) = true.
Proof.
  intros H. destruct o as [loc|ls|active]; simpl.
  - rewrite add_on_compiled by assumption. auto.
  - rewrite set_locs_on_compiled by assumption. auto.
  - destruct (keeps_get_trans_system new_enum active h). auto.
Qed.

Lemma do_ops_on_compiled new_enum (ops : list hint_op) (h : Hint) :
  is_some (ts_loc_symbs h) = true ->
  locs (do_ops new_enum ops h) = locs h /\
  is_some (ts_loc_symbs (do_ops new_enum ops h)) = true.
Proof.
  revert h. induction ops as [|o ops IH]; intros h H; simpl; [auto|].
  destruct (do_op_on_compiled new_enum o h H) as [H1 H2].
  destruct (IH _ H2) as [H3 H4]. unfold do_ops in *. split; congruence.
Qed.

(** A call of [get_trans_system] that returns has assigned the location
    encoding. *)
Lemma get_trans_system_assigns new_enum (active : FNode) (h h' : Hint)
    (res : TransSystem * FNode) :
  get_trans_system new_enum active h = (h', Ok res) ->
  is_some (ts_loc_symbs h') = true.
Proof.
  unfold get_trans_system. intros H.
  apply mbind_ok in H. destruct H as (_ & h1 & _ & H).
  apply mbind_ok in H. destruct H as (_ & h2 & _ & H).
  apply mbind_ok in H. destruct H as (ls & h3 & Hls & H).
  unfold mattr in Hls. destruct (ts_loc_symbs h2) as [ls'|] eqn:E; [|discriminate].
  injection Hls as <- _.
  match type of H with ?m _ = _ =>
    assert (K : keeps (fun h => m h)) end.
  { repeat first [ apply keeps_set_rank_flags
                 | apply keeps_bind; [|intros ?]
                 | solve [auto with keeps] ]. }
  destruct (K h2) as [_ K2]. rewrite H in K2. apply K2. now rewrite E.
Qed.

(** C9: once a call of [get_trans_system] has assigned the location
    encoding of a hint, every later [add] and [set_locs] raises an
    assertion error and leaves the hint as it is, and whatever sequence
    of [add], [set_locs] and [get_trans_system] follows, the location
    list stays the one of the compiled hint. *)
Theorem compiled_hint_is_frozen new_enum (active : FNode) (h h' : Hint)
    (r : result (TransSystem * FNode)) :
  get_trans_system new_enum active h = (h', r) ->
  is_some (ts_loc_symbs h') = true ->
  (forall loc, add loc h' = (h', Raise AssertionError)) /\
  (forall ls, set_locs ls h' = (h', Raise AssertionError)) /\
  (forall ops, locs (do_ops new_enum ops h') = locs h) /\
  locs h' = locs h.
Proof.
  intros Hcall Hsome.
  assert (Hl : locs h' = locs h).
  { destruct (keeps_get_trans_system new_enum active h) as [K _].
    now rewrite Hcall in K. }
  repeat split.
  - intros loc. now apply add_on_compiled.
  - intros ls. now apply set_locs_on_compiled.
  - intros ops. destruct (do_ops_on_compiled new_enum ops h' Hsome). congruence.
  - exact Hl.
Qed.

Lemma compiled_hint_is_frozen_witness :
  let h' := fst (get_trans_system one_hot_enum Sample.active Sample.hint_x) in
  (forall loc, add loc h' = (h', Raise AssertionError)) /\
  (forall ls, set_locs ls h' = (h', Raise AssertionError)) /\
  (forall ops, locs (do_ops one_hot_enum ops h') = locs Sample.hint_x) /\
  locs h' = locs Sample.hint_x.
Proof.
  apply (compiled_hint_is_frozen one_hot_enum Sample.active Sample.hint_x _
           (snd (get_trans_system one_hot_enum Sample.active Sample.hint_x))).
  - apply surjective_pairing.
  - vm_compute. reflexivity.
Defined.

(** ** Next-state renaming and evaluation *)

Lemma get_type_all_of (ty : PySMTType) (l : list FNode) :
  (fix all_of (ty : PySMTType) (l : list FNode) {struct l} : bool :=
     match l with
     | [] => true
     | x :: xs => has_type (get_type x) ty && all_of ty xs
     end) ty l = forallb (fun x => has_type (get_type x) ty) l.
Proof. induction l as [|x xs IH]; simpl; [reflexivity | now rewrite IH]. Qed.

Lemma forallb_map_ext {A : Type} (f g : A -> bool) (h : A -> A) (l : list A) :
  Forall (fun x => f (h x) = g x) l ->
  forallb f (map h l) = forallb g l.
Proof. induction 1; simpl; [reflexivity | congruence]. Qed.

Lemma get_type_to_next (symbs : list FNode) (t : FNode) :
  get_type (to_next symbs t) = get_type t.
Proof.
  assert (L : forall ty l,
             Forall (fun t => get_type (to_next symbs t) = get_type t) l ->
             forallb (fun x => has_type (get_type x) ty) (map (to_next symbs) l)
             = forallb (fun x => has_type (get_type x) ty) l).
  { intros ty l Hl. apply forallb_map_ext. revert Hl. apply Forall_impl.
    intros a Ha. now rewrite Ha. }
  induction t using FNode_ind'; simpl;
    rewrite ?get_type_all_of;
    try reflexivity;
    try (rewrite ?IHt, ?IHt1, ?IHt2; reflexivity);
    try (rewrite L by assumption; reflexivity).
  - destruct (mem_symb _ _); reflexivity.
  - destruct args as [|a args]; simpl; [reflexivity|].
    inversion H as [|? ? Ha Hargs]; subst. rewrite Ha.
    destruct (get_type a) as [ty|]; [|reflexivity].
    rewrite !get_type_all_of, L by assumption. reflexivity.
  - destruct args as [|a args]; simpl; [reflexivity|].
    inversion H as [|? ? Ha Hargs]; subst. rewrite Ha.
    destruct (get_type a) as [ty|]; [|reflexivity].
    rewrite !get_type_all_of, L by assumption. reflexivity.
Qed.

Section NextState.
Variable div_int : Z -> Z -> Z.
Variable div_real : Qc -> Qc -> Qc.

Variable symbs : list FNode.

Local Notation "'aev'" := (aeval div_int div_real).
Local Notation "'bev'" := (beval div_int div_real).

Lemma map_map_ext_in {A B : Type} (f g : A -> B) (l : list A) :
  Forall (fun x => f x = g x) l -> map f l = map g l.
Proof. induction 1; simpl; congruence. Qed.

Lemma Forall_forallb_impl (P : FNode -> Prop) (f : FNode -> bool)
    (l : list FNode) :
  Forall (fun a => f a = true -> P a) l -> forallb f l = true -> Forall P l.
Proof.
  induction 1 as [|a l Ha _ IH]; simpl; intros E; [constructor|].
  apply andb_true_iff in E. destruct E. constructor; auto.
Qed.

(** A term over renamed current-state symbols reads, once renamed, the
    next state only. *)
Lemma aeval_to_next (s1 s2 s3 : state) (t : FNode) :
  symbols_ok (renamed symbs) t = true ->
  aev (s1, s2) (to_next symbs t) = aev (s2, s3) t.
Proof.
  induction t using FNode_ind'; simpl; intros Hok; try reflexivity.
  - unfold renamed in Hok. apply andb_true_iff in Hok. destruct Hok as [-> Hc].
    simpl in *. destruct x; [discriminate | reflexivity].
  - rewrite map_map. f_equal. apply map_map_ext_in.
    eapply Forall_forallb_impl; [|exact Hok].
    revert H. apply Forall_impl. auto.
  - apply andb_true_iff in Hok. destruct Hok.
    rewrite IHt1, IHt2 by assumption. reflexivity.
  - rewrite map_map. f_equal. apply map_map_ext_in.
    eapply Forall_forallb_impl; [|exact Hok].
    revert H. apply Forall_impl. auto.
  - apply andb_true_iff in Hok. destruct Hok.
    rewrite get_type_to_next, IHt1, IHt2 by assumption. reflexivity.
  - auto.
Qed.

Lemma beval_to_next (s1 s2 s3 : state) (t : FNode) :
  symbols_ok (renamed symbs) t = true ->
  bev (s1, s2) (to_next symbs t) = bev (s2, s3) t.
Proof.
  induction t using FNode_ind'; simpl; intros Hok; try reflexivity;
    try (apply andb_true_iff in Hok; destruct Hok;
         first [ rewrite IHt1, IHt2 by assumption; reflexivity
               | rewrite !(aeval_to_next s1 s2 s3) by assumption;
                 reflexivity ]).
  - unfold renamed in Hok. apply andb_true_iff in Hok. destruct Hok as [-> Hc].
    simpl in *. destruct x; [discriminate | reflexivity].
  -       assert (K : Forall (fun a => bev (s1, s2) (to_next symbs a)
                                 = bev (s2, s3) a) args).
    { eapply Forall_forallb_impl; [|exact Hok].
      revert H. apply Forall_impl. auto. }
    clear H Hok. induction K; simpl; congruence.
  -       assert (K : Forall (fun a => bev (s1, s2) (to_next symbs a)
                                 = bev (s2, s3) a) args).
    { eapply Forall_forallb_impl; [|exact Hok].
      revert H. apply Forall_impl. auto. }
    clear H Hok. induction K; simpl; congruence.
  - now rewrite IHt.
Qed.
End NextState.

(** ** Hint.get_trans_system and the inactive hint *)

Lemma py_index_map {A B : Type} (f : A -> B) (l : list A) (i : Z) :
  py_index (map f l) i =
  match py_index l i with Ok a => Ok (f a) | Raise e => Raise e end.
Proof.
  unfold py_index. rewrite length_map.
  destruct (_ || _); [reflexivity|].
  rewrite nth_error_map. destruct (nth_error l _); reflexivity.
Qed.

Lemma py_index_In {A : Type} (l : list A) (i : Z) (a : A) :
  py_index l i = Ok a -> In a l.
Proof.
  unfold py_index. destruct (_ || _); [discriminate|].
  destruct (nth_error l _) eqn:E; [|discriminate].
  intros H. injection H as <-. eapply nth_error_In; eauto.
Qed.

Lemma mattr_ok {A : Type} (f : Hint -> option A) (h h' : Hint) (a : A) :
  mattr f h = (h', Ok a) -> h' = h /\ f h = Some a.
Proof.
  unfold mattr. destruct (f h); intros E; [|discriminate].
  injection E as <- <-. auto.
Qed.

Lemma mattr_created_ok {A : Type} (f : Hint -> option A) (h h' : Hint) (a : A) :
  mattr_created f h = (h', Ok a) -> h' = h /\ f h = Some a.
Proof.
  unfold mattr_created. destruct (f h); intros E; [|discriminate].
  injection E as <- <-. auto.
Qed.

Lemma mem_symb_app (s : FNode) (l1 l2 : list FNode) :
  mem_symb s (l1 ++ l2) = mem_symb s l1 || mem_symb s l2.
Proof. apply existsb_app. Qed.

Lemma set_rank_flags_ok (symbs symbs' : list FNode) (h h' : Hint) :
  set_rank_flags symbs h = (h', Ok symbs') ->
  ts_loc_symbs h' = ts_loc_symbs h /\
  ts_lvals h' = ts_lvals h /\
  trans_type_symbs h' = trans_type_symbs h /\
  t_is_stutter h' = t_is_stutter h /\
  t_is_progress h' = t_is_progress h /\
  all_symbs h' = all_symbs h /\
  owned_symbs h' = owned_symbs h /\
  exists extra, symbs' = symbs ++ extra.
Proof.
  unfold set_rank_flags, mbind, mget, massert, mlift, mset, mret.
  destruct (forallb (fun loc => is_none (rf loc)) (locs h)).
  - destruct (forallb _ (locs h)); simpl; intros E; [|discriminate].
    injection E as <- <-. repeat split. exists []. now rewrite app_nil_r.
  - simpl. intros E. injection E as <- <-. repeat split. eauto.
Qed.

(** What a call of [get_trans_system] that returns has done. *)
Lemma get_trans_system_ok new_enum (active : FNode) (h h' : Hint)
    (res : TransSystem * FNode) :
  get_trans_system new_enum active h = (h', Ok res) ->
  exists ls lv tts st rk pr rd extra,
    ts_loc_symbs h' = Some ls /\
    ts_lvals h' = Some lv /\
    trans_type_symbs h' = Some tts /\
    t_is_stutter h' = Some st /\
    build_trans_system h' active lv (ls ++ tts ++ [active] ++ extra)
      st rk pr rd = Ok res.
Proof.
  unfold get_trans_system. intros H.
  apply mbind_ok in H. destruct H as (_ & h1 & _ & H).
  apply mbind_ok in H. destruct H as (_ & h2 & _ & H).
  apply mbind_ok in H. destruct H as (ls & h3 & H3 & H).
  apply mattr_ok in H3. destruct H3 as [-> Hls].
  apply mbind_ok in H. destruct H as (lv & h3 & H3 & H).
  apply mattr_ok in H3. destruct H3 as [-> Hlv].
  apply mbind_ok in H. destruct H as (tts & h3 & H3 & H).
  apply mattr_ok in H3. destruct H3 as [-> Htts].
  apply mbind_ok in H. destruct H as (st & h3 & H3 & H).
  apply mattr_ok in H3. destruct H3 as [-> Hst].
  apply mbind_ok in H. destruct H as (rk0 & h3 & H3 & H).
  apply mattr_ok in H3. destruct H3 as [-> _].
  apply mbind_ok in H. destruct H as (pr & h3 & H3 & H).
  apply mattr_created_ok in H3. destruct H3 as [-> _].
  apply mbind_ok in H. destruct H as (symbs & h3 & H3 & H).
  apply set_rank_flags_ok in H3.
  destruct H3 as (E1 & E2 & E3 & E4 & _ & _ & _ & extra & ->).
  apply mbind_ok in H. destruct H as (rk & h4 & H4 & H).
  apply mattr_ok in H4. destruct H4 as [-> _].
  apply mbind_ok in H. destruct H as (rd & h4 & H4 & H).
  apply mattr_ok in H4. destruct H4 as [-> _].
  apply mbind_ok in H. destruct H as (self & h4 & H4 & H).
  unfold mget in H4. injection H4 as <- <-.
  unfold mlift in H. injection H as <- H.
  exists ls, lv, tts, st, rk, pr, rd, extra.
  rewrite E1, E2, E3, E4, <- !app_assoc in *. auto.
Qed.

(** The two deactivation clauses of a built transition system. *)
Lemma build_trans_system_inactive (self : Hint) (active : FNode)
    (lvals symbs0 : list FNode) (st rk pr rd : FNode)
    (ts : TransSystem) (act : FNode) :
  build_trans_system self active lvals symbs0 st rk pr rd = Ok (ts, act) ->
  exists inactive,
    last_of lvals = Ok inactive /\
    act = mgr_Not inactive /\
    In (Implies (mgr_Not active) (mgr_And [inactive; st])) (init ts) /\
    In (Implies (mgr_Not active)
          (mgr_And [to_next symbs0 inactive;
                    to_next (all_symbs self ++ symbs0) st])) (trans ts).
Proof.
  unfold build_trans_system, last_of. rewrite py_index_map.
  destruct (py_index lvals (-1)) as [inactive|]; [|discriminate].
  cbn [rbind]. destruct (outcome _); [|discriminate].
  intros E. injection E as <- <-. exists inactive.
  split; [reflexivity|]. split; [reflexivity|].
  destruct (negb (is_false rd)); cbn [init trans add_init add_trans ext_init ext_trans];
    rewrite ?in_app_iff; simpl; split; auto 10.
Qed.

Lemma symbols_ok_impl (P Q : FNode -> bool) (t : FNode) :
  (forall s, P s = true -> Q s = true) ->
  symbols_ok P t = true -> symbols_ok Q t = true.
Proof.
  intros HPQ. induction t using FNode_ind'; simpl; auto;
    try (rewrite !andb_true_iff; intros [? ?]; auto);
    try (rewrite !forallb_forall; rewrite Forall_forall in H;
         intros K a Ha; auto).
Qed.

Lemma renamed_mono (l1 l2 : list FNode) (s : FNode) :
  (forall x, mem_symb x l1 = true -> mem_symb x l2 = true) ->
  renamed l1 s = true -> renamed l2 s = true.
Proof.
  unfold renamed. rewrite !andb_true_iff. intros H [? ?]. auto.
Qed.

Section Inactive.
Variable div_int : Z -> Z -> Z.
Variable div_real : Qc -> Qc -> Qc.
Variable new_enum : string -> nat -> list FNode * list FNode.

Local Notation "'bev'" := (beval div_int div_real).

Lemma beval_mgr_Not (e : env) (t : FNode) :
  bev e (mgr_Not t) = negb (bev e t).
Proof.
  destruct t; try reflexivity. simpl. now rewrite negb_involutive.
Qed.

Lemma beval_mgr_And2 (e : env) (a b : FNode) :
  bev e (mgr_And [a; b]) = bev e a && bev e b.
Proof. simpl. now rewrite andb_true_r. Qed.

(** C1 as amended: in every run of the transition system of a
    compiled hint in which [active] is false at every step, the
    inactive value of the location encoding and the STUTTER selector
    hold at every step, and the predicate returned for "the hint is
    active" is false at every step. The encodings are taken to be over
    their own current-state symbols. Nothing is said of the owned
    symbols: the transition system leaves them free. *)
Theorem inactive_hint_stutters (h h' : Hint) (active : FNode)
    (ts : TransSystem) (act : FNode) (sigma : nat -> state) :
  get_trans_system new_enum active h = (h', Ok (ts, act)) ->
  encodings_closed h' = true ->
  is_run div_int div_real ts sigma ->
  (forall i, bev (sigma i, sigma (S i)) active = false) ->
  exists lv inactive st,
    ts_lvals h' = Some lv /\
    last_of lv = Ok inactive /\
    t_is_stutter h' = Some st /\
    act = mgr_Not inactive /\
    forall i,
      bev (sigma i, sigma (S i)) inactive = true /\
      bev (sigma i, sigma (S i)) st = true /\
      bev (sigma i, sigma (S i)) act = false.
Proof.
  intros Hcall Hclosed [Hinit Htrans] Hoff.
  apply get_trans_system_ok in Hcall.
  destruct Hcall as (ls & lv & tts & st & rk & pr & rd & extra
                     & Hls & Hlv & Htts & Hst & Hbuild).
  apply build_trans_system_inactive in Hbuild.
  destruct Hbuild as (inactive & Hlast & -> & Hi & Ht).
  exists lv, inactive, st. repeat (split; [assumption || reflexivity|]).
  unfold encodings_closed, closed_opt in Hclosed.
  rewrite Hls, Hlv, Htts, Hst in Hclosed.
  apply andb_true_iff in Hclosed. destruct Hclosed as [Hc1 Hc2].
  unfold enum_closed in Hc1, Hc2. simpl in Hc2.
  rewrite andb_true_r in Hc2. rewrite forallb_forall in Hc1.
  specialize (Hc1 inactive (py_index_In _ _ _ Hlast)).
  assert (Hnot : forall i, bev (sigma i, sigma (S i)) (mgr_Not active) = true).
  { intros i. rewrite beval_mgr_Not, Hoff. reflexivity. }
  assert (K : forall i, bev (sigma i, sigma (S i)) inactive = true /\
                        bev (sigma i, sigma (S i)) st = true).
  { intros [|i].
    - rewrite Forall_forall in Hinit. specialize (Hinit _ Hi).
      unfold holds in Hinit. simpl in Hinit. 
      change (implb (bev (sigma 0%nat, sigma 1%nat) (mgr_Not active))
                (bev (sigma 0%nat, sigma 1%nat) inactive &&
                 (bev (sigma 0%nat, sigma 1%nat) st && true)) = true) in Hinit.
      rewrite Hnot, andb_true_r in Hinit. simpl in Hinit.
      now apply andb_true_iff in Hinit.
    - specialize (Htrans i). rewrite Forall_forall in Htrans.
      specialize (Htrans _ Ht). unfold holds in Htrans.
      change (implb (bev (sigma i, sigma (S i)) (mgr_Not active))
                (bev (sigma i, sigma (S i))
                   (mgr_And [to_next (ls ++ tts ++ [active] ++ extra) inactive;
                             to_next (all_symbs h' ++ ls ++ tts ++ [active] ++ extra) st]))
              = true) in Htrans.
      rewrite Hnot, beval_mgr_And2 in Htrans. simpl in Htrans.
      apply andb_true_iff in Htrans. destruct Htrans as [H1 H2].
      rewrite (beval_to_next div_int div_real _ _ _ (sigma (S (S i)))) in H1.
      2:{ revert Hc1. apply symbols_ok_impl. intros s. apply renamed_mono.
          intros x Hx. rewrite mem_symb_app, Hx. reflexivity. }
      rewrite (beval_to_next div_int div_real _ _ _ (sigma (S (S i)))) in H2.
      2:{ revert Hc2. apply symbols_ok_impl. intros s. apply renamed_mono.
          intros x Hx. rewrite !mem_symb_app, Hx.
          now rewrite !orb_true_r. }
      auto. }
  intros i. destruct (K i) as [K1 K2]. repeat split; try assumption.
  rewrite beval_mgr_Not, K1. reflexivity.
Qed.
End Inactive.

(** The sample hint compiles, and the jumping run is one of its runs in
    which [active] is false at every step. *)
Lemma sample_compiled_ok :
  SampleRun.compiled = (fst SampleRun.compiled, Ok (SampleRun.ts, SampleRun.act)).
Proof. vm_compute. reflexivity. Qed.

Lemma holds_forallb div_int div_real (sigma : nat -> state) (i : nat)
    (l : list FNode) :
  forallb (beval div_int div_real (sigma i, sigma (S i))) l = true ->
  Forall (holds div_int div_real sigma i) l.
Proof.
  rewrite forallb_forall, Forall_forall. intros H p Hp. now apply H.
Qed.

Lemma jumping_run_is_run :
  is_run Z.div Qcdiv SampleRun.ts Sample.jumping_run.
Proof.
  split.
  - apply holds_forallb. vm_compute. reflexivity.
  - intros [|i]; apply holds_forallb; vm_compute; reflexivity.
Qed.

Lemma jumping_run_inactive (i : nat) :
  beval Z.div Qcdiv (Sample.jumping_run i, Sample.jumping_run (S i))
    Sample.active = false.
Proof. destruct i; reflexivity. Qed.

Lemma inactive_hint_stutters_witness :
  exists lv inactive st,
    ts_lvals (fst SampleRun.compiled) = Some lv /\
    last_of lv = Ok inactive /\
    t_is_stutter (fst SampleRun.compiled) = Some st /\
    SampleRun.act = mgr_Not inactive /\
    forall i,
      beval Z.div Qcdiv (Sample.jumping_run i, Sample.jumping_run (S i))
        inactive = true /\
      beval Z.div Qcdiv (Sample.jumping_run i, Sample.jumping_run (S i))
        st = true /\
      beval Z.div Qcdiv (Sample.jumping_run i, Sample.jumping_run (S i))
        SampleRun.act = false.
Proof.
  apply (inactive_hint_stutters Z.div Qcdiv one_hot_enum Sample.hint_x
           (fst SampleRun.compiled) Sample.active SampleRun.ts SampleRun.act
           Sample.jumping_run).
  - exact sample_compiled_ok.
  - vm_compute. reflexivity.
  - exact jumping_run_is_run.
  - exact jumping_run_inactive.
Defined.

(** C1, the claim as stated fails: the hint "h" owns x; in the jumping
    run [active] is false at every step, every predicate of the
    compiled transition system holds, and x goes from 0 to 1 on the
    first transition. *)
Lemma inactive_hint_is_noop_fails :
  ~ inactive_hint_is_noop Z.div Qcdiv one_hot_enum Sample.hint_x Sample.active.
Proof.
  intros H.
  specialize (H _ _ _ _ sample_compiled_ok jumping_run_is_run
                jumping_run_inactive 0%nat Sample.x (or_introl eq_refl)).
  simpl in H. injection H as H. discriminate H.
Qed.

(** ** Expr.is_one *)

Lemma num_eqb_eq (a b : PyNum) : num_eqb a b = true <-> num_val a = num_val b.
Proof. apply Qc_eqb_eq. Qed.

Lemma num_eqb_refl (a : PyNum) : num_eqb a a = true.
Proof. now apply num_eqb_eq. Qed.

(** When [is_one] answers true, the expression is the constant one. *)
Lemma is_one_sound (e : Expr) : is_one e = true -> only_coef_is_one e.
Proof.
  unfold is_one, only_coef_is_one.
  destruct (symb2coef e) as [|[k v] [|kv d]]; simpl; try discriminate.
  - unfold dict_mem, coef_get. simpl.
    destruct (FNode_eqb (number_Z (expr_type e) 1) k) eqn:Ek; simpl;
      [|discriminate].
    apply FNode_eqb_eq in Ek. subst k.
    destruct (num_eqb v (PInt 1)) eqn:Ev; [|discriminate].
    intros _. split; [reflexivity|].
    intros k Hk. rewrite Hk. reflexivity.
Qed.

(** C8, the code at the failing input: [one_plus_x.plus(minus_x)] is
    the map {1: 1, x: 0}; its only coefficient that is not zero is 1 on
    the key one, [is_zero] on {x: 0} does see the zero entry as absent
    and [pysmt_expr] gives the constant 1, but [is_one] answers false
    because the map has two entries. *)
Theorem is_one_misses_zero_entry :
  plus SampleExpr.one_plus_x SampleExpr.minus_x = Ok SampleExpr.one_with_zero /\
  only_coef_is_one SampleExpr.one_with_zero /\
  is_one SampleExpr.one_with_zero = false /\
  is_zero (mkExpr INT [(Sample.x, PInt 0)]) = true /\
  pysmt_expr (fun _ => 0) SampleExpr.one_with_zero = Ok (IntC 1).
Proof.
  repeat split.
  intros k Hk. unfold coef_get. simpl in *. rewrite Hk.
  destruct (FNode_eqb k Sample.x); reflexivity.
Qed.

(** ** Numbers *)

Lemma Z2Qc_add (x y : Z) : Z2Qc (x + y) = (Z2Qc x + Z2Qc y)%Qc.
Proof.
  apply Qc_is_canon. unfold Z2Qc, Qcplus, Q2Qc. cbn [this].
  rewrite !Qred_correct, inject_Z_plus. reflexivity.
Qed.

Lemma Z2Qc_mul (x y : Z) : Z2Qc (x * y) = (Z2Qc x * Z2Qc y)%Qc.
Proof.
  apply Qc_is_canon. unfold Z2Qc, Qcmult, Q2Qc. cbn [this].
  rewrite !Qred_correct, inject_Z_mult. reflexivity.
Qed.

Lemma Z2Qc_opp (x : Z) : Z2Qc (- x) = (- Z2Qc x)%Qc.
Proof.
  apply Qc_is_canon. unfold Z2Qc, Qcopp, Q2Qc. cbn [this].
  rewrite !Qred_correct, inject_Z_opp. reflexivity.
Qed.

Lemma Z2Qc_0 : Z2Qc 0 = 0%Qc.
Proof. apply Qc_is_canon. reflexivity. Qed.

Lemma Z2Qc_1 : Z2Qc 1 = 1%Qc.
Proof. apply Qc_is_canon. reflexivity. Qed.

Lemma num_val_add (a b : PyNum) :
  num_val (num_add a b) = (num_val a + num_val b)%Qc.
Proof. destruct a, b; simpl; auto using Z2Qc_add. Qed.

Lemma num_val_mul (a b : PyNum) :
  num_val (num_mul a b) = (num_val a * num_val b)%Qc.
Proof. destruct a, b; simpl; auto using Z2Qc_mul. Qed.

Lemma num_val_neg (a : PyNum) : num_val (num_neg a) = (- num_val a)%Qc.
Proof. destruct a; simpl; auto using Z2Qc_opp. Qed.

Lemma is_pyint_add (a b : PyNum) :
  is_pyint a = true -> is_pyint b = true -> is_pyint (num_add a b) = true.
Proof. destruct a, b; simpl; congruence. Qed.

Lemma is_pyint_mul (a b : PyNum) :
  is_pyint a = true -> is_pyint b = true -> is_pyint (num_mul a b) = true.
Proof. destruct a, b; simpl; congruence. Qed.

(** ** Coefficient maps *)

Section CoefMaps.
Variable div_int : Z -> Z -> Z.
Variable div_real : Qc -> Qc -> Qc.

Local Notation "'aev'" := (aeval div_int div_real).
Local Notation "'csem'" := (coef_sem div_int div_real).
Local Open Scope Qc_scope.

Lemma coef_sem_cons (e : env) (k : FNode) (v : PyNum)
    (d : list (FNode * PyNum)) :
  csem e ((k, v) :: d) = num_val v * aev e k + csem e d.
Proof. reflexivity. Qed.

Lemma coef_get_cons (k k' : FNode) (v' : PyNum) (d : list (FNode * PyNum)) :
  coef_get ((k', v') :: d) k = if FNode_eqb k k' then v' else coef_get d k.
Proof. unfold coef_get. simpl. now destruct (FNode_eqb k k'). Qed.

Lemma coef_add_cons (k k' : FNode) (v v' : PyNum)
    (d : list (FNode * PyNum)) :
  coef_add ((k', v') :: d) k v =
  if FNode_eqb k k' then (k', num_add v' v) :: d
  else (k', v') :: coef_add d k v.
Proof.
  unfold coef_add. rewrite coef_get_cons. simpl.
  now destruct (FNode_eqb k k').
Qed.

Lemma coef_add_sem (e : env) (d : list (FNode * PyNum)) (k : FNode)
    (v : PyNum) :
  csem e (coef_add d k v) = csem e d + num_val v * aev e k.
Proof.
  induction d as [|[k' v'] d IH].
  - unfold coef_add, coef_get. cbn [dict_get dict_set].
    rewrite coef_sem_cons, num_val_add. cbn [num_val].
    rewrite Z2Qc_0. unfold coef_sem. cbn [fold_right]. ring.
  - rewrite coef_add_cons. destruct (FNode_eqb k k') eqn:E.
    + apply FNode_eqb_eq in E. subst k'.
      rewrite !coef_sem_cons, num_val_add. ring.
    + rewrite !coef_sem_cons, IH. ring.
Qed.

Lemma dict_pop_sem (e : env) (d : list (FNode * PyNum)) (k : FNode) :
  csem e (dict_pop FNode_eqb d k) = csem e d - num_val (coef_get d k) * aev e k.
Proof.
  induction d as [|[k' v'] d IH].
  - unfold coef_get, coef_sem. cbn [dict_pop dict_get fold_right num_val].
    rewrite Z2Qc_0. ring.
  - rewrite coef_get_cons. cbn [dict_pop].
    destruct (FNode_eqb k k') eqn:E.
    + apply FNode_eqb_eq in E. subst k'. rewrite coef_sem_cons. ring.
    + rewrite !coef_sem_cons, IH. ring.
Qed.

Lemma prune_sem (e : env) (d : list (FNode * PyNum)) (k : FNode) :
  csem e (prune d k) = csem e d.
Proof.
  unfold prune. destruct (num_eqb _ _) eqn:E; [|reflexivity].
  rewrite dict_pop_sem. apply num_eqb_eq in E. rewrite E.
  cbn [num_val]. rewrite Z2Qc_0. ring.
Qed.
End CoefMaps.

Lemma dict_keys_set (d : list (FNode * PyNum)) (k : FNode) (v : PyNum) :
  dict_keys (dict_set FNode_eqb d k v) =
  if dict_mem FNode_eqb d k then dict_keys d else dict_keys d ++ [k].
Proof.
  unfold dict_mem. induction d as [|[k' v'] d IH]; simpl; [reflexivity|].
  destruct (FNode_eqb k k'); simpl; [reflexivity|].
  rewrite IH. destruct (dict_get FNode_eqb d k); reflexivity.
Qed.

Lemma dict_mem_In (d : list (FNode * PyNum)) (k : FNode) :
  dict_mem FNode_eqb d k = true <-> In k (dict_keys d).
Proof.
  unfold dict_mem. induction d as [|[k' v'] d IH]; simpl.
  - split; [discriminate | tauto].
  - destruct (FNode_eqb k k') eqn:E.
    + apply FNode_eqb_eq in E. subst. tauto.
    + rewrite IH. split; [tauto|]. intros [H|H]; [|exact H].
      subst. rewrite FNode_eqb_refl in E. discriminate.
Qed.

Lemma dict_pop_incl (d : list (FNode * PyNum)) (k : FNode) (kv : FNode * PyNum) :
  In kv (dict_pop FNode_eqb d k) -> In kv d.
Proof.
  induction d as [|[k' v'] d IH]; simpl; [tauto|].
  destruct (FNode_eqb k k'); simpl; tauto.
Qed.

Lemma dict_pop_keys_incl (d : list (FNode * PyNum)) (k x : FNode) :
  In x (dict_keys (dict_pop FNode_eqb d k)) -> In x (dict_keys d).
Proof.
  unfold dict_keys. rewrite !in_map_iff. intros (kv & E & H).
  exists kv. split; [exact E|]. eapply dict_pop_incl; eauto.
Qed.

Lemma dict_pop_NoDup (d : list (FNode * PyNum)) (k : FNode) :
  NoDup (dict_keys d) -> NoDup (dict_keys (dict_pop FNode_eqb d k)).
Proof.
  induction d as [|[k' v'] d IH]; simpl; intros H; [constructor|].
  inversion H; subst. destruct (FNode_eqb k k'); simpl; [assumption|].
  constructor; [|auto]. intros K. apply dict_pop_keys_incl in K. contradiction.
Qed.

Lemma dict_set_In (d : list (FNode * PyNum)) (k : FNode) (v : PyNum)
    (kv : FNode * PyNum) :
  In kv (dict_set FNode_eqb d k v) -> In kv d \/ kv = (k, v).
Proof.
  induction d as [|[k' v'] d IH]; simpl.
  - intros [H|[]]; auto.
  - destruct (FNode_eqb k k') eqn:E; simpl.
    + apply FNode_eqb_eq in E. subst. intros [H|H]; auto.
    + intros [H|H]; auto. destruct (IH H); auto.
Qed.

Lemma coef_get_pyint (d : list (FNode * PyNum)) (k : FNode) :
  Forall (fun kv => is_pyint (snd kv) = true) d ->
  is_pyint (coef_get d k) = true.
Proof.
  unfold coef_get. induction 1 as [|[k' v'] d Hv _ IH]; simpl; [reflexivity|].
  destruct (FNode_eqb k k'); auto.
Qed.

Lemma coef_add_ok (ty : PySMTType) (d : list (FNode * PyNum)) (k : FNode)
    (v : PyNum) :
  dict_ok ty d -> key_ok ty k = true -> (ty = INT -> is_pyint v = true) ->
  dict_ok ty (coef_add d k v).
Proof.
  intros (Hnd & Hk & Hv) Kk Kv. unfold coef_add. repeat split.
  - rewrite dict_keys_set. destruct (dict_mem FNode_eqb d k) eqn:E; [assumption|].
    apply NoDup_app; [assumption | repeat constructor; simpl; tauto | ].
    intros x Hx [<-|[]]. apply dict_mem_In in Hx. congruence.
  - apply Forall_forall. intros kv H. apply dict_set_In in H.
    destruct H as [H| ->]; [|exact Kk].
    rewrite Forall_forall in Hk. auto.
  - intros Hty. apply Forall_forall. intros kv H. apply dict_set_In in H.
    destruct H as [H| ->].
    + specialize (Hv Hty). rewrite Forall_forall in Hv. auto.
    + simpl. apply is_pyint_add; [apply coef_get_pyint|]; auto.
Qed.

Lemma prune_ok (ty : PySMTType) (d : list (FNode * PyNum)) (k : FNode) :
  dict_ok ty d -> dict_ok ty (prune d k).
Proof.
  intros (Hnd & Hk & Hv). unfold prune. destruct (num_eqb _ _); [|now repeat split].
  repeat split.
  - now apply dict_pop_NoDup.
  - rewrite Forall_forall in *. intros kv H. apply Hk. eapply dict_pop_incl; eauto.
  - intros Hty. specialize (Hv Hty). rewrite Forall_forall in *.
    intros kv H. apply Hv. eapply dict_pop_incl; eauto.
Qed.

(** ** Types of the arguments *)

Lemma has_type_eq (o : option PySMTType) (ty : PySMTType) :
  has_type o ty = true <-> o = Some ty.
Proof.
  destruct o as [ty'|]; simpl; [|split; discriminate].
  rewrite PySMTType_eqb_eq. split; congruence.
Qed.

Lemma get_type_Plus (l : list FNode) :
  get_type (Plus l) =
  match l with
  | [] => None
  | x :: _ =>
      match get_type x with
      | Some ty =>
          if is_arith ty && forallb (fun y => has_type (get_type y) ty) l
          then Some ty else None
      | None => None
      end
  end.
Proof.
  destruct l as [|x l]; [reflexivity|].
  cbn [get_type forallb]. destruct (get_type x); [|reflexivity].
  now rewrite get_type_all_of.
Qed.

Lemma get_type_Times (l : list FNode) : get_type (Times l) = get_type (Plus l).
Proof. reflexivity. Qed.

Lemma get_type_nary (l : list FNode) (ty : PySMTType) :
  (get_type (Plus l) = Some ty <->
   l <> [] /\ is_arith ty = true /\ Forall (fun a => get_type a = Some ty) l) /\
  (get_type (Times l) = Some ty <->
   l <> [] /\ is_arith ty = true /\ Forall (fun a => get_type a = Some ty) l).
Proof.
  rewrite get_type_Times. split; [|idtac]; rewrite get_type_Plus.
  all: destruct l as [|a l]; [split; [discriminate | intros [H _]; congruence]|].
  all: destruct (get_type a) as [ty'|] eqn:Ea;
    [|split; [discriminate | intros (_ & _ & H); inversion H; congruence]].
  all: destruct (is_arith ty') eqn:Eat; cbn [andb];
    [|split; [discriminate
             | intros (_ & H1 & H); inversion H; subst; congruence]].
  all: destruct (forallb _ (a :: l)) eqn:Ef.
  all: try (split;
            [intros E; injection E as <-; repeat split;
             [discriminate | assumption |];
             rewrite forallb_forall in Ef; apply Forall_forall;
             intros x Hx; apply has_type_eq; auto
            | intros (_ & _ & H); inversion H; subst; congruence]).
  all: split; [discriminate|]; intros (_ & _ & H);
    assert (ty = ty') by (inversion H; congruence); subst;
    assert (forallb (fun y => has_type (get_type y) ty') (a :: l) = true)
      by (apply forallb_forall; rewrite Forall_forall in H;
          intros x Hx; apply has_type_eq; auto);
    congruence.
Qed.

Lemma get_type_binary (a b : FNode) (ty : PySMTType) :
  (get_type (Minus a b) = Some ty <->
   is_arith ty = true /\ get_type a = Some ty /\ get_type b = Some ty) /\
  (get_type (Div a b) = Some ty <->
   is_arith ty = true /\ get_type a = Some ty /\ get_type b = Some ty).
Proof.
  split; simpl; destruct (get_type a) as [ty'|];
    try (split; [discriminate | intros (_ & H & _); discriminate]);
    destruct (is_arith ty') eqn:E1; simpl;
    try (split; [discriminate | intros (H1 & H2 & _); congruence]);
    destruct (has_type (get_type b) ty') eqn:E2;
    try (apply has_type_eq in E2; split;
         [intros E; injection E as <-; auto | intros (_ & H & _); congruence]);
    (split; [discriminate|]; intros (_ & H2 & H3);
     injection H2 as ->; apply has_type_eq in H3; congruence).
Qed.

(** ** Constant folding and the factors of a product *)

Lemma sorted_perm (key : FNode -> Z) (l : list FNode) :
  Permutation (sorted key l) l.
Proof.
  assert (I : forall x l', Permutation (insert_by_key key x l') (x :: l')).
  { intros x l'. induction l' as [|y l' IH]; simpl; [reflexivity|].
    destruct (key x <=? key y); [reflexivity|].
    rewrite IH. apply perm_swap. }
  induction l as [|x l IH]; simpl; [reflexivity|].
  rewrite I. now constructor.
Qed.

Lemma list_size_app (l1 l2 : list FNode) :
  list_size (l1 ++ l2) = (list_size l1 + list_size l2)%nat.
Proof. unfold list_size. induction l1; simpl; lia. Qed.

Lemma fnode_size_pos (t : FNode) : (0 < fnode_size t)%nat.
Proof. destruct t; simpl; lia. Qed.

Lemma arith_no_vars_constant (t : FNode) :
  arith t = true -> is_constant t = true -> has_no_vars t = true.
Proof. destruct t; simpl; try discriminate; reflexivity. Qed.

Section Folding.
Variable div_int : Z -> Z -> Z.
Variable div_real : Qc -> Qc -> Qc.
Variable fnode_key : FNode -> Z.

Local Notation "'aev'" := (aeval div_int div_real).
Local Notation "'cval'" := (const_value div_int div_real).
Local Notation "'sumf'" := (sum_of div_int div_real).
Local Notation "'prodf'" := (prod_of div_int div_real).
Local Open Scope Qc_scope.

Lemma sum_of_cons (e : env) (a : FNode) (l : list FNode) :
  sumf e (a :: l) = aev e a + sumf e l.
Proof. reflexivity. Qed.

Lemma prod_of_cons (e : env) (a : FNode) (l : list FNode) :
  prodf e (a :: l) = aev e a * prodf e l.
Proof. reflexivity. Qed.

Lemma sum_of_app (e : env) (l1 l2 : list FNode) :
  sumf e (l1 ++ l2) = sumf e l1 + sumf e l2.
Proof.
  unfold sum_of. induction l1 as [|a l1 IH]; simpl; [ring|].
  rewrite IH. ring.
Qed.

Lemma prod_of_app (e : env) (l1 l2 : list FNode) :
  prodf e (l1 ++ l2) = prodf e l1 * prodf e l2.
Proof.
  unfold prod_of. induction l1 as [|a l1 IH]; simpl; [ring|].
  rewrite IH. ring.
Qed.

Lemma sum_of_perm (e : env) (l1 l2 : list FNode) :
  Permutation l1 l2 -> sumf e l1 = sumf e l2.
Proof.
  unfold sum_of. induction 1; simpl; try congruence; ring.
Qed.

Lemma prod_of_perm (e : env) (l1 l2 : list FNode) :
  Permutation l1 l2 -> prodf e l1 = prodf e l2.
Proof.
  unfold prod_of. induction 1; simpl; try congruence; ring.
Qed.

Lemma sum_of_rev (e : env) (l : list FNode) : sumf e (rev l) = sumf e l.
Proof. apply sum_of_perm. symmetry. apply Permutation_rev. Qed.

Lemma aeval_mgr_Times (e : env) (l : list FNode) (t : FNode) :
  mgr_Times l = Ok t -> aev e t = prodf e l.
Proof.
  destruct l as [|a [|b l]]; simpl; intros E; try discriminate;
    injection E as <-; unfold prod_of; simpl; [ring | reflexivity].
Qed.

Lemma aeval_mgr_Plus (e : env) (l : list FNode) (t : FNode) :
  mgr_Plus l = Ok t -> aev e t = sumf e l.
Proof.
  destruct l as [|a [|b l]]; simpl; intros E; try discriminate;
    injection E as <-; unfold sum_of; simpl; [ring | reflexivity].
Qed.

(** Folding the constants of an arithmetic term without variables
    gives its value, and an integer term folds to an [int]; or the
    term has a division of constants by zero, and the folding raises
    an assertion error. *)
Lemma const_value_cases (t : FNode) :
  arith t = true -> has_no_vars t = true ->
  (div_safe div_int div_real t = true /\
   exists v, cval t = Ok v /\
             (forall e, aev e t = num_val v) /\
             (get_type t = Some INT -> is_pyint v = true)) \/
  (div_safe div_int div_real t = false /\ cval t = Raise AssertionError).
Proof.
  unfold has_no_vars.
  induction t using FNode_ind'; simpl; try discriminate; intros Ha Hc.
  - left. split; [reflexivity|]. eexists. repeat split.
  - left. split; [reflexivity|]. eexists. repeat split. discriminate.
  - (* Plus *)
    destruct args as [|a0 args0]; [discriminate|].
    assert (K : (forallb (div_safe div_int div_real) (a0 :: args0) = true /\
                 exists v,
                   fold_right (fun a acc =>
                                 rbind (cval a) (fun x =>
                                 rbind acc (fun y => Ok (num_add x y))))
                     (Ok (PInt 0)) (a0 :: args0) = Ok v /\
                   (forall e, sumf e (a0 :: args0) = num_val v) /\
                   (Forall (fun a => get_type a = Some INT) (a0 :: args0) ->
                    is_pyint v = true)) \/
                (forallb (div_safe div_int div_real) (a0 :: args0) = false /\
                 fold_right (fun a acc =>
                               rbind (cval a) (fun x =>
                               rbind acc (fun y => Ok (num_add x y))))
                   (Ok (PInt 0)) (a0 :: args0) = Raise AssertionError)).
    { revert H Ha Hc. generalize (a0 :: args0). intros l H Ha Hc.
      induction H as [|a l Hx _ IH]; simpl in *.
      - left. split; [reflexivity|]. exists (PInt 0). repeat split.
      - apply andb_true_iff in Ha, Hc. destruct Ha as [Ha1 Ha2].
        destruct Hc as [Hc1 Hc2].
        destruct (Hx Ha1 Hc1) as [(Dx & x & Ex & Sx & Tx) | (Dx & Ex)];
          rewrite Dx, Ex; cbn [rbind andb]; [|right; split; reflexivity].
        destruct (IH Ha2 Hc2) as [(Dy & y & Ey & Sy & Ty) | (Dy & Ey)];
          rewrite Dy, Ey; cbn [rbind]; [|right; split; reflexivity].
        left. split; [reflexivity|]. exists (num_add x y). repeat split.
        + intros e. unfold sum_of in *. simpl.
          rewrite num_val_add, Sx, Sy. reflexivity.
        + intros F. inversion F; subst. apply is_pyint_add; auto. }
    destruct K as [(D & v & Ev & Sv & Tv) | (D & E)]; [left | right; auto].
    split; [exact D|]. exists v. repeat split; auto.
    intros E. apply Tv. now apply (get_type_nary (a0 :: args0) INT) in E.
  - (* Minus *)
    apply andb_true_iff in Ha, Hc. destruct Ha as [Ha1 Ha2].
    destruct Hc as [Hc1 Hc2].
    destruct (IHt1 Ha1 Hc1) as [(Dx & x & Ex & Sx & Tx) | (Dx & Ex)];
      rewrite Dx, Ex; cbn [rbind andb]; [|right; split; reflexivity].
    destruct (IHt2 Ha2 Hc2) as [(Dy & y & Ey & Sy & Ty) | (Dy & Ey)];
      rewrite Dy, Ey; cbn [rbind]; [|right; split; reflexivity].
    left. split; [reflexivity|]. eexists. split; [reflexivity|]. split.
    + intros e. rewrite num_val_add, num_val_neg, Sx, Sy. reflexivity.
    + intros E.
      change (get_type (Minus t1 t2) = Some INT) in E.
      apply (get_type_binary t1 t2 INT) in E. destruct E as (_ & E1 & E2).
      apply is_pyint_add; [auto|]. specialize (Ty E2).
      destruct y; simpl in *; congruence.
  - (* Times *)
    destruct args as [|a0 args0]; [discriminate|].
    assert (K : (forallb (div_safe div_int div_real) (a0 :: args0) = true /\
                 exists v,
                   fold_right (fun a acc =>
                                 rbind (cval a) (fun x =>
                                 rbind acc (fun y => Ok (num_mul x y))))
                     (Ok (PInt 1)) (a0 :: args0) = Ok v /\
                   (forall e, prodf e (a0 :: args0) = num_val v) /\
                   (Forall (fun a => get_type a = Some INT) (a0 :: args0) ->
                    is_pyint v = true)) \/
                (forallb (div_safe div_int div_real) (a0 :: args0) = false /\
                 fold_right (fun a acc =>
                               rbind (cval a) (fun x =>
                               rbind acc (fun y => Ok (num_mul x y))))
                   (Ok (PInt 1)) (a0 :: args0) = Raise AssertionError)).
    { revert H Ha Hc. generalize (a0 :: args0). intros l H Ha Hc.
      induction H as [|a l Hx _ IH]; simpl in *.
      - left. split; [reflexivity|]. exists (PInt 1). repeat split.
      - apply andb_true_iff in Ha, Hc. destruct Ha as [Ha1 Ha2].
        destruct Hc as [Hc1 Hc2].
        destruct (Hx Ha1 Hc1) as [(Dx & x & Ex & Sx & Tx) | (Dx & Ex)];
          rewrite Dx, Ex; cbn [rbind andb]; [|right; split; reflexivity].
        destruct (IH Ha2 Hc2) as [(Dy & y & Ey & Sy & Ty) | (Dy & Ey)];
          rewrite Dy, Ey; cbn [rbind]; [|right; split; reflexivity].
        left. split; [reflexivity|]. exists (num_mul x y). repeat split.
        + intros e. unfold prod_of in *. simpl.
          rewrite num_val_mul, Sx, Sy. reflexivity.
        + intros F. inversion F; subst. apply is_pyint_mul; auto. }
    destruct K as [(D & v & Ev & Sv & Tv) | (D & E)]; [left | right; auto].
    split; [exact D|]. exists v. repeat split; auto.
    intros E. apply Tv. now apply (get_type_nary (a0 :: args0) INT) in E.
  - (* Div *)
    apply andb_true_iff in Ha. destruct Ha as [Ha1 Ha2].
    pose proof Hc as Hc'.
    apply andb_true_iff in Hc. destruct Hc as [Hc1 Hc2].
    unfold has_no_vars. cbn [symbols_ok]. rewrite Hc'. cbn [negb orb].
    destruct (IHt1 Ha1 Hc1) as [(Dx & x & Ex & Sx & Tx) | (Dx & Ex)];
      rewrite Dx, Ex; cbn [rbind andb]; [|right; split; reflexivity].
    destruct (IHt2 Ha2 Hc2) as [(Dy & y & Ey & Sy & Ty) | (Dy & Ey)];
      rewrite Dy, Ey; cbn [rbind]; [|right; split; reflexivity].
    destruct (num_eqb y (PInt 0)); cbn [negb rassert rbind];
      [right; split; reflexivity|].
    left. split; [reflexivity|]. eexists. split; [reflexivity|]. split.
    + intros e. rewrite Sx, Sy.
      destruct (get_type t1) as [[| |]|]; reflexivity.
    + intros E.
      change (get_type (Div t1 t2) = Some INT) in E.
      apply (get_type_binary t1 t2 INT) in E. destruct E as (_ & E1 & E2).
      rewrite E1. reflexivity.
Qed.

Lemma const_value_ok (t : FNode) :
  arith t = true -> has_no_vars t = true ->
  div_safe div_int div_real t = true ->
  exists v, cval t = Ok v /\
            (forall e, aev e t = num_val v) /\
            (get_type t = Some INT -> is_pyint v = true).
Proof.
  intros Ha Hc Hs.
  destruct (const_value_cases t Ha Hc) as [(_ & H) | (D & _)];
    [exact H | congruence].
Qed.
End Folding.

Section Factors.
Variable div_int : Z -> Z -> Z.
Variable div_real : Qc -> Qc -> Qc.

Local Notation "'aev'" := (aeval div_int div_real).
Local Notation "'prodf'" := (prod_of div_int div_real).
Local Notation "'factors_of'" := (times_factors div_int div_real).
Local Open Scope Qc_scope.

(** The loop over the factors of a product ends within the size of
    the factors; it splits them into a constant and symbolic factors,
    which are symbols and divisions, and the product is kept; or a
    factor has a division of constants by zero, and the loop raises
    an assertion error. *)
Lemma times_factors_spec (fuel : nat) :
  forall (factors : list FNode) (c : PyNum) (symbs : list FNode),
    Forall factor_ok factors ->
    (list_size factors < fuel)%nat ->
    (exists c' new,
        factors_of fuel factors c symbs = Ok (c', symbs ++ new) /\
        (forall e, num_val c' * prodf e new = num_val c * prodf e factors) /\
        Forall (fun s => is_symbol s || is_div s = true) new /\
        (Forall (fun f => get_type f = Some INT) factors ->
         is_pyint c = true -> is_pyint c' = true)) \/
    (forallb (div_safe div_int div_real) factors = false /\
     factors_of fuel factors c symbs = Raise AssertionError).
Proof.
  induction fuel as [|fuel IH]; intros factors c symbs Hok Hsize; [lia|].
  destruct factors as [|f rest].
  { left. exists c, []. rewrite app_nil_r. repeat split; auto. }
  inversion Hok as [|? ? [Hfa Hfp] Hrest]; subst.
  assert (Hsz : (list_size rest < fuel)%nat).
  { unfold list_size in *. cbn [fold_right] in Hsize.
    pose proof (fnode_size_pos f). lia. }
  (* the three ways a factor is taken *)
  assert (Ksym : is_times f = false ->
                 is_symbol f || is_div f = true ->
                 is_symbol f || is_toreal f = true \/
                 (is_symbol f || is_toreal f = false /\
                  is_constant f || has_no_vars f = false) ->
                 (exists c' new,
                     factors_of (S fuel) (f :: rest) c symbs =
                     Ok (c', symbs ++ new) /\
                     (forall e, num_val c' * prodf e new =
                                num_val c * prodf e (f :: rest)) /\
                     Forall (fun s => is_symbol s || is_div s = true) new /\
                     (Forall (fun f => get_type f = Some INT) (f :: rest) ->
                      is_pyint c = true -> is_pyint c' = true)) \/
                 (forallb (div_safe div_int div_real) (f :: rest) = false /\
                  factors_of (S fuel) (f :: rest) c symbs =
                  Raise AssertionError)).
  { intros Ht Hsd Hcase.
    assert (Hp : is_plus f = false) by (destruct f; try reflexivity; discriminate).
    assert (Hm : is_minus f = false) by (destruct f; try reflexivity; discriminate).
    assert (Eq : factors_of (S fuel) (f :: rest) c symbs =
                 factors_of fuel rest c (symbs ++ [f])).
    { cbn [times_factors]. rewrite Hp, Hm, Ht. cbn [negb rassert rbind].
      destruct Hcase as [H1 | [H1 H2]].
      - rewrite H1.
        assert (Hr : negb (is_toreal f) || forallb is_symbol (node_args f) = true)
          by (destruct f; try reflexivity; discriminate).
        rewrite Hr. reflexivity.
      - rewrite H1, H2. reflexivity. }
    rewrite Eq.
    destruct (IH rest c (symbs ++ [f]) Hrest Hsz)
      as [(c' & new & E & S & F & T) | (D & E)].
    - left. exists c', (f :: new). split; [|split; [|split]].
      + rewrite E, <- app_assoc. reflexivity.
      + intros e. rewrite !prod_of_cons. specialize (S e).
        rewrite (Qcmult_comm (aev e f)), Qcmult_assoc, S. ring.
      + constructor; assumption.
      + intros K. inversion K; subst. auto.
    - right. split; [|exact E]. cbn [forallb]. rewrite D.
      apply andb_false_r. }
  assert (Kconst : is_times f = false ->
                   is_symbol f || is_toreal f = false ->
                   has_no_vars f = true ->
                   (exists c' new,
                       factors_of (S fuel) (f :: rest) c symbs =
                       Ok (c', symbs ++ new) /\
                       (forall e, num_val c' * prodf e new =
                                  num_val c * prodf e (f :: rest)) /\
                       Forall (fun s => is_symbol s || is_div s = true) new /\
                       (Forall (fun f => get_type f = Some INT) (f :: rest) ->
                        is_pyint c = true -> is_pyint c' = true)) \/
                   (forallb (div_safe div_int div_real) (f :: rest) = false /\
                    factors_of (S fuel) (f :: rest) c symbs =
                    Raise AssertionError)).
  { intros Ht Hs Hc.
    assert (Hp : is_plus f = false) by (destruct f; try reflexivity; discriminate).
    assert (Hm : is_minus f = false) by (destruct f; try reflexivity; discriminate).
    assert (Eq : factors_of (S fuel) (f :: rest) c symbs =
                 rbind (const_value div_int div_real f) (fun v =>
                 factors_of fuel rest (num_mul c v) symbs)).
    { cbn [times_factors]. rewrite Hp, Hm, Ht, Hs, Hc, orb_true_r.
      reflexivity. }
    rewrite Eq.
    destruct (const_value_cases div_int div_real f Hfa Hc)
      as [(Df & v & Ev & Sv & Tv) | (Df & Ev)]; rewrite Ev; cbn [rbind].
    2: { right. split; [|reflexivity]. cbn [forallb]. now rewrite Df. }
    destruct (IH rest (num_mul c v) symbs Hrest Hsz)
      as [(c' & new & E & S & F & T) | (D & E)].
    - left. exists c', new. split; [|split; [|split]].
      + exact E.
      + intros e. rewrite S, num_val_mul, prod_of_cons, Sv. ring.
      + assumption.
      + intros K Hc'. inversion K; subst. apply T; auto.
        apply is_pyint_mul; auto.
    - right. split; [|exact E]. cbn [forallb]. rewrite D.
      apply andb_false_r. }
  destruct f; simpl in Hfa, Hfp; try discriminate.
  - (* symbol *) apply Ksym; auto.
  - (* integer constant *) apply Kconst; auto.
  - (* real constant *) apply Kconst; auto.
  - (* nested product *)
    destruct args as [|a0 args0]; [discriminate|].
    destruct (IH (rest ++ a0 :: args0) c symbs)
      as [(c' & new & E & S & F & T) | (D & E)].
    { apply Forall_app. split; [assumption|].
      apply Forall_forall. intros x Hx. split.
      - rewrite forallb_forall in Hfa. auto.
      - rewrite forallb_forall in Hfp. auto. }
    { rewrite list_size_app. unfold list_size in *.
      cbn [fold_right fnode_size] in *. lia. }
    + left. exists c', new. split; [|split; [|split]].
      * cbn [times_factors is_plus is_minus is_times negb rassert rbind node_args].
        exact E.
      * intros e. rewrite S, prod_of_app, (prod_of_cons _ _ e (Times _) rest).
        change (aev e (Times (a0 :: args0))) with (prodf e (a0 :: args0)).
        ring.
      * assumption.
      * intros K. inversion K as [|? ? K1 K2]; subst. apply T.
        apply Forall_app. split; [assumption|].
        now apply (get_type_nary (a0 :: args0) INT) in K1.
    + right. split.
      * rewrite forallb_app in D. apply andb_false_iff in D.
        change (div_safe div_int div_real (Times (a0 :: args0)) &&
                forallb (div_safe div_int div_real) rest = false).
        change (div_safe div_int div_real (Times (a0 :: args0)))
          with (forallb (div_safe div_int div_real) (a0 :: args0)).
        apply andb_false_iff. destruct D; [right | left]; assumption.
      * cbn [times_factors is_plus is_minus is_times negb rassert rbind node_args].
        exact E.
  - (* division *)
    destruct (has_no_vars (Div f1 f2)) eqn:Hc.
    + apply Kconst; auto.
    + apply Ksym; auto.
Qed.
End Factors.

(** ** The loop of plus_fnode *)

Lemma Z2Qc_m1 : Z2Qc (-1) = (- (1))%Qc.
Proof. apply Qc_is_canon. reflexivity. Qed.

Section Loop.
Variable div_int : Z -> Z -> Z.
Variable div_real : Qc -> Qc -> Qc.
Variable fnode_key : FNode -> Z.
Variable td : FNode -> FNode.
Variable ty : PySMTType.

Hypothesis ty_arith : is_arith ty = true.
Hypothesis td_ok : td_contract div_int div_real td.

Local Notation "'aev'" := (aeval div_int div_real).
Local Notation "'csem'" := (coef_sem div_int div_real).
Local Notation "'sumf'" := (sum_of div_int div_real).
Local Notation "'prodf'" := (prod_of div_int div_real).
Local Notation "'loop'" := (plus_fnode_loop div_int div_real fnode_key td).
Local Notation "'proc'" := (processes div_int div_real fnode_key td ty).
Local Notation "'dsafe'" := (div_safe div_int div_real).
Local Open Scope Qc_scope.

Lemma aeval_number_Z (e : env) (z : Z) : aev e (number_Z ty z) = Z2Qc z.
Proof. destruct ty; reflexivity. Qed.

Lemma key_ok_one : key_ok ty (number_Z ty 1) = true.
Proof. unfold key_ok. now rewrite FNode_eqb_refl. Qed.

Lemma key_ok_shape (k : FNode) :
  is_symbol k || is_product k || is_div k = true -> key_ok ty k = true.
Proof.
  unfold key_ok. intros H. destruct (FNode_eqb k (number_Z ty 1)); [reflexivity|].
  exact H.
Qed.

Lemma tag_ok_int (t : FNode) :
  tag_ok ty t = true -> ty = INT -> get_type t = Some INT.
Proof.
  unfold tag_ok. intros H ->. simpl in H. now apply has_type_eq.
Qed.

Lemma forallb_incl_false {A : Type} (f : A -> bool) (l l' : list A) :
  (forall x, In x l' -> In x l) ->
  forallb f l' = false -> forallb f l = false.
Proof.
  intros Hin H. destruct (forallb f l) eqn:E; [|reflexivity].
  rewrite forallb_forall in E. rewrite <- H. symmetry.
  apply forallb_forall. auto.
Qed.

Lemma processes_nil : proc [].
Proof.
  intros stack d Hd. left. exists 0%nat, d.
  split; [exact Hd|]. split; [|reflexivity].
  intros e. unfold sum_of. cbn [map fold_right]. ring.
Qed.

Lemma processes_app (ts1 ts2 : list FNode) :
  proc ts1 -> proc ts2 -> proc (ts1 ++ ts2).
Proof.
  intros H1 H2 stack d Hd.
  destruct (H1 (ts2 ++ stack) d Hd)
    as [(k1 & d1 & Hd1 & S1 & L1) | (U1 & k1 & L1)].
  - destruct (H2 stack d1 Hd1)
      as [(k2 & d2 & Hd2 & S2 & L2) | (U2 & k2 & L2)].
    + left. exists (k1 + k2)%nat, d2. split; [exact Hd2|]. split.
      * intros e. rewrite S2, S1, sum_of_app. ring.
      * intros fuel. rewrite <- app_assoc, <- Nat.add_assoc, L1. apply L2.
    + right. split.
      * intros Hs. rewrite forallb_app, (U2 Hs). apply andb_false_r.
      * exists (k1 + k2)%nat. intros fuel.
        rewrite <- app_assoc, <- Nat.add_assoc, L1. apply L2.
  - right. split.
    + intros Hs. rewrite forallb_app, (U1 Hs). reflexivity.
    + exists k1. intros fuel. rewrite <- app_assoc. apply L1.
Qed.

Lemma processes_list (ts : list FNode) :
  Forall (fun t => proc [t]) ts -> proc ts.
Proof.
  induction 1 as [|t ts Ht _ IH]; [apply processes_nil|].
  change (t :: ts) with ([t] ++ ts). now apply processes_app.
Qed.

(** One step of the loop does what [k] steps of the rest do. *)
Lemma processes_step (t : FNode) (ts : list FNode) :
  (forall fuel stack d,
      loop (S fuel) ty false (t :: stack) d =
      loop fuel ty false (ts ++ stack) d) ->
  (forall e, sumf e ts = aev e t) ->
  (td_safe div_int div_real td ->
   forallb dsafe ts = false -> dsafe t = false) ->
  proc ts -> proc [t].
Proof.
  intros Hstep Hsem Hsafe H stack d Hd.
  destruct (H stack d Hd) as [(k & d' & Hd' & S' & L') | (U & k & L')].
  - left. exists (S k), d'. split; [exact Hd'|]. split.
    + intros e. rewrite S', Hsem, sum_of_cons. unfold sum_of.
      cbn [map fold_right]. ring.
    + intros fuel. cbn [app]. rewrite Nat.add_succ_l, Hstep. apply L'.
  - right. split.
    + intros Hs. cbn [forallb]. rewrite (Hsafe Hs (U Hs)). reflexivity.
    + exists (S k). intros fuel. cbn [app].
      rewrite Nat.add_succ_l, Hstep. apply L'.
Qed.

(** A step that stores a coefficient. *)
Lemma processes_store (t k : FNode) (v : PyNum) (pr : bool) :
  (forall fuel stack d,
      loop (S fuel) ty false (t :: stack) d =
      loop fuel ty false stack
        (if pr then prune (coef_add d k v) k else coef_add d k v)) ->
  (forall e, num_val v * aev e k = aev e t) ->
  key_ok ty k = true ->
  (ty = INT -> is_pyint v = true) ->
  proc [t].
Proof.
  intros Hstep Hsem Hk Hv stack d Hd. left.
  exists 1%nat, (if pr then prune (coef_add d k v) k else coef_add d k v).
  split; [|split].
  - destruct pr; [apply prune_ok|]; now apply coef_add_ok.
  - intros e. destruct pr; rewrite ?prune_sem, coef_add_sem, Hsem, sum_of_cons;
      unfold sum_of; cbn [map fold_right]; ring.
  - intros fuel. apply Hstep.
Qed.

Lemma processes_closed (t : FNode) :
  arith t = true -> has_no_vars t = true -> tag_ok ty t = true ->
  proc [t].
Proof.
  intros Ha Hc Ht.
  destruct (const_value_cases div_int div_real t Ha Hc)
    as [(_ & v & Ev & Sv & Tv) | (D & Ev)].
  - apply (processes_store t (number_Z ty 1) v true).
    + intros fuel stack d. cbn [plus_fnode_loop]. unfold plus_fnode_step.
      rewrite Hc, orb_true_r, Ev. reflexivity.
    + intros e. rewrite aeval_number_Z, Z2Qc_1, Sv. ring.
    + apply key_ok_one.
    + intros E. apply Tv. now apply tag_ok_int.
  - intros stack d Hd. right. split.
    + intros _. cbn [forallb]. now rewrite D.
    + exists 1%nat. intros fuel. cbn [app Nat.add plus_fnode_loop].
      unfold plus_fnode_step. rewrite Hc, orb_true_r, Ev. reflexivity.
Qed.

Lemma minus_depth_le_arg (l : list FNode) (a : FNode) (n : nat) :
  (fold_right (fun a n => Nat.max (minus_depth a) n) O l <= n)%nat ->
  In a l -> (minus_depth a <= n)%nat.
Proof.
  induction l as [|x l IH]; simpl; [tauto|].
  intros H [<-|Ha]; [lia | apply IH; [lia | exact Ha]].
Qed.

Lemma tag_ok_nary (l : list FNode) (a : FNode) :
  (tag_ok ty (Plus l) = true \/ tag_ok ty (Times l) = true) ->
  In a l -> tag_ok ty a = true.
Proof.
  unfold tag_ok. destruct (PySMTType_eqb ty REAL); [reflexivity|].
  cbn [orb]. intros H Ha. apply has_type_eq.
  assert (F : Forall (fun a => get_type a = Some INT) l).
  { destruct H as [H|H]; apply has_type_eq in H;
      apply (get_type_nary l INT) in H; tauto. }
  rewrite Forall_forall in F. auto.
Qed.

Lemma tag_ok_binary (a b : FNode) :
  tag_ok ty (Minus a b) = true ->
  tag_ok ty a = true /\ tag_ok ty b = true.
Proof.
  unfold tag_ok. destruct (PySMTType_eqb ty REAL); [auto|].
  cbn [orb]. intros H. apply has_type_eq in H.
  apply (get_type_binary a b INT) in H. destruct H as (_ & H1 & H2).
  split; now apply has_type_eq.
Qed.

Lemma tag_ok_negated (b : FNode) :
  arith b = true -> tag_ok ty b = true ->
  tag_ok ty (td (Times [number_Z ty (-1); b])) = true.
Proof.
  unfold tag_ok. destruct (PySMTType_eqb ty REAL) eqn:E; [reflexivity|].
  cbn [orb]. intros Ha H. apply has_type_eq in H. apply has_type_eq.
  destruct td_ok as (_ & _ & Htyped & _). apply Htyped.
  - simpl. rewrite Ha. destruct ty; reflexivity.
  - apply (get_type_nary [number_Z ty (-1); b] INT).
    repeat split; [discriminate|]. repeat constructor; [|exact H].
    destruct ty; try reflexivity; discriminate.
Qed.

(** Every arithmetic term with its multiplications at the leaves is
    taken off the stack in finitely many steps. *)
Lemma processes_term (n : nat) :
  forall t,
    (minus_depth t <= n)%nat ->
    arith t = true -> distributed t = true -> tag_ok ty t = true ->
    proc [t].
Proof.
  induction n as [n IHn] using lt_wf_ind.
  induction t using FNode_ind'; intros Hmd Ha Hd Ht; simpl in Ha;
    try discriminate.
  - (* symbol *)
    apply (processes_store _ (Symbol n0 ty0 x) (PInt 1) false).
    + intros fuel stack d. reflexivity.
    + intros e. cbn [num_val]. rewrite Z2Qc_1. ring.
    + now apply key_ok_shape.
    + reflexivity.
  - apply processes_closed; auto.
  - apply processes_closed; auto.
  - (* sum *)
    destruct (has_no_vars (Plus args)) eqn:Hc;
      [apply processes_closed; auto|].
    apply (processes_step _ (rev args)).
    + intros fuel stack d. cbn [plus_fnode_loop]. unfold plus_fnode_step. rewrite Hc. reflexivity.
    + intros e. apply sum_of_rev.
    + intros _. apply forallb_incl_false. intros x Hx. now apply in_rev.
    + apply processes_list. apply Forall_rev.
      destruct args as [|a0 args0]; [discriminate|].
      rewrite forallb_forall in Ha. simpl in Hd. fold distributed in Hd.
      change (forallb distributed (a0 :: args0) = true) in Hd.
      rewrite forallb_forall in Hd.
      rewrite Forall_forall in H |- *. intros a Hin.
      apply H; auto.
      * eapply minus_depth_le_arg; eauto.
      * eapply tag_ok_nary; eauto.
  - (* difference *)
    destruct (has_no_vars (Minus t1 t2)) eqn:Hc;
      [apply processes_closed; auto|].
    apply andb_true_iff in Ha. destruct Ha as [Ha1 Ha2].
    simpl in Hd. apply andb_true_iff in Hd. destruct Hd as [Hd1 Hd2].
    apply tag_ok_binary in Ht. destruct Ht as [Ht1 Ht2].
    simpl in Hmd.
    destruct td_ok as (Hsound & Hshape & Htyped & Hdepth).
    assert (Har : arith (Times [number_Z ty (-1); t2]) = true).
    { simpl. rewrite Ha2. destruct ty; reflexivity. }
    apply (processes_step _ ([td (Times [number_Z ty (-1); t2])] ++ [t1])).
    + intros fuel stack d. cbn [plus_fnode_loop]. unfold plus_fnode_step. rewrite Hc. reflexivity.
    + intros e. rewrite sum_of_app. unfold sum_of. simpl.
      rewrite Hsound by exact Har. simpl.
      rewrite aeval_number_Z, Z2Qc_m1. ring.
    + intros Hs Hf. cbn [app forallb] in Hf.
      change (dsafe t1 && dsafe t2 = false).
      destruct (dsafe t1); [|reflexivity].
      destruct (dsafe t2) eqn:D2; [|reflexivity].
      rewrite Hs in Hf; [discriminate | exact Har |].
      change (dsafe (number_Z ty (-1)) && (dsafe t2 && true) = true).
      rewrite D2. destruct ty; reflexivity.
    + apply processes_app.
      * destruct (Hshape _ Har) as [Hs1 Hs2].
        apply (IHn (Nat.pred n)); auto; [lia | |].
        -- assert (K := Hdepth (number_Z ty (-1)) t2).
           assert (C1 : is_constant (number_Z ty (-1)) = true)
             by (destruct ty; reflexivity).
           assert (C2 : arith (number_Z ty (-1)) = true)
             by (destruct ty; reflexivity).
           specialize (K C1 C2 Ha2). lia.
        -- now apply tag_ok_negated.
      * apply (IHn (Nat.pred n)); auto; lia.
  - (* product *)
    destruct (has_no_vars (Times args)) eqn:Hc;
      [apply processes_closed; auto|].
    destruct args as [|a0 args0]; [discriminate|].
    set (l := a0 :: args0) in *.
    simpl in Hd. fold product_ok in Hd.
    change (forallb product_ok l = true) in Hd.
    assert (Hf : Forall factor_ok l).
    { rewrite forallb_forall in Ha, Hd. apply Forall_forall.
      intros x Hx. split; auto. }
    destruct (times_factors_spec div_int div_real
                (S (fnode_size (Times l))) l (PInt 1) [] Hf)
      as [(c & new & E & S & F & T) | (D & E)].
    { simpl. unfold list_size. lia. }
    2: { intros stack d Hd'. right. split.
         - intros _. cbn [forallb].
           change (dsafe (Times l)) with (forallb dsafe l).
           now rewrite D.
         - exists 1%nat. intros fuel. cbn [app Nat.add plus_fnode_loop].
           unfold plus_fnode_step. rewrite Hc.
           cbn [is_constant is_symbol is_toreal is_plus orb].
           rewrite E. reflexivity. }
    simpl app in E.
    assert (K : exists key,
               (match new with
                | [] => Ok (number_Z ty 1)
                | _ => mgr_Times (sorted fnode_key new)
                end) = Ok key /\
               (forall e, aev e key = prodf e new) /\
               key_ok ty key = true).
    { destruct new as [|s new'].
      - eexists. split; [reflexivity|]. split; [|apply key_ok_one].
        intros e. rewrite aeval_number_Z, Z2Qc_1. reflexivity.
      - pose proof (sorted_perm fnode_key (s :: new')) as P.
        destruct (sorted fnode_key (s :: new')) as [|x [|y rest]] eqn:Es.
        + apply Permutation_nil in P. discriminate.
        + exists x. split; [reflexivity|]. split.
          * intros e. rewrite <- (prod_of_perm _ _ e _ _ P).
            unfold prod_of. simpl. ring.
          * assert (In x (s :: new')).
            { eapply Permutation_in; [exact P | now left]. }
            rewrite Forall_forall in F. specialize (F x H0).
            apply key_ok_shape. apply orb_true_iff in F.
            destruct F as [-> | ->]; now rewrite ?orb_true_r.
        + exists (Times (x :: y :: rest)). split; [reflexivity|]. split.
          * intros e. rewrite <- (prod_of_perm _ _ e _ _ P). reflexivity.
          * now apply key_ok_shape. }
    destruct K as (key & Ek & Sk & Kk).
    apply (processes_store _ key c true).
    + intros fuel stack d. cbn [plus_fnode_loop]. unfold plus_fnode_step. rewrite Hc.
      cbn [is_constant is_symbol is_toreal is_plus orb].
      rewrite E. cbn [rbind]. rewrite Ek. cbn [rbind].
      rewrite andb_false_r. reflexivity.
    + intros e. rewrite Sk, S. cbn [num_val]. rewrite Z2Qc_1.
      change (aev e (Times l)) with (prodf e l). ring.
    + exact Kk.
    + intros Ety. apply T; [|reflexivity].
      apply (tag_ok_int _ Ht) in Ety.
      now apply (get_type_nary l INT) in Ety.
  - (* division *)
    destruct (has_no_vars (Div t1 t2)) eqn:Hc;
      [apply processes_closed; auto|].
    apply (processes_store _ (Div t1 t2) (PInt 1) false).
    + intros fuel stack d. cbn [plus_fnode_loop]. unfold plus_fnode_step. rewrite Hc. reflexivity.
    + intros e. cbn [num_val]. rewrite Z2Qc_1. ring.
    + now apply key_ok_shape.
    + reflexivity.
Qed.
End Loop.

(** ** Expr.pysmt_expr *)

Lemma sum_with_ext (g g' : FNode -> Qc) (l : list FNode) :
  (forall k, In k l -> g k = g' k) -> sum_with g l = sum_with g' l.
Proof.
  induction l as [|k l IH]; simpl; intros H; [reflexivity|].
  rewrite H, IH; auto.
Qed.

Lemma sum_with_perm (g : FNode -> Qc) (l1 l2 : list FNode) :
  Permutation l1 l2 -> sum_with g l1 = sum_with g l2.
Proof. induction 1; simpl; try congruence; ring. Qed.

Lemma sum_with_filter (g : FNode -> Qc) (p : FNode -> bool) (l : list FNode) :
  (forall k, p k = false -> g k = 0%Qc) ->
  sum_with g (filter p l) = sum_with g l.
Proof.
  intros H. induction l as [|k l IH]; simpl; [reflexivity|].
  destruct (p k) eqn:E; simpl; rewrite IH; [reflexivity|].
  rewrite (H k E). ring.
Qed.

Lemma mgr_Times_ok (l : list FNode) :
  l <> [] -> exists t, mgr_Times l = Ok t.
Proof. destruct l as [|a [|b l]]; simpl; eauto. congruence. Qed.

Section Reconstitution.
Variable div_int : Z -> Z -> Z.
Variable div_real : Qc -> Qc -> Qc.
Variable fnode_key : FNode -> Z.
Variable ty : PySMTType.

Hypothesis ty_arith : is_arith ty = true.

Local Notation "'aev'" := (aeval div_int div_real).
Local Notation "'csem'" := (coef_sem div_int div_real).
Local Notation "'sumf'" := (sum_of div_int div_real).
Local Notation "'prodf'" := (prod_of div_int div_real).
Local Open Scope Qc_scope.

Lemma coef_sem_keys (e : env) (d : list (FNode * PyNum)) :
  NoDup (dict_keys d) ->
  csem e d = sum_with (fun k => num_val (coef_get d k) * aev e k) (dict_keys d).
Proof.
  induction d as [|[k v] d IH]; simpl; intros H; [reflexivity|].
  inversion H as [|? ? Hk Hd]; subst.
  unfold coef_get at 1. simpl. rewrite FNode_eqb_refl. f_equal.
  rewrite IH by assumption. apply sum_with_ext.
  intros k' Hk'. unfold coef_get. simpl.
  destruct (FNode_eqb k' k) eqn:E; [|reflexivity].
  apply FNode_eqb_eq in E. subst. contradiction.
Qed.

Lemma number_ok (v : PyNum) :
  (ty = INT -> is_pyint v = true) ->
  exists c, number ty v = Ok c /\ forall e, aev e c = num_val v.
Proof.
  intros H. destruct ty; try discriminate; simpl.
  - specialize (H eq_refl). destruct v; [|discriminate]. eauto.
  - eauto.
Qed.

Lemma _fnode_times_ok (k : FNode) (v : PyNum) :
  key_ok ty k = true -> (ty = INT -> is_pyint v = true) ->
  exists r, _fnode_times ty k v = Ok r /\
            forall e, aev e r = num_val v * aev e k.
Proof.
  intros Hk Hv. unfold _fnode_times.
  destruct (number_ok v Hv) as (c & Ec & Sc).
  destruct (num_eqb v (PInt 0)) eqn:E0.
  { eexists. split; [reflexivity|]. intros e.
    apply num_eqb_eq in E0. rewrite E0. simpl.
    rewrite Z2Qc_0. destruct ty; simpl; rewrite ?Z2Qc_0; ring. }
  destruct (num_eqb v (PInt 1)) eqn:E1.
  { eexists. split; [reflexivity|]. intros e.
    apply num_eqb_eq in E1. rewrite E1. simpl. rewrite Z2Qc_1. ring. }
  destruct (FNode_eqb k (number_Z ty 0)) eqn:K0.
  { eexists. split; [reflexivity|]. intros e.
    apply FNode_eqb_eq in K0. subst k.
    destruct ty; simpl; rewrite ?Z2Qc_0; ring. }
  destruct (FNode_eqb k (number_Z ty 1)) eqn:K1.
  { exists c. split; [exact Ec|]. intros e.
    apply FNode_eqb_eq in K1. subst k. rewrite Sc.
    destruct ty; simpl; rewrite ?Z2Qc_1; ring. }
  unfold key_ok in Hk. rewrite K1 in Hk. simpl in Hk.
  destruct k; simpl in Hk; try discriminate; simpl; rewrite Ec; simpl.
  - eexists. split; [reflexivity|]. intros e. simpl. rewrite Sc. ring.
  - destruct (mgr_Times_ok (args ++ [c])) as (r & Er);
      [now destruct args|].
    exists r. split; [exact Er|]. intros e.
    rewrite (aeval_mgr_Times _ _ e _ _ Er), prod_of_app.
    unfold prod_of. simpl. rewrite Sc. ring.
  - eexists. split; [reflexivity|]. intros e. simpl. rewrite Sc. ring.
Qed.

Lemma rmap_fnode_times (d : list (FNode * PyNum)) (l : list FNode) :
  dict_ok ty d -> (forall k, In k l -> In k (dict_keys d)) ->
  exists rs,
    rmap (fun k => _fnode_times ty k (coef_get d k)) l = Ok rs /\
    List.length rs = List.length l /\
    forall e, sumf e rs =
              sum_with (fun k => num_val (coef_get d k) * aev e k) l.
Proof.
  intros (Hnd & Hk & Hv) Hl. induction l as [|k l IH]; simpl.
  - exists []. repeat split.
  - destruct IH as (rs & Ers & Len & Srs); [intros; apply Hl; now right|].
    assert (Hin : In k (dict_keys d)) by (apply Hl; now left).
    apply in_map_iff in Hin. destruct Hin as ([k' v'] & Ek & Hin).
    simpl in Ek. subst k'.
    rewrite Forall_forall in Hk. specialize (Hk _ Hin). simpl in Hk.
    destruct (_fnode_times_ok k (coef_get d k) Hk) as (r & Er & Sr).
    { intros E. apply coef_get_pyint. auto. }
    rewrite Er, Ers. simpl. exists (r :: rs). repeat split.
    + simpl. congruence.
    + intros e. unfold sum_of in *. simpl. rewrite Sr, Srs. reflexivity.
Qed.

(** [pysmt_expr] returns a term whose value is the value of the map. *)
Lemma pysmt_expr_ok (d : list (FNode * PyNum)) :
  dict_ok ty d ->
  exists r, pysmt_expr fnode_key (mkExpr ty d) = Ok r /\
            forall e, aev e r = csem e d.
Proof.
  intros Hd. unfold pysmt_expr. cbn [symb2coef expr_type].
  set (l := filter _ _).
  destruct (rmap_fnode_times d l Hd) as (rs & Ers & Len & Srs).
  { intros k Hk. apply filter_In in Hk. destruct Hk as [Hk _].
    eapply Permutation_in; [apply sorted_perm | exact Hk]. }
  rewrite Ers. cbn [rbind].
  assert (S : forall e, sumf e rs = csem e d).
  { intros e. rewrite Srs. unfold l.
    rewrite sum_with_filter.
    - rewrite (sum_with_perm _ _ _ (sorted_perm fnode_key (dict_keys d))).
      symmetry. apply coef_sem_keys. apply Hd.
    - intros k Hk. apply negb_false_iff, num_eqb_eq in Hk. rewrite Hk.
      simpl. rewrite Z2Qc_0. ring. }
  destruct rs as [|r rs].
  - eexists. split; [reflexivity|]. intros e. rewrite <- S.
    destruct ty; simpl; rewrite ?Z2Qc_0; reflexivity.
  - destruct (r :: rs) as [|a [|b rest]] eqn:E; [discriminate| |].
    + eexists. split; [reflexivity|]. intros e. rewrite <- S.
      unfold sum_of. simpl. ring.
    + eexists. split; [reflexivity|]. intros e. rewrite <- S. reflexivity.
Qed.
End Reconstitution.

(** ** The normalisation round trip *)

Lemma arith_type (t : FNode) (ty : PySMTType) :
  arith t = true -> get_type t = Some ty -> is_arith ty = true.
Proof.
  destruct t; try discriminate.
  - simpl. intros H E. injection E as <-. exact H.
  - simpl. intros _ E. injection E as <-. reflexivity.
  - simpl. intros _ E. injection E as <-. reflexivity.
  - intros _ E. apply (get_type_nary args ty) in E. tauto.
  - intros _ E. apply (get_type_binary t1 t2 ty) in E. tauto.
  - intros _ E. apply (get_type_nary args ty) in E. tauto.
  - intros _ E. apply (get_type_binary t1 t2 ty) in E. tauto.
Qed.

Lemma coef_get_stored (d : list (FNode * PyNum)) (k : FNode) :
  In k (dict_keys d) -> In (coef_get d k) (dict_values d).
Proof.
  unfold coef_get. induction d as [|[k' v'] d IH]; simpl; [tauto|].
  intros H. destruct (FNode_eqb k k') eqn:E; [now left|].
  right. apply IH. destruct H as [H|H]; [|exact H].
  subst. rewrite FNode_eqb_refl in E. discriminate.
Qed.

Lemma filter_none {A : Type} (p : A -> bool) (l : list A) :
  (forall a, In a l -> p a = false) -> filter p l = [].
Proof.
  induction l as [|a l IH]; simpl; intros H; [reflexivity|].
  rewrite (H a) by now left. apply IH. intros b Hb. apply H. now right.
Qed.

Lemma dict_ok_nil (ty : PySMTType) : dict_ok ty [].
Proof. repeat split; constructor. Qed.

Section RoundTrip.
Variable div_int : Z -> Z -> Z.
Variable div_real : Qc -> Qc -> Qc.
Variable fnode_key : FNode -> Z.
Variable td : FNode -> FNode.

Local Notation "'aev'" := (aeval div_int div_real).
Local Notation "'csem'" := (coef_sem div_int div_real).
Local Notation "'loop'" := (plus_fnode_loop div_int div_real fnode_key td).
Local Notation "'new_Expr'" := (Expr_init div_int div_real fnode_key td).
Local Open Scope Qc_scope.

(** With enough fuel, [plus_fnode] adds the value of the term to an
    expression of the type of the term, and keeps the invariants of
    its map; or it raises an assertion error, on a term with a
    division of constants by zero. *)
Lemma plus_fnode_cases (ty : PySMTType) (d : list (FNode * PyNum)) (t : FNode) :
  td_contract div_int div_real td ->
  arith t = true -> get_type t = Some ty -> dict_ok ty d ->
  (exists fuel0 d',
      dict_ok ty d' /\
      (forall e, csem e d' = csem e d + aev e t) /\
      forall fuel, (fuel0 <= fuel)%nat ->
        plus_fnode div_int div_real fnode_key td fuel (mkExpr ty d) t =
        Ok (mkExpr ty d')) \/
  ((td_safe div_int div_real td -> div_safe div_int div_real t = false) /\
   exists fuel0,
     forall fuel, (fuel0 <= fuel)%nat ->
       plus_fnode div_int div_real fnode_key td fuel (mkExpr ty d) t =
       Raise AssertionError).
Proof.
  intros Htd Ha Hty Hd.
  assert (Hat : is_arith ty = true) by (eapply arith_type; eauto).
  destruct Htd as (Hsound & Hshape & Htyped & Hdepth).
  destruct (Hshape t Ha) as [Ha' Hd'].
  assert (Ht : tag_ok ty (td t) = true).
  { unfold tag_ok. rewrite (Htyped t ty Ha Hty).
    destruct ty; try reflexivity; discriminate. }
  assert (E1 : PySMTType_eqb ty REAL || has_type (Some ty) ty = true).
  { destruct ty; reflexivity. }
  assert (E2 : PySMTType_eqb ty REAL && has_type (Some ty) INT = false).
  { destruct ty; reflexivity. }
  destruct (processes_term div_int div_real fnode_key td ty Hat
              (conj Hsound (conj Hshape (conj Htyped Hdepth)))
              (minus_depth (td t)) (td t) (Nat.le_refl _) Ha' Hd' Ht [] d Hd)
    as [(k & d' & Hok & S & L) | (U & k & L)].
  - left. exists (Datatypes.S k), d'. split; [exact Hok|]. split.
    + intros e. rewrite S. unfold sum_of. cbn [map fold_right].
      rewrite Hsound by exact Ha. ring.
    + intros fuel Hfuel. unfold plus_fnode. cbn [expr_type symb2coef].
      rewrite Hty, E1, E2. cbn [rassert rbind].
      replace fuel with (k + (fuel - k))%nat by lia.
      specialize (L (fuel - k)%nat). cbn [app] in L. rewrite L.
      destruct (fuel - k)%nat eqn:F; [lia|]. reflexivity.
  - right. split.
    + intros Hs. destruct (div_safe div_int div_real t) eqn:D; [|reflexivity].
      specialize (U Hs). cbn [forallb] in U.
      rewrite (Hs t Ha D) in U. discriminate.
    + exists k. intros fuel Hfuel. unfold plus_fnode.
      cbn [expr_type symb2coef]. rewrite Hty, E1, E2. cbn [rassert rbind].
      replace fuel with (k + (fuel - k))%nat by lia.
      specialize (L (fuel - k)%nat). cbn [app] in L. rewrite L.
      reflexivity.
Qed.

Lemma plus_fnode_ok (ty : PySMTType) (d : list (FNode * PyNum)) (t : FNode) :
  td_contract div_int div_real td ->
  td_safe div_int div_real td ->
  arith t = true -> div_safe div_int div_real t = true ->
  get_type t = Some ty -> dict_ok ty d ->
  exists fuel0 d',
    dict_ok ty d' /\
    (forall e, csem e d' = csem e d + aev e t) /\
    forall fuel, (fuel0 <= fuel)%nat ->
      plus_fnode div_int div_real fnode_key td fuel (mkExpr ty d) t =
      Ok (mkExpr ty d').
Proof.
  intros Htd Hs Ha Hds Hty Hd.
  destruct (plus_fnode_cases ty d t Htd Ha Hty Hd) as [H | [U _]];
    [exact H|].
  rewrite (U Hs) in Hds. discriminate.
Qed.

(** C5: for every arithmetic term [t] of type [ty] without a
    division of constants by zero, with the distributor and the
    sorting key taken as parameters under the contract of the
    distributor, which brings in no such division, there is an
    amount of fuel from which the construction of an expression of
    type [ty] from [t] returns an expression [x], [x.pysmt_expr()]
    returns a term, and the value of that term is the value of [t] in
    every pair of states and for every interpretation of the
    division; and [pysmt_expr] returns the constant 0 of the type of
    the expression for every expression whose coefficients are all
    zero. *)
Theorem normalisation_round_trip (ty : PySMTType) (t : FNode) :
  td_contract div_int div_real td ->
  td_safe div_int div_real td ->
  arith t = true -> div_safe div_int div_real t = true ->
  get_type t = Some ty ->
  (exists fuel0,
      forall fuel, (fuel0 <= fuel)%nat ->
        exists x r,
          new_Expr fuel ty (Some t) None None = Ok x /\
          pysmt_expr fnode_key x = Ok r /\
          forall e, aev e r = aev e t) /\
  (forall x : Expr,
      Forall (fun v => num_eqb v (PInt 0) = true) (dict_values (symb2coef x)) ->
      pysmt_expr fnode_key x = Ok (number_Z (expr_type x) 0)).
Proof.
  intros Htd Hsafe Ha Hds Hty. split.
  - assert (Hat : is_arith ty = true) by (eapply arith_type; eauto).
    destruct (plus_fnode_ok ty [] t Htd Hsafe Ha Hds Hty (dict_ok_nil ty))
      as (fuel0 & d' & Hok & S & L).
    destruct (pysmt_expr_ok div_int div_real fnode_key ty Hat d' Hok)
      as (r & Er & Sr).
    exists fuel0. intros fuel Hfuel. exists (mkExpr ty d'), r.
    split; [|split].
    + unfold Expr_init. rewrite Hat. cbn [rassert rbind].
      rewrite (L fuel Hfuel). reflexivity.
    + exact Er.
    + intros e. rewrite Sr, S. unfold coef_sem. cbn [fold_right]. ring.
  - intros x Hx. unfold pysmt_expr.
    rewrite filter_none; [reflexivity|].
    intros k Hk. apply negb_false_iff.
    rewrite Forall_forall in Hx. apply Hx. apply coef_get_stored.
    eapply Permutation_in; [apply sorted_perm | exact Hk].
Qed.
End RoundTrip.

(** ** The model distributor keeps the contract *)

Lemma in_cross (ms1 ms2 : list (list FNode)) (m : list FNode) :
  In m (cross ms1 ms2) <->
  exists m1 m2, In m1 ms1 /\ In m2 ms2 /\ m = m1 ++ m2.
Proof.
  unfold cross. rewrite in_flat_map. split.
  - intros (m1 & H1 & H). apply in_map_iff in H. destruct H as (m2 & <- & H2).
    eauto.
  - intros (m1 & m2 & H1 & H2 & ->). exists m1. split; [exact H1|].
    apply in_map_iff. eauto.
Qed.

Lemma cross_all (P : FNode -> Prop) (ms1 ms2 : list (list FNode)) :
  monos_all P ms1 -> monos_all P ms2 -> monos_all P (cross ms1 ms2).
Proof.
  unfold monos_all. rewrite !Forall_forall. intros H1 H2 m Hm.
  apply in_cross in Hm. destruct Hm as (m1 & m2 & I1 & I2 & ->).
  apply Forall_app. auto.
Qed.

Lemma expand_all (P : FNode -> Prop) (mss : list (list (list FNode))) :
  Forall (monos_all P) mss -> monos_all P (expand mss).
Proof.
  induction 1 as [|ms mss H _ IH]; simpl.
  - repeat constructor.
  - now apply cross_all.
Qed.

Lemma cross_nonempty (ms1 ms2 : list (list FNode)) :
  ms1 <> [] -> ms2 <> [] -> cross ms1 ms2 <> [].
Proof.
  destruct ms1 as [|m1 ms1]; [congruence|].
  destruct ms2 as [|m2 ms2]; [congruence|]. discriminate.
Qed.

Lemma expand_nonempty (mss : list (list (list FNode))) :
  Forall (fun ms => ms <> []) mss -> expand mss <> [].
Proof.
  induction 1 as [|ms mss H _ IH]; simpl; [discriminate|].
  now apply cross_nonempty.
Qed.

Lemma expand_monos_nonempty (mss : list (list (list FNode))) :
  mss <> [] ->
  Forall (Forall (fun m => m <> [])) mss ->
  Forall (fun m => m <> []) (expand mss).
Proof.
  intros Hne H. destruct H as [|ms mss H _]; [congruence|].
  simpl. apply Forall_forall. intros m Hm. apply in_cross in Hm.
  destruct Hm as (m1 & m2 & I1 & _ & ->).
  rewrite Forall_forall in H. specialize (H _ I1).
  destruct m1; [congruence | discriminate].
Qed.

(** The factors of the monomials of a term inherit a property that
    goes down the sums and the differences. *)
Lemma monomials_all (P Q : FNode -> Prop) :
  (forall l, Q (Plus l) -> Forall Q l) ->
  (forall a b, Q (Minus a b) -> Q a /\ Q b /\ P (minus_one_of b)) ->
  (forall l, Q (Times l) -> Forall P l) ->
  (forall t, is_atom t = true -> Q t -> P t) ->
  forall u, Q u -> monos_all P (monomials u).
Proof.
  intros HP HM HT HA. unfold monos_all.
  induction u using FNode_ind'; intros Hu;
    try (simpl; constructor; [|constructor];
         constructor; [apply HA; [reflexivity | exact Hu] | constructor]).
  - (* sum *)
    simpl. specialize (HP _ Hu). apply Forall_concat.
    apply Forall_map. rewrite Forall_forall in *. auto.
  - (* difference *)
    simpl. destruct (HM _ _ Hu) as (Q1 & Q2 & P1).
    apply Forall_app. split; [auto|].
    apply Forall_map. specialize (IHu2 Q2).
    rewrite Forall_forall in *. intros m Hm. constructor; auto.
  - (* product *)
    simpl. constructor; [|constructor]. auto.
Qed.

Lemma monomials_nonempty (u : FNode) :
  arith u = true ->
  monomials u <> [] /\ Forall (fun m => m <> []) (monomials u).
Proof.
  induction u using FNode_ind'; simpl; try discriminate; intros Ha;
    try (split; [discriminate | repeat constructor; discriminate]).
  - (* sum *)
    destruct args as [|a0 args0]; [discriminate|].
    rewrite forallb_forall in Ha. rewrite Forall_forall in H.
    split.
    + simpl. destruct (H a0 (or_introl eq_refl) (Ha _ (or_introl eq_refl)))
        as [H1 _].
      destruct (monomials a0); [congruence | discriminate].
    + apply Forall_concat. apply Forall_map. apply Forall_forall.
      intros a Hin. apply H; auto.
  - (* difference *)
    apply andb_true_iff in Ha. destruct Ha as [Ha1 Ha2].
    destruct (IHu1 Ha1) as [N1 F1]. destruct (IHu2 Ha2) as [N2 F2].
    split.
    + destruct (monomials u1); [congruence | discriminate].
    + apply Forall_app. split; [exact F1|].
      apply Forall_map. apply Forall_forall. intros; discriminate.
  - (* product *)
    destruct args as [|a0 args0]; [discriminate|].
    split; [discriminate | repeat constructor; discriminate].
Qed.

Lemma arith_minus_one_of (b : FNode) : arith (minus_one_of b) = true.
Proof. unfold minus_one_of. destruct (get_type b) as [[| |]|]; reflexivity. Qed.

Lemma product_ok_minus_one_of (b : FNode) : product_ok (minus_one_of b) = true.
Proof. unfold minus_one_of. destruct (get_type b) as [[| |]|]; reflexivity. Qed.

Lemma monomials_arith (u : FNode) :
  arith u = true -> monos_all (fun f => arith f = true) (monomials u).
Proof.
  apply (monomials_all (fun f => arith f = true) (fun f => arith f = true)).
  - intros l H. simpl in H. destruct l; [discriminate|].
    apply Forall_forall. now apply forallb_forall.
  - intros a b H. simpl in H. apply andb_true_iff in H.
    destruct H. auto using arith_minus_one_of.
  - intros l H. simpl in H. destruct l; [discriminate|].
    apply Forall_forall. now apply forallb_forall.
  - auto.
Qed.

Lemma monomials_product_ok (u : FNode) :
  arith u = true /\ distributed u = true ->
  monos_all (fun f => product_ok f = true) (monomials u).
Proof.
  apply (monomials_all (fun f => product_ok f = true)
           (fun f => arith f = true /\ distributed f = true)).
  - intros l [H1 H2]. simpl in H1, H2. destruct l; [discriminate|].
    rewrite forallb_forall in H1, H2. apply Forall_forall. auto.
  - intros a b [H1 H2]. simpl in H1, H2.
    apply andb_true_iff in H1, H2. destruct H1, H2.
    auto using product_ok_minus_one_of.
  - intros l [_ H]. simpl in H. apply Forall_forall. now apply forallb_forall.
  - intros t Hatom [Ha _]. destruct t; try discriminate; reflexivity.
Qed.

Lemma product_ok_depth (f : FNode) :
  product_ok f = true -> minus_depth f = O.
Proof.
  induction f using FNode_ind'; simpl; try discriminate; try reflexivity.
  intros Hp. rewrite forallb_forall in Hp. rewrite Forall_forall in H.
  induction args as [|a args IH]; simpl; [reflexivity|].
  rewrite (H a (or_introl eq_refl) (Hp a (or_introl eq_refl))).
  cbn [Nat.max]. apply IH.
  - intros x Hx. apply H. now right.
  - intros x Hx. apply Hp. now right.
Qed.

Lemma arith_nary (l : list FNode) :
  (arith (Plus l) = true <-> l <> [] /\ Forall (fun a => arith a = true) l) /\
  (arith (Times l) = true <-> l <> [] /\ Forall (fun a => arith a = true) l).
Proof.
  split; simpl; destruct l as [|a l];
    try (split; [discriminate | intros [H _]; congruence]);
    rewrite forallb_forall, Forall_forall;
    (split; [intros H; split; [discriminate | exact H] | intros [_ H]; exact H]).
Qed.

Lemma td_model_shape (t : FNode) :
  arith t = true ->
  arith (td_model t) = true /\ distributed (td_model t) = true.
Proof.
  induction t using FNode_ind'; try discriminate; auto; intros Ha.
  - (* sum *)
    apply (arith_nary args) in Ha. destruct Ha as [Hne Ha].
    rewrite Forall_forall in H, Ha.
    cbn [td_model distributed]. split.
    + apply (arith_nary (map td_model args)). split.
      * destruct args; [congruence | discriminate].
      * apply Forall_map, Forall_forall. intros a Hin. apply H; auto.
    + apply forallb_forall. intros x Hx.
      apply in_map_iff in Hx. destruct Hx as (a & <- & Hin).
      apply H; auto.
  - (* difference *)
    simpl in Ha. apply andb_true_iff in Ha. destruct Ha as [Ha1 Ha2].
    destruct (IHt1 Ha1), (IHt2 Ha2). simpl. split; apply andb_true_iff; auto.
  - (* product *)
    apply (arith_nary args) in Ha. destruct Ha as [Hne Ha].
    rewrite Forall_forall in H, Ha.
    cbn [td_model].
    fold (expand (map (fun a => monomials (td_model a)) args)).
    set (mss := map (fun a => monomials (td_model a)) args).
    assert (N1 : expand mss <> []).
    { apply expand_nonempty. apply Forall_map. apply Forall_forall.
      intros a Hin. apply monomials_nonempty. apply H; auto. }
    assert (N2 : Forall (fun m => m <> []) (expand mss)).
    { apply expand_monos_nonempty.
      - unfold mss. destruct args; [congruence | discriminate].
      - apply Forall_map. apply Forall_forall.
        intros a Hin. apply monomials_nonempty. apply H; auto. }
    assert (A : monos_all (fun f => arith f = true) (expand mss)).
    { apply expand_all. apply Forall_map. apply Forall_forall.
      intros a Hin. apply monomials_arith. apply H; auto. }
    assert (D : monos_all (fun f => product_ok f = true) (expand mss)).
    { apply expand_all. apply Forall_map. apply Forall_forall.
      intros a Hin. apply monomials_product_ok. apply H; auto. }
    split.
    + apply (arith_nary (map Times (expand mss))). split.
      * destruct (expand mss); [congruence | discriminate].
      * apply Forall_map, Forall_forall. intros m Hm.
        unfold monos_all in A. rewrite Forall_forall in A, N2.
        apply (arith_nary m). split; auto.
    + cbn [distributed]. apply forallb_forall. intros x Hx.
      apply in_map_iff in Hx. destruct Hx as (m & <- & Hm).
      unfold monos_all in D. rewrite Forall_forall in D.
      specialize (D _ Hm). cbn [distributed]. apply forallb_forall.
      now apply Forall_forall.
Qed.

Lemma expand_td_model (l : list FNode) :
  l <> [] -> Forall (fun a => arith a = true) l ->
  let ms := expand (map (fun a => monomials (td_model a)) l) in
  ms <> [] /\
  Forall (fun m => m <> []) ms /\
  monos_all (fun f => arith f = true) ms /\
  monos_all (fun f => product_ok f = true) ms.
Proof.
  intros Hne Ha. rewrite Forall_forall in Ha. cbv zeta. repeat split.
  - apply expand_nonempty. apply Forall_map. apply Forall_forall.
    intros a Hin. apply monomials_nonempty. apply td_model_shape; auto.
  - apply expand_monos_nonempty.
    + destruct l; [congruence | discriminate].
    + apply Forall_map. apply Forall_forall.
      intros a Hin. apply monomials_nonempty. apply td_model_shape; auto.
  - apply expand_all. apply Forall_map. apply Forall_forall.
    intros a Hin. apply monomials_arith. apply td_model_shape; auto.
  - apply expand_all. apply Forall_map. apply Forall_forall.
    intros a Hin. apply monomials_product_ok. apply td_model_shape; auto.
Qed.

Lemma minus_depth_zero (l : list FNode) :
  Forall (fun a => minus_depth a = O) l ->
  fold_right (fun a n => Nat.max (minus_depth a) n) O l = O.
Proof.
  induction 1 as [|a l Ha _ IH]; simpl; [reflexivity|]. now rewrite Ha, IH.
Qed.

Lemma td_model_depth (l : list FNode) :
  arith (Times l) = true -> minus_depth (td_model (Times l)) = O.
Proof.
  intros Ha. apply (arith_nary l) in Ha. destruct Ha as [Hne Ha].
  destruct (expand_td_model l Hne Ha) as (_ & _ & _ & D).
  cbn [td_model minus_depth].
  fold (expand (map (fun a => monomials (td_model a)) l)).
  apply minus_depth_zero. apply Forall_map.
  unfold monos_all in D. rewrite Forall_forall in D |- *.
  intros m Hm. cbn [minus_depth]. apply minus_depth_zero.
  specialize (D _ Hm). rewrite Forall_forall in D |- *.
  intros f Hf. apply product_ok_depth. auto.
Qed.

Lemma monomials_typed (ty : PySMTType) (u : FNode) :
  get_type u = Some ty ->
  monos_all (fun f => get_type f = Some ty) (monomials u).
Proof.
  apply (monomials_all (fun f => get_type f = Some ty)
           (fun f => get_type f = Some ty)).
  - intros l H. apply (get_type_nary l ty) in H. tauto.
  - intros a b H. apply (get_type_binary a b ty) in H.
    destruct H as (Hty & H1 & H2). repeat split; auto.
    unfold minus_one_of. rewrite H2. destruct ty; try reflexivity; discriminate.
  - intros l H. apply (get_type_nary l ty) in H. tauto.
  - auto.
Qed.

Lemma td_model_typed (t : FNode) (ty : PySMTType) :
  arith t = true -> get_type t = Some ty -> get_type (td_model t) = Some ty.
Proof.
  revert ty. induction t using FNode_ind'; intros T Ha Hty;
    try discriminate; auto.
  - (* sum *)
    apply (arith_nary args) in Ha. destruct Ha as [Hne Ha].
    apply (get_type_nary args T) in Hty. destruct Hty as (_ & Hat & Hty).
    cbn [td_model]. apply (get_type_nary (map td_model args) T).
    repeat split; auto.
    + destruct args; [congruence | discriminate].
    + apply Forall_map. rewrite Forall_forall in *. auto.
  - (* difference *)
    simpl in Ha. apply andb_true_iff in Ha. destruct Ha as [Ha1 Ha2].
    apply (get_type_binary t1 t2 T) in Hty. destruct Hty as (Hat & H1 & H2).
    cbn [td_model]. apply (get_type_binary (td_model t1) (td_model t2) T).
    auto.
  - (* product *)
    apply (arith_nary args) in Ha. destruct Ha as [Hne Ha].
    apply (get_type_nary args T) in Hty. destruct Hty as (_ & Hat & Hty).
    destruct (expand_td_model args Hne Ha) as (N1 & N2 & _ & _).
    cbn [td_model].
    fold (expand (map (fun a => monomials (td_model a)) args)) in *.
    set (ms := expand _) in *.
    assert (HT : monos_all (fun f => get_type f = Some T) ms).
    { apply expand_all. apply Forall_map.
      rewrite Forall_forall in *. intros a Hin.
      apply monomials_typed. auto. }
    apply (get_type_nary (map Times ms) T). repeat split; auto.
    + destruct ms; [congruence | discriminate].
    + apply Forall_map. unfold monos_all in HT.
      rewrite Forall_forall in *. intros m Hm.
      apply (get_type_nary m T). repeat split; auto.
Qed.

Section DistributorValue.
Variable div_int : Z -> Z -> Z.
Variable div_real : Qc -> Qc -> Qc.

Local Notation "'aev'" := (aeval div_int div_real).
Local Notation "'prodf'" := (prod_of div_int div_real).
Local Notation "'sumf'" := (sum_of div_int div_real).
Local Notation "'msem'" := (monos_sem div_int div_real).
Local Open Scope Qc_scope.

Lemma monos_sem_cons (e : env) (m : list FNode) (ms : list (list FNode)) :
  msem e (m :: ms) = prodf e m + msem e ms.
Proof. reflexivity. Qed.

Lemma monos_sem_app (e : env) (ms1 ms2 : list (list FNode)) :
  msem e (ms1 ++ ms2) = msem e ms1 + msem e ms2.
Proof.
  induction ms1 as [|m ms1 IH]; cbn [app].
  - unfold monos_sem at 2. cbn [fold_right]. ring.
  - rewrite !monos_sem_cons, IH. ring.
Qed.

Lemma monos_sem_scale (e : env) (c : FNode) (ms : list (list FNode)) :
  msem e (map (cons c) ms) = aev e c * msem e ms.
Proof.
  induction ms as [|m ms IH]; cbn [map].
  - unfold monos_sem. cbn [fold_right]. ring.
  - rewrite !monos_sem_cons, IH, prod_of_cons. ring.
Qed.

Lemma monos_sem_prefix (e : env) (m1 : list FNode) (ms : list (list FNode)) :
  msem e (map (fun m2 => m1 ++ m2) ms) = prodf e m1 * msem e ms.
Proof.
  induction ms as [|m ms IH]; cbn [map].
  - unfold monos_sem. cbn [fold_right]. ring.
  - rewrite !monos_sem_cons, IH, prod_of_app. ring.
Qed.

Lemma cross_sem (e : env) (ms1 ms2 : list (list FNode)) :
  msem e (cross ms1 ms2) = msem e ms1 * msem e ms2.
Proof.
  unfold cross. induction ms1 as [|m1 ms1 IH]; cbn [flat_map].
  - unfold monos_sem. cbn [fold_right]. ring.
  - rewrite monos_sem_app, monos_sem_prefix, IH, monos_sem_cons. ring.
Qed.

Lemma aeval_minus_one_of (e : env) (b : FNode) :
  aev e (minus_one_of b) = - (1).
Proof.
  unfold minus_one_of.
  destruct (get_type b) as [[| |]|]; cbn [aeval]; apply Z2Qc_m1.
Qed.

Lemma monomials_sem (e : env) (u : FNode) :
  msem e (monomials u) = aev e u.
Proof.
  induction u using FNode_ind';
    try (cbn [monomials]; rewrite monos_sem_cons, prod_of_cons;
         unfold prod_of, monos_sem; cbn [map fold_right]; ring).
  - (* sum *)
    cbn [monomials]. change (aev e (Plus args)) with (sumf e args).
    induction H as [|a l Ha _ IH]; cbn [map List.concat].
    + reflexivity.
    + rewrite monos_sem_app, Ha, IH, sum_of_cons. reflexivity.
  - (* difference *)
    cbn [monomials aeval].
    rewrite monos_sem_app, monos_sem_scale, aeval_minus_one_of, IHu1, IHu2.
    ring.
  - (* product *)
    cbn [monomials]. rewrite monos_sem_cons.
    change (aev e (Times args)) with (prodf e args).
    unfold monos_sem. cbn [fold_right]. ring.
Qed.

Lemma aeval_sum_of_products (e : env) (ms : list (list FNode)) :
  aev e (Plus (map Times ms)) = msem e ms.
Proof.
  change (aev e (Plus (map Times ms))) with (sumf e (map Times ms)).
  induction ms as [|m ms IH]; cbn [map]; [reflexivity|].
  rewrite sum_of_cons, monos_sem_cons, IH. reflexivity.
Qed.

Lemma td_model_sound (e : env) (t : FNode) :
  aev e (td_model t) = aev e t.
Proof.
  induction t using FNode_ind'; try reflexivity.
  - (* sum *)
    cbn [td_model]. change (sumf e (map td_model args) = sumf e args).
    induction H as [|a l Ha _ IH]; cbn [map]; [reflexivity|].
    rewrite !sum_of_cons, Ha, IH. reflexivity.
  - (* difference *)
    cbn [td_model aeval]. now rewrite IHt1, IHt2.
  - (* product *)
    cbn [td_model]. rewrite aeval_sum_of_products.
    change (aev e (Times args)) with (prodf e args).
    induction H as [|a l Ha _ IH]; cbn [map fold_right].
    + unfold monos_sem, prod_of. cbn [map fold_right]. ring.
    + rewrite cross_sem, IH, monomials_sem, Ha, prod_of_cons. reflexivity.
Qed.

Lemma monomials_safe (u : FNode) :
  div_safe div_int div_real u = true ->
  monos_all (fun f => div_safe div_int div_real f = true) (monomials u).
Proof.
  apply (monomials_all (fun f => div_safe div_int div_real f = true)
           (fun f => div_safe div_int div_real f = true)).
  - intros l H. apply Forall_forall. now apply forallb_forall.
  - intros a b H.
    change (div_safe div_int div_real a && div_safe div_int div_real b = true)
      in H.
    apply andb_true_iff in H. destruct H as [H1 H2].
    split; [exact H1|]. split; [exact H2|].
    unfold minus_one_of. destruct (get_type b) as [[| |]|]; reflexivity.
  - intros l H. apply Forall_forall. now apply forallb_forall.
  - auto.
Qed.

(** The model distributor copies the divisions: it brings in no
    division of constants by zero. *)
Lemma td_model_safe : td_safe div_int div_real td_model.
Proof.
  intros t _.
  induction t using FNode_ind'; try (intros; assumption).
  - (* sum *)
    intros Hs. change (forallb (div_safe div_int div_real) args = true) in Hs.
    change (forallb (div_safe div_int div_real) (map td_model args) = true).
    rewrite forallb_forall in Hs. rewrite Forall_forall in H.
    apply forallb_forall. intros x Hx.
    apply in_map_iff in Hx. destruct Hx as (a & <- & Hin). auto.
  - (* difference *)
    intros Hs.
    change (div_safe div_int div_real t1 && div_safe div_int div_real t2 = true)
      in Hs.
    apply andb_true_iff in Hs. destruct Hs as [H1 H2].
    change (div_safe div_int div_real (td_model t1) &&
            div_safe div_int div_real (td_model t2) = true).
    now rewrite IHt1, IHt2.
  - (* product *)
    intros Hs. change (forallb (div_safe div_int div_real) args = true) in Hs.
    rewrite forallb_forall in Hs. rewrite Forall_forall in H.
    cbn [td_model].
    fold (expand (map (fun a => monomials (td_model a)) args)).
    assert (M : monos_all (fun f => div_safe div_int div_real f = true)
                  (expand (map (fun a => monomials (td_model a)) args))).
    { apply expand_all. apply Forall_map. apply Forall_forall.
      intros a Hin. apply monomials_safe. auto. }
    change (forallb (div_safe div_int div_real)
              (map Times (expand (map (fun a => monomials (td_model a)) args)))
            = true).
    apply forallb_forall. intros x Hx.
    apply in_map_iff in Hx. destruct Hx as (m & <- & Hin).
    unfold monos_all in M. rewrite Forall_forall in M. specialize (M m Hin).
    change (forallb (div_safe div_int div_real) m = true).
    apply forallb_forall. now apply Forall_forall.
Qed.

(** The model distributor keeps the contract of [td]. *)
Lemma td_model_contract : td_contract div_int div_real td_model.
Proof.
  split; [|split; [|split]].
  - intros e t _. apply td_model_sound.
  - intros t. apply td_model_shape.
  - intros t ty. apply td_model_typed.
  - intros c b _ Hc Hb. rewrite td_model_depth; [lia|].
    apply (arith_nary [c; b]). split; [discriminate|].
    repeat constructor; assumption.
Qed.
End DistributorValue.

(** The round trip on (x + 1) * 2 - x, with the model distributor. *)
Lemma normalisation_round_trip_witness :
  (exists fuel0,
      forall fuel, (fuel0 <= fuel)%nat ->
        exists x r,
          Expr_init Z.div Qcdiv SampleTerm.key td_model fuel INT
            (Some SampleTerm.t1) None None = Ok x /\
          pysmt_expr SampleTerm.key x = Ok r /\
          forall e, aeval Z.div Qcdiv e r = aeval Z.div Qcdiv e SampleTerm.t1) /\
  (forall x : Expr,
      Forall (fun v => num_eqb v (PInt 0) = true) (dict_values (symb2coef x)) ->
      pysmt_expr SampleTerm.key x = Ok (number_Z (expr_type x) 0)).
Proof.
  apply (normalisation_round_trip Z.div Qcdiv SampleTerm.key td_model INT
           SampleTerm.t1).
  - apply td_model_contract.
  - apply td_model_safe.
  - reflexivity.
  - reflexivity.
  - reflexivity.
Defined.

(** C5, the claim as stated fails: x + 1/0 is an arithmetic term of
    integer type, the model distributor keeps the contract, and the
    construction of an expression from the term raises an assertion
    error, whatever the fuel: it returns no expression. *)
Lemma normalisation_round_trip_fails :
  arith SampleTerm.x_div0 = true /\
  get_type SampleTerm.x_div0 = Some INT /\
  td_contract Z.div Qcdiv td_model /\
  (forall fuel, (2 <= fuel)%nat ->
     Expr_init Z.div Qcdiv SampleTerm.key td_model fuel INT
       (Some SampleTerm.x_div0) None None = Raise AssertionError) /\
  (forall fuel x,
     Expr_init Z.div Qcdiv SampleTerm.key td_model fuel INT
       (Some SampleTerm.x_div0) None None <> Ok x).
Proof.
  split; [reflexivity|]. split; [reflexivity|].
  split; [apply td_model_contract|]. split.
  - intros [|[|fuel]] H; [lia | lia | reflexivity].
  - intros [|[|fuel]] x; discriminate.
Qed.

Example normalise_sample :
  rbind (Expr_init Z.div Qcdiv SampleTerm.key td_model 50 INT
           (Some SampleTerm.t1) None None)
    (pysmt_expr SampleTerm.key) =
  Ok (Plus [Sample.x; IntC 2]).
Proof. vm_compute. reflexivity. Qed.

(** ** More fuel changes nothing *)

Section Fuel.
Variable div_int : Z -> Z -> Z.
Variable div_real : Qc -> Qc -> Qc.
Variable fnode_key : FNode -> Z.
Variable td : FNode -> FNode.

Local Notation "'loop'" := (plus_fnode_loop div_int div_real fnode_key td).

Lemma plus_fnode_loop_mono (fuel : nat) :
  forall ty r stack d d',
    loop fuel ty r stack d = Ok d' ->
    forall fuel', (fuel <= fuel')%nat -> loop fuel' ty r stack d = Ok d'.
Proof.
  induction fuel as [|fuel IH]; intros ty r stack d d' H fuel' Hle;
    [discriminate|].
  destruct fuel' as [|fuel']; [lia|].
  cbn [plus_fnode_loop] in *. destruct stack as [|curr stack]; [exact H|].
  destruct (plus_fnode_step _ _ _ _ _ _ _ _ _) as [[st' d1]|];
    [|discriminate].
  cbn [rbind fst snd] in *. apply (IH _ _ _ _ _ H). lia.
Qed.

Lemma plus_fnode_mono (fuel fuel' : nat) (x x' : Expr) (t : FNode) :
  plus_fnode div_int div_real fnode_key td fuel x t = Ok x' ->
  (fuel <= fuel')%nat ->
  plus_fnode div_int div_real fnode_key td fuel' x t = Ok x'.
Proof.
  unfold plus_fnode. destruct (rassert _); [|discriminate]. cbn [rbind].
  destruct (loop fuel _ _ _ _) as [d|] eqn:E; [|discriminate].
  intros H Hle. rewrite (plus_fnode_loop_mono _ _ _ _ _ _ E _ Hle). exact H.
Qed.
End Fuel.

(** ** Soundness of times and pysmt_expr *)

Lemma coef_add_NoDup (d : list (FNode * PyNum)) (k : FNode) (v : PyNum) :
  NoDup (dict_keys d) -> NoDup (dict_keys (coef_add d k v)).
Proof.
  intros Hnd. unfold coef_add. rewrite dict_keys_set.
  destruct (dict_mem FNode_eqb d k) eqn:E; [assumption|].
  apply NoDup_app; [assumption | repeat constructor; simpl; tauto | ].
  intros x Hx [<-|[]]. apply dict_mem_In in Hx. congruence.
Qed.

Section Sound.
Variable div_int : Z -> Z -> Z.
Variable div_real : Qc -> Qc -> Qc.
Variable fnode_key : FNode -> Z.

Local Notation "'aev'" := (aeval div_int div_real).
Local Notation "'csem'" := (coef_sem div_int div_real).
Local Notation "'sumf'" := (sum_of div_int div_real).
Local Notation "'prodf'" := (prod_of div_int div_real).
Local Open Scope Qc_scope.

Lemma aeval_number_Z' (e : env) (ty : PySMTType) (z : Z) :
  aev e (number_Z ty z) = Z2Qc z.
Proof. destruct ty; reflexivity. Qed.

Lemma number_sound (e : env) (ty : PySMTType) (v : PyNum) (c : FNode) :
  number ty v = Ok c -> aev e c = num_val v.
Proof.
  destruct ty; simpl; try (destruct v; [|discriminate]);
    intros E; injection E as <-; reflexivity.
Qed.

Lemma _fnode_times_sound (e : env) (ty : PySMTType) (k : FNode) (v : PyNum)
    (r : FNode) :
  _fnode_times ty k v = Ok r -> aev e r = num_val v * aev e k.
Proof.
  unfold _fnode_times.
  destruct (num_eqb v (PInt 0)) eqn:E0.
  { intros E. injection E as <-. apply num_eqb_eq in E0. rewrite E0.
    cbn [num_val]. rewrite aeval_number_Z', Z2Qc_0. ring. }
  destruct (num_eqb v (PInt 1)) eqn:E1.
  { intros E. injection E as <-. apply num_eqb_eq in E1. rewrite E1.
    cbn [num_val]. rewrite Z2Qc_1. ring. }
  destruct (FNode_eqb k (number_Z ty 0)) eqn:K0.
  { intros E. injection E as <-. apply FNode_eqb_eq in K0. subst k.
    rewrite aeval_number_Z', Z2Qc_0. ring. }
  destruct (FNode_eqb k (number_Z ty 1)) eqn:K1.
  { intros E. apply FNode_eqb_eq in K1. subst k.
    rewrite (number_sound e _ _ _ E), aeval_number_Z', Z2Qc_1. ring. }
  destruct (is_symbol k || is_toreal k).
  { destruct (rassert _); [|discriminate]. cbn [rbind].
    destruct (number ty v) as [c|] eqn:Ec; [|discriminate]. cbn [rbind].
    intros E. rewrite (aeval_mgr_Times _ _ e _ _ E), !prod_of_cons.
    rewrite (number_sound e _ _ _ Ec). unfold prod_of. cbn [map fold_right].
    ring. }
  destruct (is_times k) eqn:Kt.
  { destruct (number ty v) as [c|] eqn:Ec; [|discriminate]. cbn [rbind].
    intros E. rewrite (aeval_mgr_Times _ _ e _ _ E), prod_of_app, prod_of_cons.
    rewrite (number_sound e _ _ _ Ec).
    destruct k; try discriminate. cbn [node_args].
    change (aev e (Times args)) with (prodf e args).
    unfold prod_of at 2. cbn [map fold_right]. ring. }
  destruct (rassert _); [|discriminate]. cbn [rbind].
  destruct (number ty v) as [c|] eqn:Ec; [|discriminate]. cbn [rbind].
  intros E. rewrite (aeval_mgr_Times _ _ e _ _ E), !prod_of_cons.
  rewrite (number_sound e _ _ _ Ec). unfold prod_of. cbn [map fold_right].
  ring.
Qed.

Lemma rmap_sound (e : env) (f : FNode -> result FNode) (g : FNode -> Qc)
    (l rs : list FNode) :
  (forall k r, f k = Ok r -> aev e r = g k) ->
  rmap f l = Ok rs -> sumf e rs = sum_with g l.
Proof.
  intros Hf. revert rs. induction l as [|k l IH]; cbn [rmap]; intros rs H.
  - injection H as <-. reflexivity.
  - destruct (f k) as [r|] eqn:Ek; [|discriminate]. cbn [rbind] in H.
    destruct (rmap f l) as [rs'|]; [|discriminate]. cbn [rbind] in H.
    injection H as <-. rewrite sum_of_cons, (Hf _ _ Ek), (IH _ eq_refl).
    reflexivity.
Qed.

(** When [pysmt_expr] returns a term, its value is the value of the
    map. *)
Lemma pysmt_expr_sound (x : Expr) (r : FNode) :
  NoDup (dict_keys (symb2coef x)) ->
  pysmt_expr fnode_key x = Ok r ->
  forall e, aev e r = csem e (symb2coef x).
Proof.
  intros Hnd H e. unfold pysmt_expr in H.
  destruct (rmap _ _) as [rs|] eqn:Ers; [|discriminate]. cbn [rbind] in H.
  assert (S : sumf e rs = csem e (symb2coef x)).
  { rewrite (rmap_sound e _ (fun k => num_val (coef_get (symb2coef x) k) * aev e k)
               _ _ (fun k r => _fnode_times_sound e _ k _ r) Ers).
    rewrite sum_with_filter.
    - rewrite (sum_with_perm _ _ _ (sorted_perm fnode_key _)).
      symmetry. now apply coef_sem_keys.
    - intros k Hk. apply negb_false_iff, num_eqb_eq in Hk. rewrite Hk.
      cbn [num_val]. rewrite Z2Qc_0. ring. }
  rewrite <- S. destruct rs as [|a rs].
  - injection H as <-. rewrite aeval_number_Z', Z2Qc_0. reflexivity.
  - now apply aeval_mgr_Plus.
Qed.

Lemma is_zero_sem (e : env) (x : Expr) :
  is_zero x = true -> csem e (symb2coef x) = 0.
Proof.
  unfold is_zero. destruct (symb2coef x) as [|kv d] eqn:E; [reflexivity|].
  cbn [List.length Nat.eqb]. rewrite <- E. clear E kv d.
  unfold dict_values. induction (symb2coef x) as [|[k v] d IH];
    cbn [map forallb]; [reflexivity|].
  intros H. apply andb_true_iff in H. destruct H as [H1 H2].
  rewrite coef_sem_cons, (IH H2). cbn [snd] in H1.
  apply num_eqb_eq in H1. rewrite H1. cbn [num_val]. rewrite Z2Qc_0. ring.
Qed.

Lemma is_one_sem (e : env) (x : Expr) :
  is_one x = true -> csem e (symb2coef x) = 1.
Proof.
  unfold is_one.
  destruct (symb2coef x) as [|[k v] [|kv d]]; cbn [List.length Nat.eqb];
    try discriminate.
  unfold dict_mem, coef_get. cbn [dict_get andb].
  destruct (FNode_eqb (number_Z (expr_type x) 1) k) eqn:Ek;
    [|discriminate].
  apply FNode_eqb_eq in Ek. subst k.
  destruct (num_eqb v (PInt 1)) eqn:Ev; [|discriminate]. intros _.
  apply num_eqb_eq in Ev. rewrite coef_sem_cons, Ev, aeval_number_Z'.
  cbn [num_val]. rewrite Z2Qc_1. unfold coef_sem. cbn [fold_right]. ring.
Qed.

Lemma times_key_sem (e : env) (k0 k1 k : FNode) :
  times_key fnode_key k0 k1 = Ok k -> aev e k = aev e k0 * aev e k1.
Proof.
  unfold times_key. intros H.
  rewrite (aeval_mgr_Times _ _ e _ _ H).
  rewrite (prod_of_perm _ _ e _ _ (sorted_perm fnode_key _)).
  assert (P0 : prodf e (if is_times k0 then node_args k0 else [k0]) = aev e k0).
  { destruct k0; cbn [is_times node_args]; try reflexivity;
      unfold prod_of; cbn [map fold_right]; ring. }
  destruct (is_times k1) eqn:T1.
  - rewrite prod_of_app, P0. destruct k1; try discriminate. reflexivity.
  - destruct (node_is_one k1) eqn:O1; cbn [negb].
    + rewrite P0. destruct k1; try discriminate; cbn [node_is_one] in O1.
      * apply Z.eqb_eq in O1. subst. cbn [aeval]. rewrite Z2Qc_1. ring.
      * apply Qc_eqb_eq in O1. subst. cbn [aeval]. rewrite Z2Qc_1. ring.
    + rewrite prod_of_app, P0. unfold prod_of. cbn [map fold_right]. ring.
Qed.

Lemma times_inner_sem (e : env) (kv0 : FNode * PyNum)
    (d1 : list (FNode * PyNum)) :
  forall (acc : result (list (FNode * PyNum))) (d : list (FNode * PyNum)),
    fold_left
      (fun acc kv1 =>
         rbind acc (fun d =>
         rbind (times_key fnode_key (fst kv0) (fst kv1)) (fun symbs =>
         Ok (coef_add d symbs (num_mul (snd kv0) (snd kv1))))))
      d1 acc = Ok d ->
    exists d0, acc = Ok d0 /\
               (NoDup (dict_keys d0) -> NoDup (dict_keys d)) /\
               csem e d = csem e d0 +
                          num_val (snd kv0) * aev e (fst kv0) * csem e d1.
Proof.
  induction d1 as [|[k1 v1] d1 IH]; cbn [fold_left]; intros acc d H.
  - exists d. split; [exact H|]. split; [auto|].
    unfold coef_sem at 3. cbn [fold_right]. ring.
  - apply IH in H. destruct H as (d' & E & Hnd & S).
    destruct acc as [d0|]; [|discriminate]. cbn [rbind fst snd] in E.
    destruct (times_key fnode_key (fst kv0) k1) as [k|] eqn:Ek;
      [|discriminate].
    cbn [rbind] in E. injection E as <-.
    exists d0. split; [reflexivity|]. split.
    + intros H0. apply Hnd. now apply coef_add_NoDup.
    + rewrite S, coef_add_sem, coef_sem_cons, num_val_mul.
      rewrite (times_key_sem e _ _ _ Ek). ring.
Qed.

Lemma times_outer_sem (e : env) (d1 d0 : list (FNode * PyNum)) :
  forall (acc : result (list (FNode * PyNum))) (d : list (FNode * PyNum)),
    fold_left
      (fun acc kv0 =>
         fold_left
           (fun acc kv1 =>
              rbind acc (fun d =>
              rbind (times_key fnode_key (fst kv0) (fst kv1)) (fun symbs =>
              Ok (coef_add d symbs (num_mul (snd kv0) (snd kv1))))))
           d1 acc)
      d0 acc = Ok d ->
    exists da, acc = Ok da /\
               (NoDup (dict_keys da) -> NoDup (dict_keys d)) /\
               csem e d = csem e da + csem e d0 * csem e d1.
Proof.
  induction d0 as [|kv0 d0 IH]; cbn [fold_left]; intros acc d H.
  - exists d. split; [exact H|]. split; [auto|].
    unfold coef_sem at 3. cbn [fold_right]. ring.
  - apply IH in H. destruct H as (d' & E & Hnd & S).
    apply (times_inner_sem e) in E. destruct E as (da & -> & Hnd' & S').
    exists da. split; [reflexivity|]. split; [auto|].
    rewrite S, S'. destruct kv0 as [k0 v0]. rewrite coef_sem_cons.
    cbn [fst snd]. ring.
Qed.

Lemma times_cross_sem (e : env) (d0 d1 d : list (FNode * PyNum)) :
  times_cross fnode_key d0 d1 = Ok d ->
  NoDup (dict_keys d) /\ csem e d = csem e d0 * csem e d1.
Proof.
  unfold times_cross. intros H. apply (times_outer_sem e) in H.
  destruct H as (da & E & Hnd & S). injection E as <-.
  split; [apply Hnd; constructor|]. rewrite S.
  change (csem e []) with 0. ring.
Qed.

(** [self.times(expr)] for an expression of the same type. *)
Lemma times_sem (e : env) (x c x' : Expr) :
  expr_type c = expr_type x ->
  times fnode_key x [c] = Ok x' ->
  (NoDup (dict_keys (symb2coef x)) -> NoDup (dict_keys (symb2coef x'))) /\
  csem e (symb2coef x') = csem e (symb2coef x) * csem e (symb2coef c).
Proof.
  intros Hty. unfold times. destruct (is_zero x) eqn:Zx.
  { intros E. injection E as <-. split; [auto|].
    rewrite (is_zero_sem e x Zx). ring. }
  cbn [times_loop]. destruct (rassert _); [|discriminate]. cbn [rbind].
  destruct (is_zero c) eqn:Zc.
  { intros E. injection E as <-. cbn [symb2coef]. split; [constructor|].
    rewrite (is_zero_sem e c Zc). unfold coef_sem at 1. cbn [fold_right].
    ring. }
  destruct (is_one c) eqn:Oc; cbn [negb].
  { intros E. injection E as <-. split; [auto|].
    rewrite (is_one_sem e c Oc). ring. }
  assert (G : PySMTType_eqb (expr_type c) INT &&
              PySMTType_eqb (expr_type x) REAL = false).
  { rewrite Hty. destruct (expr_type x); reflexivity. }
  rewrite G. cbn [rbind].
  destruct (times_cross fnode_key _ _) as [d|] eqn:Ed; [|discriminate].
  cbn [rbind]. intros E. injection E as <-. cbn [symb2coef].
  destruct (times_cross_sem e _ _ _ Ed) as [Hnd S]. split; auto.
Qed.
End Sound.

(** ** eq2assign *)

Lemma num_eqb_zero_false (c : PyNum) :
  num_eqb c (PInt 0) = false -> num_val c <> 0%Qc.
Proof.
  intros H E. assert (K : num_eqb c (PInt 0) = true).
  { apply num_eqb_eq. cbn [num_val]. now rewrite Z2Qc_0. }
  congruence.
Qed.

Lemma inverse_coef_val (c : PyNum) :
  num_eqb c (PInt 0) = false ->
  (num_val (inverse_coef c) * num_val c = - (1))%Qc.
Proof.
  intros Hc. apply num_eqb_zero_false in Hc. unfold inverse_coef.
  destruct (num_eqb c (PInt (-1))) eqn:E1.
  { apply num_eqb_eq in E1. cbn [orb num_val] in *.
    rewrite num_val_neg, E1, Z2Qc_m1. ring. }
  destruct (num_eqb c (PInt 1)) eqn:E2.
  { apply num_eqb_eq in E2. cbn [orb num_val] in *.
    rewrite num_val_neg, E2, Z2Qc_1. ring. }
  cbn [orb].
  assert (F : (Z2Qc (-1) / num_val c * num_val c = - (1))%Qc).
  { rewrite Z2Qc_m1. field. exact Hc. }
  set (frac_coef := PFrac (Z2Qc (-1) / num_val c)).
  change (num_val frac_coef * num_val c = - (1))%Qc in F.
  destruct (num_eqb (PInt (py_round (num_val frac_coef))) frac_coef) eqn:E3.
  - apply num_eqb_eq in E3. rewrite E3. exact F.
  - exact F.
Qed.

Section Scan.
Variable ty : PySMTType.
Variable d : list (FNode * PyNum).

Lemma scan_step_picked (k : FNode) (st : scan_state) :
  picked d st -> picked d (fst (scan_step ty k (coef_get d k) st)).
Proof.
  destruct st as [[s c] nx]. unfold scan_step. intros H.
  destruct (is_symbol k && negb (num_eqb (coef_get d k) (PInt 0))) eqn:G;
    [|exact H].
  apply andb_true_iff in G. destruct G as [G1 G2].
  apply negb_true_iff in G2.
  assert (New : forall b, picked d (Some k, Some (coef_get d k), b)).
  { intros b. cbn [picked]. auto. }
  destruct (negb nx || symb_is_next k); [|exact H].
  destruct (_ || _ || _); destruct (PySMTType_eqb ty REAL); cbn [fst];
    try apply New; try exact H.
  - destruct (_ || _ || _); cbn [fst]; [apply New | apply New].
  - destruct c as [c|].
    + destruct (_ || _ || _); cbn [fst]; [apply New | exact H].
    + cbn [fst]. apply New.
Qed.

Lemma scan_picked (keys : list FNode) :
  forall st, picked d st -> picked d (scan ty d keys st).
Proof.
  induction keys as [|k keys IH]; intros st H; cbn [scan]; [exact H|].
  pose proof (scan_step_picked k st H) as K.
  destruct (scan_step ty k (coef_get d k) st) as [st' stop]. cbn [fst] in K.
  destruct stop; auto.
Qed.
End Scan.

Section Assign.
Variable div_int : Z -> Z -> Z.
Variable div_real : Qc -> Qc -> Qc.
Variable fnode_key : FNode -> Z.
Variable td : FNode -> FNode.

Local Notation "'aev'" := (aeval div_int div_real).
Local Notation "'bev'" := (beval div_int div_real).
Local Notation "'csem'" := (coef_sem div_int div_real).
Local Notation "'new_Expr'" := (Expr_init div_int div_real fnode_key td).
Local Notation "'assign'" := (eq2assign div_int div_real fnode_key td).
Local Open Scope Qc_scope.

(** A constructed expression of an arithmetic term has the value of
    the term, whatever fuel has built it. *)
Lemma Expr_init_formula (fuel : nat) (ty : PySMTType) (t : FNode) (x : Expr) :
  td_contract div_int div_real td ->
  arith t = true -> get_type t = Some ty ->
  new_Expr fuel ty (Some t) None None = Ok x ->
  expr_type x = ty /\ dict_ok ty (symb2coef x) /\
  forall e, csem e (symb2coef x) = aev e t.
Proof.
  intros Htd Ha Hty H.
  unfold Expr_init in H. destruct (rassert _); [|discriminate].
  cbn [rbind] in H.
  destruct (plus_fnode _ _ _ _ fuel _ t) as [x0|] eqn:E; [|discriminate].
  cbn [rbind] in H. injection H as <-.
  destruct (plus_fnode_cases div_int div_real fnode_key td ty [] t Htd Ha Hty
              (dict_ok_nil ty))
    as [(fuel0 & d' & Hok & S & L) | (_ & fuel0 & L)];
    apply (plus_fnode_mono _ _ _ _ _ (Nat.max fuel fuel0)) in E; try lia;
    rewrite L in E by lia; [|discriminate].
  injection E as <-. cbn [expr_type symb2coef].
  split; [reflexivity|]. split; [exact Hok|].
  intros e. rewrite S. change (csem e []) with 0. ring.
Qed.

Lemma Expr_init_const (fuel : nat) (ty : PySMTType) (c : PyNum) (x : Expr) :
  new_Expr fuel ty None None (Some c) = Ok x ->
  expr_type x = ty /\ forall e, csem e (symb2coef x) = num_val c.
Proof.
  unfold Expr_init. destruct (rassert _); [|discriminate]. cbn [rbind].
  destruct (num_eqb c (PInt 0)) eqn:E0.
  - intros E. injection E as <-. split; [reflexivity|]. intros e.
    apply num_eqb_eq in E0. rewrite E0. cbn [num_val]. now rewrite Z2Qc_0.
  - unfold plus_const. destruct (rassert _); [|discriminate].
    cbn [rbind expr_type symb2coef]. intros E. injection E as <-.
    split; [reflexivity|]. intros e. cbn [symb2coef].
    rewrite coef_add_sem, aeval_number_Z'. change (csem e []) with 0.
    rewrite Z2Qc_1. ring.
Qed.

Lemma Qc_eqb_iff (a b a' b' : Qc) :
  (a = b <-> a' = b') -> Qc_eqb a b = Qc_eqb a' b'.
Proof.
  intros H. destruct (Qc_eqb a b) eqn:E1, (Qc_eqb a' b') eqn:E2; auto.
  - apply Qc_eqb_eq, H, Qc_eqb_eq in E1. congruence.
  - apply Qc_eqb_eq, H, Qc_eqb_eq in E2. congruence.
Qed.

(** C7: for an equality of two arithmetic terms of one type, with the
    distributor under its contract: whenever [eq2assign] returns
    [(symbol, expr, is_next)], the symbol is a variable with a
    coefficient [c] that is not zero in the normalised difference of
    the two sides, [symbol = expr] has the truth value of the input
    equality in every pair of states, and the value of [expr] is
    [-1/c] times the value of the remaining terms; whenever the
    difference is normalised and is identically zero, [eq2assign]
    returns [(TRUE, None, None)]; and when the two sides have no
    division of constants by zero and the distributor brings none
    in, there is an amount of fuel from which the difference is
    normalised. *)
Theorem eq2assign_correct (ty : PySMTType) (arg0 arg1 : FNode) :
  td_contract div_int div_real td ->
  arith arg0 = true -> arith arg1 = true ->
  get_type arg0 = Some ty -> get_type arg1 = Some ty ->
  (forall fuel s r nx,
      assign fuel (Equals arg0 arg1) = Ok (Some s, Some r, Some nx) ->
      is_symbol s = true /\
      (forall e, bev e (Equals s r) = bev e (Equals arg0 arg1)) /\
      exists x c,
        new_Expr fuel ty (Some (Minus arg0 arg1)) None None = Ok x /\
        c = coef_get (symb2coef x) s /\
        num_val c <> 0 /\
        forall e, aev e r =
                  Z2Qc (-1) / num_val c *
                  csem e (dict_pop FNode_eqb (symb2coef x) s)) /\
  (forall fuel x,
      new_Expr fuel ty (Some (Minus arg0 arg1)) None None = Ok x ->
      is_zero x = true ->
      assign fuel (Equals arg0 arg1) = Ok (Some TRUE, None, None)) /\
  (td_safe div_int div_real td ->
   div_safe div_int div_real arg0 = true ->
   div_safe div_int div_real arg1 = true ->
   exists fuel0,
     forall fuel, (fuel0 <= fuel)%nat ->
       exists x,
         new_Expr fuel ty (Some (Minus arg0 arg1)) None None = Ok x).
Proof.
  intros Htd Ha0 Ha1 Hty0 Hty1.
  assert (Ham : arith (Minus arg0 arg1) = true).
  { cbn [arith]. now rewrite Ha0, Ha1. }
  assert (Hat : is_arith ty = true) by (apply (arith_type arg0); assumption).
  assert (Htm : get_type (Minus arg0 arg1) = Some ty).
  { apply (get_type_binary arg0 arg1 ty). auto. }
  split.
  - intros fuel s r nx. unfold eq2assign. cbn [is_true]. rewrite Hty0.
    cbn [rbind].
    destruct (new_Expr fuel ty _ _ _) as [x|] eqn:Ex; [|discriminate].
    cbn [rbind].
    destruct (Expr_init_formula _ _ _ _ Htd Ham Htm Ex) as (Tx & Hok & Sx).
    destruct (is_zero x); [discriminate|].
    pose proof (scan_picked ty (symb2coef x)
                  (sorted fnode_key (dict_keys (symb2coef x)))
                  (None, None, false) I) as Hp.
    destruct (scan ty (symb2coef x) _ _) as [[[s'|] [c|]] nx'];
      try discriminate.
    cbn [picked] in Hp. destruct Hp as (Hs & Hc & Hnz).
    destruct (_ && _); [discriminate|].
    destruct (new_Expr fuel ty None None _) as [ce|] eqn:Ece; [|discriminate].
    cbn [rbind].
    destruct (Expr_init_const _ _ _ _ Ece) as (Tce & Sce).
    destruct (times fnode_key _ _) as [x'|] eqn:Et; [|discriminate].
    cbn [rbind].
    destruct (pysmt_expr fnode_key x') as [res|] eqn:Er; [|discriminate].
    cbn [rbind].
    destruct (rassert _); [|discriminate]. cbn [rbind].
    intros E. injection E as <- <- <-.
    assert (Hnd : NoDup (dict_keys (dict_pop FNode_eqb (symb2coef x) s'))).
    { apply dict_pop_NoDup. apply Hok. }
    assert (Sres : forall e, aev e res =
                             csem e (dict_pop FNode_eqb (symb2coef x) s') *
                             num_val (inverse_coef c)).
    { intros e.
      destruct (times_sem div_int div_real fnode_key e
                  (mkExpr ty (dict_pop FNode_eqb (symb2coef x) s')) ce x'
                  Tce Et) as [N S].
      rewrite (pysmt_expr_sound div_int div_real fnode_key _ _ (N Hnd) Er e).
      rewrite S, Sce. reflexivity. }
    pose proof (inverse_coef_val c Hnz) as Hinv.
    pose proof (num_eqb_zero_false c Hnz) as Hc0.
    split; [exact Hs|]. split.
    + intros e. cbn [beval]. apply Qc_eqb_iff.
      rewrite Sres, dict_pop_sem, Sx, <- Hc. cbn [aeval].
      set (a0 := aev e arg0). set (a1 := aev e arg1).
      set (v := aev e s'). set (k := num_val (inverse_coef c)) in *.
      set (cv := num_val c) in *.
      assert (K : (a0 - a1 - cv * v) * k = (a0 - a1) * k + v).
      { transitivity ((a0 - a1) * k - v * (k * cv)); [ring|].
        rewrite Hinv. ring. }
      rewrite K. split; intros H.
      * assert (Z : (a0 - a1) * k = 0).
        { transitivity ((a0 - a1) * k + v - v); [ring|].
          rewrite <- H. ring. }
        assert (Z2 : a0 - a1 = 0).
        { transitivity (- ((a0 - a1) * k * cv)).
          - transitivity (- ((a0 - a1) * (k * cv))); [|ring].
            rewrite Hinv. ring.
          - rewrite Z. ring. }
        transitivity (a0 - a1 + a1); [ring|]. rewrite Z2. ring.
      * rewrite H. ring.
    + exists x, c. split; [reflexivity|]. split; [exact Hc|].
      split; [exact Hc0|]. intros e. rewrite Sres.
      assert (K : num_val (inverse_coef c) = Z2Qc (-1) / num_val c).
      { rewrite Z2Qc_m1.
        transitivity (num_val (inverse_coef c) * num_val c / num_val c).
        - field. exact Hc0.
        - rewrite Hinv. reflexivity. }
      rewrite K. ring.
  - split.
    + intros fuel x Ex Hz.
      unfold eq2assign. cbn [is_true]. rewrite Hty0. cbn [rbind].
      rewrite Ex. cbn [rbind]. rewrite Hz. reflexivity.
    + intros Hsafe Hs0 Hs1.
      assert (Hsm : div_safe div_int div_real (Minus arg0 arg1) = true).
      { change (div_safe div_int div_real arg0 &&
                div_safe div_int div_real arg1 = true).
        now rewrite Hs0, Hs1. }
      destruct (plus_fnode_ok div_int div_real fnode_key td ty [] _ Htd Hsafe
                  Ham Hsm Htm (dict_ok_nil ty)) as (fuel0 & d' & Hok & S & L).
      exists fuel0. intros fuel Hfuel. exists (mkExpr ty d').
      unfold Expr_init. rewrite Hat. cbn [rassert rbind].
      rewrite (L fuel Hfuel). reflexivity.
Qed.
End Assign.

(** [eq2assign] on x' = x + 1 picks x', with the coefficient 1, and
    the difference of the two sides is normalised from some fuel on. *)
Lemma eq2assign_correct_witness :
  (is_symbol SampleTerm.x_next = true /\
   (forall e,
       beval Z.div Qcdiv e
         (Equals SampleTerm.x_next (Plus [IntC 1; Sample.x])) =
       beval Z.div Qcdiv e SampleTerm.eq1) /\
   exists x c,
     Expr_init Z.div Qcdiv SampleTerm.key td_model 50 INT
       (Some (Minus SampleTerm.x_next (Plus [Sample.x; IntC 1]))) None None =
     Ok x /\
     c = coef_get (symb2coef x) SampleTerm.x_next /\
     num_val c <> 0%Qc /\
     forall e,
       aeval Z.div Qcdiv e (Plus [IntC 1; Sample.x]) =
       (Z2Qc (-1) / num_val c *
        coef_sem Z.div Qcdiv e
          (dict_pop FNode_eqb (symb2coef x) SampleTerm.x_next))%Qc) /\
  (exists fuel0,
      forall fuel, (fuel0 <= fuel)%nat ->
        exists x,
          Expr_init Z.div Qcdiv SampleTerm.key td_model fuel INT
            (Some (Minus SampleTerm.x_next (Plus [Sample.x; IntC 1])))
            None None = Ok x).
Proof.
  destruct (eq2assign_correct Z.div Qcdiv SampleTerm.key td_model INT
              SampleTerm.x_next (Plus [Sample.x; IntC 1])
              (td_model_contract Z.div Qcdiv)
              eq_refl eq_refl eq_refl eq_refl) as (H1 & _ & H3).
  split.
  - apply (H1 50%nat _ _ true). vm_compute. reflexivity.
  - apply H3; [apply td_model_safe | reflexivity | reflexivity].
Defined.

Example eq2assign_samples :
  eq2assign Z.div Qcdiv SampleTerm.key td_model 50
    (Equals (Plus [Sample.x; SampleTerm.y]) (Plus [IntC 3; Sample.x])) =
  Ok (Some SampleTerm.y, Some (IntC 3), Some false) /\
  eq2assign Z.div Qcdiv SampleTerm.key td_model 50
    (Equals (Plus [Sample.x; IntC 1]) (Plus [IntC 1; Sample.x])) =
  Ok (Some TRUE, None, None) /\
  eq2assign Z.div Qcdiv SampleTerm.key td_model 50
    (Equals (Plus [Sample.x; Times [Sample.x; SampleTerm.y]]) (IntC 1)) =
  Raise AssertionError.
Proof. vm_compute. repeat split. Qed.

(** ** Ineq: the map of the left-hand side *)

Section LhsMaps.
Variable div_int : Z -> Z -> Z.
Variable div_real : Qc -> Qc -> Qc.

Local Notation "'aev'" := (aeval div_int div_real).
Local Notation "'csem'" := (coef_sem div_int div_real).
Local Notation "'lsem'" := (lhs_sem div_int div_real).
Local Open Scope Qc_scope.

Lemma lhs_sem_cons (e : env) (k : FNode) (x : Expr)
    (lhs : list (FNode * Expr)) :
  lsem e ((k, x) :: lhs) = aev e k * csem e (symb2coef x) + lsem e lhs.
Proof. reflexivity. Qed.

(** [lhs[k] = x] changes the value by the monomial times the change of
    its coefficient. *)
Lemma lhs_sem_set (e : env) (ty : PySMTType) (k : FNode) (x : Expr) :
  forall lhs,
    lsem e (dict_set FNode_eqb lhs k x) =
    lsem e lhs +
    aev e k * (csem e (symb2coef x) - csem e (symb2coef (lhs_get ty lhs k))).
Proof.
  induction lhs as [|[k' x'] lhs IH].
  - cbn [dict_set]. rewrite lhs_sem_cons. unfold lhs_get.
    cbn [dict_get symb2coef]. change (csem e []) with 0.
    change (lsem e []) with 0. ring.
  - cbn [dict_set]. unfold lhs_get. cbn [dict_get].
    destruct (FNode_eqb k k') eqn:E.
    + apply FNode_eqb_eq in E. subst k'. rewrite !lhs_sem_cons. ring.
    + rewrite !lhs_sem_cons, IH. unfold lhs_get. ring.
Qed.

Lemma lhs_ok_set (ty : PySMTType) (k : FNode) (x : Expr) :
  forall lhs, lhs_ok ty lhs -> expr_ok ty x ->
              lhs_ok ty (dict_set FNode_eqb lhs k x).
Proof.
  unfold lhs_ok. induction lhs as [|[k' x'] lhs IH]; intros H Hx.
  - constructor; [exact Hx | constructor].
  - cbn [dict_set]. inversion H as [|? ? H1 H2]; subst.
    destruct (FNode_eqb k k'); constructor; auto.
Qed.

Lemma lhs_get_ok (ty : PySMTType) (k : FNode) :
  forall lhs, lhs_ok ty lhs -> expr_ok ty (lhs_get ty lhs k).
Proof.
  unfold lhs_ok, lhs_get. induction lhs as [|[k' x'] lhs IH]; intros H.
  - split; [reflexivity | apply dict_ok_nil].
  - cbn [dict_get]. inversion H as [|? ? H1 H2]; subst.
    destruct (FNode_eqb k k'); auto.
Qed.
End LhsMaps.

Section ParseFuel.
Variable div_int : Z -> Z -> Z.
Variable div_real : Qc -> Qc -> Qc.
Variable fnode_key : FNode -> Z.
Variable td : FNode -> FNode.
Variable params : list FNode.

Local Notation "'step'" := (parse_step div_int div_real fnode_key td params).
Local Notation "'ploop'" := (parse_loop div_int div_real fnode_key td params).
Local Notation "'plus_f'" := (plus_fnode div_int div_real fnode_key td).

Lemma lhs_update_mono (ty : PySMTType) (lhs lhs' : list (FNode * Expr))
    (k : FNode) (m m' : Expr -> result Expr) :
  (forall x x', m x = Ok x' -> m' x = Ok x') ->
  lhs_update ty lhs k m = Ok lhs' -> lhs_update ty lhs k m' = Ok lhs'.
Proof.
  unfold lhs_update. intros Hm.
  destruct (m _) as [x'|] eqn:E; [|discriminate].
  rewrite (Hm _ _ E). auto.
Qed.

Lemma parse_step_mono (fuel fuel' : nat) (ty : PySMTType) (curr : FNode)
    (stack : list FNode) (lhs : list (FNode * Expr)) (rhs : Expr)
    (st : list FNode * list (FNode * Expr) * Expr) :
  step fuel ty curr stack lhs rhs = Ok st ->
  (fuel <= fuel')%nat ->
  step fuel' ty curr stack lhs rhs = Ok st.
Proof.
  intros H Hle.
  assert (R : forall st,
             rbind (plus_f fuel rhs curr) (fun rhs => Ok (stack, lhs, rhs)) =
             Ok st ->
             rbind (plus_f fuel' rhs curr) (fun rhs => Ok (stack, lhs, rhs)) =
             Ok st).
  { intros st0. destruct (plus_f fuel rhs curr) as [x|] eqn:E; [|discriminate].
    now rewrite (plus_fnode_mono _ _ _ _ _ _ _ _ _ E Hle). }
  unfold parse_step in *.
  destruct (only_params params curr); [now apply R|].
  destruct curr; try exact H.
  - (* product *)
    destruct (parse_factors _ _ _ _ _ _) as [[[c symbs] ps]|];
      [|discriminate].
    cbn [rbind] in *.
    destruct (mgr_Times (sorted fnode_key symbs)) as [key|]; [|discriminate].
    cbn [rbind] in *.
    destruct (number ty c) as [cn|]; [|discriminate]. cbn [rbind] in *.
    destruct (mgr_Times (cn :: ps)) as [coeff|]; [|discriminate].
    cbn [rbind] in *.
    destruct (lhs_update ty lhs key (fun x => plus_f fuel x coeff))
      as [lhs'|] eqn:E; [|discriminate].
    rewrite (lhs_update_mono ty lhs lhs' key
               (fun x => plus_f fuel x coeff)
               (fun x => plus_f fuel' x coeff)); [exact H| |exact E].
    intros x x' Hx. now apply (plus_fnode_mono _ _ _ _ fuel).
  - (* real lifting *)
    destruct (rassert _); [|discriminate]. cbn [rbind] in *.
    destruct (mem_symb curr params); [now apply R | exact H].
Qed.

Lemma parse_loop_mono (fuel : nat) :
  forall ty stack lhs rhs r,
    ploop fuel ty stack lhs rhs = Ok r ->
    forall fuel', (fuel <= fuel')%nat -> ploop fuel' ty stack lhs rhs = Ok r.
Proof.
  induction fuel as [|fuel IH]; intros ty stack lhs rhs r H fuel' Hle;
    [discriminate|].
  destruct fuel' as [|fuel']; [lia|].
  cbn [parse_loop] in *. destruct stack as [|curr stack]; [exact H|].
  destruct (step fuel ty curr stack lhs rhs) as [[[s1 l1] r1]|] eqn:E;
    [|discriminate].
  rewrite (parse_step_mono _ fuel' _ _ _ _ _ _ E) by lia.
  cbn [rbind] in *. apply (IH _ _ _ _ _ H). lia.
Qed.
End ParseFuel.

Section ParseFactors.
Variable div_int : Z -> Z -> Z.
Variable div_real : Qc -> Qc -> Qc.
Variable params : list FNode.

Local Notation "'aev'" := (aeval div_int div_real).
Local Notation "'prodf'" := (prod_of div_int div_real).
Local Open Scope Qc_scope.

(** The loop over the arguments of a product ends within their size;
    it splits them into a constant, symbolic factors and parameters
    and keeps the product. When it finds no symbolic factor, the
    arguments hold parameters only. *)
Lemma parse_factors_spec (fuel : nat) :
  forall (args : list FNode) (c : PyNum) (symbs ps : list FNode),
    Forall factor_ok args ->
    (list_size args < fuel)%nat ->
    exists c' new newp,
      parse_factors params fuel args c symbs ps =
      Ok (c', symbs ++ new, ps ++ newp) /\
      (forall e, num_val c' * prodf e new * prodf e newp =
                 num_val c * prodf e args) /\
      Forall (fun s => is_symbol s || is_div s = true) new /\
      Forall (fun s => arith s = true) newp /\
      (forall ty, Forall (fun f => get_type f = Some ty) args ->
                  Forall (fun f => get_type f = Some ty) newp /\
                  (ty = INT -> is_pyint c = true -> is_pyint c' = true)) /\
      (new = [] -> Forall (fun f => only_params params f = true) args).
Proof.
  induction fuel as [|fuel IH]; intros args c symbs ps Hok Hsize; [lia|].
  destruct args as [|f rest].
  { exists c, [], []. rewrite !app_nil_r.
    split; [reflexivity|]. split.
    { intros e. change (prodf e []) with 1. ring. }
    repeat (split; [constructor|]); auto. }
  inversion Hok as [|? ? [Hfa Hfp] Hrest]; subst.
  assert (Hsz : (list_size rest < fuel)%nat).
  { unfold list_size in *. cbn [fold_right] in Hsize.
    pose proof (fnode_size_pos f). lia. }
  (* a symbolic factor *)
  assert (Ksym : parse_factors params (S fuel) (f :: rest) c symbs ps =
                 parse_factors params fuel rest c (symbs ++ [f]) ps ->
                 is_symbol f || is_div f = true ->
                 exists c' new newp,
                   parse_factors params (S fuel) (f :: rest) c symbs ps =
                   Ok (c', symbs ++ new, ps ++ newp) /\
                   (forall e, num_val c' * prodf e new * prodf e newp =
                              num_val c * prodf e (f :: rest)) /\
                   Forall (fun s => is_symbol s || is_div s = true) new /\
                   Forall (fun s => arith s = true) newp /\
                   (forall ty,
                       Forall (fun f => get_type f = Some ty) (f :: rest) ->
                       Forall (fun f => get_type f = Some ty) newp /\
                       (ty = INT -> is_pyint c = true ->
                        is_pyint c' = true)) /\
                   (new = [] ->
                    Forall (fun f => only_params params f = true)
                      (f :: rest))).
  { intros Hstep Hsd.
    destruct (IH rest c (symbs ++ [f]) ps Hrest Hsz)
      as (c' & new & newp & E & S & F & A & T & P).
    exists c', (f :: new), newp. rewrite Hstep, E, <- app_assoc.
    split; [reflexivity|]. split.
    { intros e. rewrite !prod_of_cons.
      transitivity (aev e f * (num_val c' * prodf e new * prodf e newp));
        [ring|]. rewrite S. ring. }
    split; [constructor; assumption|]. split; [assumption|]. split.
    - intros ty K. inversion K; subst. auto.
    - discriminate. }
  (* a constant *)
  assert (Kconst : forall v,
             parse_factors params (S fuel) (f :: rest) c symbs ps =
             parse_factors params fuel rest (num_mul c v) symbs ps ->
             (forall e, aev e f = num_val v) ->
             only_params params f = true ->
             (get_type f = Some INT -> is_pyint v = true) ->
             exists c' new newp,
               parse_factors params (S fuel) (f :: rest) c symbs ps =
               Ok (c', symbs ++ new, ps ++ newp) /\
               (forall e, num_val c' * prodf e new * prodf e newp =
                          num_val c * prodf e (f :: rest)) /\
               Forall (fun s => is_symbol s || is_div s = true) new /\
               Forall (fun s => arith s = true) newp /\
               (forall ty,
                   Forall (fun f => get_type f = Some ty) (f :: rest) ->
                   Forall (fun f => get_type f = Some ty) newp /\
                   (ty = INT -> is_pyint c = true -> is_pyint c' = true)) /\
               (new = [] ->
                Forall (fun f => only_params params f = true) (f :: rest))).
  { intros v Hstep Sv Hp Tv.
    destruct (IH rest (num_mul c v) symbs ps Hrest Hsz)
      as (c' & new & newp & E & S & F & A & T & P).
    exists c', new, newp. rewrite Hstep, E.
    split; [reflexivity|]. split.
    { intros e. rewrite S, num_val_mul, prod_of_cons, Sv. ring. }
    split; [assumption|]. split; [assumption|]. split.
    - intros ty K. inversion K as [|? ? K1 K2]; subst.
      destruct (T ty K2) as [T1 T2]. split; [exact T1|].
      intros -> Hc. apply T2; [reflexivity|]. apply is_pyint_mul; auto.
    - intros N. constructor; auto. }
  destruct f; simpl in Hfa, Hfp; try discriminate.
  - (* symbol *)
    assert (Hstep : forall b, mem_symb (Symbol name0 ty nxt) params = b ->
               parse_factors params (S fuel) (Symbol name0 ty nxt :: rest)
                 c symbs ps =
               if b
               then parse_factors params fuel rest c symbs
                      (ps ++ [Symbol name0 ty nxt])
               else parse_factors params fuel rest c
                      (symbs ++ [Symbol name0 ty nxt]) ps).
    { intros b <-. reflexivity. }
    set (sy := Symbol name0 ty nxt) in *.
    destruct (mem_symb sy params) eqn:Hm.
    + destruct (IH rest c symbs (ps ++ [sy]) Hrest Hsz)
        as (c' & new & newp & E & S & F & A & T & P).
      exists c', new, (sy :: newp).
      rewrite (Hstep true eq_refl), E, <- app_assoc.
      split; [reflexivity|]. split.
      { intros e. rewrite !prod_of_cons.
        transitivity (aev e sy *
                      (num_val c' * prodf e new * prodf e newp)); [ring|].
        rewrite S. ring. }
      split; [assumption|]. split; [constructor; assumption|]. split.
      * intros ty' K. inversion K as [|? ? K1 K2]; subst.
        destruct (T ty' K2) as [T1 T2]. split; [|exact T2].
        constructor; assumption.
      * intros N. constructor; auto.
    + apply Ksym; [|reflexivity]. apply (Hstep false eq_refl).
  - (* integer constant *)
    apply (Kconst (PInt z)); auto.
  - (* real constant *)
    apply (Kconst (PFrac q)); auto. discriminate.
  - (* nested product *)
    destruct args as [|a0 args0]; [discriminate|].
    destruct (IH (rest ++ a0 :: args0) c symbs ps)
      as (c' & new & newp & E & S & F & A & T & P).
    { apply Forall_app. split; [assumption|].
      apply Forall_forall. intros y Hy. split.
      - rewrite forallb_forall in Hfa. auto.
      - rewrite forallb_forall in Hfp. auto. }
    { rewrite list_size_app. unfold list_size in *.
      cbn [fold_right fnode_size] in *. lia. }
    exists c', new, newp. split; [|split; [|split; [|split; [|split]]]].
    + cbn [parse_factors]. exact E.
    + intros e. rewrite S, prod_of_app, (prod_of_cons _ _ e (Times _) rest).
      change (aev e (Times (a0 :: args0))) with (prodf e (a0 :: args0)).
      ring.
    + assumption.
    + assumption.
    + intros ty K. inversion K as [|? ? K1 K2]; subst. apply T.
      apply Forall_app. split; [assumption|].
      now apply (get_type_nary (a0 :: args0) ty) in K1.
    + intros N. specialize (P N). apply Forall_app in P.
      destruct P as [P1 P2]. constructor; [|exact P1].
      unfold only_params. cbn [symbols_ok]. apply forallb_forall.
      rewrite Forall_forall in P2. exact P2.
  - (* division *)
    apply Ksym; reflexivity.
Qed.
End ParseFactors.

Lemma number_typed (ty : PySMTType) (v : PyNum) (c : FNode) :
  is_arith ty = true -> number ty v = Ok c ->
  get_type c = Some ty /\ arith c = true /\ is_constant c = true.
Proof.
  destruct ty; try discriminate; intros _; cbn [number].
  - destruct v; [|discriminate]. intros E. injection E as <-. auto.
  - intros E. injection E as <-. auto.
Qed.

Lemma number_Z_typed (ty : PySMTType) (z : Z) :
  is_arith ty = true ->
  get_type (number_Z ty z) = Some ty /\ arith (number_Z ty z) = true /\
  is_constant (number_Z ty z) = true.
Proof. destruct ty; try discriminate; auto. Qed.

(** The parameters among the factors of a product are symbols, or
    symbols lifted to the reals. *)
Lemma parse_factors_params (params : list FNode) (fuel : nat) :
  forall args c symbs ps c' symbs' ps',
    parse_factors params fuel args c symbs ps = Ok (c', symbs', ps') ->
    Forall (fun s => is_symbol s || is_toreal s = true) ps ->
    Forall (fun s => is_symbol s || is_toreal s = true) ps'.
Proof.
  induction fuel as [|fuel IH]; intros args c symbs ps c' symbs' ps';
    [discriminate|].
  cbn [parse_factors]. destruct args as [|arg rest].
  { intros E H. injection E as <- <- <-. exact H. }
  assert (K : forall a, is_symbol a || is_toreal a = true ->
                        Forall (fun s => is_symbol s || is_toreal s = true) ps ->
                        Forall (fun s => is_symbol s || is_toreal s = true)
                          (ps ++ [a])).
  { intros a Ha H. apply Forall_app. split; [exact H|]. now constructor. }
  destruct arg; try discriminate; cbn [constant_value rbind]; intros E H.
  - destruct (mem_symb _ params); apply IH in E; auto.
  - apply IH in E; auto.
  - apply IH in E; auto.
  - apply IH in E; auto.
  - apply IH in E; auto.
  - apply IH in E; auto.
  - destruct (rassert _); [|discriminate]. cbn [rbind] in E.
    destruct (mem_symb _ params); apply IH in E; auto.
Qed.

Section ParseLoop.
Variable div_int : Z -> Z -> Z.
Variable div_real : Qc -> Qc -> Qc.
Variable fnode_key : FNode -> Z.
Variable td : FNode -> FNode.
Variable params : list FNode.
Variable ty : PySMTType.

Hypothesis ty_arith : is_arith ty = true.
Hypothesis td_ok : td_contract div_int div_real td.
Hypothesis td_keeps : td_safe div_int div_real td.

Local Notation "'dsafe'" := (div_safe div_int div_real).

Local Notation "'aev'" := (aeval div_int div_real).
Local Notation "'csem'" := (coef_sem div_int div_real).
Local Notation "'lsem'" := (lhs_sem div_int div_real).
Local Notation "'sumf'" := (sum_of div_int div_real).
Local Notation "'prodf'" := (prod_of div_int div_real).
Local Notation "'step'" := (parse_step div_int div_real fnode_key td params).
Local Notation "'ploop'" := (parse_loop div_int div_real fnode_key td params).
Local Notation "'plus_f'" := (plus_fnode div_int div_real fnode_key td).
Local Notation "'prs'" :=
  (parses div_int div_real fnode_key td params ty).
Local Open Scope Qc_scope.

(** The monomial of the symbolic factors of a product. *)
Lemma sorted_key_ok (new : list FNode) :
  new <> [] ->
  Forall (fun s => is_symbol s || is_div s = true) new ->
  exists key,
    mgr_Times (sorted fnode_key new) = Ok key /\
    (forall e, aev e key = prodf e new) /\
    key_ok ty key = true.
Proof.
  intros Hne F. pose proof (sorted_perm fnode_key new) as P.
  destruct (sorted fnode_key new) as [|x [|y rest]] eqn:Es.
  - apply Permutation_nil in P. congruence.
  - exists x. split; [reflexivity|]. split.
    + intros e. rewrite <- (prod_of_perm _ _ e _ _ P).
      unfold prod_of. cbn [map fold_right]. ring.
    + assert (Hx : In x new).
      { eapply Permutation_in; [exact P | now left]. }
      rewrite Forall_forall in F. specialize (F x Hx).
      apply key_ok_shape. apply orb_true_iff in F.
      destruct F as [-> | ->]; now rewrite ?orb_true_r.
  - exists (Times (x :: y :: rest)). split; [reflexivity|]. split.
    + intros e. rewrite <- (prod_of_perm _ _ e _ _ P). reflexivity.
    + now apply key_ok_shape.
Qed.

Lemma parses_nil : prs [].
Proof.
  intros stack lhs rhs Hl Hr. exists 0%nat, lhs, rhs.
  split; [exact Hl|]. split; [exact Hr|]. split.
  - intros e. change (sumf e []) with 0. ring.
  - intros fuel r H. exact H.
Qed.

Lemma parses_app (ts1 ts2 : list FNode) :
  prs ts1 -> prs ts2 -> prs (ts1 ++ ts2).
Proof.
  intros H1 H2 stack lhs rhs Hl Hr.
  destruct (H1 (ts2 ++ stack) lhs rhs Hl Hr)
    as (k1 & l1 & r1 & Hl1 & Hr1 & S1 & L1).
  destruct (H2 stack l1 r1 Hl1 Hr1) as (k2 & l2 & r2 & Hl2 & Hr2 & S2 & L2).
  exists (k1 + k2)%nat, l2, r2.
  split; [exact Hl2|]. split; [exact Hr2|]. split.
  - intros e. rewrite S2, S1, sum_of_app. ring.
  - intros fuel r H. rewrite <- app_assoc, <- Nat.add_assoc.
    apply L1, L2, H.
Qed.

Lemma parses_list (ts : list FNode) :
  Forall (fun t => prs [t]) ts -> prs ts.
Proof.
  induction 1 as [|t ts Ht _ IH]; [apply parses_nil|].
  change (t :: ts) with ([t] ++ ts). now apply parses_app.
Qed.

(** An iteration that only pushes terms. *)
Lemma parses_push (t : FNode) (ts : list FNode) :
  (forall fuel stack lhs rhs,
      step fuel ty t stack lhs rhs = Ok (ts ++ stack, lhs, rhs)) ->
  (forall e, sumf e ts = aev e t) ->
  prs ts -> prs [t].
Proof.
  intros Hstep Hsem H stack lhs rhs Hl Hr.
  destruct (H stack lhs rhs Hl Hr) as (k & l' & r' & Hl' & Hr' & S' & L').
  exists (S k), l', r'. split; [exact Hl'|]. split; [exact Hr'|]. split.
  - intros e. rewrite S', Hsem, sum_of_cons. change (sumf e []) with 0.
    ring.
  - intros fuel r E. cbn [app]. rewrite Nat.add_succ_l.
    cbn [parse_loop]. rewrite Hstep. cbn [rbind]. apply L', E.
Qed.

(** An iteration that updates the state, given enough fuel. *)
Lemma parses_single (t : FNode) :
  (forall stack lhs rhs,
      lhs_ok ty lhs -> expr_ok ty rhs ->
      exists k lhs' rhs',
        lhs_ok ty lhs' /\ expr_ok ty rhs' /\
        (forall e, lsem e lhs' + csem e (symb2coef rhs') =
                   lsem e lhs + csem e (symb2coef rhs) + aev e t) /\
        forall fuel, (k <= fuel)%nat ->
          step fuel ty t stack lhs rhs = Ok (stack, lhs', rhs')) ->
  prs [t].
Proof.
  intros H stack lhs rhs Hl Hr.
  destruct (H stack lhs rhs Hl Hr) as (k & l' & r' & Hl' & Hr' & S' & L').
  exists (S k), l', r'. split; [exact Hl'|]. split; [exact Hr'|]. split.
  - intros e. rewrite S', sum_of_cons. change (sumf e []) with 0. ring.
  - intros fuel r E. cbn [app]. rewrite Nat.add_succ_l.
    cbn [parse_loop]. rewrite L' by lia. cbn [rbind].
    apply (parse_loop_mono _ _ _ _ _ _ _ _ _ _ _ E). lia.
Qed.

(** [rhs.plus_fnode(curr)]. *)
Lemma parses_rhs (t : FNode) :
  arith t = true -> dsafe t = true -> get_type t = Some ty ->
  (forall fuel stack lhs rhs,
      step fuel ty t stack lhs rhs =
      rbind (plus_f fuel rhs t) (fun rhs => Ok (stack, lhs, rhs))) ->
  prs [t].
Proof.
  intros Ha Hs Ht Hstep. apply parses_single.
  intros stack lhs rhs Hl [Tr Dr].
  destruct rhs as [rt rd]. cbn [expr_type symb2coef] in *. subst rt.
  destruct (plus_fnode_ok div_int div_real fnode_key td ty rd t td_ok
              td_keeps Ha Hs Ht Dr)
    as (fuel0 & d' & Hd' & S & L).
  exists fuel0, lhs, (mkExpr ty d'). split; [exact Hl|].
  split; [split; [reflexivity | exact Hd']|]. split.
  - intros e. cbn [symb2coef]. rewrite S. ring.
  - intros fuel Hf. rewrite Hstep, (L fuel Hf). reflexivity.
Qed.

(** [lhs[curr].plus_const(1)]. *)
Lemma parses_one (t : FNode) :
  (forall fuel stack lhs rhs,
      step fuel ty t stack lhs rhs =
      rbind (lhs_update ty lhs t (fun x => plus_const x (PInt 1)))
        (fun lhs => Ok (stack, lhs, rhs))) ->
  prs [t].
Proof.
  intros Hstep. apply parses_single. intros stack lhs rhs Hl Hr.
  pose proof (lhs_get_ok ty t lhs Hl) as [Tx Dx].
  set (x := lhs_get ty lhs t) in *.
  set (x' := mkExpr ty (coef_add (symb2coef x) (number_Z ty 1) (PInt 1))).
  assert (E : lhs_update ty lhs t (fun x => plus_const x (PInt 1)) =
              Ok (dict_set FNode_eqb lhs t x')).
  { unfold lhs_update, plus_const. fold x. cbn [is_pyint].
    rewrite orb_true_r, Tx. reflexivity. }
  exists 0%nat, (dict_set FNode_eqb lhs t x'), rhs.
  split; [|split; [exact Hr|split]].
  - apply lhs_ok_set; [exact Hl|]. split; [reflexivity|].
    apply coef_add_ok; [exact Dx | apply key_ok_one | reflexivity].
  - intros e. rewrite (lhs_sem_set div_int div_real e ty). fold x.
    unfold x' at 1. cbn [symb2coef].
    rewrite coef_add_sem, aeval_number_Z'. cbn [num_val].
    rewrite Z2Qc_1. ring.
  - intros fuel _. rewrite Hstep, E. reflexivity.
Qed.

(** [lhs[symbs].plus_fnode(coeff)] for a product. *)
Lemma parses_product (l : list FNode) :
  l <> [] ->
  Forall factor_ok l ->
  get_type (Times l) = Some ty ->
  only_params params (Times l) = false ->
  prs [Times l].
Proof.
  intros Hne Hf Ht Hp.
  assert (Htl : Forall (fun f => get_type f = Some ty) l).
  { now apply (get_type_nary l ty) in Ht. }
  destruct (parse_factors_spec div_int div_real params
              (S (fnode_size (Times l))) l (PInt 1) [] [] Hf)
    as (c & new & newp & E & S & F & A & T & P).
  { cbn [fnode_size]. unfold list_size. lia. }
  cbn [app] in E. destruct (T ty Htl) as [Tp Tc].
  assert (Hnew : new <> []).
  { intros N. specialize (P N). unfold only_params in Hp.
    cbn [symbols_ok] in Hp.
    assert (K : forallb (symbols_ok (fun s => mem_symb s params)) l = true).
    { apply forallb_forall. rewrite Forall_forall in P. exact P. }
    congruence. }
  destruct (sorted_key_ok new Hnew F) as (key & Ek & Sk & Kk).
  destruct (number_ok div_int div_real ty ty_arith c) as (cn & Ec & Sc).
  { intros Ety. now apply Tc. }
  destruct (number_typed ty c cn ty_arith Ec) as (Tcn & Acn & Ccn).
  destruct (mgr_Times_ok (cn :: newp)) as (coeff & Eco); [discriminate|].
  assert (Aco : arith coeff = true).
  { destruct newp as [|p newp'].
    - cbn [mgr_Times] in Eco. injection Eco as <-. exact Acn.
    - cbn [mgr_Times] in Eco. injection Eco as <-.
      apply (arith_nary (cn :: p :: newp')). split; [discriminate|].
      constructor; assumption. }
  assert (Tco : get_type coeff = Some ty).
  { destruct newp as [|p newp'].
    - cbn [mgr_Times] in Eco. injection Eco as <-. exact Tcn.
    - cbn [mgr_Times] in Eco. injection Eco as <-.
      apply (get_type_nary (cn :: p :: newp') ty).
      split; [discriminate|]. split; [exact ty_arith|].
      constructor; assumption. }
  assert (Sco : forall e, aev e coeff = num_val c * prodf e newp).
  { intros e. rewrite (aeval_mgr_Times _ _ e _ _ Eco), prod_of_cons, Sc.
    reflexivity. }
  assert (Dco : dsafe coeff = true).
  { assert (Dcn : dsafe cn = true)
      by (destruct cn; try discriminate Ccn; reflexivity).
    pose proof (parse_factors_params _ _ _ _ _ _ _ _ _ E (Forall_nil _))
      as Hps.
    destruct newp as [|p newp'].
    - cbn [mgr_Times] in Eco. injection Eco as <-. exact Dcn.
    - cbn [mgr_Times] in Eco. injection Eco as <-.
      change (dsafe cn && forallb dsafe (p :: newp') = true).
      rewrite Dcn. apply forallb_forall. rewrite Forall_forall in Hps.
      intros x Hx. specialize (Hps x Hx).
      destruct x; try discriminate; reflexivity. }
  apply parses_single. intros stack lhs rhs Hl Hr.
  pose proof (lhs_get_ok ty key lhs Hl) as [Tx Dx].
  destruct (lhs_get ty lhs key) as [xt xd] eqn:Ex.
  cbn [expr_type symb2coef] in Tx, Dx. subst xt.
  destruct (plus_fnode_ok div_int div_real fnode_key td ty xd coeff
              td_ok td_keeps Aco Dco Tco Dx) as (fuel0 & d' & Hd' & Sd & L).
  exists fuel0, (dict_set FNode_eqb lhs key (mkExpr ty d')), rhs.
  split; [|split; [exact Hr|split]].
  - apply lhs_ok_set; [exact Hl|]. split; [reflexivity | exact Hd'].
  - intros e. rewrite (lhs_sem_set div_int div_real e ty), Ex.
    cbn [symb2coef]. rewrite Sd, Sk, Sco.
    change (aev e (Times l)) with (prodf e l).
    specialize (S e). cbn [num_val] in S. rewrite Z2Qc_1 in S.
    transitivity (lsem e lhs + csem e (symb2coef rhs) +
                  num_val c * prodf e new * prodf e newp); [ring|].
    rewrite S. ring.
  - intros fuel Hfuel. unfold parse_step. rewrite Hp, E. cbn [rbind].
    rewrite Ek. cbn [rbind]. rewrite Ec. cbn [rbind]. rewrite Eco.
    cbn [rbind]. unfold lhs_update. rewrite Ex, (L fuel Hfuel).
    reflexivity.
Qed.

Lemma typed_negated (b : FNode) :
  arith b = true -> get_type b = Some ty ->
  arith (Times [number_Z ty (-1); b]) = true /\
  get_type (td (Times [number_Z ty (-1); b])) = Some ty.
Proof.
  intros Ha Ht.
  destruct (number_Z_typed ty (-1) ty_arith) as (Tm & Am & _).
  assert (Har : arith (Times [number_Z ty (-1); b]) = true).
  { apply (arith_nary [number_Z ty (-1); b]). split; [discriminate|].
    repeat constructor; assumption. }
  split; [exact Har|].
  destruct td_ok as (_ & _ & Htyped & _). apply Htyped; [exact Har|].
  apply (get_type_nary [number_Z ty (-1); b] ty).
  split; [discriminate|]. split; [exact ty_arith|].
  repeat constructor; assumption.
Qed.

(** Every arithmetic term of the type of the inequality, with its
    multiplications at the leaves, is taken off the stack in finitely
    many steps. *)
Lemma parses_term (n : nat) :
  forall t,
    (minus_depth t <= n)%nat ->
    arith t = true -> distributed t = true -> get_type t = Some ty ->
    dsafe t = true ->
    prs [t].
Proof.
  induction n as [n IHn] using lt_wf_ind.
  assert (Krhs : forall t, arith t = true -> get_type t = Some ty ->
                           dsafe t = true ->
                           only_params params t = true -> prs [t]).
  { intros t Ha Ht Hs Hp. apply parses_rhs; auto.
    intros fuel stack lhs rhs. unfold parse_step. now rewrite Hp. }
  induction t using FNode_ind'; intros Hmd Ha Hd Ht Hs;
    try discriminate;
    match goal with
    | |- parses _ _ _ _ _ _ [?t] =>
        destruct (only_params params t) eqn:Hp; [now apply Krhs|]
    end.
  - (* symbol *)
    apply parses_one. intros fuel stack lhs rhs. unfold parse_step.
    now rewrite Hp.
  - (* integer constant *) discriminate.
  - (* real constant *) discriminate.
  - (* sum *)
    apply (parses_push _ (rev args)).
    + intros fuel stack lhs rhs. unfold parse_step. now rewrite Hp.
    + intros e. apply sum_of_rev.
    + apply parses_list. apply Forall_rev.
      apply (arith_nary args) in Ha. destruct Ha as [_ Ha].
      apply (get_type_nary args ty) in Ht. destruct Ht as (_ & _ & Ht).
      cbn [distributed] in Hd. rewrite forallb_forall in Hd.
      change (forallb dsafe args = true) in Hs.
      rewrite forallb_forall in Hs.
      rewrite Forall_forall in H, Ha, Ht |- *. intros a Hin.
      apply H; auto. cbn [minus_depth] in Hmd.
      eapply minus_depth_le_arg; eauto.
  - (* difference *)
    cbn [arith] in Ha. apply andb_true_iff in Ha. destruct Ha as [Ha1 Ha2].
    cbn [distributed] in Hd. apply andb_true_iff in Hd.
    destruct Hd as [Hd1 Hd2].
    apply (get_type_binary t1 t2 ty) in Ht. destruct Ht as (_ & Ht1 & Ht2).
    cbn [minus_depth] in Hmd.
    change (dsafe t1 && dsafe t2 = true) in Hs.
    apply andb_true_iff in Hs. destruct Hs as [Hs1 Hs2].
    destruct (typed_negated t2 Ha2 Ht2) as [Har Htn].
    assert (Hsn : dsafe (td (Times [number_Z ty (-1); t2])) = true).
    { apply td_keeps; [exact Har|].
      change (dsafe (number_Z ty (-1)) && (dsafe t2 && true) = true).
      rewrite Hs2. destruct ty; reflexivity. }
    destruct td_ok as (Hsound & Hshape & Htyped & Hdepth).
    apply (parses_push _ ([td (Times [number_Z ty (-1); t2])] ++ [t1])).
    + intros fuel stack lhs rhs. unfold parse_step. now rewrite Hp.
    + intros e. rewrite sum_of_app, !sum_of_cons.
      change (sumf e []) with 0. rewrite Hsound by exact Har.
      change (aev e (Times [number_Z ty (-1); t2]))
        with (prodf e [number_Z ty (-1); t2]).
      change (aev e (Minus t1 t2)) with (aev e t1 - aev e t2).
      rewrite !prod_of_cons, aeval_number_Z', Z2Qc_m1.
      change (prodf e []) with 1. ring.
    + apply parses_app.
      * destruct (Hshape _ Har) as [Hsh1 Hsh2].
        apply (IHn (Nat.pred n)); auto; [lia|].
        destruct (number_Z_typed ty (-1) ty_arith) as (_ & C2 & C1).
        pose proof (Hdepth (number_Z ty (-1)) t2 C1 C2 Ha2). lia.
      * apply (IHn (Nat.pred n)); auto; lia.
  - (* product *)
    destruct args as [|a0 args0]; [discriminate|].
    apply parses_product; auto; [discriminate|].
    cbn [distributed] in Hd. apply (arith_nary (a0 :: args0)) in Ha.
    destruct Ha as [_ Ha]. rewrite forallb_forall in Hd.
    rewrite Forall_forall in Ha |- *. intros x Hx. split; auto.
  - (* division *)
    apply parses_one. intros fuel stack lhs rhs. unfold parse_step.
    now rewrite Hp.
Qed.
End ParseLoop.

(** ** Signs of the coefficients *)

Lemma Qc_ltb_spec (a b : Qc) : Qc_ltb a b = true <-> (this a < this b)%Q.
Proof.
  unfold Qc_ltb. rewrite negb_true_iff. split.
  - intros H. apply Qnot_le_lt. intros K. apply Qle_bool_iff in K. congruence.
  - intros H. destruct (Qle_bool (this b) (this a)) eqn:E; [|reflexivity].
    apply Qle_bool_iff in E. lra.
Qed.

Lemma Qc_eqb_spec (a b : Qc) : Qc_eqb a b = true <-> (this a == this b)%Q.
Proof. unfold Qc_eqb. apply Qeq_bool_iff. Qed.

Lemma this_plus (a b : Qc) : (this (a + b)%Qc == this a + this b)%Q.
Proof. unfold Qcplus, Q2Qc. cbn [this]. apply Qred_correct. Qed.

Lemma this_mult (a b : Qc) : (this (a * b)%Qc == this a * this b)%Q.
Proof. unfold Qcmult, Q2Qc. cbn [this]. apply Qred_correct. Qed.

Lemma this_opp (a : Qc) : (this (- a)%Qc == - this a)%Q.
Proof. unfold Qcopp, Q2Qc. cbn [this]. apply Qred_correct. Qed.

Lemma num_ltb_spec (a b : PyNum) :
  num_ltb a b = true <-> (this (num_val a) < this (num_val b))%Q.
Proof. apply Qc_ltb_spec. Qed.

Lemma num_eqb_spec (a b : PyNum) :
  num_eqb a b = true <-> (this (num_val a) == this (num_val b))%Q.
Proof. apply Qc_eqb_spec. Qed.

Lemma this_zero : this (num_val (PInt 0)) = 0%Q.
Proof. reflexivity. Qed.

(** A coefficient is positive, negative or zero. *)
Lemma sign_cases (v : PyNum) :
  (Nat.b2n (num_ltb (PInt 0) v) + Nat.b2n (num_ltb v (PInt 0)))%nat =
  Nat.b2n (negb (num_eqb v (PInt 0))).
Proof.
  destruct (num_ltb (PInt 0) v) eqn:P, (num_ltb v (PInt 0)) eqn:N,
           (num_eqb v (PInt 0)) eqn:Z; try reflexivity; exfalso;
    repeat match goal with
           | H : num_ltb _ _ = true |- _ => apply num_ltb_spec in H
           | H : num_eqb _ _ = true |- _ => apply num_eqb_spec in H
           | H : num_ltb ?a ?b = false |- _ =>
               assert (~ (this (num_val a) < this (num_val b))%Q)
                 by (intros K; apply num_ltb_spec in K; congruence);
               clear H
           | H : num_eqb ?a ?b = false |- _ =>
               assert (~ (this (num_val a) == this (num_val b))%Q)
                 by (intros K; apply num_eqb_spec in K; congruence);
               clear H
           end;
    rewrite this_zero in *; lra.
Qed.

Lemma filter_length_b2n {A : Type} (p : A -> bool) (l : list A) :
  List.length (filter p l) =
  fold_right (fun a n => (Nat.b2n (p a) + n)%nat) O l.
Proof.
  induction l as [|a l IH]; [reflexivity|]. cbn [filter fold_right].
  destruct (p a); cbn [List.length Nat.b2n]; lia.
Qed.

Lemma pos_neg_count (d : list (FNode * PyNum)) :
  (pos_count d + neg_count d)%nat = nonzero_count d.
Proof.
  unfold pos_count, neg_count, nonzero_count. rewrite !filter_length_b2n.
  induction d as [|[k v] d IH]; [reflexivity|]. cbn [fold_right snd].
  pose proof (sign_cases v). lia.
Qed.

Lemma lhs_pos_neg_count (lhs : list (FNode * Expr)) :
  (lhs_count pos_count lhs + lhs_count neg_count lhs)%nat =
  lhs_count nonzero_count lhs.
Proof.
  induction lhs as [|[k x] lhs IH]; [reflexivity|].
  unfold lhs_count in *. cbn [fold_right snd].
  pose proof (pos_neg_count (symb2coef x)). lia.
Qed.

(** The two counters of [_parse] are the numbers of the coefficients
    that are not zero and of the negative ones. *)
Lemma count_coefs_spec (lhs : list (FNode * Expr)) :
  count_coefs lhs =
  (lhs_count nonzero_count lhs, lhs_count neg_count lhs).
Proof.
  unfold count_coefs.
  set (inner := fun (tn : nat * nat) (val : PyNum) =>
                  let (tot_coefs, neg_coefs) := tn in
                  if negb (num_eqb val (PInt 0)) then
                    (S tot_coefs,
                     if num_ltb val (PInt 0) then S neg_coefs else neg_coefs)
                  else (tot_coefs, neg_coefs)).
  assert (I : forall d t n,
             fold_left inner (dict_values d) (t, n) =
             ((t + nonzero_count d)%nat, (n + neg_count d)%nat)).
  { unfold nonzero_count, neg_count, dict_values.
    induction d as [|[k v] d IH]; intros t n.
    - cbn [map fold_left filter List.length]. f_equal; lia.
    - cbn [map fold_left snd]. unfold inner at 2.
      pose proof (sign_cases v) as C. cbn [filter snd].
      destruct (num_eqb v (PInt 0)), (num_ltb v (PInt 0)),
               (num_ltb (PInt 0) v); cbn [negb Nat.b2n] in *; try lia;
        rewrite IH; cbn [List.length]; f_equal; lia. }
  assert (Outer : forall l t n,
             fold_left (fun acc expr =>
                          fold_left inner (dict_values (symb2coef expr)) acc)
               (dict_values l) (t, n) =
             ((t + lhs_count nonzero_count l)%nat,
              (n + lhs_count neg_count l)%nat)).
  { unfold dict_values at 2, lhs_count.
    induction l as [|[k x] l IH]; intros t n.
    - cbn [map fold_left fold_right]. f_equal; lia.
    - cbn [map fold_left fold_right snd]. rewrite I, IH. f_equal; lia. }
  apply (Outer lhs 0%nat 0%nat).
Qed.

Lemma neg_add_le (a b : PyNum) :
  (Nat.b2n (num_ltb (num_add a b) (PInt 0)) <=
   Nat.b2n (num_ltb a (PInt 0)) + Nat.b2n (num_ltb b (PInt 0)))%nat.
Proof.
  destruct (num_ltb (num_add a b) (PInt 0)) eqn:S; [|cbn [Nat.b2n]; lia].
  apply num_ltb_spec in S. rewrite num_val_add, this_zero in S.
  pose proof (this_plus (num_val a) (num_val b)) as P.
  destruct (num_ltb a (PInt 0)) eqn:A; [cbn [Nat.b2n]; lia|].
  destruct (num_ltb b (PInt 0)) eqn:B; [cbn [Nat.b2n]; lia|].
  exfalso.
  assert (~ (this (num_val a) < 0)%Q).
  { intros K. rewrite <- this_zero in K. apply num_ltb_spec in K. congruence. }
  assert (~ (this (num_val b) < 0)%Q).
  { intros K. rewrite <- this_zero in K. apply num_ltb_spec in K. congruence. }
  lra.
Qed.

Lemma this_minus_one (v : PyNum) :
  num_val v = (- (1))%Qc -> (this (num_val v) == - (1))%Q.
Proof. intros ->. reflexivity. Qed.

Lemma neg_mul_m1 (v0 v : PyNum) :
  num_val v = (- (1))%Qc ->
  num_ltb (num_mul v0 v) (PInt 0) = num_ltb (PInt 0) v0.
Proof.
  intros Hv. apply this_minus_one in Hv. apply Bool.eq_iff_eq_true.
  rewrite !num_ltb_spec, num_val_mul, this_zero.
  pose proof (this_mult (num_val v0) (num_val v)) as M. rewrite Hv in M.
  split; intros H; lra.
Qed.

Lemma minus_one_tests (v : PyNum) :
  num_val v = (- (1))%Qc ->
  num_eqb v (PInt 0) = false /\ num_eqb v (PInt 1) = false.
Proof.
  intros Hv. apply this_minus_one in Hv.
  split; destruct (num_eqb v _) eqn:E; try reflexivity;
    apply num_eqb_spec in E; rewrite Hv in E; discriminate.
Qed.

Lemma neg_count_cons (k : FNode) (v : PyNum) (d : list (FNode * PyNum)) :
  neg_count ((k, v) :: d) =
  (Nat.b2n (num_ltb v (PInt 0)) + neg_count d)%nat.
Proof.
  unfold neg_count. cbn [filter snd].
  destruct (num_ltb v (PInt 0)); reflexivity.
Qed.

Lemma pos_count_cons (k : FNode) (v : PyNum) (d : list (FNode * PyNum)) :
  pos_count ((k, v) :: d) =
  (Nat.b2n (num_ltb (PInt 0) v) + pos_count d)%nat.
Proof.
  unfold pos_count. cbn [filter snd].
  destruct (num_ltb (PInt 0) v); reflexivity.
Qed.

(** [d[k] += w] adds at most one negative coefficient, and none when
    [w] is not negative. *)
Lemma neg_count_coef_add (k : FNode) (w : PyNum) :
  forall d,
    (neg_count (coef_add d k w) <=
     neg_count d + Nat.b2n (num_ltb w (PInt 0)))%nat.
Proof.
  unfold coef_add, coef_get. induction d as [|[k' v'] d IH].
  - cbn [dict_get dict_set]. rewrite neg_count_cons.
    pose proof (neg_add_le (PInt 0) w) as H.
    change (num_ltb (PInt 0) (PInt 0)) with false in H.
    cbn [Nat.b2n] in H. change (neg_count []) with 0%nat. lia.
  - cbn [dict_get dict_set]. destruct (FNode_eqb k k').
    + rewrite !neg_count_cons. pose proof (neg_add_le v' w). lia.
    + rewrite !neg_count_cons. lia.
Qed.

Lemma is_zero_neg_count (x : Expr) :
  is_zero x = true -> neg_count (symb2coef x) = 0%nat.
Proof.
  unfold is_zero. destruct (symb2coef x) as [|kv d] eqn:E; [reflexivity|].
  cbn [List.length Nat.eqb]. rewrite <- E. clear E kv d.
  unfold dict_values. induction (symb2coef x) as [|[k v] d IH];
    cbn [map forallb]; [reflexivity|].
  intros H. apply andb_true_iff in H. destruct H as [H1 H2].
  rewrite neg_count_cons, (IH H2). cbn [snd] in H1.
  destruct (num_ltb v (PInt 0)) eqn:N; [|reflexivity].
  apply num_ltb_spec in N. apply num_eqb_spec in H1. lra.
Qed.

Section Negation.
Variable div_int : Z -> Z -> Z.
Variable div_real : Qc -> Qc -> Qc.
Variable fnode_key : FNode -> Z.
Variable ty : PySMTType.

Local Notation "'aev'" := (aeval div_int div_real).
Local Notation "'csem'" := (coef_sem div_int div_real).
Local Notation "'lsem'" := (lhs_sem div_int div_real).
Local Open Scope Qc_scope.

Lemma times_key_one (k0 : FNode) :
  key_ok ty k0 = true ->
  exists s, times_key fnode_key k0 (number_Z ty 1) = Ok s.
Proof.
  intros Hk. unfold times_key.
  assert (E1 : is_times (number_Z ty 1) = false) by (destruct ty; reflexivity).
  assert (E2 : node_is_one (number_Z ty 1) = true) by (destruct ty; reflexivity).
  rewrite E1, E2. cbn [negb].
  apply mgr_Times_ok. intros N.
  pose proof (sorted_perm fnode_key
                (if is_times k0 then node_args k0 else [k0])) as P.
  rewrite N in P. apply Permutation_nil in P.
  destruct k0; try discriminate. cbn [is_times node_args] in P. subst args.
  unfold key_ok in Hk. cbn [is_symbol is_product is_div orb] in Hk.
  rewrite orb_false_r in Hk. destruct ty; discriminate.
Qed.

(** The product by the constant -1: every key has a product key, and
    a coefficient comes out negative only where one was positive. *)
Lemma times_cross_neg (v : PyNum) (d0 : list (FNode * PyNum)) :
  num_val v = - (1) ->
  Forall (fun kv => key_ok ty (fst kv) = true) d0 ->
  exists d,
    times_cross fnode_key d0 [(number_Z ty 1, v)] = Ok d /\
    (neg_count d <= pos_count d0)%nat.
Proof.
  intros Hv Hk. unfold times_cross.
  assert (G : forall da,
             exists d,
               fold_left
                 (fun acc kv0 =>
                    fold_left
                      (fun acc kv1 =>
                         rbind acc (fun d =>
                         rbind (times_key fnode_key (fst kv0) (fst kv1))
                           (fun symbs =>
                         Ok (coef_add d symbs
                               (num_mul (snd kv0) (snd kv1))))))
                      [(number_Z ty 1, v)] acc)
                 d0 (Ok da) = Ok d /\
               (neg_count d <= neg_count da + pos_count d0)%nat).
  { induction Hk as [|[k0 v0] d0 Hk0 _ IH]; intros da.
    - exists da. split; [reflexivity|]. change (pos_count []) with 0%nat.
      lia.
    - cbn [fold_left rbind fst snd] in *.
      destruct (times_key_one k0 Hk0) as (s & Es). rewrite Es.
      cbn [rbind].
      destruct (IH (coef_add da s (num_mul v0 v))) as (d & E & C).
      exists d. split; [exact E|].
      pose proof (neg_count_coef_add s (num_mul v0 v) da) as K.
      rewrite (neg_mul_m1 v0 v Hv) in K. rewrite pos_count_cons. lia. }
  destruct (G []) as (d & E & C). exists d. split; [exact E|].
  change (neg_count []) with 0%nat in C. lia.
Qed.

(** [x.times(c)] for the constant expression [c] of value -1. *)
Lemma times_neg (x : Expr) (v : PyNum) :
  expr_ok ty x -> num_val v = - (1) ->
  exists x',
    times fnode_key x [mkExpr ty [(number_Z ty 1, v)]] = Ok x' /\
    expr_type x' = ty /\
    NoDup (dict_keys (symb2coef x')) /\
    (forall e, csem e (symb2coef x') = - csem e (symb2coef x)) /\
    (neg_count (symb2coef x') <= pos_count (symb2coef x))%nat.
Proof.
  intros [Tx Dx] Hv. destruct (minus_one_tests v Hv) as [V0 V1].
  unfold times. destruct (is_zero x) eqn:Zx.
  { exists x. split; [reflexivity|]. split; [exact Tx|].
    split; [apply Dx|]. split.
    - intros e. rewrite (is_zero_sem div_int div_real e x Zx). ring.
    - rewrite (is_zero_neg_count x Zx). lia. }
  cbn [times_loop expr_type]. rewrite Tx.
  rewrite (proj2 (PySMTType_eqb_eq ty ty) eq_refl), orb_true_r.
  cbn [rassert rbind].
  assert (Zc : is_zero (mkExpr ty [(number_Z ty 1, v)]) = false).
  { unfold is_zero. cbn [symb2coef List.length Nat.eqb dict_values map
                           forallb snd]. now rewrite V0. }
  assert (Oc : is_one (mkExpr ty [(number_Z ty 1, v)]) = false).
  { unfold is_one, dict_mem, coef_get.
    cbn [symb2coef expr_type List.length Nat.eqb dict_get].
    rewrite FNode_eqb_refl, V1. reflexivity. }
  rewrite Zc, Oc. cbn [negb].
  assert (G : PySMTType_eqb ty INT && PySMTType_eqb ty REAL = false)
    by (destruct ty; reflexivity).
  rewrite G. cbn [rbind symb2coef].
  destruct Dx as (Nd & Kd & _).
  destruct (times_cross_neg v (symb2coef x) Hv Kd) as (d & E & C).
  rewrite E. cbn [rbind]. exists (mkExpr ty d).
  split; [reflexivity|]. split; [reflexivity|]. cbn [symb2coef].
  split; [|split; [|exact C]].
  - set (s0 := mkState (fun _ => false) (fun _ => 0)).
    apply (times_cross_sem div_int div_real fnode_key (s0, s0) _ _ _ E).
  - intros e.
    destruct (times_cross_sem div_int div_real fnode_key e _ _ _ E) as [_ S].
    rewrite S, coef_sem_cons. cbn [fst snd]. rewrite aeval_number_Z', Hv.
    change (csem e []) with 0. rewrite Z2Qc_1. ring.
Qed.
End Negation.

Section Flip.
Variable div_int : Z -> Z -> Z.
Variable div_real : Qc -> Qc -> Qc.
Variable fnode_key : FNode -> Z.
Variable td : FNode -> FNode.
Variable params : list FNode.
Variable ty : PySMTType.

Hypothesis ty_arith : is_arith ty = true.
Hypothesis td_ok : td_contract div_int div_real td.
(** The distributor leaves a constant as it is. *)
Hypothesis td_const : forall c, is_constant c = true -> td c = c.
Hypothesis td_keeps : td_safe div_int div_real td.

Local Notation "'aev'" := (aeval div_int div_real).
Local Notation "'csem'" := (coef_sem div_int div_real).
Local Notation "'lsem'" := (lhs_sem div_int div_real).
Local Notation "'new_Expr'" := (Expr_init div_int div_real fnode_key td).
Local Notation "'dsafe'" := (div_safe div_int div_real).
Local Open Scope Qc_scope.

(** [Expr(env, ty, td, const=-1)]. *)
Lemma m_one_expr_value (fuel : nat) :
  new_Expr fuel ty None None (Some (PInt (-1))) =
  Ok (mkExpr ty [(number_Z ty 1, PInt (-1))]).
Proof.
  unfold Expr_init. rewrite ty_arith. cbn [rassert rbind].
  change (num_eqb (PInt (-1)) (PInt 0)) with false. cbn iota.
  unfold plus_const. cbn [expr_type is_pyint]. rewrite orb_true_r.
  reflexivity.
Qed.

(** [Expr(env, ty, td, formula=expr.number(-1))]. *)
Lemma neg_one_expr :
  exists v,
    num_val v = - (1) /\
    forall fuel, (2 <= fuel)%nat ->
      new_Expr fuel ty (Some (number_Z ty (-1))) None None =
      Ok (mkExpr ty [(number_Z ty 1, v)]).
Proof.
  exists (num_add (PInt 0)
            (match ty with REAL => PFrac (Z2Qc (-1)) | _ => PInt (-1) end)).
  split.
  { apply Qc_is_canon. destruct ty; reflexivity. }
  intros fuel Hf. destruct fuel as [|[|fuel]]; try lia.
  unfold Expr_init, plus_fnode. rewrite ty_arith.
  cbn [rassert rbind expr_type symb2coef].
  assert (C : is_constant (number_Z ty (-1)) = true)
    by (destruct ty; reflexivity).
  rewrite (td_const _ C).
  destruct ty; try discriminate; vm_compute; reflexivity.
Qed.

(** The negation of every coefficient expression of [lhs]. *)
Lemma negate_all_ok (lhs : list (FNode * Expr)) :
  lhs_ok ty lhs ->
  exists lhs',
    (forall fuel, (2 <= fuel)%nat ->
       negate_all div_int div_real fnode_key td fuel lhs = Ok lhs') /\
    (forall e, lsem e lhs' = - lsem e lhs) /\
    (lhs_count neg_count lhs' <= lhs_count pos_count lhs)%nat /\
    Forall (fun kv => NoDup (dict_keys (symb2coef (snd kv)))) lhs'.
Proof.
  destruct neg_one_expr as (v & Hv & Ev).
  induction 1 as [|[k x] lhs Hx _ IH].
  - exists []. split; [reflexivity|]. split; [|split; [|constructor]].
    + intros e. change (lsem e []) with 0. ring.
    + unfold lhs_count. cbn [fold_right]. lia.
  - destruct IH as (lhs' & E & S & C & N). cbn [snd] in Hx.
    destruct (times_neg div_int div_real fnode_key ty x v Hx Hv)
      as (x' & Et & Tx' & Nx' & Sx' & Cx').
    exists ((k, x') :: lhs'). split; [|split; [|split]].
    + intros fuel Hf. cbn [negate_all]. unfold times_fnode.
      destruct Hx as [Tx _]. rewrite Tx.
      destruct (number_Z_typed ty (-1) ty_arith) as (Tm & _ & _).
      rewrite (proj2 (has_type_eq _ _) Tm). cbn [rassert rbind].
      assert (O1 : node_is_one (number_Z ty (-1)) = false)
        by (destruct ty; reflexivity).
      rewrite O1. cbn [negb]. rewrite (Ev fuel Hf). cbn [rbind].
      rewrite Et. cbn [rbind]. rewrite (E fuel Hf). reflexivity.
    + intros e. rewrite !lhs_sem_cons, Sx', S. ring.
    + unfold lhs_count in *. cbn [fold_right snd]. lia.
    + constructor; assumption.
Qed.

(** The loop of [_parse] on the two sides of an inequality: the sum
    of [lhs] and [rhs] is their difference. *)
Lemma parse_sides_ok (arg0 arg1 : FNode) :
  arith arg0 = true -> arith arg1 = true ->
  get_type arg0 = Some ty -> get_type arg1 = Some ty ->
  dsafe arg0 = true -> dsafe arg1 = true ->
  exists fuel0 lhs rhs,
    lhs_ok ty lhs /\ expr_ok ty rhs /\
    (forall e, lsem e lhs + csem e (symb2coef rhs) =
               aev e arg0 - aev e arg1) /\
    forall fuel, (fuel0 <= fuel)%nat ->
      parse_sides div_int div_real fnode_key td params fuel ty arg0 arg1 =
      Ok (lhs, rhs).
Proof.
  intros Ha0 Ha1 Ht0 Ht1 Hs0 Hs1.
  destruct (typed_negated div_int div_real td ty ty_arith td_ok arg1 Ha1 Ht1)
    as [Har Htn].
  pose proof td_ok as (Hsound & Hshape & Htyped & Hdepth).
  destruct (Hshape _ Har) as [A1 D1]. destruct (Hshape _ Ha0) as [A0 D0].
  assert (S1 : dsafe (td (Times [number_Z ty (-1); arg1])) = true).
  { apply td_keeps; [exact Har|].
    change (dsafe (number_Z ty (-1)) && (dsafe arg1 && true) = true).
    rewrite Hs1. destruct ty; reflexivity. }
  assert (S0 : dsafe (td arg0) = true) by (apply td_keeps; assumption).
  assert (P : parses div_int div_real fnode_key td params ty
                ([td (Times [number_Z ty (-1); arg1])] ++ [td arg0])).
  { apply parses_app; auto.
    - eapply parses_term; eauto.
    - eapply parses_term; eauto. }
  destruct (P [] [] (mkExpr ty []))
    as (k & lhs & rhs & Hl & Hr & S & L).
  { constructor. }
  { split; [reflexivity | apply dict_ok_nil]. }
  exists (k + 1)%nat, lhs, rhs. split; [exact Hl|]. split; [exact Hr|].
  split.
  - intros e. rewrite S, sum_of_app, !sum_of_cons.
    change (sum_of div_int div_real e []) with 0.
    change (lsem e []) with 0. cbn [symb2coef].
    change (csem e []) with 0. rewrite !Hsound by assumption.
    change (aev e (Times [number_Z ty (-1); arg1]))
      with (prod_of div_int div_real e [number_Z ty (-1); arg1]).
    rewrite !prod_of_cons, aeval_number_Z', Z2Qc_m1.
    change (prod_of div_int div_real e []) with 1. ring.
  - intros fuel Hf. unfold parse_sides, Expr_init. rewrite ty_arith.
    cbn [rassert rbind].
    specialize (L 1%nat (lhs, rhs) eq_refl). rewrite app_nil_r in L.
    apply (parse_loop_mono _ _ _ _ _ _ _ _ _ _ _ L). exact Hf.
Qed.
End Flip.

Lemma sides_equiv (l r a0 a1 : Qc) :
  (l + r = a0 - a1)%Qc ->
  (l = (- r)%Qc <-> a0 = a1) /\ ((- l)%Qc = r <-> a0 = a1).
Proof.
  intros H. split; split; intros K.
  - transitivity (a0 - a1 + a1)%Qc; [ring|]. rewrite <- H, K. ring.
  - transitivity (l + r - r)%Qc; [ring|]. rewrite H, K. ring.
  - transitivity (a0 - a1 + a1)%Qc; [ring|]. rewrite <- H, <- K. ring.
  - transitivity (- (l + r) + r)%Qc; [ring|]. rewrite H, K. ring.
Qed.

Section IneqTerm.
Variable div_int : Z -> Z -> Z.
Variable div_real : Qc -> Qc -> Qc.
Variable fnode_key : FNode -> Z.

Local Notation "'aev'" := (aeval div_int div_real).
Local Notation "'bev'" := (beval div_int div_real).
Local Notation "'csem'" := (coef_sem div_int div_real).
Local Notation "'lsem'" := (lhs_sem div_int div_real).
Local Notation "'sumf'" := (sum_of div_int div_real).
Local Open Scope Qc_scope.

(** The terms that [pysmt_ineq] adds up have the value of [lhs]. *)
Lemma lhs_terms_sem (e : env) :
  forall (lhs : list (FNode * Expr)) (terms : list FNode),
    Forall (fun kv => NoDup (dict_keys (symb2coef (snd kv)))) lhs ->
    rmap (fun kv : FNode * Expr =>
            if is_one (snd kv) then Ok (fst kv)
            else rbind (pysmt_expr fnode_key (snd kv)) (fun v =>
                 mgr_Times [fst kv; v]))
      (filter (fun kv => negb (is_zero (snd kv))) lhs) = Ok terms ->
    sumf e terms = lsem e lhs.
Proof.
  induction lhs as [|[k x] lhs IH]; intros terms Hn H.
  - cbn [filter rmap] in H. injection H as <-. reflexivity.
  - inversion Hn as [|? ? Hx Hrest]; subst. cbn [snd] in Hx.
    rewrite lhs_sem_cons. cbn [filter snd] in H.
    destruct (is_zero x) eqn:Zx; cbn [negb] in H.
    { rewrite (IH _ Hrest H), (is_zero_sem div_int div_real e x Zx). ring. }
    cbn [rmap fst snd] in H.
    destruct (is_one x) eqn:Ox.
    + cbn [rbind] in H.
      destruct (rmap _ _) as [ts|] eqn:Ets; [|discriminate].
      cbn [rbind] in H. injection H as <-.
      rewrite sum_of_cons, (IH _ Hrest eq_refl),
        (is_one_sem div_int div_real e x Ox). ring.
    + destruct (pysmt_expr fnode_key x) as [v|] eqn:Ev; [|discriminate].
      cbn [rbind mgr_Times] in H.
      destruct (rmap _ _) as [ts|] eqn:Ets; [|discriminate].
      cbn [rbind] in H. injection H as <-.
      rewrite sum_of_cons, (IH _ Hrest eq_refl).
      change (aev e (Times [k; v]))
        with (prod_of div_int div_real e [k; v]).
      rewrite !prod_of_cons.
      rewrite (pysmt_expr_sound div_int div_real fnode_key x v Hx Ev e).
      change (prod_of div_int div_real e []) with 1. ring.
Qed.

(** The term of an equality [Ineq] holds exactly where the value of
    [lhs] is the value of [rhs]. *)
Lemma pysmt_ineq_sound (i : Ineq) (f : FNode) :
  _type i = Ineq_EQ ->
  Forall (fun kv => NoDup (dict_keys (symb2coef (snd kv)))) (_lhs i) ->
  NoDup (dict_keys (symb2coef (_rhs i))) ->
  pysmt_ineq fnode_key i = Ok f ->
  forall e, bev e f =
            Qc_eqb (lsem e (_lhs i)) (csem e (symb2coef (_rhs i))).
Proof.
  intros Hty Hl Hr H e. unfold pysmt_ineq in H.
  destruct (rmap _ _) as [terms|] eqn:Et; [|discriminate].
  cbn [rbind] in H.
  pose proof (lhs_terms_sem e _ _ Hl Et) as St.
  pose proof (sorted_perm fnode_key terms) as P.
  rewrite <- (sum_of_perm _ _ e _ _ P) in St.
  destruct (match sorted fnode_key terms with
            | [] => Ok (number_Z (expr_type (_rhs i)) 0)
            | _ :: _ => mgr_Plus (sorted fnode_key terms)
            end) as [expr|] eqn:Ee; [|discriminate].
  cbn [rbind] in H.
  assert (Se : aev e expr = lsem e (_lhs i)).
  { rewrite <- St. destruct (sorted fnode_key terms) as [|t0 ts].
    - injection Ee as <-. rewrite aeval_number_Z', Z2Qc_0. reflexivity.
    - apply (aeval_mgr_Plus _ _ e _ _ Ee). }
  destruct (pysmt_expr fnode_key (_rhs i)) as [r|] eqn:Er; [|discriminate].
  cbn [rbind] in H. rewrite Hty in H. cbn [Z.eqb Ineq_EQ] in H.
  injection H as <-. cbn [beval].
  rewrite Se, (pysmt_expr_sound div_int div_real fnode_key _ _ Hr Er e).
  reflexivity.
Qed.
End IneqTerm.

Lemma td_model_const (c : FNode) : is_constant c = true -> td_model c = c.
Proof. destruct c; try discriminate; reflexivity. Qed.

Lemma lhs_ok_NoDup (ty : PySMTType) (lhs : list (FNode * Expr)) :
  lhs_ok ty lhs ->
  Forall (fun kv => NoDup (dict_keys (symb2coef (snd kv)))) lhs.
Proof.
  unfold lhs_ok. apply Forall_impl. intros kv [_ [H _]]. exact H.
Qed.

Section SignConvention.
Variable div_int : Z -> Z -> Z.
Variable div_real : Qc -> Qc -> Qc.
Variable fnode_key : FNode -> Z.
Variable td : FNode -> FNode.
Variable params : list FNode.

Local Notation "'aev'" := (aeval div_int div_real).
Local Notation "'bev'" := (beval div_int div_real).
Local Notation "'csem'" := (coef_sem div_int div_real).
Local Notation "'lsem'" := (lhs_sem div_int div_real).
Local Notation "'sides'" :=
  (parse_sides div_int div_real fnode_key td params).
Local Notation "'parse'" := (_parse div_int div_real fnode_key td params).
Local Open Scope Qc_scope.

(** C6: for an equality of two arithmetic terms of one type without
    a division of constants by zero, with a distributor under its
    contract that leaves a constant as it is and brings in no such
    division, [Ineq._parse] returns a pair [(lhs, rhs)] from some
    amount of fuel on. With [(lhs0, rhs0)] the state when its loop is over, the
    un-flipped form is [(lhs0, rhs_u)] with [rhs_u] the negation of
    [rhs0]. When more than half of the coefficients of [lhs0] that
    are not zero are negative, both sides of the un-flipped form are
    negated: the value of [lhs] is the opposite of the value of
    [lhs0] and the value of [rhs] the opposite of the value of
    [rhs_u]; otherwise the un-flipped form is returned. In both cases
    [lhs] has no more negative coefficients than [lhs0] (fewer
    when flipped), [lhs = rhs] holds exactly where the input
    equality does, and so does the term [pysmt_ineq] makes of the
    pair. *)
Theorem parse_sign_convention (ty : PySMTType) (arg0 arg1 : FNode) :
  td_contract div_int div_real td ->
  (forall c, is_constant c = true -> td c = c) ->
  td_safe div_int div_real td ->
  arith arg0 = true -> arith arg1 = true ->
  get_type arg0 = Some ty -> get_type arg1 = Some ty ->
  div_safe div_int div_real arg0 = true ->
  div_safe div_int div_real arg1 = true ->
  exists fuel0 lhs0 rhs0 rhs_u lhs rhs,
    (forall fuel, (fuel0 <= fuel)%nat ->
       sides fuel ty arg0 arg1 = Ok (lhs0, rhs0) /\
       parse fuel (Equals arg0 arg1) = Ok (lhs, rhs)) /\
    times fnode_key rhs0 [mkExpr ty [(number_Z ty 1, PInt (-1))]] =
    Ok rhs_u /\
    ((lhs_count nonzero_count lhs0 < 2 * lhs_count neg_count lhs0)%nat ->
     (forall e, lsem e lhs = - lsem e lhs0) /\
     (forall e, csem e (symb2coef rhs) = - csem e (symb2coef rhs_u)) /\
     (lhs_count neg_count lhs < lhs_count neg_count lhs0)%nat) /\
    ((2 * lhs_count neg_count lhs0 <= lhs_count nonzero_count lhs0)%nat ->
     lhs = lhs0 /\ rhs = rhs_u) /\
    (lhs_count neg_count lhs <= lhs_count neg_count lhs0)%nat /\
    (forall e, lsem e lhs = csem e (symb2coef rhs) <->
               aev e arg0 = aev e arg1) /\
    (forall f,
        pysmt_ineq fnode_key (mkIneq params Ineq_EQ lhs rhs) = Ok f ->
        forall e, bev e f = bev e (Equals arg0 arg1)).
Proof.
  intros Htd Hconst Hsafe Ha0 Ha1 Ht0 Ht1 Hs0 Hs1.
  assert (Hat : is_arith ty = true) by (apply (arith_type arg0); assumption).
  destruct (parse_sides_ok div_int div_real fnode_key td params ty Hat Htd
              Hsafe arg0 arg1 Ha0 Ha1 Ht0 Ht1 Hs0 Hs1)
    as (fuel0 & lhs0 & rhs0 & Hl & Hr & S & L).
  destruct (times_neg div_int div_real fnode_key ty rhs0 (PInt (-1)) Hr)
    as (rhs_u & Et & Tu & Nu & Su & _).
  { cbn [num_val]. apply Z2Qc_m1. }
  pose proof (lhs_pos_neg_count lhs0) as PN.
  assert (Hparse : forall fuel, (fuel0 <= fuel)%nat ->
             parse fuel (Equals arg0 arg1) =
             if (lhs_count nonzero_count lhs0 <?
                 2 * lhs_count neg_count lhs0)%nat
             then rbind (negate_all div_int div_real fnode_key td fuel lhs0)
                    (fun lhs => Ok (lhs, rhs0))
             else Ok (lhs0, rhs_u)).
  { intros fuel Hf. unfold _parse. rewrite Ht0. cbn [rbind].
    rewrite Hat. cbn [rassert rbind].
    rewrite (m_one_expr_value div_int div_real fnode_key td ty Hat).
    cbn [rbind]. rewrite (L fuel Hf). cbn [rbind is_equals].
    rewrite count_coefs_spec.
    destruct (_ <? _)%nat; [reflexivity|]. rewrite Et. reflexivity. }
  destruct (lhs_count nonzero_count lhs0 <?
            2 * lhs_count neg_count lhs0)%nat eqn:Flip.
  - (* flipped *)
    apply Nat.ltb_lt in Flip.
    destruct (negate_all_ok div_int div_real fnode_key td ty Hat Hconst
                lhs0 Hl) as (lhs & En & Sn & Cn & Nn).
    exists (Nat.max fuel0 2), lhs0, rhs0, rhs_u, lhs, rhs0.
    assert (Eq : forall e, lsem e lhs = csem e (symb2coef rhs0) <->
                           aev e arg0 = aev e arg1).
    { intros e. rewrite Sn. apply (sides_equiv _ _ _ _ (S e)). }
    split; [|split; [exact Et|split; [|split; [|split; [|split]]]]].
    + intros fuel Hf. split; [apply L; lia|].
      rewrite Hparse by lia. rewrite En by lia. reflexivity.
    + intros _. split; [exact Sn|]. split; [|lia].
      intros e. rewrite Su. ring.
    + intros K. lia.
    + lia.
    + exact Eq.
    + intros f Hf e.
      rewrite (pysmt_ineq_sound div_int div_real fnode_key
                 (mkIneq params Ineq_EQ lhs rhs0) f eq_refl
                 Nn (proj1 (proj2 Hr)) Hf e).
      cbn [_lhs _rhs beval]. apply Qc_eqb_iff. apply Eq.
  - (* not flipped *)
    apply Nat.ltb_ge in Flip.
    exists fuel0, lhs0, rhs0, rhs_u, lhs0, rhs_u.
    assert (Eq : forall e, lsem e lhs0 = csem e (symb2coef rhs_u) <->
                           aev e arg0 = aev e arg1).
    { intros e. rewrite Su. apply (sides_equiv _ _ _ _ (S e)). }
    split; [|split; [exact Et|split; [|split; [|split; [|split]]]]].
    + intros fuel Hf. split; [apply L; lia|]. now rewrite Hparse.
    + intros K. lia.
    + auto.
    + lia.
    + exact Eq.
    + intros f Hf e.
      rewrite (pysmt_ineq_sound div_int div_real fnode_key
                 (mkIneq params Ineq_EQ lhs0 rhs_u) f eq_refl
                 (lhs_ok_NoDup ty lhs0 Hl) Nu Hf e).
      cbn [_lhs _rhs beval]. apply Qc_eqb_iff. apply Eq.
Qed.
End SignConvention.

(** The sign convention on -x - y = 3, without parameters. *)
Lemma parse_sign_convention_witness :
  exists fuel0 lhs0 rhs0 rhs_u lhs rhs,
    (forall fuel, (fuel0 <= fuel)%nat ->
       parse_sides Z.div Qcdiv SampleTerm.key td_model [] fuel INT
         SampleTerm.neg_sum (IntC 3) = Ok (lhs0, rhs0) /\
       _parse Z.div Qcdiv SampleTerm.key td_model [] fuel SampleTerm.eq2 =
       Ok (lhs, rhs)) /\
    times SampleTerm.key rhs0 [mkExpr INT [(number_Z INT 1, PInt (-1))]] =
    Ok rhs_u /\
    ((lhs_count nonzero_count lhs0 < 2 * lhs_count neg_count lhs0)%nat ->
     (forall e, lhs_sem Z.div Qcdiv e lhs = (- lhs_sem Z.div Qcdiv e lhs0)%Qc) /\
     (forall e, coef_sem Z.div Qcdiv e (symb2coef rhs) =
                (- coef_sem Z.div Qcdiv e (symb2coef rhs_u))%Qc) /\
     (lhs_count neg_count lhs < lhs_count neg_count lhs0)%nat) /\
    ((2 * lhs_count neg_count lhs0 <= lhs_count nonzero_count lhs0)%nat ->
     lhs = lhs0 /\ rhs = rhs_u) /\
    (lhs_count neg_count lhs <= lhs_count neg_count lhs0)%nat /\
    (forall e, lhs_sem Z.div Qcdiv e lhs = coef_sem Z.div Qcdiv e (symb2coef rhs)
               <->
               aeval Z.div Qcdiv e SampleTerm.neg_sum =
               aeval Z.div Qcdiv e (IntC 3)) /\
    (forall f,
        pysmt_ineq SampleTerm.key (mkIneq [] Ineq_EQ lhs rhs) = Ok f ->
        forall e, beval Z.div Qcdiv e f = beval Z.div Qcdiv e SampleTerm.eq2).
Proof.
  apply (parse_sign_convention Z.div Qcdiv SampleTerm.key td_model [] INT
           SampleTerm.neg_sum (IntC 3)).
  - apply td_model_contract.
  - apply td_model_const.
  - apply td_model_safe.
  - reflexivity.
  - reflexivity.
  - reflexivity.
  - reflexivity.
  - reflexivity.
  - reflexivity.
Defined.

(** C6, the claim as stated fails on the pair: for -x = 3 + p with
    the parameter p, the loop of [_parse] ends with [lhs0] = {x: -1}
    and [rhs0] = -p - 3, and the un-flipped form is [(lhs0, rhs_u)] with
    [rhs_u] = p + 3. The one coefficient of [lhs0] is negative, so the
    equality is flipped, and the returned pair x = -p - 3 has two
    negative coefficients where the un-flipped pair has one. *)
Lemma parse_sign_convention_fails :
  let lhs0 := [(Sample.x, mkExpr INT [(IntC 1, PInt (-1))])] in
  let rhs0 := mkExpr INT [(SampleTerm.p, PInt (-1)); (IntC 1, PInt (-3))] in
  let rhs_u := mkExpr INT [(SampleTerm.p, PInt 1); (IntC 1, PInt 3)] in
  let lhs := [(Sample.x, mkExpr INT [(IntC 1, PInt 1)])] in
  parse_sides Z.div Qcdiv SampleTerm.key td_model [SampleTerm.p] 50 INT
    (Times [IntC (-1); Sample.x]) (Plus [IntC 3; SampleTerm.p]) =
  Ok (lhs0, rhs0) /\
  times SampleTerm.key rhs0 [mkExpr INT [(number_Z INT 1, PInt (-1))]] =
  Ok rhs_u /\
  _parse Z.div Qcdiv SampleTerm.key td_model [SampleTerm.p] 50 SampleTerm.eq3 =
  Ok (lhs, rhs0) /\
  (lhs_count nonzero_count lhs0 < 2 * lhs_count neg_count lhs0)%nat /\
  pair_neg_count lhs0 rhs_u = 1%nat /\
  pair_neg_count lhs rhs0 = 2%nat.
Proof.
  cbv zeta. split; [vm_compute; reflexivity|].
  split; [vm_compute; reflexivity|]. split; [vm_compute; reflexivity|].
  split; [vm_compute; lia|]. split; vm_compute; reflexivity.
Qed.

(** A division of constants by zero is refused; a division by zero
    with variables is taken as a whole. *)
Example div_by_zero_samples :
  eq2assign Z.div Qcdiv SampleTerm.key td_model 50
    (Equals Sample.x (Div (IntC 1) (IntC 0))) = Raise AssertionError /\
  Ineq_init Z.div Qcdiv SampleTerm.key td_model [] 50
    (LE Sample.x (Div (IntC 1) (IntC 0))) = Raise AssertionError /\
  Expr_init Z.div Qcdiv SampleTerm.key td_model 50 INT
    (Some (Plus [Sample.x; Div Sample.x (IntC 0)])) None None =
  Ok (mkExpr INT [(Div Sample.x (IntC 0), PInt 1); (Sample.x, PInt 1)]).
Proof. vm_compute. repeat split. Qed.

Example parse_samples :
  rbind (Ineq_init Z.div Qcdiv SampleTerm.key td_model [] 50 SampleTerm.eq2)
    (pysmt_ineq SampleTerm.key) =
  Ok (Equals (Plus [SampleTerm.y; Sample.x]) (IntC (-3))) /\
  rbind (Ineq_init Z.div Qcdiv SampleTerm.key td_model [] 50
           (Equals (Plus [Sample.x; Times [IntC (-1); SampleTerm.y]]) (IntC 3)))
    (pysmt_ineq SampleTerm.key) =
  Ok (Equals (Plus [Sample.x; Times [SampleTerm.y; IntC (-1)]]) (IntC 3)).
Proof. vm_compute. split; reflexivity. Qed.

(** ** Hint.get_trans_system: the invariants along a run *)

Lemma symbols_ok_mgr_Or (P : FNode -> bool) (l : list FNode) :
  forallb (symbols_ok P) l = true -> symbols_ok P (mgr_Or l) = true.
Proof.
  destruct l as [|a [|b l]]; cbn [mgr_Or symbols_ok forallb]; auto.
  rewrite andb_true_r. auto.
Qed.

Lemma mem_symb_app_l (s : FNode) (l1 l2 : list FNode) :
  mem_symb s l1 = true -> mem_symb s (l1 ++ l2) = true.
Proof. intros H. now rewrite mem_symb_app, H. Qed.

Lemma mem_symb_app_r (s : FNode) (l1 l2 : list FNode) :
  mem_symb s l2 = true -> mem_symb s (l1 ++ l2) = true.
Proof. intros H. now rewrite mem_symb_app, H, orb_true_r. Qed.

(** The invariants of a built transition system are initial
    predicates, and their next-state versions are transition
    predicates. *)
Lemma build_trans_system_invars (self : Hint) (active : FNode)
    (lvals symbs0 : list FNode) (st rk pr rd : FNode)
    (ts : TransSystem) (act : FNode) (p : FNode) :
  build_trans_system self active lvals symbs0 st rk pr rd = Ok (ts, act) ->
  In p (map (fun q => Implies (fst q)
                        (mgr_And [region (snd q); assume (snd q)]))
          (combine lvals (locs self)) ++ [mgr_Or lvals]) ->
  In p (init ts) /\ In (to_next (all_symbs self ++ symbs0) p) (trans ts).
Proof.
  unfold build_trans_system, last_of. rewrite py_index_map.
  destruct (py_index lvals (-1)) as [inactive|]; [|discriminate].
  cbn [rbind]. destruct (outcome _); [|discriminate].
  intros E Hp. injection E as <- <-.
  assert (Hq : In (to_next (all_symbs self ++ symbs0) p)
                 (map (to_next (all_symbs self ++ symbs0))
                    (map (fun q => Implies (fst q)
                                     (mgr_And [region (snd q); assume (snd q)]))
                       (combine lvals (locs self)) ++ [mgr_Or lvals]))).
  { now apply in_map. }
  apply in_app_iff in Hp.
  destruct (negb (is_false rd));
    cbn [init trans add_init add_trans ext_init ext_trans];
    rewrite ?in_app_iff; (split; [destruct Hp; auto 10 | auto 10]).
Qed.

Section Invariants.
Variable div_int : Z -> Z -> Z.
Variable div_real : Qc -> Qc -> Qc.
Variable new_enum : string -> nat -> list FNode * list FNode.

Local Notation "'bev'" := (beval div_int div_real).

Lemma beval_mgr_Or (e : env) (l : list FNode) :
  bev e (mgr_Or l) = existsb (bev e) l.
Proof.
  destruct l as [|a [|b l]]; cbn [mgr_Or beval existsb]; auto.
  now rewrite orb_false_r.
Qed.

(** X1: in every run of the transition system that
    [get_trans_system] returns, at every step one of the values of
    the location encoding holds (a location or the inactive value),
    and where the value of a location holds, its region and its
    assumption hold. The encodings are taken to be over their own
    current-state symbols, the regions and assumptions over the
    current-state symbols of the hint. *)
Theorem hint_invariants_hold (h h' : Hint) (active : FNode)
    (ts : TransSystem) (act : FNode) (sigma : nat -> state) :
  get_trans_system new_enum active h = (h', Ok (ts, act)) ->
  encodings_closed h' = true ->
  locs_closed h' = true ->
  is_run div_int div_real ts sigma ->
  exists lv,
    ts_lvals h' = Some lv /\
    forall i,
      (exists v, In v lv /\ bev (sigma i, sigma (S i)) v = true) /\
      forall j lval loc,
        nth_error lv j = Some lval ->
        nth_error (locs h') j = Some loc ->
        bev (sigma i, sigma (S i)) lval = true ->
        bev (sigma i, sigma (S i)) (region loc) = true /\
        bev (sigma i, sigma (S i)) (assume loc) = true.
Proof.
  intros Hcall Hclosed Hlocs [Hinit Htrans].
  apply get_trans_system_ok in Hcall.
  destruct Hcall as (ls & lv & tts & st & rk & pr & rd & extra
                     & Hls & Hlv & Htts & Hst & Hbuild).
  exists lv. split; [exact Hlv|].
  unfold encodings_closed, closed_opt in Hclosed.
  rewrite Hls, Hlv, Htts, Hst in Hclosed.
  apply andb_true_iff in Hclosed. destruct Hclosed as [Hc1 _].
  unfold enum_closed in Hc1.
  set (symbs := all_symbs h' ++ ls ++ tts ++ [active] ++ extra) in *.
  assert (Clv : forallb (symbols_ok (renamed symbs)) lv = true).
  { rewrite forallb_forall in Hc1 |- *. intros v Hv.
    generalize (Hc1 v Hv). apply symbols_ok_impl. intros s.
    apply renamed_mono. intros x Hx. unfold symbs.
    now apply mem_symb_app_r, mem_symb_app_l. }
  set (invs := map (fun q => Implies (fst q)
                               (mgr_And [region (snd q); assume (snd q)]))
                 (combine lv (locs h')) ++ [mgr_Or lv]).
  assert (Cinv : forall p, In p invs ->
                           symbols_ok (renamed symbs) p = true).
  { intros p Hp. unfold invs in Hp. apply in_app_iff in Hp.
    destruct Hp as [Hp | [<- | []]]; [|now apply symbols_ok_mgr_Or].
    apply in_map_iff in Hp. destruct Hp as ([lval loc] & <- & Hin).
    pose proof (in_combine_l _ _ _ _ Hin) as H1.
    pose proof (in_combine_r _ _ _ _ Hin) as H2.
    unfold locs_closed in Hlocs. rewrite forallb_forall in Hlocs, Clv.
    specialize (Hlocs loc H2). apply andb_true_iff in Hlocs.
    destruct Hlocs as [Hr Ha].
    assert (M : forall t, symbols_ok (renamed (all_symbs h')) t = true ->
                          symbols_ok (renamed symbs) t = true).
    { intros t. apply symbols_ok_impl. intros s. apply renamed_mono.
      intros x Hx. now apply mem_symb_app_l. }
    cbn [fst snd mgr_And symbols_ok forallb].
    now rewrite (Clv lval H1), (M _ Hr), (M _ Ha). }
  assert (Hall : forall i p, In p invs ->
                             bev (sigma i, sigma (S i)) p = true).
  { intros i p Hp.
    destruct (build_trans_system_invars _ _ _ _ _ _ _ _ _ _ p Hbuild Hp)
      as [Hi Ht].
    destruct i as [|i].
    - rewrite Forall_forall in Hinit. exact (Hinit _ Hi).
    - specialize (Htrans i). rewrite Forall_forall in Htrans.
      specialize (Htrans _ Ht). unfold holds in Htrans.
      rewrite (beval_to_next div_int div_real _ _ _ (sigma (S (S i))))
        in Htrans; [exact Htrans|]. now apply Cinv. }
  intros i. split.
  - assert (Ho : bev (sigma i, sigma (S i)) (mgr_Or lv) = true).
    { apply Hall. unfold invs. apply in_app_iff. right. now left. }
    rewrite beval_mgr_Or in Ho. apply existsb_exists in Ho. exact Ho.
  - intros j lval loc Hj1 Hj2 Hv.
    assert (Hin : In (lval, loc) (combine lv (locs h'))).
    { clear - Hj1 Hj2. revert j Hj1 Hj2.
      generalize (locs h'). induction lv as [|a lv IH]; intros l j H1 H2.
      - destruct j; discriminate.
      - destruct l as [|b l]; [destruct j; discriminate|].
        destruct j as [|j]; cbn [nth_error] in H1, H2.
        + injection H1 as ->. injection H2 as ->. now left.
        + right. eapply IH; eauto. }
    assert (Hp : bev (sigma i, sigma (S i))
                   (Implies lval (mgr_And [region loc; assume loc])) = true).
    { apply Hall. unfold invs. apply in_app_iff. left.
      apply in_map_iff. exists (lval, loc). auto. }
    cbn [beval mgr_And forallb] in Hp. rewrite Hv in Hp. cbn [implb] in Hp.
    rewrite andb_true_r in Hp. now apply andb_true_iff in Hp.
Qed.
End Invariants.

(** The invariants of the sample hint along the jumping run. *)
Lemma hint_invariants_hold_witness :
  exists lv,
    ts_lvals (fst SampleRun.compiled) = Some lv /\
    forall i,
      (exists v, In v lv /\
                 beval Z.div Qcdiv
                   (Sample.jumping_run i, Sample.jumping_run (S i)) v = true) /\
      forall j lval loc,
        nth_error lv j = Some lval ->
        nth_error (locs (fst SampleRun.compiled)) j = Some loc ->
        beval Z.div Qcdiv
          (Sample.jumping_run i, Sample.jumping_run (S i)) lval = true ->
        beval Z.div Qcdiv
          (Sample.jumping_run i, Sample.jumping_run (S i)) (region loc) = true /\
        beval Z.div Qcdiv
          (Sample.jumping_run i, Sample.jumping_run (S i)) (assume loc) = true.
Proof.
  apply (hint_invariants_hold Z.div Qcdiv one_hot_enum Sample.hint_x
           (fst SampleRun.compiled) Sample.active SampleRun.ts SampleRun.act
           Sample.jumping_run).
  - exact sample_compiled_ok.
  - vm_compute. reflexivity.
  - vm_compute. reflexivity.
  - exact jumping_run_is_run.
Defined.

(** ** Hint.get_trans_system: a second call *)

Lemma set_rank_flags_fix (symbs symbs' : list FNode) (h h' : Hint) :
  set_rank_flags symbs h = (h', Ok symbs') ->
  set_rank_flags symbs h' = (h', Ok symbs') /\
  name h' = name h /\ locs h' = locs h /\
  is_some (is_rank_decr h') = true /\
  (is_some (t_is_ranked h) = true -> is_some (t_is_ranked h') = true).
Proof.
  unfold set_rank_flags, mbind, mget, massert, mlift, mset, mret.
  destruct h as [nm os als ls a b c d e f g i]. cbn [locs name].
  destruct (forallb (fun loc => is_none (rf loc)) ls) eqn:E1.
  - destruct (forallb (fun loc => is_false (rankT loc)) ls) eqn:E2;
      cbn [rassert]; intros E; [|discriminate].
    injection E as <- <-. cbn [locs name set_is_rank_decr set_t_is_ranked
                                 is_rank_decr t_is_ranked all_symbs owned_symbs
                                 ts_loc_symbs ts_lvals trans_type_symbs
                                 t_is_stutter t_progress t_is_progress].
    rewrite E1, E2. cbn [rassert]. auto.
  - intros E. injection E as <- <-.
    cbn [locs name set_is_rank_decr is_rank_decr t_is_ranked all_symbs
           owned_symbs ts_loc_symbs ts_lvals trans_type_symbs t_is_stutter
           t_progress t_is_progress].
    rewrite E1. auto.
Qed.

(** [get_trans_system] on a hint whose encodings are allocated. *)
Lemma get_trans_system_compiled new_enum (active : FNode) (h h1 : Hint)
    (ls lv tts symbs : list FNode) (st rk0 rk pr rd : FNode) :
  is_symbol active = true ->
  ts_loc_symbs h = Some ls -> ts_lvals h = Some lv ->
  trans_type_symbs h = Some tts -> t_is_stutter h = Some st ->
  t_is_ranked h = Some rk0 -> t_is_progress h = Some pr ->
  set_rank_flags (ls ++ tts ++ [active]) h = (h1, Ok symbs) ->
  t_is_ranked h1 = Some rk -> is_rank_decr h1 = Some rd ->
  get_trans_system new_enum active h =
  (h1, build_trans_system h1 active lv symbs st rk pr rd).
Proof.
  intros Ha Hls Hlv Htts Hst Hrk0 Hpr Hflags Hrk Hrd.
  unfold get_trans_system, alloc_enums, mbind, massert, mlift, mget, mattr,
    mattr_created, mret.
  rewrite Ha. cbn [rassert]. rewrite Hls. cbn [is_none].
  rewrite Hls, Hlv, Htts, Hst, Hrk0, Hpr, Hflags, Hrk, Hrd. reflexivity.
Qed.

(** X2: a call of [get_trans_system] that returns leaves the hint
    compiled, and a second call with the same activation symbol
    allocates nothing, leaves the hint as it is and returns the same
    transition system and the same predicate. *)
Theorem get_trans_system_idempotent new_enum (active : FNode) (h h' : Hint)
    (res : TransSystem * FNode) :
  get_trans_system new_enum active h = (h', Ok res) ->
  compiled h' = true /\
  get_trans_system new_enum active h' = (h', Ok res).
Proof.
  unfold get_trans_system at 1. intros H.
  apply mbind_ok in H. destruct H as (u & h1 & Hact & H).
  assert (Ha : is_symbol active = true).
  { unfold massert, mlift in Hact. destruct (is_symbol active);
      [reflexivity | discriminate]. }
  clear Hact.
  apply mbind_ok in H. destruct H as (_ & h2 & _ & H).
  apply mbind_ok in H. destruct H as (ls & h3 & H3 & H).
  apply mattr_ok in H3. destruct H3 as [-> Hls].
  apply mbind_ok in H. destruct H as (lv & h3 & H3 & H).
  apply mattr_ok in H3. destruct H3 as [-> Hlv].
  apply mbind_ok in H. destruct H as (tts & h3 & H3 & H).
  apply mattr_ok in H3. destruct H3 as [-> Htts].
  apply mbind_ok in H. destruct H as (st & h3 & H3 & H).
  apply mattr_ok in H3. destruct H3 as [-> Hst].
  apply mbind_ok in H. destruct H as (rk0 & h3 & H3 & H).
  apply mattr_ok in H3. destruct H3 as [-> Hrk0].
  apply mbind_ok in H. destruct H as (pr & h3 & H3 & H).
  apply mattr_created_ok in H3. destruct H3 as [-> Hpr].
  apply mbind_ok in H. destruct H as (symbs & h3 & H3 & H).
  pose proof (set_rank_flags_ok _ _ _ _ H3)
    as (E1 & E2 & E3 & E4 & E5 & _ & _ & _).
  pose proof (set_rank_flags_fix _ _ _ _ H3) as (Hfix & _ & _ & Hd & Hr).
  apply mbind_ok in H. destruct H as (rk & h4 & H4 & H).
  apply mattr_ok in H4. destruct H4 as [-> Hrk].
  apply mbind_ok in H. destruct H as (rd & h4 & H4 & H).
  apply mattr_ok in H4. destruct H4 as [-> Hrd].
  apply mbind_ok in H. destruct H as (self & h4 & H4 & H).
  unfold mget in H4. injection H4 as <- <-.
  unfold mlift in H. injection H as <- H.
  rewrite <- E1 in Hls. rewrite <- E2 in Hlv. rewrite <- E3 in Htts.
  rewrite <- E4 in Hst. rewrite <- E5 in Hpr.
  split.
  - unfold compiled. now rewrite Hls, Hlv, Htts, Hst, Hrk, Hpr, Hrd.
  - rewrite (get_trans_system_compiled new_enum active h3 h3 ls lv tts symbs
               st rk rk pr rd); auto. now rewrite H.
Qed.

Lemma get_trans_system_idempotent_witness :
  compiled (fst SampleRun.compiled) = true /\
  get_trans_system one_hot_enum Sample.active (fst SampleRun.compiled) =
  (fst SampleRun.compiled, Ok (SampleRun.ts, SampleRun.act)).
Proof.
  apply (get_trans_system_idempotent one_hot_enum Sample.active Sample.hint_x).
  exact sample_compiled_ok.
Defined.

(** ** Location.get_trans: guards and bounds *)

Lemma emitted_gbind {A B : Type} (m : Gen A) (f : A -> Gen B) :
  emitted (gbind m f) =
  emitted m ++ match outcome m with
               | Ok a => emitted (f a)
               | Raise _ => []
               end.
Proof.
  destruct m as [out [a|e]]; cbn [gbind emitted outcome fst snd].
  - destruct (f a). reflexivity.
  - now rewrite app_nil_r.
Qed.

Lemma outcome_gbind {A B : Type} (m : Gen A) (f : A -> Gen B) :
  outcome (gbind m f) =
  match outcome m with
  | Ok a => outcome (f a)
  | Raise e => Raise e
  end.
Proof.
  destruct m as [out [a|e]]; cbn [gbind emitted outcome fst snd];
    [destruct (f a)|]; reflexivity.
Qed.

Lemma emitted_all_gbind {A B : Type} (P : FNode -> Prop)
    (m : Gen A) (f : A -> Gen B) :
  Forall P (emitted m) -> (forall a, Forall P (emitted (f a))) ->
  Forall P (emitted (gbind m f)).
Proof.
  intros Hm Hf. rewrite emitted_gbind. apply Forall_app. split; [exact Hm|].
  destruct (outcome m); [apply Hf | constructor].
Qed.

Lemma py_index_in_range {A : Type} (l : list A) (i : Z) :
  (in_range l i = true -> exists a, py_index l i = Ok a) /\
  (in_range l i = false -> py_index l i = Raise IndexError).
Proof.
  unfold in_range, py_index.
  set (n := Z.of_nat (List.length l)).
  split; intros H.
  - apply andb_true_iff in H. destruct H as [H1 H2].
    apply Z.leb_le in H1. apply Z.ltb_lt in H2.
    set (j := if i <? 0 then i + n else i).
    assert (Hj : 0 <= j < n).
    { unfold j. destruct (i <? 0) eqn:E;
        [apply Z.ltb_lt in E | apply Z.ltb_ge in E]; lia. }
    assert (E1 : (j <? 0) = false) by (apply Z.ltb_ge; lia).
    assert (E2 : (n <=? j) = false) by (apply Z.leb_gt; lia).
    rewrite E1, E2. cbn [orb].
    destruct (nth_error l (Z.to_nat j)) as [a|] eqn:E; [eauto|].
    apply nth_error_None in E. unfold n in Hj. lia.
  - set (j := if i <? 0 then i + n else i).
    destruct ((j <? 0) || (n <=? j)) eqn:E; [reflexivity|].
    apply orb_false_iff in E. destruct E as [E1 E2].
    apply Z.ltb_ge in E1. apply Z.leb_gt in E2.
    apply andb_false_iff in H. exfalso. unfold j in *.
    destruct (i <? 0) eqn:E;
      [apply Z.ltb_lt in E | apply Z.ltb_ge in E];
      destruct H as [H|H];
      [apply Z.leb_gt in H | apply Z.ltb_ge in H
      |apply Z.leb_gt in H | apply Z.ltb_ge in H]; lia.
Qed.

Section Guards.
Variable div_int : Z -> Z -> Z.
Variable div_real : Qc -> Qc -> Qc.

Local Notation "'bev'" := (beval div_int div_real).

(** A guarded clause holds where its guard does not. *)
Lemma guarded_holds (e : env) (l c : FNode) :
  guarded_by l c = true -> bev e l = false -> bev e c = true.
Proof.
  destruct c; try discriminate. cbn [guarded_by beval]. intros G Hl.
  assert (Ha : bev e c1 = false).
  { apply orb_true_iff in G. destruct G as [G|G].
    - apply FNode_eqb_eq in G. now subst.
    - destruct c1; try discriminate. destruct args as [|a0 args];
        [discriminate|]. apply FNode_eqb_eq in G. subst a0.
      cbn [beval forallb]. now rewrite Hl. }
  now rewrite Ha.
Qed.

Variable self : Location.
Variable idx : Z.
Variables lvals x_lvals symbs : list FNode.
Variables is_stutter is_ranked is_progress is_rank_decr : FNode.

Local Notation "'clauses'" :=
  (get_trans self idx lvals x_lvals symbs is_stutter is_ranked
     is_progress is_rank_decr).

Lemma guarded_refl (l b : FNode) : guarded_by l (Implies l b) = true.
Proof. cbn [guarded_by]. now rewrite FNode_eqb_refl. Qed.

Lemma guarded_and (l a b c : FNode) :
  guarded_by l (Implies (mgr_And [l; a; b]) c) = true.
Proof. cbn [guarded_by mgr_And]. now rewrite FNode_eqb_refl, orb_true_r. Qed.

Lemma progress_clauses_guarded (l : FNode) (items : list (pykey * FNode)) :
  Forall (fun c => guarded_by l c = true)
    (emitted (progress_clauses x_lvals is_progress l items)).
Proof.
  induction items as [|[dst t] items IH]; [constructor|].
  cbn [progress_clauses]. rewrite gbind_assert.
  destruct (negb (is_false t)); [|constructor].
  rewrite gbind_lift. destruct (x_lval_of x_lvals dst); [|constructor].
  rewrite gbind_yield. constructor; [apply guarded_and | exact IH].
Qed.

(** The clauses that follow the reads of the two lists. *)
Lemma get_trans_tail_guarded (l x_l b : FNode) :
  Forall (fun c => guarded_by l c = true)
    (emitted
       (gbind (yield (Implies l b)) (fun _ =>
        gbind (stutter_clauses self is_stutter l x_l) (fun _ =>
        gbind (ranked_clauses self is_ranked l x_l) (fun _ =>
        gbind (progress_clauses x_lvals is_progress l (progressT self))
          (fun _ => rank_decr_clauses self is_ranked is_rank_decr l)))))).
Proof.
  rewrite gbind_yield. constructor; [apply guarded_refl|].
  apply emitted_all_gbind.
  { unfold stutter_clauses. destruct (negb _); repeat constructor.
    apply guarded_and. }
  intros _. apply emitted_all_gbind.
  { unfold ranked_clauses. destruct (negb (is_false (rankT self)));
      [|constructor].
    rewrite !gbind_assert. destruct (negb _); [|constructor].
    destruct (is_some _); [|constructor]. rewrite gbind_lift.
    destruct (rf_get _); repeat constructor. apply guarded_and. }
  intros _. apply emitted_all_gbind; [apply progress_clauses_guarded|].
  intros _. unfold rank_decr_clauses. destruct (_ && _); [|constructor].
  rewrite gbind_assert. destruct (is_some _); [|constructor].
  rewrite gbind_lift. destruct (rf_get _); [|constructor].
  rewrite gbind_yield. constructor; [apply guarded_and|].
  repeat constructor. apply guarded_and.
Qed.

(** What [get_trans] is once its assertions and the self-transition
    types are through. *)
Lemma get_trans_shape :
  clauses = ([], Raise AssertionError) \/
  (exists e, clauses = ([], Raise e)) \/
  exists l x_l b,
    py_index lvals idx = Ok l /\ py_index x_lvals idx = Ok x_l /\
    clauses =
    gbind (yield (Implies l b)) (fun _ =>
    gbind (stutter_clauses self is_stutter l x_l) (fun _ =>
    gbind (ranked_clauses self is_ranked l x_l) (fun _ =>
    gbind (progress_clauses x_lvals is_progress l (progressT self))
      (fun _ => rank_decr_clauses self is_ranked is_rank_decr l)))).
Proof.
  unfold get_trans.
  destruct (get_trans_pre_silent self symbs is_stutter is_ranked
              is_progress is_rank_decr) as [-> | ->]; [|now left].
  rewrite gbind_silent.
  pose proof (self_types_silent self idx is_stutter is_ranked is_progress)
    as Hs.
  destruct (self_types self idx is_stutter is_ranked is_progress)
    as [out [[t_type min_rf]|e]]; cbn [emitted fst] in Hs; subst out.
  2:{ right. left. exists e. reflexivity. }
  rewrite gbind_silent, gbind_lift.
  destruct (py_index x_lvals idx) as [x_l|e] eqn:Ex.
  2:{ right. left. exists e. reflexivity. }
  pose proof (other_locs_silent idx x_lvals is_progress min_rf
                (dict_keys (progressT self))) as Ho.
  destruct (other_locs idx x_lvals is_progress min_rf _)
    as [out [others|e]]; cbn [emitted fst] in Ho; subst out.
  2:{ right. left. exists e. reflexivity. }
  rewrite gbind_silent, gbind_lift.
  destruct (py_index lvals idx) as [l|e] eqn:El.
  2:{ right. left. exists e. reflexivity. }
  right. right. exists l, x_l, (mgr_Or (mgr_And [x_l; mgr_Or t_type] :: others)).
  auto.
Qed.

(** X3: every clause that [Location.get_trans] yields, whatever the
    arguments and also when it raises afterwards, is an implication
    guarded by the value [lvals[idx]] of its own location; so every
    clause holds in a state in which this value does not. *)
Theorem get_trans_guarded :
  Forall (fun c => exists l, py_index lvals idx = Ok l /\
                             guarded_by l c = true)
    (emitted clauses) /\
  forall e l, py_index lvals idx = Ok l -> bev e l = false ->
              Forall (fun c => bev e c = true) (emitted clauses).
Proof.
  assert (G : Forall (fun c => exists l, py_index lvals idx = Ok l /\
                                         guarded_by l c = true)
                (emitted clauses)).
  { destruct get_trans_shape as [-> | [(e & ->) | (l & x_l & b & El & _ & ->)]];
      try constructor.
    pose proof (get_trans_tail_guarded l x_l b) as T. revert T.
    apply Forall_impl. intros c Hc. eauto. }
  split; [exact G|]. intros e l El Hl. revert G. apply Forall_impl.
  intros c (l' & El' & Hc). rewrite El in El'. injection El' as <-.
  now apply (guarded_holds e l).
Qed.

(** X4: when [idx] is not an index of [lvals] or of [x_lvals],
    counted from either end as Python does, [get_trans] yields no
    clause and raises. *)
Theorem get_trans_index_error :
  in_range lvals idx = false \/ in_range x_lvals idx = false ->
  emitted clauses = [] /\ exists e, outcome clauses = Raise e.
Proof.
  intros H.
  destruct get_trans_shape as [-> | [(e & ->) | (l & x_l & b & El & Ex & _)]];
    [split; [reflexivity | eexists; reflexivity]
    |split; [reflexivity | eexists; reflexivity] |].
  exfalso. destruct H as [H|H].
  - apply (proj2 (py_index_in_range lvals idx)) in H. congruence.
  - apply (proj2 (py_index_in_range x_lvals idx)) in H. congruence.
Qed.
End Guards.

Lemma get_trans_index_error_witness :
  emitted (get_trans Sample.loc_dead 2 Sample.lvals Sample.x_lvals []
             Sample.sel_stutter FALSE Sample.sel_progress FALSE) = [] /\
  exists e,
    outcome (get_trans Sample.loc_dead 2 Sample.lvals Sample.x_lvals []
               Sample.sel_stutter FALSE Sample.sel_progress FALSE) = Raise e.
Proof.
  apply (get_trans_index_error Sample.loc_dead 2 Sample.lvals Sample.x_lvals).
  left. reflexivity.
Defined.

(** ** Location.set_progress, progress and dsts *)

Lemma dict_get_set_same (d : list (pykey * FNode)) (k : pykey) (v : FNode) :
  dict_get pykey_eqb (dict_set pykey_eqb d k v) k = Some v.
Proof.
  assert (R : pykey_eqb k k = true) by now apply pykey_eqb_eq.
  induction d as [|[k' v'] d IH]; cbn [dict_set dict_get].
  - now rewrite R.
  - destruct (pykey_eqb k k') eqn:E; cbn [dict_get]; rewrite E; auto.
Qed.

Lemma dict_get_set_other (d : list (pykey * FNode)) (k k' : pykey) (v : FNode) :
  k' <> k ->
  dict_get pykey_eqb (dict_set pykey_eqb d k v) k' = dict_get pykey_eqb d k'.
Proof.
  intros Hne.
  assert (N : pykey_eqb k' k = false).
  { destruct (pykey_eqb k' k) eqn:E; [|reflexivity].
    apply pykey_eqb_eq in E. contradiction. }
  induction d as [|[k0 v0] d IH]; cbn [dict_set dict_get].
  - now rewrite N.
  - destruct (pykey_eqb k k0) eqn:E; cbn [dict_get].
    + apply pykey_eqb_eq in E. subst k0. now rewrite N.
    + now rewrite IH.
Qed.

(** X5: [set_progress(dst, t)] with a term [t] that is not FALSE
    stores the edge: afterwards [progress(dst)] returns [t], every
    other destination has the transition it had, and nothing else of
    the location changes; a negative [dst] raises an assertion
    error. *)
Theorem set_progress_round_trip (l : Location) (dst : Z) (t : FNode) :
  (dst < 0 -> set_progress l dst t = Raise AssertionError) /\
  (0 <= dst -> is_false t = false ->
   exists l',
     set_progress l dst t = Ok l' /\
     progress l' dst = Some t /\
     (forall d, d <> dst -> progress l' d = progress l d) /\
     region l' = region l /\ assume l' = assume l /\
     stutterT l' = stutterT l /\ rankT l' = rankT l /\ rf l' = rf l).
Proof.
  unfold set_progress. split.
  - intros H. apply Z.leb_gt in H. now rewrite H.
  - intros H Ht. apply Z.leb_le in H. rewrite H, Ht. cbn [rassert rbind].
    eexists. split; [reflexivity|]. unfold progress.
    cbn [progressT with_progressT region assume stutterT rankT rf].
    split; [apply dict_get_set_same|]. split; [|auto 10].
    intros d Hd. apply dict_get_set_other. congruence.
Qed.

(** X6: [dsts] raises an assertion error when a key of the progress
    map is not an integer; when it returns, the destinations it
    returns are exactly those for which [progress] returns a
    transition. *)
Theorem dsts_progress (l : Location) :
  (forallb is_int_key (dict_keys (progressT l)) = false ->
   dsts l = Raise AssertionError) /\
  (forall ds, dsts l = Ok ds ->
              forall d, In d ds <-> is_some (progress l d) = true).
Proof.
  unfold dsts, progress. split.
  - intros ->. reflexivity.
  - destruct (forallb is_int_key (dict_keys (progressT l))) eqn:E;
      [|discriminate].
    cbn [rassert rbind]. intros ds H d. injection H as <-. clear E.
    induction (progressT l) as [|[k v] m IH]; cbn [dict_keys map flat_map dict_get].
    + split; [intros [] | discriminate].
    + fold (dict_keys m). destruct k as [z|s]; cbn [app pykey_eqb].
      * destruct (Z.eqb d z) eqn:Ez.
        -- apply Z.eqb_eq in Ez. subst. split; [reflexivity | now left].
        -- rewrite <- IH. apply Z.eqb_neq in Ez. split.
           ++ intros [H|H]; [congruence | exact H].
           ++ intros H. now right.
      * exact IH.
Qed.

(** ** Hint.add, len and indexing *)

Lemma py_index_app_last {A : Type} (l : list A) (a : A) :
  py_index (l ++ [a]) (Z.of_nat (List.length l)) = Ok a.
Proof.
  assert (E1 : (Z.of_nat (List.length l) <? 0) = false)
    by (apply Z.ltb_ge; lia).
  assert (E2 : (Z.of_nat (List.length l + 1) <=? Z.of_nat (List.length l))
               = false) by (apply Z.leb_gt; lia).
  unfold py_index. rewrite length_app. cbn [List.length].
  rewrite !E1, E2. cbn [orb].
  rewrite Nat2Z.id, nth_error_app2 by lia.
  now rewrite Nat.sub_diag.
Qed.

Lemma py_index_app_old {A : Type} (l : list A) (a : A) (i : Z) :
  0 <= i < Z.of_nat (List.length l) ->
  py_index (l ++ [a]) i = py_index l i.
Proof.
  intros H.
  assert (E1 : (i <? 0) = false) by (apply Z.ltb_ge; lia).
  assert (E2 : (Z.of_nat (List.length l + 1) <=? i) = false)
    by (apply Z.leb_gt; lia).
  assert (E3 : (Z.of_nat (List.length l) <=? i) = false)
    by (apply Z.leb_gt; lia).
  unfold py_index. rewrite length_app. cbn [List.length].
  rewrite !E1, E2, E3. cbn [orb]. rewrite nth_error_app1 by lia.
  reflexivity.
Qed.

(** X7: on a hint that is not compiled, [add(loc)] returns, the length
    of the hint grows by one, the new location is the last one and
    the others stay where they were; an index outside [0, len) raises
    an assertion error, a negative one included. *)
Theorem add_appends (h : Hint) (loc : Location) :
  ts_loc_symbs h = None -> ts_lvals h = None ->
  exists h',
    add loc h = (h', Ok tt) /\
    Hint_len h' = Hint_len h + 1 /\
    Hint_getitem h' (Hint_len h) = Ok loc /\
    (forall i, 0 <= i < Hint_len h -> Hint_getitem h' i = Hint_getitem h i) /\
    (forall i, i < 0 \/ Hint_len h' <= i ->
               Hint_getitem h' i = Raise AssertionError).
Proof.
  intros H1 H2. exists (with_locs h (locs h ++ [loc])).
  split; [|split; [|split; [|split]]].
  - unfold add, mbind, mget, massert, mlift, mset. rewrite H1, H2. reflexivity.
  - unfold Hint_len. cbn [locs with_locs]. rewrite length_app.
    cbn [List.length]. lia.
  - unfold Hint_getitem, Hint_len. cbn [locs with_locs].
    rewrite length_app. cbn [List.length].
    replace (0 <=? Z.of_nat (List.length (locs h))) with true
      by (symmetry; apply Z.leb_le; lia).
    replace (Z.of_nat (List.length (locs h)) <?
             Z.of_nat (List.length (locs h) + 1)) with true
      by (symmetry; apply Z.ltb_lt; lia).
    cbn [rassert rbind]. apply py_index_app_last.
  - intros i Hi. unfold Hint_getitem, Hint_len in *. cbn [locs with_locs].
    rewrite length_app. cbn [List.length].
    replace (0 <=? i) with true by (symmetry; apply Z.leb_le; lia).
    replace (i <? Z.of_nat (List.length (locs h) + 1)) with true
      by (symmetry; apply Z.ltb_lt; lia).
    replace (i <? Z.of_nat (List.length (locs h))) with true
      by (symmetry; apply Z.ltb_lt; lia).
    cbn [rassert rbind]. now apply py_index_app_old.
  - intros i Hi. unfold Hint_getitem.
    destruct (0 <=? i) eqn:E; [|reflexivity]. apply Z.leb_le in E.
    replace (i <? Hint_len (with_locs h (locs h ++ [loc]))) with false
      by (symmetry; apply Z.ltb_ge; lia).
    reflexivity.
Qed.

Lemma add_appends_witness :
  exists h',
    add Sample.loc_dead Sample.hint_x = (h', Ok tt) /\
    Hint_len h' = Hint_len Sample.hint_x + 1 /\
    Hint_getitem h' (Hint_len Sample.hint_x) = Ok Sample.loc_dead /\
    (forall i, 0 <= i < Hint_len Sample.hint_x ->
               Hint_getitem h' i = Hint_getitem Sample.hint_x i) /\
    (forall i, i < 0 \/ Hint_len h' <= i ->
               Hint_getitem h' i = Raise AssertionError).
Proof.
  apply (add_appends Sample.hint_x Sample.loc_dead); reflexivity.
Defined.

(** ** Hint.disjoint_symbs *)

Section Disjoint.
Variable div_int : Z -> Z -> Z.
Variable div_real : Qc -> Qc -> Qc.

Local Notation "'bev'" := (beval div_int div_real).

Lemma beval_mgr_And (e : env) (l : list FNode) :
  bev e (mgr_And l) = forallb (bev e) l.
Proof.
  destruct l as [|a [|b l]]; cbn [mgr_And beval forallb]; auto.
  now rewrite andb_true_r.
Qed.

Local Notation "'apart'" := (apart div_int div_real).

Lemma beval_Implies (e : env) (a b : FNode) :
  bev e (Implies a b) = implb (bev e a) (bev e b).
Proof. reflexivity. Qed.

Lemma disjoint_clause_holds (e : env) (h0 : Hint) (a0 : FNode)
    (rest : list (Hint * FNode)) :
  let h_lst := map snd (filter (fun p => share_symbs h0 (fst p)) rest) in
  Forall (fun c => bev e c = true)
    (if (0 <? List.length h_lst)%nat
     then [Implies a0 (mgr_And (map mgr_Not h_lst))] else []) <->
  Forall (apart e (h0, a0)) rest.
Proof.
  cbn zeta.
  assert (K : bev e a0 = false \/
              forallb (bev e)
                (map mgr_Not
                   (map snd (filter (fun p => share_symbs h0 (fst p)) rest)))
              = true <->
              Forall (apart e (h0, a0)) rest).
  { induction rest as [|[h1 a1] rest IH].
    - cbn [filter map forallb]. split; [constructor | auto].
    - cbn [filter fst].
      destruct (share_symbs h0 h1) eqn:Es.
      + cbn [map forallb snd]. rewrite beval_mgr_Not, andb_true_iff.
        split.
        * intros H. constructor.
          -- unfold apart. cbn [fst snd]. intros _.
             destruct H as [-> | [H _]]; [reflexivity|].
             apply negb_true_iff in H. rewrite H. apply andb_false_r.
          -- apply IH. tauto.
        * intros H. inversion H as [|? ? H1 H2]; subst.
          unfold apart in H1. cbn [fst snd] in H1. specialize (H1 Es).
          apply IH in H2. apply andb_false_iff in H1.
          destruct H1 as [H1|H1]; [now left|].
          destruct H2 as [H2|H2]; [now left|]. right.
          split; [now apply negb_true_iff | exact H2].
      + rewrite IH. split.
        * intros H. constructor; [|exact H]. unfold apart. cbn [fst snd].
          congruence.
        * intros H. now inversion H. }
  rewrite <- K. clear K.
  destruct (map snd (filter (fun p => share_symbs h0 (fst p)) rest))
    as [|a l] eqn:El.
  - cbn [List.length Nat.ltb Nat.leb map forallb]. split; auto.
  - change (0 <? List.length (a :: l))%nat with true. cbn iota. split.
    + intros H. pose proof (Forall_inv H) as H1. cbn beta in H1.
      rewrite beval_Implies, beval_mgr_And in H1.
      destruct (bev e a0); [now right | now left].
    + intros H. constructor; [|constructor].
      rewrite beval_Implies, beval_mgr_And.
      destruct H as [-> | ->]; [reflexivity|].
      destruct (bev e a0); reflexivity.
Qed.

Lemma disjoint_clauses_hold (e : env) (pairs : list (Hint * FNode)) :
  Forall (fun c => bev e c = true) (disjoint_clauses pairs) <->
  ForallOrdPairs (apart e) pairs.
Proof.
  induction pairs as [|[h0 a0] rest IH]; cbn [disjoint_clauses].
  - split; constructor.
  - rewrite Forall_app, IH, (disjoint_clause_holds e h0 a0 rest). split.
    + intros [H1 H2]. now constructor.
    + intros H. inversion H; subst. auto.
Qed.

(** X8: [disjoint_symbs] raises an assertion error when the two
    lists differ in length; otherwise it returns, and the formulae it
    yields hold in a state exactly when no two hints that share
    an owned symbol have both their activation predicates true. *)
Theorem disjoint_symbs_sound (hints : list Hint) (active : list FNode) :
  (List.length hints <> List.length active ->
   disjoint_symbs hints active = ([], Raise AssertionError)) /\
  (List.length hints = List.length active ->
   outcome (disjoint_symbs hints active) = Ok tt /\
   forall e,
     Forall (fun c => bev e c = true)
       (emitted (disjoint_symbs hints active)) <->
     ForallOrdPairs (apart e) (combine hints active)).
Proof.
  unfold disjoint_symbs. rewrite gbind_assert. split.
  - intros H. apply Nat.eqb_neq in H. now rewrite H.
  - intros H. apply Nat.eqb_eq in H. rewrite H. cbn [outcome emitted fst snd].
    split; [reflexivity|]. intros e. apply disjoint_clauses_hold.
Qed.
End Disjoint.

(** ** Expr.plus *)

Lemma coef_add_keys_incl (d : list (FNode * PyNum)) (k x : FNode) (v : PyNum) :
  In x (dict_keys d) -> In x (dict_keys (coef_add d k v)).
Proof.
  unfold coef_add. rewrite dict_keys_set.
  destruct (dict_mem FNode_eqb d k); [auto|]. intros H. apply in_app_iff. auto.
Qed.

Section Plus.
Variable div_int : Z -> Z -> Z.
Variable div_real : Qc -> Qc -> Qc.

Local Notation "'csem'" := (coef_sem div_int div_real).
Local Open Scope Qc_scope.

Lemma plus_fold (items : list (FNode * PyNum)) :
  forall d,
    let r := fold_left (fun d kv => coef_add d (fst kv) (snd kv)) items d in
    (forall e, csem e r = csem e d + csem e items) /\
    (NoDup (dict_keys d) -> NoDup (dict_keys r)) /\
    (forall k, In k (dict_keys d) -> In k (dict_keys r)).
Proof.
  induction items as [|[k v] items IH]; intros d; cbn [fold_left fst snd].
  - split; [|auto]. intros e. change (csem e []) with 0. ring.
  - destruct (IH (coef_add d k v)) as (S & N & K). split; [|split].
    + intros e. rewrite S, coef_add_sem, coef_sem_cons. ring.
    + intros H. apply N. now apply coef_add_NoDup.
    + intros x Hx. apply K. now apply coef_add_keys_incl.
Qed.

(** X9: [e.plus(x)] raises an assertion error when the types of the
    two expressions differ; otherwise it returns an expression of
    the type of [e] whose value is the sum of the two values. It
    never removes a key, also when a coefficient becomes zero, and
    it keeps the keys distinct. The coefficient map of [e] is the
    [defaultdict] its constructor makes, where a missing key reads
    as 0. *)
Theorem plus_value (e x : Expr) :
  (expr_type x <> expr_type e -> plus e x = Raise AssertionError) /\
  (expr_type x = expr_type e ->
   exists r,
     plus e x = Ok r /\
     expr_type r = expr_type e /\
     (forall env, csem env (symb2coef r) =
                  csem env (symb2coef e) + csem env (symb2coef x)) /\
     (forall k, In k (dict_keys (symb2coef e)) ->
                In k (dict_keys (symb2coef r))) /\
     (NoDup (dict_keys (symb2coef e)) -> NoDup (dict_keys (symb2coef r)))).
Proof.
  unfold plus. split.
  - intros H. destruct (PySMTType_eqb (expr_type x) (expr_type e)) eqn:E;
      [|reflexivity]. apply PySMTType_eqb_eq in E. contradiction.
  - intros H. rewrite (proj2 (PySMTType_eqb_eq _ _) H). cbn [rassert rbind].
    eexists. split; [reflexivity|]. cbn [expr_type symb2coef].
    destruct (plus_fold (symb2coef x) (symb2coef e)) as (S & N & K).
    auto.
Qed.
End Plus.

(** ** Expr.times *)

Section Times.
Variable div_int : Z -> Z -> Z.
Variable div_real : Qc -> Qc -> Qc.
Variable fnode_key : FNode -> Z.

Local Notation "'csem'" := (coef_sem div_int div_real).
Local Open Scope Qc_scope.

Lemma times_key_ok (ty : PySMTType) (k0 k1 : FNode) :
  key_ok ty k0 = true -> exists s, times_key fnode_key k0 k1 = Ok s.
Proof.
  intros Hk. unfold times_key. apply mgr_Times_ok. intros N.
  match type of N with sorted _ ?l = [] =>
    pose proof (sorted_perm fnode_key l) as P end.
  rewrite N in P. apply Permutation_nil in P.
  assert (Q : (if is_times k0 then node_args k0 else [k0]) <> []).
  { destruct k0; try discriminate. cbn [is_times node_args].
    intros ->. unfold key_ok in Hk.
    cbn [is_symbol is_product is_div orb] in Hk.
    rewrite orb_false_r in Hk. destruct ty; discriminate. }
  destruct (if is_times k0 then node_args k0 else [k0]) as [|a l];
    [congruence|].
  destruct (is_times k1); [discriminate|].
  destruct (negb (node_is_one k1)); discriminate.
Qed.

Lemma times_cross_ok (ty : PySMTType) (d0 d1 : list (FNode * PyNum)) :
  Forall (fun kv => key_ok ty (fst kv) = true) d0 ->
  exists d, times_cross fnode_key d0 d1 = Ok d.
Proof.
  intros Hk. unfold times_cross. generalize (@nil (FNode * PyNum)).
  induction Hk as [|[k0 v0] d0 Hk0 _ IH]; intros da; cbn [fold_left].
  - eauto.
  - assert (I : forall da,
               exists db,
                 fold_left
                   (fun acc kv1 =>
                      rbind acc (fun d =>
                      rbind (times_key fnode_key (fst (k0, v0)) (fst kv1))
                        (fun symbs =>
                      Ok (coef_add d symbs
                            (num_mul (snd (k0, v0)) (snd kv1))))))
                   d1 (Ok da) = Ok db).
    { clear IH. induction d1 as [|[k1 v1] d1 IH1]; intros dx;
        cbn [fold_left rbind fst snd]; [eauto|].
      destruct (times_key_ok ty k0 k1 Hk0) as (s & ->). cbn [rbind].
      apply IH1. }
    destruct (I da) as (db & ->). apply IH.
Qed.

(** X10: for an expression [x] with well-formed keys and an
    expression [c] of the same type, [x.times(c)] returns an
    expression of that type whose value is the product of the two
    values. A zero [x] is returned as it is; the product of a
    non-zero [x] by a zero [c] is the empty map. *)
Theorem times_value (ty : PySMTType) (x c : Expr) :
  expr_type x = ty -> expr_type c = ty ->
  Forall (fun kv => key_ok ty (fst kv) = true) (symb2coef x) ->
  exists x',
    times fnode_key x [c] = Ok x' /\
    expr_type x' = ty /\
    (forall e, csem e (symb2coef x') =
               csem e (symb2coef x) * csem e (symb2coef c)) /\
    (is_zero x = true -> x' = x) /\
    (is_zero x = false -> is_zero c = true -> symb2coef x' = []).
Proof.
  intros Tx Tc Hk.
  assert (R : exists x', times fnode_key x [c] = Ok x' /\
                         expr_type x' = ty /\
                         (is_zero x = true -> x' = x) /\
                         (is_zero x = false -> is_zero c = true ->
                          symb2coef x' = [])).
  { unfold times. destruct (is_zero x) eqn:Zx.
    { exists x. repeat split; auto. discriminate. }
    cbn [times_loop]. rewrite Tx, Tc.
    rewrite (proj2 (PySMTType_eqb_eq ty ty) eq_refl), orb_true_r.
    cbn [rassert rbind]. destruct (is_zero c) eqn:Zc.
    { eexists. split; [reflexivity|]. repeat split; auto. discriminate. }
    destruct (is_one c); cbn [negb].
    { exists x. repeat split; auto; discriminate. }
    assert (G : PySMTType_eqb ty INT && PySMTType_eqb ty REAL = false)
      by (destruct ty; reflexivity).
    rewrite G. cbn [rbind].
    destruct (times_cross_ok ty (symb2coef x) (symb2coef c) Hk) as (d & ->).
    cbn [rbind]. eexists. split; [reflexivity|].
    repeat split; auto; discriminate. }
  destruct R as (x' & E & T & Z1 & Z2). exists x'.
  split; [exact E|]. split; [exact T|]. split; [|auto].
  intros e. apply (times_sem div_int div_real fnode_key e x c x');
    [congruence | exact E].
Qed.
End Times.

Lemma times_value_witness :
  exists x',
    times SampleTerm.key SampleExpr.one_plus_x [SampleExpr.minus_x] = Ok x' /\
    expr_type x' = INT /\
    (forall e, coef_sem Z.div Qcdiv e (symb2coef x') =
               (coef_sem Z.div Qcdiv e (symb2coef SampleExpr.one_plus_x) *
                coef_sem Z.div Qcdiv e (symb2coef SampleExpr.minus_x))%Qc) /\
    (is_zero SampleExpr.one_plus_x = true -> x' = SampleExpr.one_plus_x) /\
    (is_zero SampleExpr.one_plus_x = false ->
     is_zero SampleExpr.minus_x = true -> symb2coef x' = []).
Proof.
  apply (times_value Z.div Qcdiv SampleTerm.key INT SampleExpr.one_plus_x
           SampleExpr.minus_x).
  - reflexivity.
  - reflexivity.
  - repeat constructor.
Defined.

(** ** Expr.clone *)

Section CloneValue.
Variable div_int : Z -> Z -> Z.
Variable div_real : Qc -> Qc -> Qc.

Local Notation "'csem'" := (coef_sem div_int div_real).
Local Open Scope Qc_scope.

Lemma filter_nonzero_sem (e : env) (d : list (FNode * PyNum)) :
  csem e (filter (fun kv => negb (num_eqb (snd kv) (PInt 0))) d) = csem e d.
Proof.
  induction d as [|[k v] d IH]; [reflexivity|]. cbn [filter snd].
  destruct (num_eqb v (PInt 0)) eqn:E; cbn [negb].
  - rewrite coef_sem_cons, IH. apply num_eqb_eq in E. rewrite E.
    cbn [num_val]. rewrite Z2Qc_0. ring.
  - rewrite !coef_sem_cons, IH. reflexivity.
Qed.

Lemma filter_nonzero_get (d : list (FNode * PyNum)) (k : FNode) :
  NoDup (dict_keys d) ->
  num_val (coef_get (filter (fun kv => negb (num_eqb (snd kv) (PInt 0))) d) k)
  = num_val (coef_get d k).
Proof.
  induction d as [|[k' v'] d IH]; [reflexivity|].
  cbn [dict_keys map fst]. intros H. inversion H as [|? ? Hn Hd]; subst.
  cbn [filter snd]. rewrite coef_get_cons.
  destruct (num_eqb v' (PInt 0)) eqn:E; cbn [negb].
  - rewrite (IH Hd). destruct (FNode_eqb k k') eqn:Ek; [|reflexivity].
    apply FNode_eqb_eq in Ek. subst k'.
    apply num_eqb_eq in E. rewrite E. unfold coef_get.
    destruct (dict_get FNode_eqb d k) eqn:G; [|reflexivity].
    exfalso. apply Hn. apply dict_mem_In. unfold dict_mem. now rewrite G.
  - rewrite coef_get_cons. destruct (FNode_eqb k k'); [reflexivity|].
    exact (IH Hd).
Qed.

(** X11: [clone()] of an expression of arithmetic type returns an
    expression of the same type and the same value in which no
    coefficient is zero; with distinct keys, every key has in the
    clone the coefficient it has in the expression, and the keys of
    the clone are distinct. *)
Theorem clone_value (x : Expr) :
  is_arith (expr_type x) = true ->
  exists r,
    clone x = Ok r /\
    expr_type r = expr_type x /\
    (forall e, csem e (symb2coef r) = csem e (symb2coef x)) /\
    Forall (fun kv => num_eqb (snd kv) (PInt 0) = false) (symb2coef r) /\
    (NoDup (dict_keys (symb2coef x)) ->
     NoDup (dict_keys (symb2coef r)) /\
     forall k, num_val (coef_get (symb2coef r) k) =
               num_val (coef_get (symb2coef x) k)).
Proof.
  intros Ha. unfold clone. rewrite Ha. cbn [rassert rbind].
  eexists. split; [reflexivity|]. cbn [expr_type symb2coef].
  split; [reflexivity|].
  split; [intros e; apply filter_nonzero_sem|]. split.
  - apply Forall_forall. intros kv H. apply filter_In in H.
    destruct H as [_ H]. now apply negb_true_iff in H.
  - intros Hn. split; [|intros k; now apply filter_nonzero_get].
    unfold dict_keys in *. clear Ha.
    induction (symb2coef x) as [|[k v] d IH]; [constructor|].
    cbn [map fst] in Hn. inversion Hn as [|? ? H1 H2]; subst.
    cbn [filter snd]. destruct (negb _); cbn [map fst]; [|auto].
    constructor; [|auto]. intros K. apply H1.
    apply in_map_iff in K. destruct K as (kv & E & K).
    apply filter_In in K. apply in_map_iff. exists kv. tauto.
Qed.

End CloneValue.

Section CloneWith.
Variable div_int : Z -> Z -> Z.
Variable div_real : Qc -> Qc -> Qc.
Variable fnode_key : FNode -> Z.
Variable td : FNode -> FNode.

(** X12: [clone(f)] with a function never copies a term: each term
    is multiplied into the new expression, which is zero, and
    [times] returns a zero expression as it is. Whenever [clone(f)]
    returns, it returns the empty expression. *)
Theorem clone_with_empty (f_key : FNode -> FNode) (f_coef : PyNum -> FNode)
    (fuel : nat) (x r : Expr) :
  clone_with div_int div_real fnode_key td f_key f_coef fuel x = Ok r ->
  r = mkExpr (expr_type x) [].
Proof.
  unfold clone_with. destruct (rassert _); [|discriminate]. cbn [rbind].
  generalize (symb2coef x). intros items.
  induction items as [|[k v] items IH]; cbn [clone_loop].
  - intros E. now injection E.
  - destruct (negb (num_eqb v (PInt 0))); [|exact IH].
    unfold times_fnode at 1. destruct (rassert _); [|discriminate].
    cbn [rbind]. destruct (negb (node_is_one _)); [|exact IH].
    destruct (Expr_init _ _ _ _ _ _ _ _ _) as [c|]; [|discriminate].
    cbn [rbind]. unfold times at 1.
    change (is_zero (mkExpr (expr_type x) [])) with true. cbn iota.
    cbn [rbind]. exact IH.
Qed.
End CloneWith.

Lemma clone_value_witness :
  exists r,
    clone SampleExpr.one_with_zero = Ok r /\
    expr_type r = expr_type SampleExpr.one_with_zero /\
    (forall e, coef_sem Z.div Qcdiv e (symb2coef r) =
               coef_sem Z.div Qcdiv e (symb2coef SampleExpr.one_with_zero)) /\
    Forall (fun kv => num_eqb (snd kv) (PInt 0) = false) (symb2coef r) /\
    (NoDup (dict_keys (symb2coef SampleExpr.one_with_zero)) ->
     NoDup (dict_keys (symb2coef r)) /\
     forall k, num_val (coef_get (symb2coef r) k) =
               num_val (coef_get (symb2coef SampleExpr.one_with_zero) k)).
Proof.
  apply (clone_value Z.div Qcdiv SampleExpr.one_with_zero). reflexivity.
Defined.

Lemma clone_with_empty_witness :
  mkExpr INT [] = mkExpr (expr_type SampleExpr.one_plus_x) [].
Proof.
  apply (clone_with_empty Z.div Qcdiv SampleTerm.key td_model
           (fun k => k) (fun v => IntC (Qfloor (num_val v))) 50
           SampleExpr.one_plus_x (mkExpr INT [])).
  vm_compute. reflexivity.
Defined.

(** The clone of 1 with a zero entry is one for [is_one]; a clone with
    the identity function is empty. *)
Example clone_samples :
  rbind (clone SampleExpr.one_with_zero) (fun r => Ok (is_one r)) = Ok true /\
  is_one SampleExpr.one_with_zero = false /\
  clone_with Z.div Qcdiv SampleTerm.key td_model
    (fun k => k) (fun v => IntC (Qfloor (num_val v))) 50
    SampleExpr.one_plus_x = Ok (mkExpr INT []).
Proof. vm_compute. repeat split. Qed.

(** ** eq2assign on integers *)

Lemma Z2Qc_inj (a b : Z) : Z2Qc a = Z2Qc b -> a = b.
Proof.
  intros H. apply inject_Z_injective.
  assert (K : forall z, (this (Z2Qc z) == inject_Z z)%Q).
  { intros z. unfold Z2Qc, Q2Qc. cbn [this]. apply Qred_correct. }
  rewrite <- (K a), <- (K b), H. reflexivity.
Qed.

(** An integer coefficient whose opposite inverse is an integer is 1
    or -1. *)
Lemma inverse_coef_int (z : Z) :
  num_eqb (PInt z) (PInt 0) = false ->
  is_pyint (inverse_coef (PInt z)) = true ->
  z = 1 \/ z = -1.
Proof.
  intros Hz. unfold inverse_coef.
  destruct (num_eqb (PInt z) (PInt (-1))) eqn:E1.
  { apply num_eqb_eq in E1. cbn [num_val] in E1. apply Z2Qc_inj in E1. auto. }
  destruct (num_eqb (PInt z) (PInt 1)) eqn:E2.
  { apply num_eqb_eq in E2. cbn [num_val] in E2. apply Z2Qc_inj in E2. auto. }
  cbn [orb].
  set (frac_coef := PFrac (Z2Qc (-1) / num_val (PInt z))).
  destruct (num_eqb (PInt (py_round (num_val frac_coef))) frac_coef) eqn:E3;
    [|discriminate].
  intros _. apply num_eqb_eq in E3. unfold frac_coef in E3.
  cbn [num_val] in E3. set (n := py_round _) in E3.
  apply num_eqb_zero_false in Hz. cbn [num_val] in Hz.
  assert (K : Z2Qc (n * z) = Z2Qc (-1)).
  { rewrite Z2Qc_mul, E3. field. exact Hz. }
  apply Z2Qc_inj in K. apply (Z.mul_eq_1 z (- n)). lia.
Qed.

Section AssignInt.
Variable div_int : Z -> Z -> Z.
Variable div_real : Qc -> Qc -> Qc.
Variable fnode_key : FNode -> Z.
Variable td : FNode -> FNode.

Local Notation "'new_Expr'" := (Expr_init div_int div_real fnode_key td).
Local Notation "'assign'" := (eq2assign div_int div_real fnode_key td).

(** X13: division is not introduced into integer arithmetic: for an
    equality of two integer terms, whenever [eq2assign] returns an
    assignment [(symbol, expr, is_next)], the coefficient of the
    symbol in the normalised difference of the two sides is 1 or
    -1. *)
Theorem eq2assign_integer_unit (fuel : nat) (arg0 arg1 s r : FNode)
    (nx : bool) :
  td_contract div_int div_real td ->
  arith arg0 = true -> arith arg1 = true ->
  get_type arg0 = Some INT -> get_type arg1 = Some INT ->
  assign fuel (Equals arg0 arg1) = Ok (Some s, Some r, Some nx) ->
  exists x,
    new_Expr fuel INT (Some (Minus arg0 arg1)) None None = Ok x /\
    (coef_get (symb2coef x) s = PInt 1 \/
     coef_get (symb2coef x) s = PInt (-1)).
Proof.
  intros Htd Ha0 Ha1 Hty0 Hty1.
  assert (Ham : arith (Minus arg0 arg1) = true).
  { cbn [arith]. now rewrite Ha0, Ha1. }
  assert (Htm : get_type (Minus arg0 arg1) = Some INT).
  { apply (get_type_binary arg0 arg1 INT). auto. }
  unfold eq2assign. cbn [is_true]. rewrite Hty0. cbn [rbind].
  destruct (new_Expr fuel INT _ _ _) as [x|] eqn:Ex; [|discriminate].
  cbn [rbind].
  destruct (Expr_init_formula _ _ _ _ _ _ _ _ Htd Ham Htm Ex)
    as (Tx & Hok & Sx).
  destruct (is_zero x); [discriminate|].
  pose proof (scan_picked INT (symb2coef x)
                (sorted fnode_key (dict_keys (symb2coef x)))
                (None, None, false) I) as Hp.
  destruct (scan INT (symb2coef x) _ _) as [[[s'|] [c|]] nx'];
    try discriminate.
  cbn [picked] in Hp. destruct Hp as (Hs & Hc & Hnz).
  change (PySMTType_eqb INT INT) with true. cbn [andb].
  destruct (negb (is_pyint (inverse_coef c))) eqn:G; [discriminate|].
  apply negb_false_iff in G.
  destruct (new_Expr fuel INT None None _) as [ce|]; [|discriminate].
  cbn [rbind]. destruct (times fnode_key _ _) as [x'|]; [|discriminate].
  cbn [rbind]. destruct (pysmt_expr fnode_key x') as [res|]; [|discriminate].
  cbn [rbind]. destruct (rassert _); [|discriminate]. cbn [rbind].
  intros E. injection E as <- _ _. exists x. split; [reflexivity|].
  assert (Hint : is_pyint c = true).
  { rewrite Hc. apply coef_get_pyint. apply Hok. reflexivity. }
  rewrite <- Hc. destruct c as [z|q]; [|discriminate].
  destruct (inverse_coef_int z Hnz G) as [-> | ->]; auto.
Qed.
End AssignInt.

Lemma eq2assign_integer_unit_witness :
  exists x,
    Expr_init Z.div Qcdiv SampleTerm.key td_model 50 INT
      (Some (Minus SampleTerm.x_next (Plus [Sample.x; IntC 1]))) None None =
    Ok x /\
    (coef_get (symb2coef x) SampleTerm.x_next = PInt 1 \/
     coef_get (symb2coef x) SampleTerm.x_next = PInt (-1)).
Proof.
  apply (eq2assign_integer_unit Z.div Qcdiv SampleTerm.key td_model 50
           SampleTerm.x_next (Plus [Sample.x; IntC 1]) SampleTerm.x_next
           (Plus [IntC 1; Sample.x]) true
           (td_model_contract Z.div Qcdiv) eq_refl eq_refl eq_refl eq_refl).
  vm_compute. reflexivity.
Defined.

(** 2 * x = 1 over the integers has no assignment. *)
Example eq2assign_no_division :
  eq2assign Z.div Qcdiv SampleTerm.key td_model 50
    (Equals (Times [IntC 2; Sample.x]) (IntC 1)) = Ok (None, None, None).
Proof. vm_compute. reflexivity. Qed.

(** ** Ineq on an inequality *)

Lemma Qc_leb_spec (a b : Qc) : Qc_leb a b = true <-> (this a <= this b)%Q.
Proof. unfold Qc_leb. apply Qle_bool_iff. Qed.

Lemma this_eq (a b : Qc) : a = b -> (this a == this b)%Q.
Proof. intros ->. reflexivity. Qed.

(** Moving the constant side of a difference across an order. *)
Lemma order_equiv (l r ru a0 a1 : Qc) :
  (l + r = a0 - a1)%Qc -> ru = (- r)%Qc ->
  Qc_leb l ru = Qc_leb a0 a1 /\ Qc_ltb l ru = Qc_ltb a0 a1 /\
  Qc_eqb l ru = Qc_eqb a0 a1.
Proof.
  intros H ->. apply this_eq in H.
  unfold Qcminus in H. rewrite !this_plus, this_opp in H.
  pose proof (this_opp r) as O.
  repeat split; apply Bool.eq_iff_eq_true;
    rewrite ?Qc_leb_spec, ?Qc_ltb_spec, ?Qc_eqb_spec; split; intros K; lra.
Qed.

Section IneqTermRel.
Variable div_int : Z -> Z -> Z.
Variable div_real : Qc -> Qc -> Qc.
Variable fnode_key : FNode -> Z.

Local Notation "'aev'" := (aeval div_int div_real).
Local Notation "'bev'" := (beval div_int div_real).
Local Notation "'csem'" := (coef_sem div_int div_real).
Local Notation "'lsem'" := (lhs_sem div_int div_real).
Local Open Scope Qc_scope.

(** The term of an [Ineq] holds exactly where the [Ineq] does. *)
Lemma pysmt_ineq_sound_rel (i : Ineq) (f : FNode) :
  Forall (fun kv => NoDup (dict_keys (symb2coef (snd kv)))) (_lhs i) ->
  NoDup (dict_keys (symb2coef (_rhs i))) ->
  pysmt_ineq fnode_key i = Ok f ->
  forall e, bev e f = ineq_holds div_int div_real e i.
Proof.
  intros Hl Hr H e. unfold pysmt_ineq in H.
  destruct (rmap _ _) as [terms|] eqn:Et; [|discriminate].
  cbn [rbind] in H.
  pose proof (lhs_terms_sem div_int div_real fnode_key e _ _ Hl Et) as St.
  pose proof (sorted_perm fnode_key terms) as P.
  rewrite <- (sum_of_perm _ _ e _ _ P) in St.
  destruct (match sorted fnode_key terms with
            | [] => Ok (number_Z (expr_type (_rhs i)) 0)
            | _ :: _ => mgr_Plus (sorted fnode_key terms)
            end) as [expr|] eqn:Ee; [|discriminate].
  cbn [rbind] in H.
  assert (Se : aev e expr = lsem e (_lhs i)).
  { rewrite <- St. destruct (sorted fnode_key terms) as [|t0 ts].
    - injection Ee as <-. rewrite aeval_number_Z', Z2Qc_0. reflexivity.
    - apply (aeval_mgr_Plus _ _ e _ _ Ee). }
  destruct (pysmt_expr fnode_key (_rhs i)) as [r|] eqn:Er; [|discriminate].
  cbn [rbind] in H.
  pose proof (pysmt_expr_sound div_int div_real fnode_key _ _ Hr Er e) as Sr.
  unfold ineq_holds, rel_of.
  destruct (Z.eqb (_type i) Ineq_EQ).
  { injection H as <-. cbn [beval]. now rewrite Se, Sr. }
  destruct (Z.eqb (_type i) Ineq_LE).
  { injection H as <-. cbn [beval]. now rewrite Se, Sr. }
  destruct (rassert _); [|discriminate]. cbn [rbind] in H.
  injection H as <-. cbn [beval]. now rewrite Se, Sr.
Qed.
End IneqTermRel.

Section Inequality.
Variable div_int : Z -> Z -> Z.
Variable div_real : Qc -> Qc -> Qc.
Variable fnode_key : FNode -> Z.
Variable td : FNode -> FNode.
Variable params : list FNode.

Local Notation "'aev'" := (aeval div_int div_real).
Local Notation "'bev'" := (beval div_int div_real).
Local Notation "'new_Ineq'" :=
  (Ineq_init div_int div_real fnode_key td params).
Local Open Scope Qc_scope.

(** X14: for an inequality [arg0 <= arg1] or [arg0 < arg1] of two
    arithmetic terms of one type without a division of constants by
    zero, and any set of parameters, with the distributor under its
    contract and bringing in no such division, [Ineq(...)] returns
    from some amount of fuel on. The [Ineq] has the relation of the term, it
    holds in exactly the states where the term does, and so does
    every term that [pysmt_ineq] makes of it. *)
Theorem Ineq_init_inequality (ty : PySMTType) (arg0 arg1 ineq : FNode) :
  ineq = LE arg0 arg1 \/ ineq = LT arg0 arg1 ->
  td_contract div_int div_real td ->
  td_safe div_int div_real td ->
  arith arg0 = true -> arith arg1 = true ->
  get_type arg0 = Some ty -> get_type arg1 = Some ty ->
  div_safe div_int div_real arg0 = true ->
  div_safe div_int div_real arg1 = true ->
  exists fuel0 i,
    (forall fuel, (fuel0 <= fuel)%nat -> new_Ineq fuel ineq = Ok i) /\
    _type i = term_rel ineq /\
    ineq_params i = params /\
    (forall e, ineq_holds div_int div_real e i = bev e ineq) /\
    (forall f, pysmt_ineq fnode_key i = Ok f ->
               forall e, bev e f = bev e ineq).
Proof.
  intros Hop Htd Hsafe Ha0 Ha1 Ht0 Ht1 Hs0 Hs1.
  assert (Hat : is_arith ty = true) by (apply (arith_type arg0); assumption).
  destruct (parse_sides_ok div_int div_real fnode_key td params ty Hat Htd
              Hsafe arg0 arg1 Ha0 Ha1 Ht0 Ht1 Hs0 Hs1)
    as (fuel0 & lhs0 & rhs0 & Hl & Hr & S & L).
  destruct (times_neg div_int div_real fnode_key ty rhs0 (PInt (-1)) Hr)
    as (rhs_u & Et & Tu & Nu & Su & _).
  { cbn [num_val]. apply Z2Qc_m1. }
  exists fuel0, (mkIneq params (term_rel ineq) lhs0 rhs_u).
  assert (Hparse : forall fuel, (fuel0 <= fuel)%nat ->
             _parse div_int div_real fnode_key td params fuel ineq =
             Ok (lhs0, rhs_u)).
  { intros fuel Hf.
    destruct Hop as [-> | ->]; unfold _parse; rewrite Ht0; cbn [rbind];
      rewrite Hat; cbn [rassert rbind];
      rewrite (m_one_expr_value div_int div_real fnode_key td ty Hat);
      cbn [rbind]; rewrite (L fuel Hf); cbn [rbind is_equals];
      rewrite Et; reflexivity. }
  assert (Hholds : forall e,
             ineq_holds div_int div_real e
               (mkIneq params (term_rel ineq) lhs0 rhs_u) = bev e ineq).
  { intros e. unfold ineq_holds. cbn [_type _lhs _rhs].
    destruct (order_equiv _ _ _ _ _ (S e) (Su e)) as (Ole & Olt & _).
    destruct Hop as [-> | ->]; cbn [beval]; [exact Ole | exact Olt]. }
  split; [|split; [reflexivity|split; [reflexivity|split; [exact Hholds|]]]].
  - intros fuel Hf. unfold Ineq_init. rewrite (Hparse fuel Hf).
    destruct Hop as [-> | ->]; reflexivity.
  - intros f Hf e. rewrite <- Hholds.
    apply (pysmt_ineq_sound_rel div_int div_real fnode_key _ f); auto.
    cbn [_lhs]. apply (lhs_ok_NoDup ty). exact Hl.
Qed.
End Inequality.

(** The parsed form of x - 2*x*y <= y + 3 with the parameter y. *)
Lemma Ineq_init_inequality_witness :
  exists fuel0 i,
    (forall fuel, (fuel0 <= fuel)%nat ->
       Ineq_init Z.div Qcdiv SampleTerm.key td_model [SampleTerm.y] fuel
         SampleTerm.le1 = Ok i) /\
    _type i = term_rel SampleTerm.le1 /\
    ineq_params i = [SampleTerm.y] /\
    (forall e, ineq_holds Z.div Qcdiv e i =
               beval Z.div Qcdiv e SampleTerm.le1) /\
    (forall f, pysmt_ineq SampleTerm.key i = Ok f ->
               forall e, beval Z.div Qcdiv e f =
                         beval Z.div Qcdiv e SampleTerm.le1).
Proof.
  apply (Ineq_init_inequality Z.div Qcdiv SampleTerm.key td_model
           [SampleTerm.y] INT
           (Plus [Sample.x; Times [IntC (-2); SampleTerm.y; Sample.x]])
           (Plus [IntC 3; SampleTerm.y])).
  - left. reflexivity.
  - apply td_model_contract.
  - apply td_model_safe.
  - reflexivity.
  - reflexivity.
  - reflexivity.
  - reflexivity.
  - reflexivity.
  - reflexivity.
Defined.

Example Ineq_init_sample :
  rbind (Ineq_init Z.div Qcdiv SampleTerm.key td_model [SampleTerm.y] 50
           SampleTerm.le1) (pysmt_ineq SampleTerm.key) =
  Ok (LE (Times [Sample.x;
                 Plus [Times [SampleTerm.y; IntC (-2)]; IntC 1]])
        (Plus [SampleTerm.y; IntC 3])).
Proof. vm_compute. reflexivity. Qed.

(** ** Expr.get_real *)

Lemma dict_set_fresh {V : Type} (d : list (FNode * V)) (k : FNode) (v : V) :
  ~ In k (dict_keys d) -> dict_set FNode_eqb d k v = d ++ [(k, v)].
Proof.
  induction d as [|[k' v'] d IH]; cbn [dict_set dict_keys map fst app];
    intros H; [reflexivity|].
  destruct (FNode_eqb k k') eqn:E.
  - apply FNode_eqb_eq in E. subst. exfalso. apply H. now left.
  - rewrite IH; [reflexivity|]. intros K. apply H. now right.
Qed.

(** The key of the real expression for a key of an integer one. *)
Lemma real_key_inj (k1 k2 : FNode) :
  (if FNode_eqb k1 (IntC 1) then RealC (Z2Qc 1) else ToReal k1) =
  (if FNode_eqb k2 (IntC 1) then RealC (Z2Qc 1) else ToReal k2) ->
  k1 = k2.
Proof.
  destruct (FNode_eqb k1 (IntC 1)) eqn:E1, (FNode_eqb k2 (IntC 1)) eqn:E2;
    intros H; try discriminate.
  - apply FNode_eqb_eq in E1, E2. congruence.
  - now injection H.
Qed.

Section GetReal.
Variable div_int : Z -> Z -> Z.
Variable div_real : Qc -> Qc -> Qc.

Local Notation "'aev'" := (aeval div_int div_real).
Local Notation "'csem'" := (coef_sem div_int div_real).
Local Open Scope Qc_scope.

Lemma coef_sem_app (e : env) (d1 d2 : list (FNode * PyNum)) :
  csem e (d1 ++ d2) = csem e d1 + csem e d2.
Proof.
  induction d1 as [|[k v] d1 IH]; cbn [app].
  - change (csem e []) with 0. ring.
  - rewrite !coef_sem_cons, IH. ring.
Qed.

Lemma real_key_sem (e : env) (k : FNode) :
  aev e (if FNode_eqb k (IntC 1) then RealC (Z2Qc 1) else ToReal k) =
  aev e k.
Proof.
  destruct (FNode_eqb k (IntC 1)) eqn:E; [|reflexivity].
  apply FNode_eqb_eq in E. subst. reflexivity.
Qed.

Lemma get_real_fold (items : list (FNode * PyNum)) :
  forall acc,
    NoDup (dict_keys items) ->
    (forall k, In k (dict_keys items) ->
               ~ In (if FNode_eqb k (IntC 1) then RealC (Z2Qc 1)
                     else ToReal k) (dict_keys acc)) ->
    NoDup (dict_keys acc) ->
    Forall (fun kv => num_eqb (snd kv) (PInt 0) = false) acc ->
    let r := fold_left
               (fun d kv =>
                  if num_eqb (snd kv) (PInt 0) then d
                  else dict_set FNode_eqb d
                         (if FNode_eqb (fst kv) (IntC 1) then RealC (Z2Qc 1)
                          else ToReal (fst kv))
                         (snd kv))
               items acc in
    (forall e, csem e r = csem e acc + csem e items) /\
    NoDup (dict_keys r) /\
    Forall (fun kv => num_eqb (snd kv) (PInt 0) = false) r.
Proof.
  induction items as [|[k v] items IH]; intros acc Hn Hf Ha Hz;
    cbn [fold_left fst snd].
  - split; [|auto]. intros e. change (csem e []) with 0. ring.
  - cbn [dict_keys map fst] in Hn, Hf.
    inversion Hn as [|? ? Hk Hn']; subst.
    destruct (num_eqb v (PInt 0)) eqn:Ev.
    + assert (Hf' : forall k0, In k0 (dict_keys items) ->
                 ~ In (if FNode_eqb k0 (IntC 1) then RealC (Z2Qc 1)
                       else ToReal k0) (dict_keys acc)).
      { intros k0 H0. apply Hf. now right. }
      destruct (IH acc Hn' Hf' Ha Hz) as (S & N & Z).
      split; [|auto]. intros e. rewrite S, coef_sem_cons.
      apply num_eqb_eq in Ev. rewrite Ev. cbn [num_val].
      rewrite Z2Qc_0. ring.
    + set (k' := if FNode_eqb k (IntC 1) then RealC (Z2Qc 1) else ToReal k).
      assert (Fk : ~ In k' (dict_keys acc)) by (apply Hf; now left).
      rewrite (dict_set_fresh acc k' v Fk).
      assert (Hf' : forall k2, In k2 (dict_keys items) ->
                 ~ In (if FNode_eqb k2 (IntC 1) then RealC (Z2Qc 1)
                       else ToReal k2) (dict_keys (acc ++ [(k', v)]))).
      { intros k2 H2 K. unfold dict_keys in K. rewrite map_app in K.
        apply in_app_iff in K. destruct K as [K | [K | []]].
        - apply (Hf k2); [now right | exact K].
        - cbn [fst] in K. unfold k' in K. apply real_key_inj in K.
          subst k2. contradiction. }
      assert (Ha' : NoDup (dict_keys (acc ++ [(k', v)]))).
      { unfold dict_keys. rewrite map_app. apply NoDup_app; auto.
        - repeat constructor. intros [].
        - intros x Hx [<- | []]. contradiction. }
      assert (Hz' : Forall (fun kv => num_eqb (snd kv) (PInt 0) = false)
                      (acc ++ [(k', v)])).
      { apply Forall_app. split; [exact Hz|]. repeat constructor. exact Ev. }
      destruct (IH (acc ++ [(k', v)]) Hn' Hf' Ha' Hz') as (S & N & Z).
      split; [|auto]. intros e.
      rewrite S, coef_sem_app, !coef_sem_cons. unfold k'.
      rewrite real_key_sem. change (csem e []) with 0. ring.
Qed.

(** X15: [get_real] raises an assertion error on an expression that
    is not of integer type. On an integer expression with distinct
    keys it returns a real expression of the same value, with
    distinct keys and without any zero coefficient. *)
Theorem get_real_value (x : Expr) :
  (expr_type x <> INT -> get_real x = Raise AssertionError) /\
  (expr_type x = INT -> NoDup (dict_keys (symb2coef x)) ->
   exists r,
     get_real x = Ok r /\
     expr_type r = REAL /\
     (forall e, csem e (symb2coef r) = csem e (symb2coef x)) /\
     NoDup (dict_keys (symb2coef r)) /\
     Forall (fun kv => num_eqb (snd kv) (PInt 0) = false) (symb2coef r)).
Proof.
  unfold get_real. split.
  - intros H. destruct (PySMTType_eqb (expr_type x) INT) eqn:E;
      [|reflexivity]. apply PySMTType_eqb_eq in E. contradiction.
  - intros H Hn. rewrite H. cbn [PySMTType_eqb rassert rbind number_Z].
    eexists. split; [reflexivity|]. cbn [expr_type symb2coef].
    split; [reflexivity|].
    destruct (get_real_fold (symb2coef x) [] Hn) as (S & N & Z).
    + intros k _ [].
    + constructor.
    + constructor.
    + split; [|auto]. intros e. rewrite S. change (csem e []) with 0. ring.
Qed.
End GetReal.

(** ** Ineq.to_real *)

Lemma integral_lt_le (l r : Qc) :
  integral (r - l)%Qc -> Qc_leb l (r - 1)%Qc = Qc_ltb l r.
Proof.
  intros [z Hz]. apply this_eq in Hz.
  assert (K : (this (Z2Qc z) == inject_Z z)%Q).
  { unfold Z2Qc, Q2Qc. cbn [this]. apply Qred_correct. }
  rewrite K in Hz. unfold Qcminus in *. rewrite this_plus, this_opp in Hz.
  pose proof (this_plus r (- (1))%Qc) as P. rewrite this_opp in P.
  change (this 1%Qc) with 1%Q in P.
  apply Bool.eq_iff_eq_true. rewrite Qc_leb_spec, Qc_ltb_spec. split.
  - intros H. assert (Q1 : (inject_Z 1 <= inject_Z z)%Q).
    { change (inject_Z 1) with 1%Q. lra. }
    rewrite <- Zle_Qle in Q1.
    assert (Q2 : (inject_Z 0 < inject_Z z)%Q) by (rewrite <- Zlt_Qlt; lia).
    change (inject_Z 0) with 0%Q in Q2. lra.
  - intros H. assert (Q1 : (inject_Z 0 < inject_Z z)%Q).
    { change (inject_Z 0) with 0%Q. lra. }
    rewrite <- Zlt_Qlt in Q1.
    assert (Q2 : (inject_Z 1 <= inject_Z z)%Q) by (rewrite <- Zle_Qle; lia).
    change (inject_Z 1) with 1%Q in Q2. lra.
Qed.

Section ToReal.
Variable div_int : Z -> Z -> Z.
Variable div_real : Qc -> Qc -> Qc.

Local Notation "'aev'" := (aeval div_int div_real).
Local Notation "'csem'" := (coef_sem div_int div_real).
Local Notation "'lsem'" := (lhs_sem div_int div_real).
Local Notation "'holds_at'" := (ineq_holds div_int div_real).
Local Open Scope Qc_scope.

Lemma lhs_sem_app (e : env) (l1 l2 : list (FNode * Expr)) :
  lsem e (l1 ++ l2) = lsem e l1 + lsem e l2.
Proof.
  induction l1 as [|[k x] l1 IH]; cbn [app].
  - change (lsem e []) with 0. ring.
  - rewrite !lhs_sem_cons, IH. ring.
Qed.

Lemma lhs_to_real_ok (items : list (FNode * Expr)) :
  forall acc,
    NoDup (dict_keys items) ->
    (forall k, In k (dict_keys items) -> ~ In (ToReal k) (dict_keys acc)) ->
    Forall (fun kv => get_type (fst kv) = Some INT /\
                      expr_type (snd kv) = INT /\
                      NoDup (dict_keys (symb2coef (snd kv)))) items ->
    Forall (fun kv => has_type (get_type (fst kv)) REAL = true /\
                      expr_type (snd kv) = REAL) acc ->
    exists r,
      lhs_to_real items acc = Ok r /\
      (forall e, lsem e r = lsem e acc + lsem e items) /\
      Forall (fun kv => has_type (get_type (fst kv)) REAL = true /\
                        expr_type (snd kv) = REAL) r.
Proof.
  induction items as [|[k v] items IH]; intros acc Hn Hf Hi Ha;
    cbn [lhs_to_real].
  - exists acc. split; [reflexivity|]. split; [|exact Ha].
    intros e. change (lsem e []) with 0. ring.
  - cbn [dict_keys map fst] in Hn, Hf.
    inversion Hn as [|? ? Hk Hn']; subst.
    inversion Hi as [|? ? (Tk & Tv & Nv) Hi']; subst. cbn [fst snd] in *.
    rewrite Tk, Tv. cbn [has_type PySMTType_eqb rassert rbind].
    destruct (proj2 (get_real_value div_int div_real v) Tv Nv)
      as (v' & Ev & Tv' & Sv' & _ & _).
    rewrite Ev. cbn [rbind].
    assert (Fk : ~ In (ToReal k) (dict_keys acc)) by (apply Hf; now left).
    rewrite (dict_set_fresh acc (ToReal k) v' Fk).
    assert (Hf' : forall k2, In k2 (dict_keys items) ->
               ~ In (ToReal k2) (dict_keys (acc ++ [(ToReal k, v')]))).
    { intros k2 H2 K. unfold dict_keys in K. rewrite map_app in K.
      apply in_app_iff in K. destruct K as [K | [K | []]].
      - apply (Hf k2); [now right | exact K].
      - cbn [fst] in K. injection K as ->. contradiction. }
    assert (Ha' : Forall (fun kv => has_type (get_type (fst kv)) REAL = true /\
                                    expr_type (snd kv) = REAL)
                    (acc ++ [(ToReal k, v')])).
    { apply Forall_app. split; [exact Ha|]. constructor; [|constructor].
      cbn [fst snd get_type]. rewrite Tk. cbn [has_type PySMTType_eqb].
      auto. }
    destruct (IH (acc ++ [(ToReal k, v')]) Hn' Hf' Hi' Ha')
      as (r & Er & Sr & Fr).
    exists r. split; [exact Er|]. split; [|exact Fr].
    intros e. rewrite Sr, lhs_sem_app, !lhs_sem_cons, Sv'.
    change (lsem e []) with 0. change (aev e (ToReal k)) with (aev e k).
    ring.
Qed.

(** X16: [to_real] on an [Ineq] over the integers, with distinct
    keys: it returns an [Ineq] of real type with the same
    parameters; a strict inequality [lhs < rhs] becomes
    [lhs <= rhs - 1], any other relation is kept. The result holds
    in the states where the [Ineq] did, for a strict inequality in
    those where the difference of the two sides is an integer. The
    coefficient map of [rhs] is the [defaultdict] its constructor
    makes, where a missing key reads as 0. *)
Theorem to_real_equiv (i : Ineq) :
  expr_type (_rhs i) = INT ->
  NoDup (dict_keys (symb2coef (_rhs i))) ->
  NoDup (dict_keys (_lhs i)) ->
  Forall (fun kv => get_type (fst kv) = Some INT /\
                    expr_type (snd kv) = INT /\
                    NoDup (dict_keys (symb2coef (snd kv)))) (_lhs i) ->
  exists i',
    Ineq_to_real i = Ok i' /\
    _type i' = (if Ineq_is_lt i then Ineq_LE else _type i) /\
    expr_type (_rhs i') = REAL /\
    ineq_params i' = ineq_params i /\
    forall e,
      (Ineq_is_lt i = true ->
       integral (csem e (symb2coef (_rhs i)) - lsem e (_lhs i))) ->
      holds_at e i' = holds_at e i.
Proof.
  intros Tr Nr Nl Hl. unfold Ineq_to_real. rewrite Tr.
  cbn [PySMTType_eqb negb].
  destruct (lhs_to_real_ok (_lhs i) [] Nl) as (lhs' & El & Sl & Fl);
    [intros k _ [] | exact Hl | constructor |].
  assert (F1 : forallb (fun kv => has_type (get_type (fst kv)) REAL) lhs'
               = true).
  { apply forallb_forall. rewrite Forall_forall in Fl.
    intros kv H. apply (Fl kv H). }
  assert (F2 : forallb (fun kv => PySMTType_eqb (expr_type (snd kv)) REAL)
                 lhs' = true).
  { apply forallb_forall. rewrite Forall_forall in Fl.
    intros kv H. destruct (Fl kv H) as [_ ->]. reflexivity. }
  destruct (Ineq_is_lt i) eqn:Lt.
  - unfold plus_const. rewrite Tr.
    cbn [PySMTType_eqb is_pyint orb rassert rbind fst snd number_Z].
    set (rhs1 := mkExpr INT (coef_add (symb2coef (_rhs i)) (IntC 1)
                               (PInt (-1)))).
    destruct (proj2 (get_real_value div_int div_real rhs1) eq_refl)
      as (rhs' & Er & Tr' & Sr' & _ & _).
    { apply coef_add_NoDup. exact Nr. }
    rewrite Er. cbn [rbind]. rewrite El. cbn [rbind _rhs _lhs].
    rewrite Tr'. cbn [PySMTType_eqb rassert rbind]. rewrite F1, F2.
    cbn [rassert rbind].
    eexists. split; [reflexivity|]. cbn [_type _rhs _lhs ineq_params].
    repeat (split; [reflexivity || exact Tr'|]).
    intros e He. specialize (He eq_refl). unfold ineq_holds.
    cbn [_type _lhs _rhs]. unfold Ineq_is_lt in Lt.
    apply Z.eqb_eq in Lt. rewrite Lt. unfold rel_of.
    cbn [Z.eqb Ineq_LE Ineq_LT Ineq_EQ].
    rewrite Sl, Sr'. unfold rhs1. cbn [symb2coef].
    rewrite coef_add_sem. cbn [num_val aeval]. rewrite Z2Qc_m1, Z2Qc_1.
    change (lsem e []) with 0.
    replace (0 + lsem e (_lhs i)) with (lsem e (_lhs i)) by ring.
    replace (csem e (symb2coef (_rhs i)) + - (1) * 1)
      with (csem e (symb2coef (_rhs i)) - 1) by ring.
    now apply integral_lt_le.
  - cbn [rbind fst snd].
    destruct (proj2 (get_real_value div_int div_real (_rhs i)) Tr Nr)
      as (rhs' & Er & Tr' & Sr' & _ & _).
    rewrite Er. cbn [rbind]. rewrite El. cbn [rbind _rhs _lhs].
    rewrite Tr'. cbn [PySMTType_eqb rassert rbind]. rewrite F1, F2.
    cbn [rassert rbind].
    eexists. split; [reflexivity|]. cbn [_type _rhs _lhs ineq_params].
    repeat (split; [reflexivity || exact Tr'|]).
    intros e _. unfold ineq_holds. cbn [_type _lhs _rhs].
    rewrite Sl, Sr'. change (lsem e []) with 0.
    replace (0 + lsem e (_lhs i)) with (lsem e (_lhs i)) by ring.
    reflexivity.
Qed.
End ToReal.

Lemma to_real_equiv_witness :
  exists i',
    Ineq_to_real SampleIneq.lt_x_3 = Ok i' /\
    _type i' = (if Ineq_is_lt SampleIneq.lt_x_3 then Ineq_LE
                else _type SampleIneq.lt_x_3) /\
    expr_type (_rhs i') = REAL /\
    ineq_params i' = ineq_params SampleIneq.lt_x_3 /\
    forall e,
      (Ineq_is_lt SampleIneq.lt_x_3 = true ->
       integral (coef_sem Z.div Qcdiv e (symb2coef (_rhs SampleIneq.lt_x_3)) -
                 lhs_sem Z.div Qcdiv e (_lhs SampleIneq.lt_x_3))%Qc) ->
      ineq_holds Z.div Qcdiv e i' = ineq_holds Z.div Qcdiv e SampleIneq.lt_x_3.
Proof.
  apply (to_real_equiv Z.div Qcdiv SampleIneq.lt_x_3).
  - reflexivity.
  - repeat constructor. intros [].
  - repeat constructor. intros [].
  - repeat constructor. intros [].
Defined.

Example to_real_sample :
  rbind (Ineq_to_real SampleIneq.lt_x_3) (pysmt_ineq SampleTerm.key) =
  Ok (LE (ToReal Sample.x) (RealC (Z2Qc 2))).
Proof. vm_compute. reflexivity. Qed.

(** ** A ranked transition without a ranking function *)

Lemma get_trans_needs_rf (self : Location) (idx : Z)
    (lvals x_lvals symbs : list FNode) (st rk pr rd : FNode) :
  rf self = None -> is_false (rankT self) = false ->
  exists e, outcome (get_trans self idx lvals x_lvals symbs st rk pr rd)
            = Raise e.
Proof.
  intros Hrf Hrk. unfold get_trans.
  destruct (get_trans_pre_silent self symbs st rk pr rd) as [-> | ->];
    [|eexists; reflexivity].
  rewrite gbind_silent. unfold self_types. rewrite Hrk, Hrf. cbn [negb].
  rewrite gbind_assert. destruct (negb (is_false rk));
    eexists; reflexivity.
Qed.

Lemma gchain_raises (gs : list (Gen unit)) (g : Gen unit) :
  In g gs -> (exists e, outcome g = Raise e) ->
  exists e, outcome (gchain gs) = Raise e.
Proof.
  intros Hin Hg. induction gs as [|g0 gs IH]; [destruct Hin|].
  cbn [gchain]. rewrite outcome_gbind. destruct (outcome g0) as [u|e] eqn:E.
  - destruct Hin as [-> | Hin]; [|auto].
    destruct Hg as (e & Hg). congruence.
  - eauto.
Qed.

Lemma enumerate_from_In {A : Type} (l : list A) (a : A) :
  forall i, In a l -> exists j, In (j, a) (enumerate_from i l).
Proof.
  induction l as [|b l IH]; intros i H; [destruct H|].
  cbn [enumerate_from]. destruct H as [-> | H].
  - exists i. now left.
  - destruct (IH (i + 1) H) as (j & Hj). exists j. now right.
Qed.

(** X17: a hint one of whose locations has a ranked transition that is
    not FALSE and no ranking function is never compiled: every call
    of [get_trans_system] on it raises. *)
Theorem get_trans_system_needs_rf new_enum (active : FNode) (h : Hint)
    (loc : Location) :
  In loc (locs h) -> rf loc = None -> is_false (rankT loc) = false ->
  exists h' e, get_trans_system new_enum active h = (h', Raise e).
Proof.
  intros Hin Hrf Hrk.
  destruct (get_trans_system new_enum active h) as [h' [res|e]] eqn:E;
    [|eauto].
  exfalso.
  assert (Hl : locs h' = locs h).
  { destruct (keeps_get_trans_system new_enum active h) as [K _].
    now rewrite E in K. }
  apply get_trans_system_ok in E.
  destruct E as (ls & lv & tts & st & rk & pr & rd & extra
                 & _ & _ & _ & _ & Hbuild).
  unfold build_trans_system in Hbuild.
  destruct (last_of lv); [|discriminate]. cbn [rbind] in Hbuild.
  destruct (last_of _); [|discriminate]. cbn [rbind] in Hbuild.
  rewrite <- Hl in Hin.
  destruct (enumerate_from_In (locs h') loc 0 Hin) as (j & Hj).
  set (symbs0 := ls ++ tts ++ [active] ++ extra) in *.
  destruct (gchain_raises
              (map (fun p : Z * Location =>
                      get_trans (snd p) (fst p) lv (map (to_next symbs0) lv)
                        (all_symbs h' ++ symbs0) st rk pr rd)
                 (enumerate_from 0 (locs h')))
              (get_trans loc j lv (map (to_next symbs0) lv)
                 (all_symbs h' ++ symbs0) st rk pr rd)) as (e & He).
  - apply in_map_iff. exists (j, loc). split; [reflexivity | exact Hj].
  - now apply get_trans_needs_rf.
  - rewrite He in Hbuild. discriminate.
Qed.

Lemma get_trans_system_needs_rf_witness :
  exists h' e,
    get_trans_system one_hot_enum Sample.active
      (with_locs Sample.hint_x [SampleHint.loc_no_rf]) = (h', Raise e).
Proof.
  apply (get_trans_system_needs_rf one_hot_enum Sample.active
           (with_locs Sample.hint_x [SampleHint.loc_no_rf])
           SampleHint.loc_no_rf).
  - left. reflexivity.
  - reflexivity.
  - reflexivity.
Defined.
